(** * watchlist-playtime: the merge toy and the batched watchlist dumper

    A shallow embedding of [merge.py] (class [MergeAdd]) and of the
    orchestration code of [dump_merge_watchlist_mlr.py] (classes
    [MergeAdder], [QueryRunner] and [WatchlistDumper]), followed by the
    properties of the design document that concern them.

    Conventions.
    - A Python [str] is a [string]; its characters are the bytes of its
      UTF-8 encoding, whose lexicographic order is the code point order
      that Python's [<] on [str] uses.
    - A Python [int] is a [Z].
    - A raised exception is a value of [exn]; code that may raise returns
      a [result].
    - A text file open for reading is the list of its lines without their
      terminators; a file open for writing is the list of the lines
      written to it. *)

From Stdlib Require Import ZArith String Ascii List Bool Lia.
From Stdlib Require Import DecimalString OrderedTypeEx Sorted Permutation.
Import ListNotations.

(* ================================================================== *)
(** * Python primitives used by the two scripts *)
(* ================================================================== *)

Module Py.

#[local] Open Scope string_scope.

(** What [whine] was called about before it exits the process. *)
Inductive whine_reason : Type :=
| FieldCountMismatch (one two : nat)
    (* "Lines in files with differing number of fields {one}, {two}" *)
| NonNumericSumField (one two : string).
    (* "Bad line in files, trying to add {one}, {two}" *)

(** The exceptions the merge code can raise. [SystemExit] is what
    [whine] ends in ([sys.exit(1)]) after writing its message. *)
Inductive exn : Type :=
| IndexError
| ValueError
| SystemExit (why : whine_reason).

Inductive result (A : Type) : Type :=
| Ok (a : A)
| Raise (e : exn).

Arguments Ok {A} a.
Arguments Raise {A} e.

Definition bind {A B : Type} (r : result A) (k : A -> result B) : result B :=
  match r with
  | Ok a => k a
  | Raise e => Raise e
  end.

Notation "x <- r ;; k" := (bind r (fun x => k))
  (at level 61, r at next level, right associativity).

(** [whine(message)]: write to stderr and [sys.exit(1)]. *)
Definition whine {A : Type} (why : whine_reason) : result A :=
  Raise (SystemExit why).

(** [fields[index]] for a non negative index. *)
Definition getitem (fields : list string) (index : nat) : result string :=
  match nth_error fields index with
  | Some x => Ok x
  | None => Raise IndexError
  end.

(** [fields[index] = value], for an index already known to be in range
    (out of range the list is left as it is; Python would raise). *)
Fixpoint setitem (fields : list string) (index : nat) (value : string)
  : list string :=
  match fields, index with
  | [], _ => []
  | _ :: rest, O => value :: rest
  | x :: rest, S i => x :: setitem rest i value
  end.

Definition tab : ascii := "009"%char.

(** [s.split(sep)] for a one character separator: never empty, and
    [''.split(sep) == ['']]. *)
Fixpoint split (sep : ascii) (s : string) : list string :=
  match s with
  | EmptyString => [EmptyString]
  | String c s' =>
      if Ascii.eqb c sep then EmptyString :: split sep s'
      else match split sep s' with
           | first :: others => String c first :: others
           | [] => [String c EmptyString]
           end
  end.

(** [sep.join(fields)]. *)
Definition join (sep : string) (fields : list string) : string :=
  String.concat sep fields.

(** The characters [int()] strips around a number, among the ASCII ones. *)
Definition is_space (c : ascii) : bool :=
  let n := nat_of_ascii c in
  ((9 <=? n) && (n <=? 13) || (28 <=? n) && (n <=? 32))%nat.

Definition is_digit (c : ascii) : bool :=
  let n := nat_of_ascii c in ((48 <=? n) && (n <=? 57))%nat.

Definition digit_value (c : ascii) : Z := Z.of_nat (nat_of_ascii c) - 48.

Fixpoint lstrip (l : list ascii) : list ascii :=
  match l with
  | c :: rest => if is_space c then lstrip rest else l
  | [] => []
  end.

Definition strip (l : list ascii) : list ascii :=
  rev (lstrip (rev (lstrip l))).

(** Decimal digits, with single underscores allowed between two digits. *)
Fixpoint digits (acc : Z) (after_digit : bool) (l : list ascii) : option Z :=
  match l with
  | [] => if after_digit then Some acc else None
  | c :: rest =>
      if is_digit c then digits (10 * acc + digit_value c) true rest
      else if Ascii.eqb c "_"%char then
             if after_digit then digits acc false rest else None
           else None
  end.

(** [int(s)] for a string: surrounding whitespace, an optional sign and
    decimal digits; [None] stands for [ValueError].  Digits and
    whitespace outside ASCII, which Python also accepts, are not
    modelled, nor is the bound recent versions of Python put on the
    number of digits: neither occurs in the files the scripts
    exchange. *)
Definition parse_int (s : string) : option Z :=
  match strip (list_ascii_of_string s) with
  | "+"%char :: rest => digits 0 false rest
  | "-"%char :: rest => option_map Z.opp (digits 0 false rest)
  | l => digits 0 false l
  end.

Definition int (s : string) : result Z :=
  match parse_int s with
  | Some z => Ok z
  | None => Raise ValueError
  end.

(** [str(n)] for an int. *)
Definition str (n : Z) : string := NilZero.string_of_int (Z.to_int n).

(** [s.isdigit()], on ASCII. *)
Definition isdigit (s : string) : bool :=
  match s with
  | EmptyString => false
  | _ => forallb is_digit (list_ascii_of_string s)
  end.

(** [a < b] and [a > b] on [str]. *)
Definition str_lt (a b : string) : bool :=
  match String.compare a b with Lt => true | _ => false end.

Definition str_gt (a b : string) : bool :=
  match String.compare a b with Gt => true | _ => false end.

(** A file open for reading: the lines still to be read. *)
Definition file : Type := list string.

(** [handle.readline().rstrip('\n')]: the next line without its
    terminator, or [''] at end of file. *)
Definition readline_rstrip (handle : file) : string * file :=
  match handle with
  | [] => (EmptyString, [])
  | line :: rest => (line, rest)
  end.

End Py.

(* ================================================================== *)
(** * merge.py: class MergeAdd *)
(* ================================================================== *)

Module Merge.

Import Py.
#[local] Open Scope string_scope.
#[local] Open Scope Z_scope.

(** The attributes of a [MergeAdd] object, after [safe_assign].  Field
    numbers are non negative: [validate_args] accepts digits only. *)
Record MergeAdd : Type := {
  intkeys : list nat;
  strkeys : list nat;
  sums : list nat
}.

Definition fields : Type := list string.

(** The first loop of [compare_fields]: [Some r] when the loop returns
    [r], [None] when it runs to its end. *)
Fixpoint compare_intkeys (keys : list nat) (one_fields two_fields : fields)
  : result (option Z) :=
  match keys with
  | [] => Ok None
  | index :: keys' =>
      x <- getitem one_fields index ;;
      a <- int x ;;
      y <- getitem two_fields index ;;
      b <- int y ;;
      if a <? b then Ok (Some (-1))
      else if a >? b then Ok (Some 1)
      else compare_intkeys keys' one_fields two_fields
  end.

(** The second loop of [compare_fields]. *)
Fixpoint compare_strkeys (keys : list nat) (one_fields two_fields : fields)
  : result (option Z) :=
  match keys with
  | [] => Ok None
  | index :: keys' =>
      x <- getitem one_fields index ;;
      y <- getitem two_fields index ;;
      if str_lt x y then Ok (Some (-1))
      else if str_gt x y then Ok (Some 1)
      else compare_strkeys keys' one_fields two_fields
  end.

Definition compare_fields (self : MergeAdd) (one_fields two_fields : fields)
  : result Z :=
  r <- compare_intkeys (intkeys self) one_fields two_fields ;;
  match r with
  | Some c => Ok c
  | None =>
      r <- compare_strkeys (strkeys self) one_fields two_fields ;;
      match r with
      | Some c => Ok c
      | None =>
          if (length two_fields <? length one_fields)%nat then Ok 1
          else if (length one_fields <? length two_fields)%nat then Ok (-1)
          else Ok 0
      end
  end.

(** The [except ValueError] branch of [sum_fields]. *)
Definition bad_line {A : Type} (infields to_add_fields : fields) (index : nat)
  : result A :=
  one <- getitem infields index ;;
  two <- getitem to_add_fields index ;;
  whine (NonNumericSumField one two).

(** The loop of [sum_fields] over [self.sums]. *)
Fixpoint sum_loop (indexes : list nat) (infields to_add_fields : fields)
  : result fields :=
  match indexes with
  | [] => Ok infields
  | index :: indexes' =>
      x <- getitem infields index ;;
      match parse_int x with
      | None => bad_line infields to_add_fields index
      | Some a =>
          y <- getitem to_add_fields index ;;
          match parse_int y with
          | None => bad_line infields to_add_fields index
          | Some b =>
              sum_loop indexes' (setitem infields index (str (a + b)))
                       to_add_fields
          end
      end
  end.

Definition sum_fields (self : MergeAdd) (infields to_add_fields : fields)
  : result fields :=
  if negb (length infields =? length to_add_fields)%nat then
    whine (FieldCountMismatch (length infields) (length to_add_fields))
  else sum_loop (sums self) infields to_add_fields.

(** What [do_merge] leaves behind: the lines written to [output], and
    whether it returned or raised. *)
Definition outcome : Type := (list string * result unit)%type.

Definition emit (line : string) (rest : outcome) : outcome :=
  (line :: fst rest, snd rest).

(** ['\t'.join(fields)]. *)
Definition join_tab (current : fields) : string :=
  join (String tab EmptyString) current.

Definition read_fields (handle : file) : fields * file :=
  let (line, rest) := readline_rstrip handle in (split tab line, rest).

Definition at_end (current : fields) : bool :=
  match current with
  | [EmptyString] => true
  | _ => false
  end.

(** One of the two final loops of [do_merge]:
    [while line: output.write(line + '\n'); line = handle.readline().rstrip('\n')]. *)
Fixpoint drain (line : string) (handle : file) : list string :=
  match line with
  | EmptyString => []
  | _ => line :: match handle with
                 | [] => []
                 | next :: rest => drain next rest
                 end
  end.

(** The code of [do_merge] after its main loop. *)
Definition drain_both (have_fields : fields) (have : file)
  (to_merge_fields : fields) (to_merge : file) : outcome :=
  ((drain (join_tab have_fields) have
    ++ drain (join_tab to_merge_fields) to_merge)%list,
   Ok tt).

(** The main loop of [do_merge] followed by the two final loops.  Each
    turn reads a line of one of the two files, so the recursion is on
    the lines left in [have], then on those left in [to_merge]; a read
    at end of file yields [['']], which ends the loop. *)
Fixpoint merge_loop (self : MergeAdd) (have : file)
  : fields -> fields -> file -> outcome :=
  fix on_to_merge (have_fields to_merge_fields : fields) (to_merge : file)
    {struct to_merge} : outcome :=
    if at_end have_fields || at_end to_merge_fields then
      drain_both have_fields have to_merge_fields to_merge
    else
      match compare_fields self have_fields to_merge_fields with
      | Raise e => ([], Raise e)
      | Ok result =>
          if result =? 0 then
            match sum_fields self have_fields to_merge_fields with
            | Raise e => ([], Raise e)
            | Ok have_fields' =>
                match to_merge with
                | [] => drain_both have_fields' have [EmptyString] []
                | line :: to_merge' =>
                    on_to_merge have_fields' (split tab line) to_merge'
                end
            end
          else if result <? 0 then
            emit (join_tab have_fields)
              match have with
              | [] => drain_both [EmptyString] [] to_merge_fields to_merge
              | line :: have' =>
                  merge_loop self have' (split tab line) to_merge_fields to_merge
              end
          else
            emit (join_tab to_merge_fields)
              match to_merge with
              | [] => drain_both have_fields have [EmptyString] []
              | line :: to_merge' =>
                  on_to_merge have_fields (split tab line) to_merge'
              end
      end.

Definition do_merge (self : MergeAdd) (have to_merge : file) : outcome :=
  let (have_fields, have') := read_fields have in
  let (to_merge_fields, to_merge') := read_fields to_merge in
  merge_loop self have' have_fields to_merge_fields to_merge'.

End Merge.

(* ================================================================== *)
(** * dump_merge_watchlist_mlr.py: MergeAdder, QueryRunner, WatchlistDumper *)
(* ================================================================== *)

Module Dump.

Import Py.
#[local] Open Scope string_scope.
#[local] Open Scope Z_scope.

(** The SQL the script builds. *)
Inductive query : Type :=
| MaxOf (fieldname tablename : string)
    (* "select MAX({field}) from {table};" *)
| WatchlistRows (start stop : Z).
    (* "'select wl_namespace, wl_title, COUNT( * )  FROM watchlist WHERE
        wl_id >= {start} AND wl_id < {end} GROUP BY wl_namespace, wl_title
        ORDER BY wl_namespace, wl_title ASC'" *)

Definition query_text (q : query) : string :=
  match q with
  | MaxOf fieldname tablename =>
      "select MAX(" ++ fieldname ++ ") from " ++ tablename ++ ";"
  | WatchlistRows start stop =>
      "'select wl_namespace, wl_title, COUNT(*)  FROM watchlist WHERE "
      ++ "wl_id >= " ++ str start ++ " AND wl_id < " ++ str stop
      ++ " GROUP BY wl_namespace, wl_title "
      ++ "ORDER BY wl_namespace, wl_title ASC'"
  end.

(** The shell commands handed to [run_without_output], by what they are
    built from: [do_one_query] pipes the query of
    [dbserver.build_sql_command] through gzip into [outpath];
    [MergeAdder.merge] pipes [sort -m] of its two inputs through
    [mlr stats1] and gzip into [merged_path]. *)
Inductive command : Type :=
| SqlDump (q : query) (outpath : string)
| SortMerge (merge_into to_merge merged_path : string).

(** What the script prints. *)
Inductive message : Type :=
| WouldRunCommand (c : command)      (* "would run command:" *)
| WouldRun (c : command)             (* "Would run:" *)
| Running (c : command)              (* "Running" *)
| CommandToBeRun (c : command)       (* "command to be run with no output: " *)
| MaxWatchlistId (maxid : Z)         (* "Max watchlist id:" *)
| FailedToGetMaxId                   (* "Failed to get max watchlist id, bailing!" *)
| StartingBatch (startrow : Z)       (* "starting dump-merge batch with row" *)
| MergingBatchResults                (* "merging results of dump-merge batch" *)
| OutputWouldBeMoved (src dst : string)
| OutputAvailable (path : string).

(** What the script does to the world around it, in order. *)
Inductive event : Type :=
| RunSql (q : query)                 (* dbserver.run_sql_and_get_output *)
| RunCommand (c : command)           (* Popen in run_without_output *)
| CreateEmptyFile (path : string)    (* gzip.open(path, "wt").close() *)
| Move (src dst : string)            (* shutil.move *)
| Unlink (path : string)             (* os.unlink *)
| Print (m : message).

(** How a piece of the script ends. *)
Inductive ending (A : Type) : Type :=
| Returned (a : A)
| Exited (status : Z)                (* sys.exit *)
| Raised (e : exn)
| OutOfFuel.

Arguments Returned {A} a.
Arguments Exited {A} status.
Arguments Raised {A} e.
Arguments OutOfFuel {A}.

Definition run (A : Type) : Type := (list event * ending A)%type.

Definition ret {A : Type} (a : A) : run A := ([], Returned a).

Definition tell (e : event) : run unit := ([e], Returned tt).

Definition when (b : bool) (r : run unit) : run unit :=
  if b then r else ret tt.

Definition then_ {A B : Type} (r : run A) (k : A -> run B) : run B :=
  match snd r with
  | Returned a => let r' := k a in ((fst r ++ fst r')%list, snd r')
  | Exited status => (fst r, Exited status)
  | Raised e => (fst r, Raised e)
  | OutOfFuel => (fst r, OutOfFuel)
  end.

Notation "x <-- r ;; k" := (then_ r (fun x => k))
  (at level 61, r at next level, right associativity).
Notation "r ;;; k" := (then_ r (fun _ => k))
  (at level 61, right associativity).

(** [os.path.join(a, b)] for two components. *)
Definition path_join (a b : string) : string :=
  match b with
  | String "/" _ => b
  | _ =>
      match a with
      | EmptyString => b
      | _ => if String.eqb (substring (String.length a - 1) 1 a) "/"
             then a ++ b else a ++ "/" ++ b
      end
  end.

(** [run_without_output], when the command succeeds at its first try
    (return code 0): the failing tries, their delay and the final
    [BackupError] are left out here; [Retry] and [Tried] have them. *)
Definition run_without_output (c : command) (verbose : bool) : run unit :=
  when verbose (tell (Print (CommandToBeRun c))) ;;;
  tell (RunCommand c).

(** [MergeAdder.create_empty_file]. *)
Definition create_empty_file (path : string) : run unit :=
  tell (CreateEmptyFile path).

(** [MergeAdder.merge]. *)
Definition merge (merge_into to_merge merged_path : string)
  (verbose dryrun : bool) : run unit :=
  let c := SortMerge merge_into to_merge merged_path in
  if dryrun then tell (Print (WouldRunCommand c))
  else run_without_output c verbose.

(** [QueryRunner.do_one_query]. *)
Definition do_one_query (q : query) (outpath : string)
  (verbose dryrun : bool) : run unit :=
  let c := SqlDump q outpath in
  if dryrun then tell (Print (WouldRun c))
  else
    when verbose (tell (Print (Running c))) ;;;
    run_without_output c verbose.

(** [QueryRunner.get_max_id].  [results] is what
    [dbserver.run_sql_and_get_output] answers, cut in lines by
    [splitlines]; [None] when the answer is [None] or empty. *)
Definition get_max_id (results : option (list string))
  (fieldname tablename : string) : run (option Z) :=
  tell (RunSql (MaxOf fieldname tablename)) ;;;
  match results with
  | Some ((_ :: _) as lines) =>
      match nth_error lines 1 with
      | None => ([], Raised IndexError)
      | Some EmptyString => ret None
      | Some line =>
          if negb (isdigit line) then ret None
          else match parse_int line with
               | Some n => ret (Some n)
               | None => ([], Raised ValueError)
               end
      end
  | _ => ret None
  end.

(** The attributes of a [WatchlistDumper] that its methods read;
    [batchsize] is the value of [int(self.batchsize)]. *)
Record WatchlistDumper : Type := {
  outdir : string;
  db_name : string;          (* self.wiki.db_name *)
  batchsize : Z
}.

(** The [while] loop of [dump_merge_batch]; it returns [startrow] as
    the loop leaves it.  [index] grows by one each turn, so
    [count - index] turns are enough: [fuel] is that many. *)
Fixpoint batch_loop (self : WatchlistDumper) (fuel : nat)
  (count maxid : Z) (merge_into_path dumped_path : string)
  (verbose dryrun : bool) (startrow index : Z) : run Z :=
  match fuel with
  | O => ret startrow
  | S fuel' =>
      if (startrow <? maxid) && (index <? count) then
        let stop := startrow + batchsize self in
        do_one_query (WatchlistRows startrow stop) dumped_path verbose dryrun ;;;
        let merged_path :=
          path_join (outdir self) (db_name self ++ "-watchlist-merged.gz") in
        merge merge_into_path dumped_path merged_path verbose dryrun ;;;
        when (negb dryrun) (tell (Move merged_path merge_into_path)) ;;;
        batch_loop self fuel' count maxid merge_into_path dumped_path
                   verbose dryrun stop (index + 1)
      else ret startrow
  end.

(** [WatchlistDumper.dump_merge_batch]; [None] is Python's [None]. *)
Definition dump_merge_batch (self : WatchlistDumper)
  (count startrow maxid : Z) (merge_into_path : string)
  (verbose dryrun : bool) : run (option Z) :=
  let index := 1 in
  when (negb dryrun) (create_empty_file merge_into_path) ;;;
  let dumped_path :=
    path_join (outdir self) (db_name self ++ "-watchlist-dumped.gz") in
  if (startrow >=? maxid) || (index >=? count) then ret None
  else
    startrow' <-- batch_loop self (Z.to_nat (count - index)) count maxid
                    merge_into_path dumped_path verbose dryrun startrow index ;;
    when (negb dryrun) (tell (Unlink dumped_path)) ;;;
    ret (Some startrow').

(** Truth value of [startrow], an int or [None]. *)
Definition truthy (v : option Z) : bool :=
  match v with
  | Some n => negb (n =? 0)
  | None => false
  end.

(** The [while] loop of [dump_watchlist].  Nothing bounds its turns when
    the batch does not advance, so it is cut after [fuel] turns. *)
Fixpoint watchlist_loop (self : WatchlistDumper) (fuel : nat)
  (file_batch_count maxid : Z)
  (all_merge_into_path batch_merge_into_path batch_merged_path : string)
  (verbose dryrun : bool) (startrow : option Z) : run unit :=
  match startrow with
  | Some row =>
      if truthy startrow && (row <? maxid) then
        match fuel with
        | O => ([], OutOfFuel)
        | S fuel' =>
            when verbose (tell (Print (StartingBatch row))) ;;;
            startrow' <-- dump_merge_batch self file_batch_count row maxid
                            batch_merge_into_path verbose dryrun ;;
            when (truthy startrow')
              (when verbose (tell (Print MergingBatchResults)) ;;;
               merge all_merge_into_path batch_merge_into_path
                     batch_merged_path verbose dryrun ;;;
               when (negb dryrun)
                 (tell (Move batch_merged_path all_merge_into_path))) ;;;
            watchlist_loop self fuel' file_batch_count maxid
              all_merge_into_path batch_merge_into_path batch_merged_path
              verbose dryrun startrow'
        end
      else ret tt
  | None => ret tt
  end.

(** [WatchlistDumper.dump_watchlist]; [results] is the answer of the
    data base to the query of [get_max_id]. *)
Definition dump_watchlist (self : WatchlistDumper) (fuel : nat)
  (results : option (list string)) (file_batch_count : Z)
  (out_path : string) (verbose dryrun : bool) : run unit :=
  maxid <-- get_max_id results "wl_id" "watchlist" ;;
  match maxid with
  | Some maxid' =>
      if maxid' =? 0 then
        tell (Print FailedToGetMaxId) ;;; ([], Exited 1)
      else
        when (verbose || dryrun) (tell (Print (MaxWatchlistId maxid'))) ;;;
        let all_merge_into_path :=
          path_join (outdir self) (db_name self ++ "-mergeinto-all.gz") in
        when (negb dryrun) (create_empty_file all_merge_into_path) ;;;
        let batch_merged_path :=
          path_join (outdir self) (db_name self ++ "-watchlist-merged.gz") in
        let batch_merge_into_path :=
          path_join (outdir self) (db_name self ++ "-batch-mergeinto.gz") in
        watchlist_loop self fuel file_batch_count maxid'
          all_merge_into_path batch_merge_into_path batch_merged_path
          verbose dryrun (Some 1) ;;;
        if dryrun then
          tell (Print (OutputWouldBeMoved all_merge_into_path out_path))
        else
          tell (Move all_merge_into_path out_path) ;;;
          when verbose (tell (Print (OutputAvailable out_path)))
  | None => tell (Print FailedToGetMaxId) ;;; ([], Exited 1)
  end.

End Dump.

(* ================================================================== *)
(** * Notions used to state the properties *)
(* ================================================================== *)

Import Py.
Import Merge.

(** No character of [s] is [sep]. *)
Fixpoint free_of (sep : ascii) (s : string) : Prop :=
  match s with
  | EmptyString => True
  | String c s' => c <> sep /\ free_of sep s'
  end.

(** Both loops of [compare_fields] are the same loop over a key read
    from each record; [key_loop] is that loop. *)
Fixpoint key_loop (K : Type) (key : fields -> nat -> result K)
  (lt gt : K -> K -> bool) (keys : list nat) (one two : fields)
  : result (option Z) :=
  match keys with
  | [] => Ok None
  | index :: keys' =>
      x <- key one index ;;
      y <- key two index ;;
      if lt x y then Ok (Some (-1)%Z)
      else if gt x y then Ok (Some 1%Z)
      else key_loop K key lt gt keys' one two
  end.

(** The value [compare_fields] reads for an integer key. *)
Definition int_key (record : fields) (index : nat) : result Z :=
  x <- getitem record index ;; int x.

Definition int_loop := key_loop Z int_key Z.ltb Z.gtb.
Definition str_loop := key_loop string getitem str_lt str_gt.

(** Two records that [compare_fields] cannot tell apart: the same
    key values, read or not, and the same number of fields. *)
Definition same_view (self : MergeAdd) (one one' : fields) : Prop :=
  (forall i, In i (intkeys self) -> int_key one i = int_key one' i) /\
  (forall i, In i (strkeys self) -> getitem one i = getitem one' i) /\
  length one = length one'.

(** [one] is not after [two] for [compare_fields]. *)
Definition le (self : MergeAdd) (one two : fields) : Prop :=
  compare_fields self one two = Ok (-1)%Z \/ compare_fields self one two = Ok 0%Z.

(** No summed field is a key field. *)
Definition sums_apart (self : MergeAdd) : Prop :=
  forall i, In i (sums self) -> ~ In i (intkeys self ++ strkeys self).

(** [one] is strictly before [two] for [compare_fields]. *)
Definition before (self : MergeAdd) (one two : fields) : Prop :=
  compare_fields self one two = Ok (-1)%Z.

(** The records of a file, one per line. *)
Definition records (handle : file) : list fields := map (split tab) handle.

(** A file whose successive records are in the order of
    [compare_fields]: a sorted run. *)
Definition sorted_run (self : MergeAdd) (handle : file) : Prop :=
  Sorted (le self) (records handle).

(** A sorted run without two successive records that compare equal. *)
Definition strict_run (self : MergeAdd) (handle : file) : Prop :=
  Sorted (before self) (records handle).

Definition no_empty_line (handle : file) : Prop :=
  Forall (fun line => line <> EmptyString) handle.

(** ** The merge of the design document

    Modelled on the words of the design document (section 4.3), to be
    compared with [do_merge]: read one record from each input; while
    neither is exhausted, if [compare(a, b) == 0] emit [sum(a, b)] and
    advance BOTH inputs, else if [compare(a, b) < 0] emit [a] and advance
    A, else emit [b] and advance B; then drain the input that is left.
    Reading, the end mark and draining are those of [do_merge]. *)
Fixpoint advance_both_loop (self : MergeAdd) (have : file)
  : fields -> fields -> file -> outcome :=
  fix on_to_merge (have_fields to_merge_fields : fields) (to_merge : file)
    {struct to_merge} : outcome :=
    if at_end have_fields || at_end to_merge_fields then
      drain_both have_fields have to_merge_fields to_merge
    else
      match compare_fields self have_fields to_merge_fields with
      | Raise e => ([], Raise e)
      | Ok result =>
          if (result =? 0)%Z then
            match sum_fields self have_fields to_merge_fields with
            | Raise e => ([], Raise e)
            | Ok summed =>
                emit (join_tab summed)
                  match have, to_merge with
                  | [], [] =>
                      drain_both [EmptyString] [] [EmptyString] []
                  | [], line :: to_merge' =>
                      drain_both [EmptyString] [] (split tab line) to_merge'
                  | line :: have', [] =>
                      drain_both (split tab line) have' [EmptyString] []
                  | line :: have', line' :: to_merge' =>
                      advance_both_loop self have' (split tab line)
                        (split tab line') to_merge'
                  end
            end
          else if (result <? 0)%Z then
            emit (join_tab have_fields)
              match have with
              | [] => drain_both [EmptyString] [] to_merge_fields to_merge
              | line :: have' =>
                  advance_both_loop self have' (split tab line)
                    to_merge_fields to_merge
              end
          else
            emit (join_tab to_merge_fields)
              match to_merge with
              | [] => drain_both have_fields have [EmptyString] []
              | line :: to_merge' =>
                  on_to_merge have_fields (split tab line) to_merge'
              end
      end.

Definition advance_both_merge (self : MergeAdd) (have to_merge : file)
  : outcome :=
  let (have_fields, have') := read_fields have in
  let (to_merge_fields, to_merge') := read_fields to_merge in
  advance_both_loop self have' have_fields to_merge_fields to_merge'.

(** ** The total order of the design document

    Modelled on the words of the design document (section 3), to be
    compared with [compare_fields]: records are ordered first by the
    integer keys, in listed order, as numbers; then by the string keys,
    in listed order, as strings; then by their number of fields. *)
Definition int_value (record : fields) (index : nat) : Z :=
  match parse_int (nth index record EmptyString) with
  | Some n => n
  | None => 0%Z
  end.

Definition str_value (record : fields) (index : nat) : string :=
  nth index record EmptyString.

Fixpoint lexicographic (K : Type) (cmp : K -> K -> comparison)
  (one two : list K) : comparison :=
  match one, two with
  | [], [] => Eq
  | [], _ :: _ => Lt
  | _ :: _, [] => Gt
  | x :: one', y :: two' =>
      match cmp x y with
      | Eq => lexicographic K cmp one' two'
      | c => c
      end
  end.

Definition total_order (self : MergeAdd) (one two : fields) : comparison :=
  match lexicographic Z Z.compare (map (int_value one) (intkeys self))
                      (map (int_value two) (intkeys self)) with
  | Eq =>
      match lexicographic string String.compare
                          (map (str_value one) (strkeys self))
                          (map (str_value two) (strkeys self)) with
      | Eq => Nat.compare (length one) (length two)
      | c => c
      end
  | c => c
  end.

Definition sign (c : comparison) : Z :=
  match c with
  | Lt => (-1)%Z
  | Eq => 0%Z
  | Gt => 1%Z
  end.

(** The key positions of a record are present and its integer keys are
    integers. *)
Definition well_keyed (self : MergeAdd) (record : fields) : Prop :=
  (forall i, In i (intkeys self ++ strkeys self) -> (i < length record)%nat) /\
  (forall i, In i (intkeys self) ->
     exists n, parse_int (nth i record EmptyString) = Some n).

(** The lines an input still has to give when [current] is the record
    read from it last and [handle] holds no empty line: none once the
    end mark is read. *)
Definition pending (current : fields) (handle : file) : list string :=
  if at_end current then [] else join_tab current :: handle.

Definition pending_records (current : fields) (handle : file) : list fields :=
  if at_end current then [] else current :: records handle.

(** ** Data of the scenarios of the design document *)

(** Field roles [intKeys=[0]], [strKeys=[1]], [sumFields=[2]]. *)
Definition scenario_roles : MergeAdd :=
  {| intkeys := [0%nat]; strkeys := [1%nat]; sums := [2%nat] |}.

(** The line of a record [(key, title, count)]. *)
Definition row (key title count : string) : string :=
  join_tab [key; title; count].

(** ** Reading the trace of the dumper *)

Import Dump.

(** The id range of the partition an event fetches, or announces in a
    dry run. *)
Definition partition_of (e : event) : list (Z * Z) :=
  match e with
  | RunCommand (SqlDump (WatchlistRows start stop) _) => [(start, stop)]
  | Print (WouldRun (SqlDump (WatchlistRows start stop) _)) => [(start, stop)]
  | _ => []
  end.

Definition partitions (trace : list event) : list (Z * Z) :=
  flat_map partition_of trace.

(** The [k] successive ranges of width [span] from [startrow] on. *)
Definition spans (startrow span : Z) (k : nat) : list (Z * Z) :=
  map (fun i => ((startrow + Z.of_nat i * span)%Z,
                 (startrow + (Z.of_nat i + 1) * span)%Z))
      (seq 0 k).

(** Events that create, change or remove a file: every command ends in
    [gzip > path]. *)
Definition changes_files (e : event) : bool :=
  match e with
  | RunCommand _ | CreateEmptyFile _ | Move _ _ | Unlink _ => true
  | RunSql _ | Print _ => false
  end.

(** Events that send a query to the data base. *)
Definition queries_database (e : event) : bool :=
  match e with
  | RunSql _ | RunCommand (SqlDump _ _) => true
  | _ => false
  end.

Definition is_print (e : event) : bool :=
  match e with
  | Print _ => true
  | _ => false
  end.

(** The commands a dry run says it would run. *)
Definition planned_by (e : event) : list command :=
  match e with
  | Print (WouldRun c) | Print (WouldRunCommand c) => [c]
  | _ => []
  end.

Definition plan (trace : list event) : list command :=
  flat_map planned_by trace.

(** The commands a run runs. *)
Definition run_by (e : event) : list command :=
  match e with
  | RunCommand c => [c]
  | _ => []
  end.

Definition commands (trace : list event) : list command :=
  flat_map run_by trace.

(** A dry run of a piece of the script beside its real run: the same
    ending, nothing but printing, and for plan the commands of the
    real run. *)
Definition mirrors (A : Type) (dry real : run A) : Prop :=
  snd dry = snd real /\
  Forall (fun e => is_print e = true) (fst dry) /\
  plan (fst dry) = commands (fst real).

(** A dumper of the wiki "w" with partitions of 1000 rows. *)
Definition scenario_dumper : WatchlistDumper :=
  {| outdir := "/tmp"; db_name := "w"; batchsize := 1000 |}.

(* ================================================================== *)
(** * Further notions: what the merge keeps *)
(* ================================================================== *)

From Stdlib Require DecimalZ.

(** The number a decimal numeral stands for, read digit by digit after
    the digits already read that stand for [acc]. *)
Fixpoint uint_value (acc : Z) (d : Decimal.uint) : Z :=
  match d with
  | Decimal.Nil => acc
  | Decimal.D0 l => uint_value (10 * acc + 0)%Z l
  | Decimal.D1 l => uint_value (10 * acc + 1)%Z l
  | Decimal.D2 l => uint_value (10 * acc + 2)%Z l
  | Decimal.D3 l => uint_value (10 * acc + 3)%Z l
  | Decimal.D4 l => uint_value (10 * acc + 4)%Z l
  | Decimal.D5 l => uint_value (10 * acc + 5)%Z l
  | Decimal.D6 l => uint_value (10 * acc + 6)%Z l
  | Decimal.D7 l => uint_value (10 * acc + 7)%Z l
  | Decimal.D8 l => uint_value (10 * acc + 8)%Z l
  | Decimal.D9 l => uint_value (10 * acc + 9)%Z l
  end.

(** The summed positions of a record are present and hold integers. *)
Definition summable (self : MergeAdd) (record : fields) : Prop :=
  forall i, In i (sums self) -> exists n, int_key record i = Ok n.

(** The total of the field at [index] over the lines of a file, a
    field that is missing or not an integer counting for 0. *)
Definition field_total (index : nat) (lines : list string) : Z :=
  fold_right (fun line total => (int_value (split tab line) index + total)%Z)
             0%Z lines.

(** Two records with the same fields outside the summed positions. *)
Definition same_but_sums (self : MergeAdd) (one two : fields) : Prop :=
  length one = length two /\
  forall i, ~ In i (sums self) -> nth_error one i = nth_error two i.


(** A record [do_merge] can both compare and sum: its key positions
    and its summed positions are present, and its integer keys and
    summed fields are integers. *)
Definition fit (self : MergeAdd) (record : fields) : Prop :=
  well_keyed self record /\ summable self record.

(** Facts about the records of a file that [sum_fields] keeps. *)
Definition kept_by_sum (self : MergeAdd) (P : fields -> Prop) : Prop :=
  forall infields to_add_fields result,
    P infields -> P to_add_fields ->
    sum_fields self infields to_add_fields = Ok result -> P result.

(* ================================================================== *)
(** * merge.py: the command line and [do_main] *)
(* ================================================================== *)

Module MergeMain.

#[local] Open Scope string_scope.

(** Why [usage] is called: its message. *)
Inductive usage_reason : Type :=
| GetoptFailed (err : string)    (* "Unknown option specified: " + str(err) *)
| HelpAsked                      (* "Help for this script" *)
| UnknownOption (opt : string)   (* "Unknown option specified: <%s>" *)
| UnknownArgument (first : string) (* "Unknown option(s) specified: {opt}" *)
| NoIndir      (* "No value specified for the mandatory arg indir" *)
| NoKeys       (* "At least one of intkeys or strkeys must be specified" *)
| NoOutput     (* "No value specified for the mandatory arg output" *)
| BadIntkeys   (* "Bad value for --intkeys, fields must be numeric" *)
| BadStrkeys   (* "Bad value for --strkeys, fields must be numeric" *)
| BadSums      (* "Bad value for --sums, fields must be numeric" *)
| NoSuchDirectory. (* "Bad value for --indir, no such directory" *)

(** Why [do_main] calls [whine]. *)
Inductive main_reason : Type :=
| EmptyDirectory               (* "Empty directory supplied, giving up" *)
| OnlyOneFile                  (* "Only one file provided for merging. Done already!" *)
| CannotRead (fname : option string).
    (* "Failed to open file {fname} for read, giving up" *)

(** How the script stops before its end. *)
Inductive stop : Type :=
| Usage (why : usage_reason)   (* [usage]: message, usage text, [sys.exit(1)] *)
| TypeError                    (* a [for] over [None] *)
| Whined (why : main_reason)   (* [whine] in [do_main] *)
| Stopped (e : exn).           (* an exception, or the [whine], of the merge *)

(** The variables [get_args] returns. *)
Record args : Type := {
  indir : option string;
  intkeys : option (list string);
  strkeys : option (list string);
  sums : option (list string);
  output : option string;
  verbose : bool
}.

(** What [getopt.gnu_getopt] answers: it raises [GetoptError], or gives
    the options, each under the name it is declared with, and the
    arguments that are no option. *)
Inductive getopt_answer : Type :=
| GetoptError (err : string)
| Parsed (options : list (string * string)) (remainder : list string).

(** [opt in [...]]. *)
Definition among (opt : string) (names : list string) : bool :=
  existsb (String.eqb opt) names.

Definition comma : ascii := ","%char.

(** The [for (opt, val) in options] loop of [get_args]. *)
Fixpoint options_loop (options : list (string * string)) (a : args)
  : stop + args :=
  match options with
  | [] => inr a
  | (opt, val) :: rest =>
      if among opt ["-i"; "--indir"] then
        options_loop rest
          {| indir := Some val; intkeys := intkeys a; strkeys := strkeys a;
             sums := sums a; output := output a; verbose := verbose a |}
      else if among opt ["-I"; "--intkeys"] then
        options_loop rest
          {| indir := indir a; intkeys := Some (Py.split comma val);
             strkeys := strkeys a; sums := sums a; output := output a;
             verbose := verbose a |}
      else if among opt ["-S"; "--strkeys"] then
        options_loop rest
          {| indir := indir a; intkeys := intkeys a;
             strkeys := Some (Py.split comma val); sums := sums a;
             output := output a; verbose := verbose a |}
      else if among opt ["-s"; "--sums"] then
        options_loop rest
          {| indir := indir a; intkeys := intkeys a; strkeys := strkeys a;
             sums := Some (Py.split comma val); output := output a;
             verbose := verbose a |}
      else if among opt ["-o"; "--output"] then
        options_loop rest
          {| indir := indir a; intkeys := intkeys a; strkeys := strkeys a;
             sums := sums a; output := Some val; verbose := verbose a |}
      else if among opt ["-v"; "--verbose"] then
        options_loop rest
          {| indir := indir a; intkeys := intkeys a; strkeys := strkeys a;
             sums := sums a; output := output a; verbose := true |}
      else if among opt ["-h"; "--help"] then inl (Usage HelpAsked)
      else inl (Usage (UnknownOption opt))
  end.

Definition defaults : args :=
  {| indir := None; intkeys := None; strkeys := None; sums := None;
     output := None; verbose := false |}.

(** [get_args]. *)
Definition get_args (answer : getopt_answer) : stop + args :=
  match answer with
  | GetoptError err => inl (Usage (GetoptFailed err))
  | Parsed options remainder =>
      match options_loop options defaults with
      | inl s => inl s
      | inr a =>
          match remainder with
          | first :: _ => inl (Usage (UnknownArgument first))
          | [] => inr a
          end
      end
  end.

(** Truth value of a string or [None], and of a list or [None]. *)
Definition given_string (s : option string) : bool :=
  match s with
  | Some (String _ _) => true
  | _ => false
  end.

Definition given_list (l : option (list string)) : bool :=
  match l with
  | Some (_ :: _) => true
  | _ => false
  end.

(** [for entry in entries: if not entry.isdigit(): usage(...)]. *)
Fixpoint digits_loop (why : usage_reason) (entries : list string)
  : stop + unit :=
  match entries with
  | [] => inr tt
  | entry :: rest =>
      if negb (Py.isdigit entry) then inl (Usage why)
      else digits_loop why rest
  end.

Definition for_entries (why : usage_reason) (given : option (list string))
  : stop + unit :=
  match given with
  | None => inl TypeError
  | Some entries => digits_loop why entries
  end.

Definition and_then {A B : Type} (r : stop + A) (k : A -> stop + B)
  : stop + B :=
  match r with
  | inl s => inl s
  | inr a => k a
  end.

(** [validate_args]; [exists_] is [os.path.exists]. *)
Definition validate_args (exists_ : string -> bool)
  (indir : option string) (intkeys strkeys sums : option (list string))
  (output : option string) : stop + unit :=
  if negb (given_string indir) then inl (Usage NoIndir)
  else if negb (given_list intkeys) && negb (given_list strkeys) then
    inl (Usage NoKeys)
  else if negb (given_string output) then inl (Usage NoOutput)
  else
    and_then (for_entries BadIntkeys intkeys) (fun _ =>
    and_then (for_entries BadStrkeys strkeys) (fun _ =>
    and_then (for_entries BadSums sums) (fun _ =>
    match indir with
    | Some path =>
        if negb (exists_ path) then inl (Usage NoSuchDirectory) else inr tt
    | None => inr tt
    end))).

(** [[int(item) for item in items]]. *)
Fixpoint ints (items : list string) : Py.result (list Z) :=
  match items with
  | [] => Py.Ok []
  | item :: rest =>
      Py.bind (Py.int item) (fun n =>
      Py.bind (ints rest) (fun ns => Py.Ok (n :: ns)))
  end.

(** [MergeAdd.safe_assign]. *)
Definition safe_assign (some_iter : option (list string))
  : Py.result (list Z) :=
  match some_iter with
  | None => Py.Ok []
  | Some items => ints items
  end.

(** [MergeAdd.__init__], for field numbers counted from the start of a
    record: [Merge.MergeAdd] holds them as naturals. *)
Definition new_merger (intkeys strkeys sums : option (list string))
  : Py.result Merge.MergeAdd :=
  Py.bind (safe_assign intkeys) (fun i =>
  Py.bind (safe_assign strkeys) (fun s =>
  Py.bind (safe_assign sums) (fun t =>
  Py.Ok {| Merge.intkeys := map Z.to_nat i;
           Merge.strkeys := map Z.to_nat s;
           Merge.sums := map Z.to_nat t |}))).

(** The files that can be opened for reading, each with its lines. *)
Definition files : Type := string -> option Py.file.

(** A file written and closed. *)
Definition write (disk : files) (path : string) (content : Py.file) : files :=
  fun p => if String.eqb p path then Some content else disk p.

(** [os.rename(src, dst)] of an existing file. *)
Definition rename (disk : files) (src dst : string) : files :=
  fun p =>
    if String.eqb p dst then disk src
    else if String.eqb p src then None
    else disk p.

(** What the script prints when [verbose]. *)
Inductive notice : Type :=
| ProcessingFiles (startfile filename : string)
| FinalOutput (path : string).

Record state : Type := {
  disk : files;
  printed : list notice
}.

Definition print (b : bool) (n : notice) (st : state) : state :=
  if b then {| disk := disk st; printed := (printed st ++ [n])%list |}
  else st.

Definition tempfile : string := "/tmp/intermediate.gz".
Definition nextinput : string := "/tmp/nextinput.gz".

(** What [do_merge] reads from an input opened on [path], which held
    [content]: [gzip.open(tempfile, 'wt')] comes after the inputs are
    opened and before their first line is read, so an input that is the
    temporary file itself is empty by then. *)
Definition read_from (path : string) (content : Py.file) : Py.file :=
  if String.eqb path tempfile then [] else content.

(** The [for filename in infiles[1:]] loop of [do_main].  A merge that
    stops on the way leaves in the temporary file the lines written so
    far. *)
Fixpoint files_loop (merger : Merge.MergeAdd) (indir : string)
  (verbose : bool) (filenames : list string) (startfile : string)
  (st : state) : state * (stop + unit) :=
  match filenames with
  | [] => (st, inr tt)
  | filename :: rest =>
      let st := print verbose (ProcessingFiles startfile filename) st in
      let path := Dump.path_join indir filename in
      match disk st startfile with
      | None => (st, inl (Whined (CannotRead None)))
      | Some have =>
          match disk st path with
          | None => (st, inl (Whined (CannotRead (Some filename))))
          | Some to_merge =>
              let (written, how) :=
                Merge.do_merge merger (read_from startfile have)
                               (read_from path to_merge) in
              let st :=
                {| disk := write (disk st) tempfile written;
                   printed := printed st |} in
              match how with
              | Py.Raise e => (st, inl (Stopped e))
              | Py.Ok _ =>
                  files_loop merger indir verbose rest nextinput
                    {| disk := rename (disk st) tempfile nextinput;
                       printed := printed st |}
              end
          end
      end
  end.

(** [do_main]; [infiles] is what [os.listdir(indir)] answers.  Past
    [validate_args] neither [indir] nor [output] is [None]. *)
Definition do_main (answer : getopt_answer) (exists_ : string -> bool)
  (infiles : list string) (st : state) : state * (stop + unit) :=
  match get_args answer with
  | inl s => (st, inl s)
  | inr a =>
      match validate_args exists_ (indir a) (intkeys a) (strkeys a)
                          (sums a) (output a) with
      | inl s => (st, inl s)
      | inr _ =>
          let dir := match indir a with Some path => path | None => EmptyString end in
          let out := match output a with Some path => path | None => EmptyString end in
          match infiles with
          | [] => (st, inl (Whined EmptyDirectory))
          | [_] => (st, inl (Whined OnlyOneFile))
          | first :: others =>
              match new_merger (intkeys a) (strkeys a) (sums a) with
              | Py.Raise e => (st, inl (Stopped e))
              | Py.Ok merger =>
                  let (st', how) :=
                    files_loop merger dir (verbose a) others
                      (Dump.path_join dir first) st in
                  match how with
                  | inl s => (st', inl s)
                  | inr _ =>
                      (print (verbose a) (FinalOutput out)
                         {| disk := rename (disk st') nextinput out;
                            printed := printed st' |},
                       inr tt)
                  end
              end
          end
      end
  end.

End MergeMain.

(** The left fold [do_main] of merge.py runs: the lines written by the
    successive merges, the first file merged with the second, what that
    gives with the third, and so on. *)
Definition merge_all (self : MergeAdd) (first : file) (others : list file)
  : file :=
  fold_left (fun have to_merge => fst (do_merge self have to_merge))
            others first.

(** A string written in ASCII: on these [Py.isdigit] and [Py.int] are
    Python's. *)
Definition is_ascii (s : string) : Prop :=
  Forall (fun c => (nat_of_ascii c < 128)%nat) (list_ascii_of_string s).

(** The value of the last option of [options] that goes by one of
    [names]. *)
Fixpoint last_value (names : list string) (options : list (string * string))
  : option string :=
  match options with
  | [] => None
  | (opt, val) :: rest =>
      match last_value names rest with
      | Some v => Some v
      | None => if MergeMain.among opt names then Some val else None
      end
  end.

(** The names [get_args] of merge.py knows, [-h] and [--help] apart. *)
Definition merge_options : list string :=
  ["-i"; "--indir"; "-I"; "--intkeys"; "-S"; "--strkeys"; "-s"; "--sums";
   "-o"; "--output"; "-v"; "--verbose"]%string.

(** [o], or [default] when there is none. *)
Definition or_else {A : Type} (o default : option A) : option A :=
  match o with
  | Some v => Some v
  | None => default
  end.

Definition known_option (o : string * string) : Prop :=
  MergeMain.among (fst o) merge_options = true.

(** Every merge of the fold returns. *)
Fixpoint merges_return (self : MergeAdd) (have : file) (others : list file)
  : Prop :=
  match others with
  | [] => True
  | to_merge :: rest =>
      snd (do_merge self have to_merge) = Ok tt /\
      merges_return self (fst (do_merge self have to_merge)) rest
  end.

(** The total of a field over several files. *)
Definition files_total (index : nat) (contents : list file) : Z :=
  fold_right (fun content total => (field_total index content + total)%Z)
             0%Z contents.

(** What [do_main] of merge.py prints about the files it merges. *)
Definition processing (startfile : string) (filenames : list string)
  : list MergeMain.notice :=
  match filenames with
  | [] => []
  | filename :: rest =>
      MergeMain.ProcessingFiles startfile filename
      :: map (MergeMain.ProcessingFiles MergeMain.nextinput) rest
  end.

(** A watchlist id that one of the partitions fetched holds. *)
Definition covered (id : Z) (parts : list (Z * Z)) : Prop :=
  exists start stop, In (start, stop) parts /\ (start <= id < stop)%Z.

(* ================================================================== *)
(** * dump_merge_watchlist_mlr.py: [run_without_output] with its tries *)
(* ================================================================== *)

Module Retry.

#[local] Open Scope Z_scope.

(** What [run_without_output] does, in order. *)
Inductive event : Type :=
| PrintCommand (c : Dump.command)   (* "command to be run with no output: " *)
| Popen (c : Dump.command)          (* Popen and communicate *)
| PrintError (c : Dump.command) (error : string)
    (* "error received from command" ... "is:" *)
| Sleep (delay : Z).                (* time.sleep(retry_delay) *)

(** How it ends. *)
Inductive ending : Type :=
| Returned (success : bool)
| BackupError (c : Dump.command) (returncode : Z) (error : string)
| UnboundLocalError.
    (* [returncode] read for the message before any try set it *)

(** The [while (not success) and tries < maxtries] loop.  [attempts]
    gives, for each try, the return code of the command and what it
    wrote on its standard error, decoded; [left] is how many tries
    [maxtries] still allows; [last] is the value of
    [(returncode, error)], if set.  The loop returns, after its trace,
    [success] and these two. *)
Fixpoint tries_loop (c : Dump.command) (retry_delay : Z)
  (attempts : nat -> Z * string) (tries left : nat)
  (last : option (Z * string))
  : list event * (bool * option (Z * string)) :=
  match left with
  | O => ([], (false, last))
  | S left' =>
      let (returncode, error) := attempts tries in
      let shown :=
        match error with
        | EmptyString => []
        | _ => [PrintError c error]
        end in
      if returncode =? 0 then
        ((Popen c :: shown)%list, (true, Some (returncode, error)))
      else
        let (rest, result) :=
          tries_loop c retry_delay attempts (S tries) left'
                     (Some (returncode, error)) in
        ((Popen c :: shown ++ Sleep retry_delay :: rest)%list, result)
  end.

(** [run_without_output(command, maxtries, retry_delay, verbose=verbose)]. *)
Definition run_without_output (c : Dump.command) (maxtries retry_delay : Z)
  (verbose : bool) (attempts : nat -> Z * string) : list event * ending :=
  let (trace, result) :=
    tries_loop c retry_delay attempts 0 (Z.to_nat maxtries) None in
  let (success, last) := result in
  (((if verbose then [PrintCommand c] else []) ++ trace)%list,
   if success then Returned true
   else match last with
        | Some (returncode, error) => BackupError c returncode error
        | None => UnboundLocalError
        end).

Definition is_popen (e : event) : bool :=
  match e with
  | Popen _ => true
  | _ => false
  end.

Definition is_sleep (e : event) : bool :=
  match e with
  | Sleep _ => true
  | _ => false
  end.

(** The number of times the command is started, and of sleeps. *)
Definition started (trace : list event) : nat :=
  length (filter is_popen trace).

Definition slept (trace : list event) : nat :=
  length (filter is_sleep trace).

(** The events of [Dump] that a trace of the tries shows, its error
    messages and sleeps left out. *)
Definition plain (e : event) : list Dump.event :=
  match e with
  | PrintCommand c => [Dump.Print (Dump.CommandToBeRun c)]
  | Popen c => [Dump.RunCommand c]
  | PrintError _ _ | Sleep _ => []
  end.

End Retry.

(* ================================================================== *)
(** * dump_merge_watchlist_mlr.py: the dumper over commands that can fail *)
(* ================================================================== *)

(** The methods of [Dump] again, this time over [run_without_output]
    with its tries ([Retry]): a command that fails is tried again, and
    after three failures [BackupError] ends the run, nothing in the
    script catching it.  [Dump] is this script when every command
    succeeds at its first try.  As there, creating, moving and
    removing a file are events that raise nothing. *)
Module Tried.

#[local] Open Scope string_scope.
#[local] Open Scope Z_scope.

(** What the script does, in order. *)
Inductive event : Type :=
| Step (e : Dump.event)     (* outside [run_without_output] *)
| Call (c : command) (did : list Retry.event).
    (* [run_without_output] called with [c], and what it did *)

(** How a piece of the script ends. *)
Inductive ending (A : Type) : Type :=
| Returned (a : A)
| Exited (status : Z)                (* sys.exit *)
| Raised (e : exn)
| BackupError (c : command) (returncode : Z) (error : string)
    (* raised by [run_without_output] after the last try of [c] *)
| UnboundLocalError
    (* of [run_without_output] when [maxtries] allows no try *)
| OutOfFuel.

Arguments Returned {A} a.
Arguments Exited {A} status.
Arguments Raised {A} e.
Arguments BackupError {A} c returncode error.
Arguments UnboundLocalError {A}.
Arguments OutOfFuel {A}.

(** A piece of the script, from the number of commands started so far
    (each try counts): its trace, its ending and that number after it. *)
Definition run (A : Type) : Type := nat -> (list event * ending A) * nat.

Definition ret {A : Type} (a : A) : run A :=
  fun tries => (([], Returned a), tries).

Definition tell (e : Dump.event) : run unit :=
  fun tries => (([Step e], Returned tt), tries).

Definition exit {A : Type} (status : Z) : run A :=
  fun tries => (([], Exited status), tries).

Definition when (b : bool) (r : run unit) : run unit :=
  if b then r else ret tt.

Definition then_ {A B : Type} (r : run A) (k : A -> run B) : run B :=
  fun tries =>
    let (done, tries') := r tries in
    match snd done with
    | Returned a =>
        let (rest, tries'') := k a tries' in
        (((fst done ++ fst rest)%list, snd rest), tries'')
    | Exited status => ((fst done, Exited status), tries')
    | Raised e => ((fst done, Raised e), tries')
    | BackupError c returncode error =>
        ((fst done, BackupError c returncode error), tries')
    | UnboundLocalError => ((fst done, UnboundLocalError), tries')
    | OutOfFuel => ((fst done, OutOfFuel), tries')
    end.

#[warnings="-notation-overridden"]
Notation "x <-- r ;; k" := (then_ r (fun x => k))
  (at level 61, r at next level, right associativity).
#[warnings="-notation-overridden"]
Notation "r ;;; k" := (then_ r (fun _ => k))
  (at level 61, right associativity).

(** A piece of the script that runs no command. *)
Definition of_dump {A : Type} (e : Dump.ending A) : ending A :=
  match e with
  | Dump.Returned a => Returned a
  | Dump.Exited status => Exited status
  | Dump.Raised e' => Raised e'
  | Dump.OutOfFuel => OutOfFuel
  end.

Definition lift {A : Type} (r : Dump.run A) : run A :=
  fun tries => ((map Step (fst r), of_dump (snd r)), tries).

(** [run_without_output(command, maxtries=maxtries, verbose=verbose)],
    [retry_delay] being 5.  [attempts] gives, for each command started
    since the script began, its return code and what it wrote on its
    standard error.  The callers drop the value returned. *)
Definition run_without_output (attempts : nat -> Z * string)
  (c : command) (maxtries : Z) (verbose : bool) : run unit :=
  fun tries =>
    let (trace, how) :=
      Retry.run_without_output c maxtries 5 verbose
        (fun i => attempts (tries + i)%nat) in
    (([Call c trace],
      match how with
      | Retry.Returned _ => Returned tt
      | Retry.BackupError c' returncode error =>
          BackupError c' returncode error
      | Retry.UnboundLocalError => UnboundLocalError
      end),
     (tries + Retry.started trace)%nat).

(** [MergeAdder.create_empty_file]. *)
Definition create_empty_file (path : string) : run unit :=
  tell (CreateEmptyFile path).

(** [MergeAdder.merge]. *)
Definition merge (attempts : nat -> Z * string)
  (merge_into to_merge merged_path : string) (verbose dryrun : bool)
  : run unit :=
  let c := SortMerge merge_into to_merge merged_path in
  if dryrun then tell (Print (WouldRunCommand c))
  else run_without_output attempts c 3 verbose.

(** [QueryRunner.do_one_query]. *)
Definition do_one_query (attempts : nat -> Z * string)
  (q : query) (outpath : string) (verbose dryrun : bool) : run unit :=
  let c := SqlDump q outpath in
  if dryrun then tell (Print (WouldRun c))
  else
    when verbose (tell (Print (Running c))) ;;;
    run_without_output attempts c 3 verbose.

(** [QueryRunner.get_max_id]: it runs no command. *)
Definition get_max_id (results : option (list string))
  (fieldname tablename : string) : run (option Z) :=
  lift (Dump.get_max_id results fieldname tablename).

(** The [while] loop of [dump_merge_batch], with [fuel] as in
    [Dump.batch_loop]. *)
Fixpoint batch_loop (attempts : nat -> Z * string)
  (self : WatchlistDumper) (fuel : nat)
  (count maxid : Z) (merge_into_path dumped_path : string)
  (verbose dryrun : bool) (startrow index : Z) : run Z :=
  match fuel with
  | O => ret startrow
  | S fuel' =>
      if (startrow <? maxid) && (index <? count) then
        let stop := startrow + batchsize self in
        do_one_query attempts (WatchlistRows startrow stop) dumped_path
                     verbose dryrun ;;;
        let merged_path :=
          path_join (outdir self) (db_name self ++ "-watchlist-merged.gz") in
        merge attempts merge_into_path dumped_path merged_path
              verbose dryrun ;;;
        when (negb dryrun) (tell (Move merged_path merge_into_path)) ;;;
        batch_loop attempts self fuel' count maxid merge_into_path
                   dumped_path verbose dryrun stop (index + 1)
      else ret startrow
  end.

(** [WatchlistDumper.dump_merge_batch]. *)
Definition dump_merge_batch (attempts : nat -> Z * string)
  (self : WatchlistDumper) (count startrow maxid : Z)
  (merge_into_path : string) (verbose dryrun : bool) : run (option Z) :=
  let index := 1 in
  when (negb dryrun) (create_empty_file merge_into_path) ;;;
  let dumped_path :=
    path_join (outdir self) (db_name self ++ "-watchlist-dumped.gz") in
  if (startrow >=? maxid) || (index >=? count) then ret None
  else
    startrow' <-- batch_loop attempts self (Z.to_nat (count - index)) count
                    maxid merge_into_path dumped_path verbose dryrun
                    startrow index ;;
    when (negb dryrun) (tell (Unlink dumped_path)) ;;;
    ret (Some startrow').

(** The [while] loop of [dump_watchlist], cut after [fuel] turns. *)
Fixpoint watchlist_loop (attempts : nat -> Z * string)
  (self : WatchlistDumper) (fuel : nat) (file_batch_count maxid : Z)
  (all_merge_into_path batch_merge_into_path batch_merged_path : string)
  (verbose dryrun : bool) (startrow : option Z) : run unit :=
  match startrow with
  | Some row =>
      if truthy startrow && (row <? maxid) then
        match fuel with
        | O => fun tries => (([], OutOfFuel), tries)
        | S fuel' =>
            when verbose (tell (Print (StartingBatch row))) ;;;
            startrow' <-- dump_merge_batch attempts self file_batch_count
                            row maxid batch_merge_into_path verbose dryrun ;;
            when (truthy startrow')
              (when verbose (tell (Print MergingBatchResults)) ;;;
               merge attempts all_merge_into_path batch_merge_into_path
                     batch_merged_path verbose dryrun ;;;
               when (negb dryrun)
                 (tell (Move batch_merged_path all_merge_into_path))) ;;;
            watchlist_loop attempts self fuel' file_batch_count maxid
              all_merge_into_path batch_merge_into_path batch_merged_path
              verbose dryrun startrow'
        end
      else ret tt
  | None => ret tt
  end.

(** [WatchlistDumper.dump_watchlist]. *)
Definition dump_watchlist (attempts : nat -> Z * string)
  (self : WatchlistDumper) (fuel : nat) (results : option (list string))
  (file_batch_count : Z) (out_path : string) (verbose dryrun : bool)
  : run unit :=
  maxid <-- get_max_id results "wl_id" "watchlist" ;;
  match maxid with
  | Some maxid' =>
      if maxid' =? 0 then
        tell (Print FailedToGetMaxId) ;;; exit 1
      else
        when (verbose || dryrun) (tell (Print (MaxWatchlistId maxid'))) ;;;
        let all_merge_into_path :=
          path_join (outdir self) (db_name self ++ "-mergeinto-all.gz") in
        when (negb dryrun) (create_empty_file all_merge_into_path) ;;;
        let batch_merged_path :=
          path_join (outdir self) (db_name self ++ "-watchlist-merged.gz") in
        let batch_merge_into_path :=
          path_join (outdir self) (db_name self ++ "-batch-mergeinto.gz") in
        watchlist_loop attempts self fuel file_batch_count maxid'
          all_merge_into_path batch_merge_into_path batch_merged_path
          verbose dryrun (Some 1) ;;;
        if dryrun then
          tell (Print (OutputWouldBeMoved all_merge_into_path out_path))
        else
          tell (Move all_merge_into_path out_path) ;;;
          when verbose (tell (Print (OutputAvailable out_path)))
  | None => tell (Print FailedToGetMaxId) ;;; exit 1
  end.

(** The trace and the ending of a run, and the commands started when
    it ends. *)
Definition trace {A : Type} (r : (list event * ending A) * nat)
  : list event := fst (fst r).

Definition end_ {A : Type} (r : (list event * ending A) * nat)
  : ending A := snd (fst r).

Definition tries {A : Type} (r : (list event * ending A) * nat) : nat :=
  snd r.

(** The events of [Dump] that a trace shows: the error messages and
    sleeps of the tries are left out. *)
Definition shown (e : event) : list Dump.event :=
  match e with
  | Step e' => [e']
  | Call _ did => flat_map Retry.plain did
  end.

Definition core (t : list event) : list Dump.event := flat_map shown t.

(** The commands [run_without_output] is called with. *)
Definition called_by (e : event) : list command :=
  match e with
  | Step _ => []
  | Call c _ => [c]
  end.

Definition calls (t : list event) : list command := flat_map called_by t.

(** Every command started from the [from]-th on returns code 0. *)
Definition succeed (attempts : nat -> Z * string) (from : nat) : Prop :=
  forall i, (from <= i)%nat -> fst (attempts i) = 0.

End Tried.

(** A piece of the script with its tries beside the same piece of
    [Dump]: from [tries] commands started, it shows the events of the
    latter and ends as it ends. *)
Definition agrees {A : Type} (r : Tried.run A) (d : Dump.run A)
  (tries : nat) : Prop :=
  Tried.core (Tried.trace (r tries)) = fst d /\
  Tried.end_ (r tries) = Tried.of_dump (snd d) /\
  (tries <= Tried.tries (r tries))%nat.

(** A piece of the real run, with the tries of its commands, beside
    its dry run: the commands the dry run says it would run are those
    [run_without_output] is called with, in order, and both end the
    same; unless a command fails at each of its tries, which ends the
    real run: that command is then the last one called, and what was
    called is the plan of the dry run up to it. *)
Definition heeds {A : Type} (real : Tried.run A) (dry : Dump.run A)
  (tries : nat) : Prop :=
  (Tried.end_ (real tries) = Tried.of_dump (snd dry) /\
   plan (fst dry) = Tried.calls (Tried.trace (real tries))) \/
  (exists c returncode error before rest,
     Tried.end_ (real tries) = Tried.BackupError c returncode error /\
     Tried.calls (Tried.trace (real tries)) = (before ++ [c])%list /\
     plan (fst dry) = (before ++ c :: rest)%list).

(** A piece of the script with its tries ends as the same piece of
    [Dump] ends, unless a command failed at each of its tries. *)
Definition follows {A : Type} (r : Tried.run A) (d : Dump.run A)
  (tries : nat) : Prop :=
  Tried.end_ (r tries) = Tried.of_dump (snd d) \/
  exists c returncode error,
    Tried.end_ (r tries) = Tried.BackupError c returncode error.

(* ================================================================== *)
(** * dump_merge_watchlist_mlr.py: the command line *)
(* ================================================================== *)

Module DumpMain.

#[local] Open Scope string_scope.

(** Why [usage] is called: its message. *)
Inductive usage_reason : Type :=
| GetoptFailed (err : string)  (* "Unknown option specified: " + str(err) *)
| HelpAsked                    (* "Help for this script" *)
| LeftOver                     (* "Unknown option specified" *)
| NotSet     (* "Arguments 'wiki', 'output' and 'configfile' must be set" *)
| BadBatchsize                 (* "Batchsize argument must be an integer" *)
| NoOutputDirectory (dirname : string)
    (* "directory " + dirname + " for output file does not exist" *)
| NoTempdir.        (* "path specified for 'tempdir' does not exist" *)

(** How [get_args] stops when it does not return. *)
Inductive stop : Type :=
| Usage (why : usage_reason)   (* message, usage text, [sys.exit(1)] *)
| AttributeError.              (* [isdigit] asked of an [int] *)

(** The value of [batchsize]: the [int] it starts as, or the [str] of
    the option. *)
Inductive value : Type :=
| IntValue (n : Z)
| StrValue (s : string).

Record args : Type := {
  wiki : option string;
  output : option string;
  configfile : option string;
  tempdir : string;
  batchsize : value;
  verbose : bool;
  dryrun : bool
}.

Definition defaults : args :=
  {| wiki := None; output := None; configfile := None; tempdir := "/tmp";
     batchsize := IntValue 1000; verbose := false; dryrun := false |}.

(** The [for (opt, val) in options] loop of [get_args]: the tests are
    those of the script, in its order; an option that passes none is
    passed over. *)
Fixpoint options_loop (options : list (string * string)) (a : args)
  : stop + args :=
  match options with
  | [] => inr a
  | (opt, val) :: rest =>
      if MergeMain.among opt ["-c"; "--configfile"] then
        options_loop rest
          {| wiki := wiki a; output := output a; configfile := Some val;
             tempdir := tempdir a; batchsize := batchsize a;
             verbose := verbose a; dryrun := dryrun a |}
      else if MergeMain.among opt ["-w"; "--wiki"] then
        options_loop rest
          {| wiki := Some val; output := output a;
             configfile := configfile a; tempdir := tempdir a;
             batchsize := batchsize a; verbose := verbose a;
             dryrun := dryrun a |}
      else if MergeMain.among opt ["-o"; "--output"] then
        options_loop rest
          {| wiki := wiki a; output := Some val; configfile := configfile a;
             tempdir := tempdir a; batchsize := batchsize a;
             verbose := verbose a; dryrun := dryrun a |}
      else if MergeMain.among opt ["-o"; "--tempdir"] then
        options_loop rest
          {| wiki := wiki a; output := output a; configfile := configfile a;
             tempdir := val; batchsize := batchsize a;
             verbose := verbose a; dryrun := dryrun a |}
      else if MergeMain.among opt ["-b"; "--batchsize"] then
        options_loop rest
          {| wiki := wiki a; output := output a; configfile := configfile a;
             tempdir := tempdir a; batchsize := StrValue val;
             verbose := verbose a; dryrun := dryrun a |}
      else if MergeMain.among opt ["-v"; "--verbose"] then
        options_loop rest
          {| wiki := wiki a; output := output a; configfile := configfile a;
             tempdir := tempdir a; batchsize := batchsize a;
             verbose := true; dryrun := dryrun a |}
      else if MergeMain.among opt ["-v"; "--dryrun"] then
        options_loop rest
          {| wiki := wiki a; output := output a; configfile := configfile a;
             tempdir := tempdir a; batchsize := batchsize a;
             verbose := verbose a; dryrun := true |}
      else if MergeMain.among opt ["-h"; "--help"] then inl (Usage HelpAsked)
      else options_loop rest a
  end.

Definition slash : ascii := "/"%char.

(** The characters of a path up to its last slash, that one too, in
    reverse: [p[:p.rfind('/') + 1]], from the reverse of [p]. *)
Fixpoint head_reversed (reversed : list ascii) : list ascii :=
  match reversed with
  | [] => []
  | c :: rest =>
      if Ascii.eqb c slash then reversed else head_reversed rest
  end.

Fixpoint without_slashes (l : list ascii) : list ascii :=
  match l with
  | c :: rest => if Ascii.eqb c slash then without_slashes rest else l
  | [] => []
  end.

(** [os.path.dirname(p)]: the head, without its closing slashes unless
    it is made of slashes only. *)
Definition dirname (p : string) : string :=
  let head := head_reversed (rev (list_ascii_of_string p)) in
  string_of_list_ascii
    (rev (if forallb (Ascii.eqb slash) head then head
          else without_slashes head)).

(** [validate_args]; [exists_] is [os.path.exists]. *)
Definition validate_args (exists_ : string -> bool)
  (wiki output configfile : option string) (batchsize : value)
  (tempdir : string) : stop + unit :=
  if negb (MergeMain.given_string wiki)
     || negb (MergeMain.given_string output)
     || negb (MergeMain.given_string configfile)
  then inl (Usage NotSet)
  else
    match batchsize with
    | IntValue _ => inl AttributeError
    | StrValue s =>
        if negb (Py.isdigit s) then inl (Usage BadBatchsize)
        else
          let dir := match output with
                     | Some path => dirname path
                     | None => EmptyString
                     end in
          if negb (exists_ dir) then inl (Usage (NoOutputDirectory dir))
          else if negb (exists_ tempdir) then inl (Usage NoTempdir)
          else inr tt
    end.

(** [get_args], on the answer of [getopt.gnu_getopt]. *)
Definition get_args (exists_ : string -> bool)
  (answer : MergeMain.getopt_answer) : stop + args :=
  match answer with
  | MergeMain.GetoptError err => inl (Usage (GetoptFailed err))
  | MergeMain.Parsed options remainder =>
      match options_loop options defaults with
      | inl s => inl s
      | inr a =>
          match remainder with
          | _ :: _ => inl (Usage LeftOver)
          | [] =>
              match validate_args exists_ (wiki a) (output a) (configfile a)
                                  (batchsize a) (tempdir a) with
              | inl s => inl s
              | inr _ => inr a
              end
          end
      end
  end.

End DumpMain.

(* ================================================================== *)
(** * The files of a run of the dumper *)
(* ================================================================== *)

(** The paths at which there is a file. *)
Definition present : Type := string -> bool.

Definition add (path : string) (fs : present) : present :=
  fun p => String.eqb p path || fs p.

Definition remove (path : string) (fs : present) : present :=
  fun p => negb (String.eqb p path) && fs p.

(** What an event does to the files, [None] when it needs a file that
    is not there: a command that dumps writes its output; a command
    that merges reads its two inputs and writes its output;
    [shutil.move] and [os.unlink] need the file they take away. *)
Definition step (e : event) (fs : present) : option present :=
  match e with
  | RunSql _ | Print _ => Some fs
  | RunCommand (SqlDump _ outpath) => Some (add outpath fs)
  | RunCommand (SortMerge merge_into to_merge merged_path) =>
      if fs merge_into && fs to_merge then Some (add merged_path fs)
      else None
  | CreateEmptyFile path => Some (add path fs)
  | Move src dst => if fs src then Some (add dst (remove src fs)) else None
  | Unlink path => if fs path then Some (remove path fs) else None
  end.

Fixpoint replay (trace : list event) (fs : present) : option present :=
  match trace with
  | [] => Some fs
  | e :: rest =>
      match step e fs with
      | Some fs' => replay rest fs'
      | None => None
      end
  end.

(** The work files of a dumper. *)
Definition all_merge_into (self : WatchlistDumper) : string :=
  path_join (outdir self) (db_name self ++ "-mergeinto-all.gz").
Definition batch_merge_into (self : WatchlistDumper) : string :=
  path_join (outdir self) (db_name self ++ "-batch-mergeinto.gz").
Definition batch_merged (self : WatchlistDumper) : string :=
  path_join (outdir self) (db_name self ++ "-watchlist-merged.gz").
Definition dumped (self : WatchlistDumper) : string :=
  path_join (outdir self) (db_name self ++ "-watchlist-dumped.gz").

(* ================================================================== *)
(** * dump_merge_watchlist_mlr.py: TitleFilter and the end of [do_main] *)
(* ================================================================== *)

Module DumpRun.

#[local] Open Scope string_scope.

(** The shell commands of [TitleFilter], by what they are built from. *)
Inductive shell : Type :=
| TitlesDump (outpath : string)
    (* the query for namespaces and titles, through gzip into outpath *)
| Gunzip (infile outfile : string)
    (* "{gzip} -dc {infile} > {outfile}" *)
| JoinTitles (watchlist titles output : string).
    (* "mlr ... join -j 1,2 -s -f {watchlist} {titles} | {gzip} > {output}" *)

(** What the end of the script prints. *)
Inductive note : Type :=
| BeginningDump     (* "beginning dump of watchlist and file merges" *)
| BeginningFilter
    (* "beginning filtering of watchlist entries against existing titles" *)
| WouldRun (c : shell)        (* "Would run:", "would run" *)
| Running (c : shell)         (* "Running" *)
| CommandToBeRun (c : shell). (* "command to be run with no output: " *)

(** What the end of the script does: what [dump_watchlist] does, and
    its own prints and commands. *)
Inductive event : Type :=
| Core (e : Dump.event)
| Note (n : note)
| Run (c : shell).

Definition note_when (b : bool) (n : note) : list event :=
  if b then [Note n] else [].

(** [run_without_output(command, maxtries=3, verbose=verbose)], the
    command succeeding at its first try. *)
Definition run_without_output (c : shell) (verbose : bool) : list event :=
  (note_when verbose (CommandToBeRun c) ++ [Run c])%list.

(** [TitleFilter.dump_titles], through [QueryRunner.do_one_query]. *)
Definition dump_titles (out_path : string) (verbose dryrun : bool)
  : list event :=
  let c := TitlesDump out_path in
  if dryrun then [Note (WouldRun c)]
  else (note_when verbose (Running c) ++ run_without_output c verbose)%list.

(** [path[:-3]]. *)
Definition without_last_three (path : string) : string :=
  substring 0 (String.length path - 3) path.

(** [TitleFilter.do_filter]. *)
Definition do_filter (self : Dump.WatchlistDumper)
  (watchlist_dump_path filtered_path : string) (verbose dryrun : bool)
  : list event :=
  let titles_path :=
    Dump.path_join (Dump.outdir self) (Dump.db_name self ++ "-titles.gz") in
  let watchlist_uncompressed_path :=
    without_last_three watchlist_dump_path in
  let gunzip := Gunzip watchlist_dump_path watchlist_uncompressed_path in
  let join :=
    JoinTitles watchlist_uncompressed_path titles_path filtered_path in
  (dump_titles titles_path verbose dryrun
   ++ (if dryrun then [Note (WouldRun gunzip)]
       else run_without_output gunzip verbose)
   ++ (if dryrun then [Note (WouldRun join)]
       else run_without_output join verbose
            ++ [Core (Dump.Unlink titles_path);
                Core (Dump.Unlink watchlist_uncompressed_path)]))%list.

(** [do_main] from [dumped_merged_path] on, for the dumper, the merger
    and the querier it has built; [results] is the answer of the data
    base to the query of [get_max_id], and [fuel] the turns granted to
    the loop of [dump_watchlist]. *)
Definition do_main (self : Dump.WatchlistDumper) (fuel : nat)
  (results : option (list string)) (output : string)
  (verbose dryrun : bool) : list event * Dump.ending unit :=
  let dumped_merged_path :=
    Dump.path_join (Dump.outdir self)
      (Dump.db_name self ++ "-watchlist-dumped-merged.gz") in
  let dump :=
    Dump.dump_watchlist self fuel results 100 dumped_merged_path
                        verbose dryrun in
  let before := (note_when verbose BeginningDump ++ map Core (fst dump))%list in
  match snd dump with
  | Dump.Returned _ =>
      ((before
        ++ note_when verbose BeginningFilter
        ++ do_filter self dumped_merged_path output verbose dryrun
        ++ (if dryrun then [] else [Core (Dump.Unlink dumped_merged_path)]))%list,
       Dump.Returned tt)
  | Dump.Exited status => (before, Dump.Exited status)
  | Dump.Raised e => (before, Dump.Raised e)
  | Dump.OutOfFuel => (before, Dump.OutOfFuel)
  end.

End DumpRun.

(** What an event of the end of the script does to the files: a
    command needs the files it reads and writes its output. *)
Definition main_step (e : DumpRun.event) (fs : present) : option present :=
  match e with
  | DumpRun.Core e' => step e' fs
  | DumpRun.Note _ => Some fs
  | DumpRun.Run (DumpRun.TitlesDump outpath) => Some (add outpath fs)
  | DumpRun.Run (DumpRun.Gunzip infile outfile) =>
      if fs infile then Some (add outfile fs) else None
  | DumpRun.Run (DumpRun.JoinTitles watchlist titles output) =>
      if fs watchlist && fs titles then Some (add output fs) else None
  end.

Fixpoint main_replay (trace : list DumpRun.event) (fs : present)
  : option present :=
  match trace with
  | [] => Some fs
  | e :: rest =>
      match main_step e fs with
      | Some fs' => main_replay rest fs'
      | None => None
      end
  end.

(** The work files of the end of the script. *)
Definition dumped_merged (self : WatchlistDumper) : string :=
  path_join (outdir self) (db_name self ++ "-watchlist-dumped-merged.gz").
Definition uncompressed (self : WatchlistDumper) : string :=
  path_join (outdir self) (db_name self ++ "-watchlist-dumped-merged").
Definition titles (self : WatchlistDumper) : string :=
  path_join (outdir self) (db_name self ++ "-titles.gz").
(* ================================================================== *)
(** * Facts about the Python primitives *)
(* ================================================================== *)

Section SplitJoin.

Open Scope string_scope.

Lemma split_not_nil (sep : ascii) (s : string) : split sep s <> [].
Proof.
  destruct s as [|c s]; simpl; [discriminate|].
  destruct (Ascii.eqb c sep); [discriminate|].
  destruct (split sep s); discriminate.
Qed.

Lemma join_cons (sep x : string) (y : string) (l : list string) :
  join sep (x :: y :: l) = x ++ sep ++ join sep (y :: l).
Proof. reflexivity. Qed.

Lemma join_split (sep : ascii) (s : string) :
  join (String sep EmptyString) (split sep s) = s.
Proof.
  induction s as [|c s IH]; [reflexivity|].
  simpl split. destruct (Ascii.eqb_spec c sep) as [->|Hne].
  - destruct (split sep s) as [|y l] eqn:E.
    + exfalso. exact (split_not_nil _ _ E).
    + rewrite join_cons, IH. reflexivity.
  - destruct (split sep s) as [|y l] eqn:E.
    + exfalso. exact (split_not_nil _ _ E).
    + rewrite <- IH. destruct l; reflexivity.
Qed.

Lemma split_free (sep : ascii) (s : string) :
  Forall (free_of sep) (split sep s).
Proof.
  induction s as [|c s IH]; simpl.
  - repeat constructor.
  - destruct (Ascii.eqb_spec c sep) as [->|Hne].
    + constructor; [exact I|exact IH].
    + destruct (split sep s) as [|y l]; [repeat constructor; assumption|].
      inversion IH; subst. constructor; [split; assumption|assumption].
Qed.

Lemma split_free_one (sep : ascii) (s : string) :
  free_of sep s -> split sep s = [s].
Proof.
  induction s as [|c s IH]; simpl; [reflexivity|].
  intros [Hc Hs]. destruct (Ascii.eqb_spec c sep); [contradiction|].
  rewrite (IH Hs). reflexivity.
Qed.

Lemma split_append (sep : ascii) (x rest : string) :
  free_of sep x ->
  split sep (x ++ String sep rest) = x :: split sep rest.
Proof.
  induction x as [|c x IH]; simpl.
  - intros _. rewrite Ascii.eqb_refl. reflexivity.
  - intros [Hc Hx]. destruct (Ascii.eqb_spec c sep); [contradiction|].
    rewrite (IH Hx). reflexivity.
Qed.

Lemma split_join (sep : ascii) (l : list string) :
  l <> [] -> Forall (free_of sep) l ->
  split sep (join (String sep EmptyString) l) = l.
Proof.
  induction l as [|x l IH]; [congruence|].
  intros _ Hall. inversion Hall as [|? ? Hx Hl]; subst.
  destruct l as [|y l].
  - simpl. apply split_free_one; assumption.
  - rewrite join_cons.
    change (String sep EmptyString ++ join (String sep EmptyString) (y :: l))
      with (String sep (join (String sep EmptyString) (y :: l))).
    rewrite split_append by assumption.
    rewrite IH by (assumption || discriminate). reflexivity.
Qed.

Lemma free_of_uint (sep : ascii) (d : Decimal.uint) :
  is_digit sep = false -> free_of sep (NilEmpty.string_of_uint d).
Proof.
  intros Hsep.
  induction d; simpl; try exact I;
    (split; [intros <-; discriminate Hsep | assumption]).
Qed.

Lemma str_free_of_tab (n : Z) : free_of tab (str n).
Proof.
  unfold str, NilZero.string_of_int, NilZero.string_of_uint.
  destruct (Z.to_int n) as [d|d].
  - destruct d; try (apply (free_of_uint tab); reflexivity).
    simpl. split; [discriminate|exact I].
  - split; [discriminate|].
    destruct d; try (apply (free_of_uint tab); reflexivity).
    simpl. split; [discriminate|exact I].
Qed.

Lemma str_not_empty (n : Z) : str n <> EmptyString.
Proof.
  unfold str, NilZero.string_of_int, NilZero.string_of_uint.
  destruct (Z.to_int n) as [d|d]; [|discriminate].
  destruct d; discriminate.
Qed.

End SplitJoin.

(* ================================================================== *)
(** * The order of [compare_fields] *)
(* ================================================================== *)

(** Both loops of [compare_fields] are the same loop over a key read
    from each record: the loop is studied once. *)
Section KeyLoop.

Variable K : Type.
Variable key : fields -> nat -> result K.
Variables lt gt : K -> K -> bool.

Local Abbreviation key_loop := (key_loop K key lt gt).

Hypothesis gt_lt : forall x y, gt x y = lt y x.
Hypothesis lt_irrefl : forall x, lt x x = false.
Hypothesis lt_trans :
  forall x y z, lt x y = true -> lt y z = true -> lt x z = true.
Hypothesis lt_total :
  forall x y, lt x y = false -> lt y x = false -> x = y.

Lemma lt_asym (x y : K) : lt x y = true -> lt y x = false.
Proof.
  intros H. destruct (lt y x) eqn:E; [|reflexivity].
  rewrite <- (lt_irrefl x). symmetry. exact (lt_trans _ _ _ H E).
Qed.

Lemma key_loop_range keys one two r :
  key_loop keys one two = Ok (Some r) -> r = (-1)%Z \/ r = 1%Z.
Proof.
  induction keys as [|i keys IH]; simpl; [discriminate|].
  destruct (key one i) as [x|]; [|discriminate].
  destruct (key two i) as [y|]; [|discriminate]. simpl.
  destruct (lt x y); [intros [= <-]; now left|].
  destruct (gt x y); [intros [= <-]; now right|]. exact IH.
Qed.

Lemma key_loop_ext_left keys one one' two :
  (forall i, In i keys -> key one i = key one' i) ->
  key_loop keys one two = key_loop keys one' two.
Proof.
  induction keys as [|i keys IH]; simpl; [reflexivity|].
  intros H. rewrite <- (H i) by now left.
  rewrite IH by (intros; apply H; now right). reflexivity.
Qed.

Lemma key_loop_ext_right keys one two two' :
  (forall i, In i keys -> key two i = key two' i) ->
  key_loop keys one two = key_loop keys one two'.
Proof.
  induction keys as [|i keys IH]; simpl; [reflexivity|].
  intros H. rewrite <- (H i) by now left.
  rewrite IH by (intros; apply H; now right). reflexivity.
Qed.

(** The loop runs to its end exactly when every key is read from both
    records and the two values are the same. *)
Lemma key_loop_none keys one two :
  key_loop keys one two = Ok None <->
  (forall i, In i keys -> exists v, key one i = Ok v /\ key two i = Ok v).
Proof.
  induction keys as [|i keys IH]; simpl.
  - split; [intros _ i []|reflexivity].
  - split.
    + destruct (key one i) as [x|] eqn:Ex; [|discriminate].
      destruct (key two i) as [y|] eqn:Ey; [|discriminate]. simpl.
      destruct (lt x y) eqn:Elt; [discriminate|].
      rewrite gt_lt. destruct (lt y x) eqn:Egt; [discriminate|].
      intros Hrest j [<-|Hj].
      * exists x. rewrite Ex, Ey, (lt_total _ _ Elt Egt). now split.
      * apply IH; assumption.
    + intros H. destruct (H i (or_introl eq_refl)) as (v & -> & ->). simpl.
      rewrite gt_lt, lt_irrefl. apply IH. intros j Hj. apply H. now right.
Qed.

Lemma key_loop_antisym keys one two r :
  key_loop keys one two = Ok r ->
  key_loop keys two one = Ok (option_map Z.opp r).
Proof.
  induction keys as [|i keys IH]; simpl; [intros [= <-]; reflexivity|].
  destruct (key one i) as [x|]; [|discriminate].
  destruct (key two i) as [y|]; [|discriminate]. simpl.
  rewrite !gt_lt.
  destruct (lt x y) eqn:Exy.
  - intros [= <-]. rewrite (lt_asym _ _ Exy). reflexivity.
  - destruct (lt y x); [intros [= <-]; reflexivity|exact IH].
Qed.

Lemma key_loop_trans keys one two three r :
  key_loop keys one two = Ok (Some (-1)%Z) ->
  key_loop keys two three = Ok r -> r <> Some 1%Z ->
  key_loop keys one three = Ok (Some (-1)%Z).
Proof.
  induction keys as [|i keys IH]; simpl; [discriminate|].
  destruct (key one i) as [x|]; [|discriminate].
  destruct (key two i) as [y|]; [|discriminate].
  destruct (key three i) as [z|]; [|discriminate]. simpl.
  rewrite !gt_lt.
  destruct (lt x y) eqn:Exy.
  - intros _. destruct (lt y z) eqn:Eyz.
    + intros _ _. now rewrite (lt_trans _ _ _ Exy Eyz).
    + destruct (lt z y) eqn:Ezy; [intros [= <-]; congruence|].
      intros _ _. rewrite <- (lt_total _ _ Eyz Ezy), Exy. reflexivity.
  - destruct (lt y x) eqn:Eyx; [discriminate|].
    rewrite <- (lt_total _ _ Exy Eyx).
    destruct (lt x z); [reflexivity|].
    destruct (lt z x); [intros _ [= <-]; congruence|]. exact IH.
Qed.

End KeyLoop.

Section CompareFields.

Open Scope Z_scope.

Lemma compare_intkeys_loop keys one two :
  compare_intkeys keys one two = int_loop keys one two.
Proof.
  unfold int_loop.
  induction keys as [|i keys IH]; simpl; [reflexivity|].
  unfold int_key, int. destruct (getitem one i) as [x|]; simpl; [|reflexivity].
  destruct (parse_int x); simpl; [|reflexivity].
  destruct (getitem two i) as [y|]; simpl; [|reflexivity].
  destruct (parse_int y); simpl; [|reflexivity].
  rewrite IH. reflexivity.
Qed.

Lemma compare_strkeys_loop keys one two :
  compare_strkeys keys one two = str_loop keys one two.
Proof.
  unfold str_loop.
  induction keys as [|i keys IH]; simpl; [reflexivity|].
  destruct (getitem one i) as [x|]; simpl; [|reflexivity].
  destruct (getitem two i) as [y|]; simpl; [|reflexivity].
  rewrite IH. reflexivity.
Qed.

Lemma Z_gt_lt (x y : Z) : (x >? y) = (y <? x).
Proof. apply Z.gtb_ltb. Qed.

Lemma Z_lt_trans (x y z : Z) :
  (x <? y) = true -> (y <? z) = true -> (x <? z) = true.
Proof. rewrite !Z.ltb_lt. lia. Qed.

Lemma Z_lt_total (x y : Z) : (x <? y) = false -> (y <? x) = false -> x = y.
Proof. rewrite !Z.ltb_ge. lia. Qed.

Lemma str_gt_lt (x y : string) : str_gt x y = str_lt y x.
Proof.
  unfold str_gt, str_lt. rewrite (String.compare_antisym y x).
  destruct (String.compare x y); reflexivity.
Qed.

Lemma str_lt_irrefl (x : string) : str_lt x x = false.
Proof.
  unfold str_lt. destruct (String.compare x x) eqn:E; try reflexivity.
  exfalso. pose proof (String.compare_antisym x x) as H.
  rewrite E in H. discriminate H.
Qed.

Lemma str_lt_trans (x y z : string) :
  str_lt x y = true -> str_lt y z = true -> str_lt x z = true.
Proof.
  unfold str_lt.
  destruct (String.compare x y) eqn:Exy; try discriminate.
  destruct (String.compare y z) eqn:Eyz; try discriminate.
  intros _ _.
  apply String_as_OT.cmp_lt in Exy, Eyz.
  pose proof (String_as_OT.lt_trans _ _ _ Exy Eyz) as H.
  apply String_as_OT.cmp_lt in H. unfold String_as_OT.cmp in H.
  now rewrite H.
Qed.

Lemma str_lt_total (x y : string) :
  str_lt x y = false -> str_lt y x = false -> x = y.
Proof.
  unfold str_lt. rewrite (String.compare_antisym y x).
  destruct (String.compare x y) eqn:E; simpl; try discriminate.
  intros _ _. now apply String.compare_eq_iff.
Qed.

Ltac order_facts :=
  first [ exact Z_gt_lt | exact Z.ltb_irrefl | exact Z_lt_trans
        | exact Z_lt_total | exact str_gt_lt | exact str_lt_irrefl
        | exact str_lt_trans | exact str_lt_total ].

Lemma int_loop_range keys one two r :
  int_loop keys one two = Ok (Some r) -> r = -1 \/ r = 1.
Proof. apply key_loop_range. Qed.

Lemma str_loop_range keys one two r :
  str_loop keys one two = Ok (Some r) -> r = -1 \/ r = 1.
Proof. apply key_loop_range. Qed.

Lemma int_loop_none keys one two :
  int_loop keys one two = Ok None <->
  (forall i, In i keys ->
     exists v, int_key one i = Ok v /\ int_key two i = Ok v).
Proof. apply key_loop_none; order_facts. Qed.

Lemma str_loop_none keys one two :
  str_loop keys one two = Ok None <->
  (forall i, In i keys ->
     exists v, getitem one i = Ok v /\ getitem two i = Ok v).
Proof. apply key_loop_none; order_facts. Qed.

Lemma int_loop_antisym keys one two r :
  int_loop keys one two = Ok r ->
  int_loop keys two one = Ok (option_map Z.opp r).
Proof. apply key_loop_antisym; order_facts. Qed.

Lemma str_loop_antisym keys one two r :
  str_loop keys one two = Ok r ->
  str_loop keys two one = Ok (option_map Z.opp r).
Proof. apply key_loop_antisym; order_facts. Qed.

Lemma int_loop_trans keys one two three r :
  int_loop keys one two = Ok (Some (-1)) ->
  int_loop keys two three = Ok r -> r <> Some 1 ->
  int_loop keys one three = Ok (Some (-1)).
Proof. apply key_loop_trans; order_facts. Qed.

Lemma str_loop_trans keys one two three r :
  str_loop keys one two = Ok (Some (-1)) ->
  str_loop keys two three = Ok r -> r <> Some 1 ->
  str_loop keys one three = Ok (Some (-1)).
Proof. apply key_loop_trans; order_facts. Qed.

(** When the loop over [one] and [two] runs to its end, [one] can stand
    for [two] in a loop against a third record. *)
Lemma int_loop_none_left keys one two three :
  int_loop keys one two = Ok None ->
  int_loop keys one three = int_loop keys two three.
Proof.
  intros H. apply key_loop_ext_left. intros i Hi.
  destruct (proj1 (int_loop_none _ _ _) H i Hi) as (v & -> & ->). reflexivity.
Qed.

Lemma str_loop_none_left keys one two three :
  str_loop keys one two = Ok None ->
  str_loop keys one three = str_loop keys two three.
Proof.
  intros H. apply key_loop_ext_left. intros i Hi.
  destruct (proj1 (str_loop_none _ _ _) H i Hi) as (v & -> & ->). reflexivity.
Qed.

Variable self : MergeAdd.

(** [compare_fields] in terms of the two loops. *)
Lemma compare_fields_loops one two :
  compare_fields self one two =
  match int_loop (intkeys self) one two with
  | Raise e => Raise e
  | Ok (Some c) => Ok c
  | Ok None =>
      match str_loop (strkeys self) one two with
      | Raise e => Raise e
      | Ok (Some c) => Ok c
      | Ok None =>
          if (length two <? length one)%nat then Ok 1
          else if (length one <? length two)%nat then Ok (-1)
          else Ok 0
      end
  end.
Proof.
  unfold compare_fields.
  rewrite compare_intkeys_loop, compare_strkeys_loop.
  destruct (int_loop (intkeys self) one two) as [[c|]|]; simpl; reflexivity.
Qed.

Lemma same_view_sym one one' :
  same_view self one one' -> same_view self one' one.
Proof.
  intros (Hi & Hs & Hl). repeat split; intros; symmetry; auto.
Qed.

Lemma compare_fields_ext_left one one' two :
  same_view self one one' ->
  compare_fields self one two = compare_fields self one' two.
Proof.
  intros (Hi & Hs & Hl). rewrite !compare_fields_loops. unfold int_loop, str_loop.
  rewrite (key_loop_ext_left _ _ _ _ _ one one' two Hi).
  rewrite (key_loop_ext_left _ _ _ _ _ one one' two Hs).
  rewrite Hl. reflexivity.
Qed.

Lemma compare_fields_ext_right one two two' :
  same_view self two two' ->
  compare_fields self one two = compare_fields self one two'.
Proof.
  intros (Hi & Hs & Hl). rewrite !compare_fields_loops. unfold int_loop, str_loop.
  rewrite (key_loop_ext_right _ _ _ _ _ one two two' Hi).
  rewrite (key_loop_ext_right _ _ _ _ _ one two two' Hs).
  rewrite Hl. reflexivity.
Qed.

Lemma compare_fields_range one two r :
  compare_fields self one two = Ok r -> r = -1 \/ r = 0 \/ r = 1.
Proof.
  rewrite compare_fields_loops.
  destruct (int_loop _ one two) as [[c|]|] eqn:Ei; try discriminate.
  - intros [= <-]. apply int_loop_range in Ei. tauto.
  - destruct (str_loop _ one two) as [[c|]|] eqn:Es; try discriminate.
    + intros [= <-]. apply str_loop_range in Es. tauto.
    + destruct (_ <? _)%nat; [intros [= <-]; tauto|].
      destruct (_ <? _)%nat; intros [= <-]; tauto.
Qed.

(** [compare_fields] answers 0 exactly when every key is read from both
    records with the same value and the field counts are the same. *)
Lemma compare_fields_zero one two :
  compare_fields self one two = Ok 0 <->
  (forall i, In i (intkeys self) ->
     exists v, int_key one i = Ok v /\ int_key two i = Ok v) /\
  (forall i, In i (strkeys self) ->
     exists v, getitem one i = Ok v /\ getitem two i = Ok v) /\
  length one = length two.
Proof.
  rewrite compare_fields_loops, <- int_loop_none, <- str_loop_none.
  destruct (int_loop _ one two) as [[c|]|] eqn:Ei.
  - apply int_loop_range in Ei.
    split; [intros [= ->]; lia|intros ([=] & _)].
  - destruct (str_loop _ one two) as [[c|]|] eqn:Es.
    + apply str_loop_range in Es.
      split; [intros [= ->]; lia|intros (_ & [=] & _)].
    + destruct (Nat.ltb_spec (length two) (length one));
        [split; [discriminate|intros (_ & _ & ?); lia]|].
      destruct (Nat.ltb_spec (length one) (length two));
        [split; [discriminate|intros (_ & _ & ?); lia]|].
      split; [intros _; repeat split; lia|reflexivity].
    + split; [discriminate|intros (_ & [=] & _)].
  - split; [discriminate|intros ([=] & _)].
Qed.

Lemma compare_fields_zero_view one two :
  compare_fields self one two = Ok 0 -> same_view self one two.
Proof.
  intros H. apply compare_fields_zero in H. destruct H as (Hi & Hs & Hl).
  repeat split; [intros i Hin..|exact Hl].
  - destruct (Hi i Hin) as (v & -> & ->). reflexivity.
  - destruct (Hs i Hin) as (v & -> & ->). reflexivity.
Qed.

Lemma compare_fields_zero_length one two :
  compare_fields self one two = Ok 0 -> length one = length two.
Proof. intros H. apply compare_fields_zero in H. tauto. Qed.

Lemma compare_fields_antisym one two r :
  compare_fields self one two = Ok r ->
  compare_fields self two one = Ok (- r).
Proof.
  rewrite !compare_fields_loops.
  destruct (int_loop _ one two) as [[c|]|] eqn:Ei; try discriminate;
    apply int_loop_antisym in Ei; rewrite Ei; simpl.
  - now intros [= <-].
  - destruct (str_loop _ one two) as [[c|]|] eqn:Es; try discriminate;
      apply str_loop_antisym in Es; rewrite Es; simpl.
    + now intros [= <-].
    + destruct (Nat.ltb_spec (length two) (length one));
        destruct (Nat.ltb_spec (length one) (length two));
        intros [= <-]; try reflexivity; lia.
Qed.

Lemma compare_fields_trans_lt one two three :
  compare_fields self one two = Ok (-1) ->
  compare_fields self two three = Ok (-1) ->
  compare_fields self one three = Ok (-1).
Proof.
  rewrite !compare_fields_loops.
  destruct (int_loop _ one two) as [[c1|]|] eqn:E1; try discriminate.
  { intros [= ->].
    destruct (int_loop _ two three) as [[c2|]|] eqn:E2; try discriminate.
    - intros [= ->].
      rewrite (int_loop_trans _ _ _ _ _ E1 E2) by discriminate. reflexivity.
    - intros _.
      rewrite (int_loop_trans _ _ _ _ _ E1 E2) by discriminate. reflexivity. }
  rewrite (int_loop_none_left _ _ _ three E1).
  destruct (int_loop _ two three) as [[c2|]|] eqn:E2; try discriminate.
  { intros _ H. exact H. }
  destruct (str_loop _ one two) as [[c1|]|] eqn:F1; try discriminate.
  { intros [= ->].
    destruct (str_loop _ two three) as [[c2|]|] eqn:F2; try discriminate.
    - intros [= ->].
      rewrite (str_loop_trans _ _ _ _ _ F1 F2) by discriminate. reflexivity.
    - intros _.
      rewrite (str_loop_trans _ _ _ _ _ F1 F2) by discriminate. reflexivity. }
  rewrite (str_loop_none_left _ _ _ three F1).
  destruct (str_loop _ two three) as [[c2|]|] eqn:F2; try discriminate.
  { intros _ H. exact H. }
  destruct (Nat.ltb_spec (length two) (length one)); [discriminate|].
  destruct (Nat.ltb_spec (length one) (length two)); [|discriminate].
  destruct (Nat.ltb_spec (length three) (length two)); [discriminate|].
  destruct (Nat.ltb_spec (length two) (length three)); [|discriminate].
  intros _ _.
  destruct (Nat.ltb_spec (length three) (length one)); [lia|].
  destruct (Nat.ltb_spec (length one) (length three)); [reflexivity|lia].
Qed.

Lemma le_trans one two three : le self one two -> le self two three -> le self one three.
Proof.
  intros [H1|H1] [H2|H2].
  - left. eapply compare_fields_trans_lt; eassumption.
  - left. rewrite <- (compare_fields_ext_right _ _ _ (compare_fields_zero_view _ _ H2)).
    exact H1.
  - left. rewrite (compare_fields_ext_left _ _ _ (compare_fields_zero_view _ _ H1)).
    exact H2.
  - right. rewrite (compare_fields_ext_left _ _ _ (compare_fields_zero_view _ _ H1)).
    exact H2.
Qed.

End CompareFields.

(* ================================================================== *)
(** * [sum_fields] *)
(* ================================================================== *)

Section SumFields.

Lemma setitem_length l i v : length (setitem l i v) = length l.
Proof.
  revert i. induction l as [|x l IH]; intros [|i]; simpl; auto.
Qed.

Lemma setitem_same l i v x :
  nth_error l i = Some x -> nth_error (setitem l i v) i = Some v.
Proof.
  revert i. induction l as [|y l IH]; intros [|i]; simpl; try discriminate; auto.
Qed.

Lemma setitem_other l i j v :
  i <> j -> nth_error (setitem l i v) j = nth_error l j.
Proof.
  revert i j. induction l as [|y l IH]; intros [|i] [|j] H; simpl; auto.
  congruence.
Qed.

Lemma setitem_free sep l i v :
  free_of sep v -> Forall (free_of sep) l -> Forall (free_of sep) (setitem l i v).
Proof.
  intros Hv. revert i. induction l as [|y l IH]; intros [|i] H; simpl;
    inversion H; subst; constructor; auto.
Qed.

Lemma getitem_ok l i x : getitem l i = Ok x <-> nth_error l i = Some x.
Proof.
  unfold getitem. destruct (nth_error l i); split; congruence.
Qed.

(** One turn of the loop of [sum_fields], when it does not raise. *)
Lemma sum_loop_cons index indexes infields to_add_fields result :
  sum_loop (index :: indexes) infields to_add_fields = Ok result ->
  exists x a y b,
    nth_error infields index = Some x /\ parse_int x = Some a /\
    nth_error to_add_fields index = Some y /\ parse_int y = Some b /\
    sum_loop indexes (setitem infields index (str (a + b))) to_add_fields
    = Ok result.
Proof.
  simpl. unfold bad_line, whine.
  destruct (getitem infields index) as [x|] eqn:Ex; simpl; [|discriminate].
  destruct (parse_int x) as [a|] eqn:Ea.
  - destruct (getitem to_add_fields index) as [y|] eqn:Ey; simpl; [|discriminate].
    destruct (parse_int y) as [b|] eqn:Eb; [|discriminate].
    intros H. exists x, a, y, b. apply getitem_ok in Ex, Ey. auto.
  - destruct (getitem to_add_fields index); discriminate.
Qed.

Lemma sum_loop_length indexes infields to_add_fields result :
  sum_loop indexes infields to_add_fields = Ok result ->
  length result = length infields.
Proof.
  revert infields. induction indexes as [|i indexes IH]; intros infields.
  - simpl. now intros [= <-].
  - intros H. apply sum_loop_cons in H.
    destruct H as (x & a & y & b & _ & _ & _ & _ & H).
    rewrite (IH _ H). apply setitem_length.
Qed.

(** Fields that are not summed are left as they are. *)
Lemma sum_loop_other indexes infields to_add_fields result i :
  sum_loop indexes infields to_add_fields = Ok result ->
  ~ In i indexes -> nth_error result i = nth_error infields i.
Proof.
  revert infields. induction indexes as [|j indexes IH]; intros infields.
  - simpl. now intros [= <-].
  - intros H Hi. apply sum_loop_cons in H.
    destruct H as (x & a & y & b & _ & _ & _ & _ & H).
    rewrite (IH _ H) by (intros ?; apply Hi; now right).
    apply setitem_other. intros ->. apply Hi. now left.
Qed.

(** A summed field holds the decimal writing of an integer. *)
Lemma sum_loop_summed indexes infields to_add_fields result i :
  sum_loop indexes infields to_add_fields = Ok result ->
  In i indexes -> exists n, nth_error result i = Some (str n).
Proof.
  revert infields. induction indexes as [|j indexes IH]; intros infields.
  - intros _ [].
  - intros H Hi. apply sum_loop_cons in H.
    destruct H as (x & a & y & b & Hx & _ & _ & _ & H).
    destruct (in_dec Nat.eq_dec i indexes) as [Hin|Hout].
    + exact (IH _ H Hin).
    + destruct Hi as [->|Hin]; [|contradiction].
      exists (a + b)%Z. rewrite (sum_loop_other _ _ _ _ _ H Hout).
      eapply setitem_same; eassumption.
Qed.

(** With each position summed once, a summed field holds the sum of
    the two fields it comes from. *)
Lemma sum_loop_value indexes infields to_add_fields result i :
  NoDup indexes ->
  sum_loop indexes infields to_add_fields = Ok result ->
  In i indexes ->
  exists x a y b,
    nth_error infields i = Some x /\ parse_int x = Some a /\
    nth_error to_add_fields i = Some y /\ parse_int y = Some b /\
    nth_error result i = Some (str (a + b)).
Proof.
  revert infields. induction indexes as [|j indexes IH]; intros infields Hnd.
  - intros _ [].
  - intros H Hi. inversion Hnd as [|? ? Hj Hnd']; subst.
    apply sum_loop_cons in H.
    destruct H as (x & a & y & b & Hx & Ha & Hy & Hb & H).
    destruct Hi as [->|Hin].
    + exists x, a, y, b. repeat (split; [assumption|]).
      rewrite (sum_loop_other _ _ _ _ _ H Hj).
      eapply setitem_same; eassumption.
    + destruct (IH _ Hnd' H Hin) as (x' & a' & y' & b' & Hx' & Hrest).
      exists x', a', y', b'. split; [|exact Hrest].
      rewrite <- Hx'. symmetry. apply setitem_other.
      intros ->. contradiction.
Qed.

Lemma sum_loop_free indexes infields to_add_fields result :
  Forall (free_of tab) infields ->
  sum_loop indexes infields to_add_fields = Ok result ->
  Forall (free_of tab) result.
Proof.
  revert infields. induction indexes as [|j indexes IH]; intros infields Hfree.
  - simpl. now intros [= <-].
  - intros H. apply sum_loop_cons in H.
    destruct H as (x & a & y & b & _ & _ & _ & _ & H).
    apply (IH _ (setitem_free _ _ _ _ (str_free_of_tab _) Hfree) H).
Qed.

(** The loop itself never complains about field counts. *)
Lemma sum_loop_no_mismatch indexes infields to_add_fields n m :
  sum_loop indexes infields to_add_fields
  <> Raise (SystemExit (FieldCountMismatch n m)).
Proof.
  revert infields. induction indexes as [|j indexes IH]; intros infields;
    simpl; [discriminate|].
  unfold bad_line, whine, getitem.
  destruct (nth_error infields j) as [x|]; simpl; [|discriminate].
  destruct (parse_int x).
  - destruct (nth_error to_add_fields j) as [y|]; simpl; [|discriminate].
    destruct (parse_int y); [apply IH|discriminate].
  - destruct (nth_error to_add_fields j); discriminate.
Qed.

Variable self : MergeAdd.

Lemma sum_fields_ok infields to_add_fields result :
  sum_fields self infields to_add_fields = Ok result ->
  length infields = length to_add_fields /\
  sum_loop (sums self) infields to_add_fields = Ok result.
Proof.
  unfold sum_fields.
  destruct (Nat.eqb_spec (length infields) (length to_add_fields)); simpl.
  - intros H. split; assumption.
  - unfold whine. discriminate.
Qed.

Lemma sum_fields_free infields to_add_fields result :
  Forall (free_of tab) infields ->
  sum_fields self infields to_add_fields = Ok result ->
  Forall (free_of tab) result.
Proof.
  intros Hfree H. apply sum_fields_ok in H. destruct H as [_ H].
  eapply sum_loop_free; eassumption.
Qed.

(** Then [compare_fields] cannot tell a record from its sum with another. *)
Lemma sum_fields_same_view infields to_add_fields result :
  sums_apart self ->
  sum_fields self infields to_add_fields = Ok result ->
  same_view self result infields.
Proof.
  intros Hapart H. apply sum_fields_ok in H. destruct H as [_ H].
  assert (forall i, In i (intkeys self ++ strkeys self) ->
                    getitem result i = getitem infields i) as Hkey.
  { intros i Hi. unfold getitem.
    rewrite (sum_loop_other _ _ _ _ i H); [reflexivity|].
    intros Hs. exact (Hapart i Hs Hi). }
  repeat split.
  - intros i Hi. unfold int_key. rewrite Hkey; [reflexivity|].
    apply in_or_app. now left.
  - intros i Hi. apply Hkey. apply in_or_app. now right.
  - eapply sum_loop_length; eassumption.
Qed.

(** The sum of a record that is not the end mark is not the end mark. *)
Lemma sum_fields_not_at_end infields to_add_fields result :
  sum_fields self infields to_add_fields = Ok result ->
  at_end infields = false -> at_end result = false.
Proof.
  intros H Hend. apply sum_fields_ok in H. destruct H as [_ H].
  pose proof (sum_loop_length _ _ _ _ H) as Hlen.
  destruct result as [|[|c r] [|? ?]]; try reflexivity.
  destruct infields as [|x [|? ?]]; simpl in Hlen; try lia.
  destruct (in_dec Nat.eq_dec 0%nat (sums self)) as [Hin|Hout].
  - destruct (sum_loop_summed _ _ _ _ _ H Hin) as [n Hn].
    simpl in Hn. injection Hn as Hn. symmetry in Hn.
    now apply str_not_empty in Hn.
  - pose proof (sum_loop_other _ _ _ _ _ H Hout) as Hx. simpl in Hx.
    injection Hx as <-. exact Hend.
Qed.

End SumFields.

(* ================================================================== *)
(** * The loops of [do_merge] *)
(* ================================================================== *)

Section MergeLoop.

Variable self : MergeAdd.

Lemma drain_empty handle : drain EmptyString handle = [].
Proof. destruct handle; reflexivity. Qed.

(** The final loops stop at the first empty line. *)
Lemma drain_stops line head rest :
  drain line (head ++ EmptyString :: rest) = drain line head.
Proof.
  revert line. induction head as [|next head IH]; intros line.
  - destruct line; simpl; [reflexivity|]. now rewrite drain_empty.
  - destruct line; simpl; [reflexivity|]. now rewrite IH.
Qed.

Lemma drain_all line handle :
  no_empty_line (line :: handle) -> drain line handle = line :: handle.
Proof.
  revert line. induction handle as [|next handle IH]; intros line H;
    inversion H as [|? ? Hline Hrest]; subst.
  - destruct line; [congruence|reflexivity].
  - destruct line; [congruence|]. simpl. now rewrite (IH _ Hrest).
Qed.

Lemma at_end_true current : at_end current = true -> current = [EmptyString].
Proof.
  destruct current as [|[|c x] [|y l]]; simpl; congruence.
Qed.

Lemma at_end_split line : at_end (split tab line) = true -> line = EmptyString.
Proof.
  intros H. apply at_end_true in H.
  rewrite <- (join_split tab line), H. reflexivity.
Qed.

Lemma join_tab_split line : join_tab (split tab line) = line.
Proof. apply join_split. Qed.

Lemma join_tab_not_empty current :
  current <> [] -> at_end current = false -> join_tab current <> EmptyString.
Proof.
  destruct current as [|[|c x] [|y l]]; simpl; try congruence;
    intros _ _; discriminate.
Qed.

Lemma split_join_tab current :
  current <> [] -> Forall (free_of tab) current ->
  split tab (join_tab current) = current.
Proof. apply split_join. Qed.

(** The loop, one turn unfolded, as it is defined. *)
Lemma merge_loop_unfold have have_fields to_merge_fields to_merge :
  merge_loop self have have_fields to_merge_fields to_merge =
  if at_end have_fields || at_end to_merge_fields then
    drain_both have_fields have to_merge_fields to_merge
  else
    match compare_fields self have_fields to_merge_fields with
    | Raise e => ([], Raise e)
    | Ok result =>
        if (result =? 0)%Z then
          match sum_fields self have_fields to_merge_fields with
          | Raise e => ([], Raise e)
          | Ok have_fields' =>
              match to_merge with
              | [] => drain_both have_fields' have [EmptyString] []
              | line :: to_merge' =>
                  merge_loop self have have_fields' (split tab line) to_merge'
              end
          end
        else if (result <? 0)%Z then
          emit (join_tab have_fields)
            match have with
            | [] => drain_both [EmptyString] [] to_merge_fields to_merge
            | line :: have' =>
                merge_loop self have' (split tab line) to_merge_fields to_merge
            end
        else
          emit (join_tab to_merge_fields)
            match to_merge with
            | [] => drain_both have_fields have [EmptyString] []
            | line :: to_merge' =>
                merge_loop self have have_fields (split tab line) to_merge'
            end
    end.
Proof. destruct have; destruct to_merge; reflexivity. Qed.

Lemma merge_loop_at_end have have_fields to_merge_fields to_merge :
  at_end have_fields || at_end to_merge_fields = true ->
  merge_loop self have have_fields to_merge_fields to_merge =
  drain_both have_fields have to_merge_fields to_merge.
Proof. intros H. rewrite merge_loop_unfold, H. reflexivity. Qed.

(** The loop, one turn unfolded, as the source writes it: a turn reads
    the next line of one file, whatever is left in it. *)
Lemma merge_loop_turn have have_fields to_merge_fields to_merge :
  merge_loop self have have_fields to_merge_fields to_merge =
  if at_end have_fields || at_end to_merge_fields then
    drain_both have_fields have to_merge_fields to_merge
  else
    match compare_fields self have_fields to_merge_fields with
    | Raise e => ([], Raise e)
    | Ok result =>
        if (result =? 0)%Z then
          match sum_fields self have_fields to_merge_fields with
          | Raise e => ([], Raise e)
          | Ok have_fields' =>
              let (to_merge_fields', to_merge') := read_fields to_merge in
              merge_loop self have have_fields' to_merge_fields' to_merge'
          end
        else if (result <? 0)%Z then
          emit (join_tab have_fields)
            (let (have_fields', have') := read_fields have in
             merge_loop self have' have_fields' to_merge_fields to_merge)
        else
          emit (join_tab to_merge_fields)
            (let (to_merge_fields', to_merge') := read_fields to_merge in
             merge_loop self have have_fields to_merge_fields' to_merge')
    end.
Proof.
  rewrite merge_loop_unfold.
  destruct (at_end have_fields || at_end to_merge_fields); [reflexivity|].
  destruct (compare_fields self have_fields to_merge_fields) as [r|];
    [|reflexivity].
  destruct (r =? 0)%Z.
  - destruct (sum_fields self have_fields to_merge_fields); [|reflexivity].
    destruct to_merge; [|reflexivity].
    unfold read_fields, readline_rstrip. cbv beta iota.
    rewrite merge_loop_at_end; [reflexivity|apply orb_true_r].
  - destruct (r <? 0)%Z.
    + destruct have; [|reflexivity].
      unfold read_fields, readline_rstrip. cbv beta iota.
      now rewrite merge_loop_at_end.
    + destruct to_merge; [|reflexivity].
      unfold read_fields, readline_rstrip. cbv beta iota.
      rewrite merge_loop_at_end; [reflexivity|apply orb_true_r].
Qed.

(** Induction on the turns of the loop: a property holds of every state
    when it holds of a state as soon as it holds of the states the loop
    can go to from it. *)
Lemma merge_loop_ind
  (P : file -> fields -> fields -> file -> Prop) :
  (forall have have_fields to_merge_fields to_merge,
     (forall line to_merge' have_fields',
        to_merge = line :: to_merge' ->
        P have have_fields' (split tab line) to_merge') ->
     (forall line have',
        have = line :: have' ->
        P have' (split tab line) to_merge_fields to_merge) ->
     P have have_fields to_merge_fields to_merge) ->
  forall have have_fields to_merge_fields to_merge,
    P have have_fields to_merge_fields to_merge.
Proof.
  intros step have.
  induction have as [|line have IHhave]; intros hf tf to_merge; revert hf tf;
    induction to_merge as [|line' to_merge IHto]; intros hf tf;
    apply step; intros; try discriminate;
    match goal with
    | H : _ :: _ = _ :: _ |- _ => injection H as <- <-
    end; auto.
Qed.

End MergeLoop.

(* ================================================================== *)
(** * Empty runs and empty lines *)
(* ================================================================== *)

Section EmptyLines.

Variable self : MergeAdd.

Lemma drain_both_stops_have have_fields have rest to_merge_fields to_merge :
  drain_both have_fields (have ++ EmptyString :: rest) to_merge_fields to_merge
  = drain_both have_fields have to_merge_fields to_merge.
Proof. unfold drain_both. now rewrite drain_stops. Qed.

Lemma drain_both_stops_to_merge have_fields have to_merge_fields to_merge rest :
  drain_both have_fields have to_merge_fields (to_merge ++ EmptyString :: rest)
  = drain_both have_fields have to_merge_fields to_merge.
Proof. unfold drain_both. now rewrite drain_stops. Qed.

Lemma drain_both_end_mark_have rest to_merge_fields to_merge :
  drain_both [EmptyString] rest to_merge_fields to_merge
  = drain_both [EmptyString] [] to_merge_fields to_merge.
Proof. unfold drain_both. simpl join_tab. now rewrite !drain_empty. Qed.

Lemma drain_both_end_mark_to_merge have_fields have rest :
  drain_both have_fields have [EmptyString] rest
  = drain_both have_fields have [EmptyString] [].
Proof. unfold drain_both. simpl join_tab. now rewrite !drain_empty. Qed.

Lemma merge_loop_stops_have have have_fields to_merge_fields to_merge :
  forall rest,
    merge_loop self (have ++ EmptyString :: rest)
               have_fields to_merge_fields to_merge
    = merge_loop self have have_fields to_merge_fields to_merge.
Proof.
  pattern have, have_fields, to_merge_fields, to_merge.
  apply merge_loop_ind. clear have have_fields to_merge_fields to_merge.
  intros have hf tf tm IHto IHhave rest.
  rewrite (merge_loop_unfold self (have ++ _)), (merge_loop_unfold self have).
  destruct (at_end hf || at_end tf); [apply drain_both_stops_have|].
  destruct (compare_fields self hf tf) as [r|]; [|reflexivity].
  destruct (r =? 0)%Z.
  { destruct (sum_fields self hf tf) as [s|]; [|reflexivity].
    destruct tm as [|l tm']; [apply drain_both_stops_have|].
    apply (IHto l tm' s eq_refl). }
  destruct (r <? 0)%Z.
  - f_equal. destruct have as [|l have']; simpl app; cbv beta iota.
    + rewrite merge_loop_at_end by reflexivity.
      apply drain_both_end_mark_have.
    + apply (IHhave l have' eq_refl).
  - f_equal. destruct tm as [|l tm']; [apply drain_both_stops_have|].
    apply (IHto l tm' hf eq_refl).
Qed.

Lemma merge_loop_stops_to_merge have have_fields to_merge_fields to_merge :
  forall rest,
    merge_loop self have have_fields to_merge_fields
               (to_merge ++ EmptyString :: rest)
    = merge_loop self have have_fields to_merge_fields to_merge.
Proof.
  pattern have, have_fields, to_merge_fields, to_merge.
  apply merge_loop_ind. clear have have_fields to_merge_fields to_merge.
  intros have hf tf tm IHto IHhave rest.
  rewrite (merge_loop_unfold self have hf tf (tm ++ _)),
          (merge_loop_unfold self have hf tf tm).
  destruct (at_end hf || at_end tf); [apply drain_both_stops_to_merge|].
  destruct (compare_fields self hf tf) as [r|]; [|reflexivity].
  destruct (r =? 0)%Z.
  { destruct (sum_fields self hf tf) as [s|]; [|reflexivity].
    destruct tm as [|l tm']; simpl app; cbv beta iota.
    - rewrite merge_loop_at_end by apply orb_true_r.
      apply drain_both_end_mark_to_merge.
    - apply (IHto l tm' s eq_refl). }
  destruct (r <? 0)%Z.
  - f_equal. destruct have as [|l have']; [apply drain_both_stops_to_merge|].
    apply (IHhave l have' eq_refl).
  - f_equal. destruct tm as [|l tm']; simpl app; cbv beta iota.
    + rewrite merge_loop_at_end by apply orb_true_r.
      apply drain_both_end_mark_to_merge.
    + apply (IHto l tm' hf eq_refl).
Qed.

(** C10.  [do_merge] takes the first empty line of either input for the
    end of that input: whatever follows the empty line, the lines
    written and the way [do_merge] ends are those of the merge of the
    input cut before its empty line.  The lines after it are in no way
    read, written or complained about. *)
Theorem empty_line_ends_run :
  (forall head rest to_merge,
     do_merge self (head ++ EmptyString :: rest) to_merge
     = do_merge self head to_merge) /\
  (forall have head rest,
     do_merge self have (head ++ EmptyString :: rest)
     = do_merge self have head).
Proof.
  split.
  - intros head rest to_merge. unfold do_merge, read_fields, readline_rstrip.
    destruct head as [|l head]; simpl app; cbv beta iota.
    + destruct to_merge as [|l' tm];
        rewrite !merge_loop_at_end by reflexivity;
        apply drain_both_end_mark_have.
    + destruct to_merge as [|l' tm]; apply merge_loop_stops_have.
  - intros have head rest. unfold do_merge, read_fields, readline_rstrip.
    destruct head as [|l head]; simpl app; cbv beta iota.
    + destruct have as [|l' have];
        rewrite !merge_loop_at_end by apply orb_true_r;
        apply drain_both_end_mark_to_merge.
    + destruct have as [|l' have]; apply merge_loop_stops_to_merge.
Qed.

(** C9.  Merging a run that has no empty line with the empty run writes
    the run as it is, line for line, whichever of the two inputs the
    run is, and returns. *)
Theorem merge_with_empty_run (run : file) :
  no_empty_line run ->
  do_merge self run [] = (run, Ok tt) /\
  do_merge self [] run = (run, Ok tt).
Proof.
  intros Hrun. unfold do_merge, read_fields, readline_rstrip.
  destruct run as [|line run].
  - split; reflexivity.
  - split.
    + rewrite merge_loop_at_end by apply orb_true_r.
      unfold drain_both. rewrite !join_tab_split, (drain_all _ _ Hrun).
      simpl. now rewrite app_nil_r.
    + rewrite merge_loop_at_end by reflexivity.
      unfold drain_both. rewrite !join_tab_split, (drain_all _ _ Hrun).
      reflexivity.
Qed.

End EmptyLines.

Lemma merge_with_empty_run_witness :
  let run := [row "1" "a" "5"; row "2" "b" "1"] in
  no_empty_line run /\
  do_merge scenario_roles run [] = (run, Ok tt) /\
  do_merge scenario_roles [] run = (run, Ok tt).
Proof.
  assert (no_empty_line [row "1" "a" "5"; row "2" "b" "1"]) as H
    by (repeat constructor; discriminate).
  split; [exact H|]. apply merge_with_empty_run. exact H.
Defined.

(* ================================================================== *)
(** * Records of different field counts *)
(* ================================================================== *)

Section FieldCounts.

Variable self : MergeAdd.

Lemma compare_intkeys_raises keys one two e :
  compare_intkeys keys one two = Raise e -> e = IndexError \/ e = ValueError.
Proof.
  induction keys as [|i keys IH]; simpl; [discriminate|].
  unfold getitem, int.
  destruct (nth_error one i) as [x|]; simpl; [|intros [= <-]; now left].
  destruct (parse_int x) as [a|]; simpl; [|intros [= <-]; now right].
  destruct (nth_error two i) as [y|]; simpl; [|intros [= <-]; now left].
  destruct (parse_int y) as [b|]; simpl; [|intros [= <-]; now right].
  destruct (a <? b)%Z; [discriminate|].
  destruct (a >? b)%Z; [discriminate|exact IH].
Qed.

Lemma compare_strkeys_raises keys one two e :
  compare_strkeys keys one two = Raise e -> e = IndexError.
Proof.
  induction keys as [|i keys IH]; simpl; [discriminate|].
  unfold getitem.
  destruct (nth_error one i) as [x|]; simpl; [|now intros [= <-]].
  destruct (nth_error two i) as [y|]; simpl; [|now intros [= <-]].
  destruct (str_lt x y); [discriminate|].
  destruct (str_gt x y); [discriminate|exact IH].
Qed.

(** [compare_fields] raises nothing but [IndexError], for a key position
    that a record lacks, and [ValueError], for an integer key that is
    not an integer. *)
Lemma compare_fields_raises one two e :
  compare_fields self one two = Raise e -> e = IndexError \/ e = ValueError.
Proof.
  unfold compare_fields.
  destruct (compare_intkeys (intkeys self) one two) as [[c|]|e'] eqn:Ei; simpl.
  - discriminate.
  - destruct (compare_strkeys (strkeys self) one two) as [[c|]|e'] eqn:Es; simpl.
    + discriminate.
    + destruct (_ <? _)%nat; [discriminate|].
      destruct (_ <? _)%nat; discriminate.
    + intros [= <-]. left. eapply compare_strkeys_raises; eassumption.
  - intros [= <-]. eapply compare_intkeys_raises; eassumption.
Qed.

Lemma sum_fields_no_mismatch one two n m :
  length one = length two ->
  sum_fields self one two <> Raise (SystemExit (FieldCountMismatch n m)).
Proof.
  intros Hlen. unfold sum_fields.
  rewrite (proj2 (Nat.eqb_eq _ _) Hlen). simpl. apply sum_loop_no_mismatch.
Qed.

Lemma drain_both_returns have_fields have to_merge_fields to_merge :
  snd (drain_both have_fields have to_merge_fields to_merge) = Ok tt.
Proof. reflexivity. Qed.

Lemma merge_loop_no_mismatch have have_fields to_merge_fields to_merge n m :
  snd (merge_loop self have have_fields to_merge_fields to_merge)
  <> Raise (SystemExit (FieldCountMismatch n m)).
Proof.
  pattern have, have_fields, to_merge_fields, to_merge.
  apply merge_loop_ind. clear have have_fields to_merge_fields to_merge.
  intros have hf tf tm IHto IHhave.
  rewrite merge_loop_unfold.
  destruct (at_end hf || at_end tf); [discriminate|].
  destruct (compare_fields self hf tf) as [r|e] eqn:Ec.
  - destruct (Z.eqb_spec r 0) as [->|Hr].
    + destruct (sum_fields self hf tf) as [s|e] eqn:Es.
      * destruct tm as [|l tm']; [discriminate|]. now apply (IHto l tm' s).
      * simpl. intros [= ->]. revert Es. apply sum_fields_no_mismatch.
        now apply (compare_fields_zero_length self).
    + destruct (r <? 0)%Z; simpl.
      * destruct have as [|l have']; [discriminate|]. now apply (IHhave l have').
      * destruct tm as [|l tm']; [discriminate|]. now apply (IHto l tm' hf).
  - simpl. apply compare_fields_raises in Ec. destruct Ec; subst; discriminate.
Qed.

(** C5, as the code has it.  [sum_fields] called on two records of
    different field counts exits through [whine] with the two counts.
    [do_merge] never does: [compare_fields] does not answer 0 for such
    records, even when all their keys are the same, but puts the one
    with fewer fields first; [do_merge] then writes that record as it
    is, and whatever its inputs it never ends in this complaint. *)
Theorem field_count_mismatch (one two : fields) :
  length one <> length two ->
  sum_fields self one two
  = Raise (SystemExit (FieldCountMismatch (length one) (length two))) /\
  compare_fields self one two <> Ok 0%Z /\
  (compare_intkeys (intkeys self) one two = Ok None ->
   compare_strkeys (strkeys self) one two = Ok None ->
   compare_fields self one two
   = Ok (if (length one <? length two)%nat then (-1)%Z else 1%Z)) /\
  (forall have to_merge n m,
     snd (do_merge self have to_merge)
     <> Raise (SystemExit (FieldCountMismatch n m))).
Proof.
  intros Hlen. repeat split.
  - unfold sum_fields. rewrite (proj2 (Nat.eqb_neq _ _) Hlen). reflexivity.
  - intros H. apply compare_fields_zero_length in H. contradiction.
  - intros Hi Hs. unfold compare_fields. rewrite Hi, Hs. simpl.
    destruct (Nat.ltb_spec (length two) (length one));
      destruct (Nat.ltb_spec (length one) (length two));
      try reflexivity; lia.
  - intros have to_merge n m. unfold do_merge.
    destruct (read_fields have) as [hf have'].
    destruct (read_fields to_merge) as [tf tm'].
    apply merge_loop_no_mismatch.
Qed.

End FieldCounts.

Lemma field_count_mismatch_witness :
  let one := ["1"; "a"; "5"]%string in
  let two := ["1"; "a"; "5"; "x"]%string in
  length one <> length two /\
  sum_fields scenario_roles one two
  = Raise (SystemExit (FieldCountMismatch 3 4)) /\
  compare_fields scenario_roles one two = Ok (-1)%Z.
Proof.
  assert (length ["1"; "a"; "5"]%string <> length ["1"; "a"; "5"; "x"]%string)
    as H by (simpl; lia).
  split; [exact H|].
  destruct (field_count_mismatch scenario_roles _ _ H) as (Hs & _ & Hc & _).
  split; [exact Hs|]. apply Hc; reflexivity.
Defined.

(** C5 as it is written does not hold: the two records below have the
    same keys and different field counts; their merge returns, after
    writing both. *)
Lemma field_count_mismatch_not_raised :
  let have := [join_tab ["1"; "a"; "5"]%string] in
  let to_merge := [join_tab ["1"; "a"; "5"; "x"]%string] in
  compare_intkeys (intkeys scenario_roles)
    (split tab (hd EmptyString have)) (split tab (hd EmptyString to_merge))
  = Ok None /\
  compare_strkeys (strkeys scenario_roles)
    (split tab (hd EmptyString have)) (split tab (hd EmptyString to_merge))
  = Ok None /\
  length (split tab (hd EmptyString have))
  <> length (split tab (hd EmptyString to_merge)) /\
  do_merge scenario_roles have to_merge = ((have ++ to_merge)%list, Ok tt).
Proof.
  repeat split; try reflexivity. vm_compute. lia.
Qed.

(* ================================================================== *)
(** * [compare_fields] and the total order of the design document *)
(* ================================================================== *)

Section TotalOrder.

Lemma getitem_nth record i :
  (i < length record)%nat -> getitem record i = Ok (nth i record EmptyString).
Proof.
  intros H. unfold getitem.
  now rewrite (nth_error_nth' record EmptyString H).
Qed.

Lemma int_key_value record i n :
  (i < length record)%nat ->
  parse_int (nth i record EmptyString) = Some n ->
  int_key record i = Ok (int_value record i).
Proof.
  intros Hi Hn. unfold int_key, int_value, int.
  rewrite (getitem_nth _ _ Hi). simpl. now rewrite Hn.
Qed.

Lemma string_compare_refl (x : string) : String.compare x x = Eq.
Proof.
  pose proof (String.compare_antisym x x) as H.
  destruct (String.compare x x); simpl in H; congruence.
Qed.

Lemma lexicographic_eq (K : Type) (cmp : K -> K -> comparison) one two :
  (forall x y, cmp x y = Eq <-> x = y) ->
  length one = length two ->
  (lexicographic K cmp one two = Eq <-> one = two).
Proof.
  intros Hcmp. revert two.
  induction one as [|x one IH]; intros [|y two]; simpl; try discriminate.
  - intros _. split; reflexivity.
  - intros [= Hlen]. specialize (IH two Hlen).
    destruct (cmp x y) eqn:E.
    + apply Hcmp in E. subst y. rewrite IH. split; congruence.
    + split; [discriminate|]. intros [= Hxy _]. apply Hcmp in Hxy. congruence.
    + split; [discriminate|]. intros [= Hxy _]. apply Hcmp in Hxy. congruence.
Qed.

(** The loop over the integer keys follows the lexicographic order of
    the key values. *)
Lemma int_loop_lexicographic keys one two :
  (forall i, In i keys -> (i < length one)%nat /\
     exists n, parse_int (nth i one EmptyString) = Some n) ->
  (forall i, In i keys -> (i < length two)%nat /\
     exists n, parse_int (nth i two EmptyString) = Some n) ->
  int_loop keys one two =
  Ok match lexicographic Z Z.compare (map (int_value one) keys)
                         (map (int_value two) keys) with
     | Eq => None
     | Lt => Some (-1)%Z
     | Gt => Some 1%Z
     end.
Proof.
  unfold int_loop.
  induction keys as [|i keys IH]; intros H1 H2; simpl; [reflexivity|].
  destruct (H1 i (or_introl eq_refl)) as (Hi1 & n1 & Hn1).
  destruct (H2 i (or_introl eq_refl)) as (Hi2 & n2 & Hn2).
  rewrite (int_key_value _ _ _ Hi1 Hn1), (int_key_value _ _ _ Hi2 Hn2). simpl.
  rewrite Z.gtb_ltb.
  destruct (Z.compare_spec (int_value one i) (int_value two i)) as [E|E|E].
  - rewrite E, Z.ltb_irrefl.
    apply IH; intros j Hj; [apply H1|apply H2]; now right.
  - now rewrite (proj2 (Z.ltb_lt _ _) E).
  - rewrite (proj2 (Z.ltb_ge _ _)) by lia.
    now rewrite (proj2 (Z.ltb_lt _ _) E).
Qed.

(** The loop over the string keys does the same. *)
Lemma str_loop_lexicographic keys one two :
  (forall i, In i keys -> (i < length one)%nat) ->
  (forall i, In i keys -> (i < length two)%nat) ->
  str_loop keys one two =
  Ok match lexicographic string String.compare (map (str_value one) keys)
                         (map (str_value two) keys) with
     | Eq => None
     | Lt => Some (-1)%Z
     | Gt => Some 1%Z
     end.
Proof.
  unfold str_loop.
  induction keys as [|i keys IH]; intros H1 H2; simpl; [reflexivity|].
  rewrite (getitem_nth _ _ (H1 i (or_introl eq_refl))).
  rewrite (getitem_nth _ _ (H2 i (or_introl eq_refl))). simpl.
  unfold str_lt, str_gt, str_value.
  destruct (String.compare (nth i one EmptyString) (nth i two EmptyString));
    try reflexivity.
  apply IH; intros j Hj; [apply H1|apply H2]; now right.
Qed.

Variable self : MergeAdd.

(** On records whose keys are present and well formed,
    [compare_fields] returns, and follows the total order. *)
Lemma compare_fields_follows_order (one two : fields) :
  well_keyed self one -> well_keyed self two ->
  compare_fields self one two = Ok (sign (total_order self one two)).
Proof.
  intros [Hp1 Hi1] [Hp2 Hi2].
  rewrite compare_fields_loops. unfold total_order.
  rewrite int_loop_lexicographic, str_loop_lexicographic.
  - destruct (lexicographic Z _ _ _); try reflexivity.
    destruct (lexicographic string _ _ _); try reflexivity.
    destruct (Nat.compare_spec (length one) (length two)) as [E|E|E].
    + rewrite E, Nat.ltb_irrefl. reflexivity.
    + rewrite (proj2 (Nat.ltb_ge _ _)) by lia.
      now rewrite (proj2 (Nat.ltb_lt _ _) E).
    + now rewrite (proj2 (Nat.ltb_lt _ _) E).
  - intros i Hi. apply Hp1, in_or_app. now right.
  - intros i Hi. apply Hp2, in_or_app. now right.
  - intros i Hi. split; [apply Hp1, in_or_app; now left|now apply Hi1].
  - intros i Hi. split; [apply Hp2, in_or_app; now left|now apply Hi2].
Qed.

(** C8, as the code has it.  On records whose key positions are present
    and whose integer keys are integers, [compare_fields] returns, and
    its answer is -1, 0 or 1 according to the total order of the design
    document: integer keys first, as numbers, then string keys, then
    field counts.  It answers 0 exactly when the integer keys have the
    same values, the string keys are the same strings and the field
    counts are the same. *)
Theorem compare_fields_total_order (one two : fields) :
  well_keyed self one -> well_keyed self two ->
  compare_fields self one two = Ok (sign (total_order self one two)) /\
  (exists r, compare_fields self one two = Ok r /\
             (r = (-1)%Z \/ r = 0%Z \/ r = 1%Z)) /\
  (compare_fields self one two = Ok 0%Z <->
   map (int_value one) (intkeys self) = map (int_value two) (intkeys self) /\
   map (str_value one) (strkeys self) = map (str_value two) (strkeys self) /\
   length one = length two).
Proof.
  intros H1 H2.
  pose proof (compare_fields_follows_order one two H1 H2) as Hspec.
  split; [exact Hspec|]. split.
  - exists (sign (total_order self one two)). split; [exact Hspec|].
    destruct (total_order self one two); simpl; tauto.
  - rewrite Hspec. unfold total_order.
    rewrite <- (lexicographic_eq Z Z.compare _ _ Z.compare_eq_iff)
      by (now rewrite !length_map).
    rewrite <- (lexicographic_eq string String.compare)
      by first [ now rewrite !length_map
               | intros x y; split;
                 [apply String.compare_eq_iff
                 |intros ->; apply string_compare_refl] ].
    rewrite <- Nat.compare_eq_iff.
    destruct (lexicographic Z _ _ _); simpl;
      [|split; [discriminate|intros ([=] & _)]..].
    destruct (lexicographic string _ _ _); simpl;
      [|split; [discriminate|intros (_ & [=] & _)]..].
    destruct (Nat.compare (length one) (length two)); simpl;
      split; try discriminate; try tauto; intros (_ & _ & [=]).
Qed.

End TotalOrder.

Lemma compare_fields_total_order_witness :
  let one := ["01"; "a"; "5"]%string in
  let two := ["1"; "b"]%string in
  well_keyed scenario_roles one /\ well_keyed scenario_roles two /\
  compare_fields scenario_roles one two = Ok (-1)%Z.
Proof.
  assert (forall record n,
            (2 <= length record)%nat ->
            parse_int (nth 0 record EmptyString) = Some n ->
            well_keyed scenario_roles record) as Hkeyed.
  { intros record n Hlen Hn. split.
    - intros i [<-|[<-|[]]]; lia.
    - intros i [<-|[]]. now exists n. }
  assert (well_keyed scenario_roles ["01"; "a"; "5"]%string) as H1
    by (apply (Hkeyed _ 1%Z); [simpl; lia|reflexivity]).
  assert (well_keyed scenario_roles ["1"; "b"]%string) as H2
    by (apply (Hkeyed _ 1%Z); [simpl; lia|reflexivity]).
  split; [exact H1|]. split; [exact H2|].
  exact (proj1 (compare_fields_total_order scenario_roles _ _ H1 H2)).
Defined.

(** C8 as it is written does not hold: [compare_fields] answers 0 for
    two records whose integer key is written "01" in one and "1" in the
    other. *)
Lemma compare_fields_zero_not_identical :
  ~ (forall (self : MergeAdd) (one two : fields),
       well_keyed self one -> well_keyed self two ->
       (compare_fields self one two = Ok 0%Z <->
        (forall i, In i (intkeys self ++ strkeys self) ->
                   nth_error one i = nth_error two i) /\
        length one = length two)).
Proof.
  intros H.
  specialize (H {| intkeys := [0%nat]; strkeys := []; sums := [] |}
                ["01"%string] ["1"%string]).
  assert (forall x n, parse_int x = Some n ->
            well_keyed {| intkeys := [0%nat]; strkeys := []; sums := [] |} [x])
    as Hkeyed.
  { intros x n Hn. split.
    - intros i [<-|[]]. simpl. lia.
    - intros i [<-|[]]. now exists n. }
  destruct (H (Hkeyed "01"%string 1%Z eq_refl) (Hkeyed "1"%string 1%Z eq_refl))
    as [Hzero _].
  destruct (Hzero eq_refl) as [Hsame _].
  specialize (Hsame 0%nat (or_introl eq_refl)). discriminate Hsame.
Qed.

(* ================================================================== *)
(** * The merge of two sorted runs is sorted *)
(* ================================================================== *)

Section Sortedness.

Variable self : MergeAdd.

Lemma le_ext_left one one' two :
  same_view self one one' -> le self one two -> le self one' two.
Proof.
  intros Hv. unfold le. now rewrite (compare_fields_ext_left self _ _ two Hv).
Qed.

Lemma le_ext_right one two two' :
  same_view self two two' -> le self one two -> le self one two'.
Proof.
  intros Hv. unfold le. now rewrite (compare_fields_ext_right self one _ _ Hv).
Qed.

Lemma HdRel_ext_left one one' l :
  same_view self one one' -> HdRel (le self) one l -> HdRel (le self) one' l.
Proof.
  intros Hv H. destruct H; constructor. eapply le_ext_left; eassumption.
Qed.

Lemma compare_negative_le one two r :
  compare_fields self one two = Ok r -> (r <? 0)%Z = true -> le self one two.
Proof.
  intros Hc Hr. apply Z.ltb_lt in Hr.
  destruct (compare_fields_range self _ _ _ Hc) as [->|[->| ->]];
    [now left|lia|lia].
Qed.

Lemma compare_positive_le one two r :
  compare_fields self one two = Ok r ->
  (r =? 0)%Z = false -> (r <? 0)%Z = false -> le self two one.
Proof.
  intros Hc H0 Hr. apply Z.eqb_neq in H0. apply Z.ltb_ge in Hr.
  destruct (compare_fields_range self _ _ _ Hc) as [->|[->| ->]]; try lia.
  left. apply (compare_fields_antisym self _ _ _ Hc).
Qed.

Lemma records_cons line handle :
  records (line :: handle) = split tab line :: records handle.
Proof. reflexivity. Qed.

Lemma records_join_cons current handle :
  current <> [] -> Forall (free_of tab) current ->
  records (join_tab current :: handle) = current :: records handle.
Proof. intros Hne Hfree. now rewrite records_cons, split_join_tab. Qed.

(** What a final loop writes is in order, and is not before what the
    line it starts from is not before. *)
Lemma drain_sorted line handle :
  Sorted (le self) (records (line :: handle)) ->
  Sorted (le self) (records (drain line handle)) /\
  (forall x, le self x (split tab line) ->
             HdRel (le self) x (records (drain line handle))).
Proof.
  revert line. induction handle as [|next handle IH]; intros line Hs.
  - destruct line as [|c line].
    + simpl. split; [|intros x Hx]; constructor.
    + change (drain (String c line) []) with [String c line].
      rewrite records_cons. split.
      * repeat constructor.
      * intros x Hx. now constructor.
  - destruct line as [|c line].
    + simpl. split; [|intros x Hx]; constructor.
    + change (drain (String c line) (next :: handle))
        with (String c line :: drain next handle).
      rewrite !records_cons in *.
      apply Sorted_inv in Hs. destruct Hs as [Hs Hhd].
      destruct (IH next Hs) as [Hsorted Hbound]. split.
      * constructor; [exact Hsorted|]. apply Hbound.
        now inversion Hhd.
      * intros x Hx. now constructor.
Qed.

Lemma drain_fields_sorted current handle :
  current <> [] -> Forall (free_of tab) current ->
  Sorted (le self) (current :: records handle) ->
  Sorted (le self) (records (drain (join_tab current) handle)) /\
  (forall x, le self x current ->
             HdRel (le self) x (records (drain (join_tab current) handle))).
Proof.
  intros Hne Hfree Hs.
  rewrite <- (records_join_cons _ _ Hne Hfree) in Hs.
  destruct (drain_sorted _ _ Hs) as [H1 H2]. split; [exact H1|].
  intros x Hx. apply H2. now rewrite split_join_tab.
Qed.

Lemma sorted_tail one two rest :
  Sorted (le self) (one :: two :: rest) ->
  le self one two /\ Sorted (le self) (two :: rest).
Proof.
  intros H. apply Sorted_inv in H. destruct H as [Hs Hhd].
  split; [now inversion Hhd|exact Hs].
Qed.

Hypothesis apart : sums_apart self.

Lemma sorted_sum have_fields to_merge_fields summed rest :
  sum_fields self have_fields to_merge_fields = Ok summed ->
  Sorted (le self) (have_fields :: rest) ->
  Sorted (le self) (summed :: rest).
Proof.
  intros Hsum Hs. apply Sorted_inv in Hs. destruct Hs as [Hs Hhd].
  constructor; [exact Hs|].
  apply (HdRel_ext_left have_fields); [|exact Hhd].
  apply same_view_sym. now apply (sum_fields_same_view self _ to_merge_fields).
Qed.

Lemma merge_loop_sorted have have_fields to_merge_fields to_merge :
  have_fields <> [] -> to_merge_fields <> [] ->
  Forall (free_of tab) have_fields -> Forall (free_of tab) to_merge_fields ->
  Sorted (le self) (have_fields :: records have) ->
  Sorted (le self) (to_merge_fields :: records to_merge) ->
  Sorted (le self)
    (records (fst (merge_loop self have have_fields to_merge_fields to_merge)))
  /\
  (forall x, le self x have_fields -> le self x to_merge_fields ->
     HdRel (le self) x
       (records
          (fst (merge_loop self have have_fields to_merge_fields to_merge)))).
Proof.
  pattern have, have_fields, to_merge_fields, to_merge.
  apply merge_loop_ind. clear have have_fields to_merge_fields to_merge.
  intros have hf tf tm IHto IHhave Hne1 Hne2 Hfree1 Hfree2 Hs1 Hs2.
  rewrite merge_loop_unfold.
  destruct (at_end hf || at_end tf) eqn:Eend.
  { (* one input is at its end *)
    unfold drain_both, fst.
    destruct (at_end hf) eqn:E1.
    - apply at_end_true in E1. subst hf. simpl join_tab.
      rewrite drain_empty. simpl app.
      destruct (drain_fields_sorted tf tm Hne2 Hfree2 Hs2) as [H1 H2].
      split; [exact H1|]. intros x _ Hx. now apply H2.
    - simpl in Eend. apply at_end_true in Eend. subst tf. simpl join_tab.
      rewrite drain_empty, app_nil_r.
      destruct (drain_fields_sorted hf have Hne1 Hfree1 Hs1) as [H1 H2].
      split; [exact H1|]. intros x Hx _. now apply H2. }
  destruct (compare_fields self hf tf) as [r|e] eqn:Ec;
    [|split; [|intros x _ _]; constructor].
  destruct (r =? 0)%Z eqn:E0.
  { (* same keys: sum, read the second input *)
    apply Z.eqb_eq in E0. subst r.
    destruct (sum_fields self hf tf) as [s|e] eqn:Es;
      [|split; [|intros x _ _]; constructor].
    pose proof (sum_fields_same_view self _ _ _ apart Es) as Hview.
    assert (s <> []) as Hne.
    { destruct Hview as (_ & _ & Hlen). destruct s; [|discriminate].
      destruct hf; [congruence|discriminate]. }
    pose proof (sum_fields_free self _ _ _ Hfree1 Es) as Hfree.
    pose proof (sorted_sum _ _ _ _ Es Hs1) as Hs.
    destruct tm as [|l tm'].
    - unfold drain_both, fst. simpl join_tab at 2.
      rewrite drain_empty, app_nil_r.
      destruct (drain_fields_sorted s have Hne Hfree Hs) as [H1 H2].
      split; [exact H1|]. intros x Hx _. apply H2.
      apply (le_ext_right x hf); [now apply same_view_sym|exact Hx].
    - rewrite records_cons in Hs2. apply sorted_tail in Hs2.
      destruct Hs2 as [Hle Hs2].
      destruct (IHto l tm' s eq_refl Hne (split_not_nil _ _) Hfree
                  (split_free _ _) Hs Hs2) as [H1 H2].
      split; [exact H1|]. intros x Hx1 Hx2. apply H2.
      + apply (le_ext_right x hf); [now apply same_view_sym|exact Hx1].
      + now apply (le_trans self x tf). }
  destruct (r <? 0)%Z eqn:Er.
  { (* the first input comes first *)
    pose proof (compare_negative_le _ _ _ Ec Er) as Hle.
    unfold emit, fst at 1 3. fold (@fst (list string) (result unit)).
    rewrite !(records_join_cons _ _ Hne1 Hfree1).
    assert (Sorted (le self) (records (fst
              match have with
              | [] => drain_both [EmptyString] [] tf tm
              | line :: have' => merge_loop self have' (split tab line) tf tm
              end)) /\
            HdRel (le self) hf (records (fst
              match have with
              | [] => drain_both [EmptyString] [] tf tm
              | line :: have' => merge_loop self have' (split tab line) tf tm
              end))) as [H1 H2].
    { destruct have as [|l have'].
      - unfold drain_both, fst. simpl join_tab at 1.
        rewrite drain_empty. simpl app.
        destruct (drain_fields_sorted tf tm Hne2 Hfree2 Hs2) as [H1 H2].
        split; [exact H1|now apply H2].
      - rewrite records_cons in Hs1. apply sorted_tail in Hs1.
        destruct Hs1 as [Hle1 Hs1].
        destruct (IHhave l have' eq_refl (split_not_nil _ _) Hne2
                    (split_free _ _) Hfree2 Hs1 Hs2) as [H1 H2].
        split; [exact H1|now apply H2]. }
    split; [now constructor|]. intros x Hx _. now constructor. }
  { (* the second input comes first *)
    pose proof (compare_positive_le _ _ _ Ec E0 Er) as Hle.
    unfold emit, fst at 1 3. fold (@fst (list string) (result unit)).
    rewrite !(records_join_cons _ _ Hne2 Hfree2).
    assert (Sorted (le self) (records (fst
              match tm with
              | [] => drain_both hf have [EmptyString] []
              | line :: to_merge' =>
                  merge_loop self have hf (split tab line) to_merge'
              end)) /\
            HdRel (le self) tf (records (fst
              match tm with
              | [] => drain_both hf have [EmptyString] []
              | line :: to_merge' =>
                  merge_loop self have hf (split tab line) to_merge'
              end))) as [H1 H2].
    { destruct tm as [|l tm'].
      - unfold drain_both, fst. simpl join_tab at 2.
        rewrite drain_empty, app_nil_r.
        destruct (drain_fields_sorted hf have Hne1 Hfree1 Hs1) as [H1 H2].
        split; [exact H1|now apply H2].
      - rewrite records_cons in Hs2. apply sorted_tail in Hs2.
        destruct Hs2 as [Hle2 Hs2].
        destruct (IHto l tm' hf eq_refl Hne1 (split_not_nil _ _)
                    Hfree1 (split_free _ _) Hs1 Hs2) as [H1 H2].
        split; [exact H1|now apply H2]. }
    split; [now constructor|]. intros x _ Hx. now constructor. }
Qed.

(** C7, as the code has it.  When no summed field is a key field, the
    lines [do_merge] writes from two sorted runs are a sorted run,
    whether it returns or raises on the way. *)
Theorem merge_keeps_order (have to_merge : file) :
  sorted_run self have -> sorted_run self to_merge ->
  sorted_run self (fst (do_merge self have to_merge)).
Proof.
  intros H1 H2. unfold do_merge, read_fields, readline_rstrip.
  assert (forall handle, sorted_run self handle ->
            let (line, rest) :=
              match handle with
              | [] => (EmptyString, [])
              | line :: rest => (line, rest)
              end in
            Sorted (le self) (split tab line :: records rest)) as Hread.
  { intros [|line rest] H; [repeat constructor|exact H]. }
  pose proof (Hread _ H1) as S1. pose proof (Hread _ H2) as S2.
  destruct have as [|l1 have']; destruct to_merge as [|l2 to_merge'];
    apply merge_loop_sorted; auto using split_not_nil, split_free.
Qed.

End Sortedness.

Lemma merge_keeps_order_witness :
  let have := [row "1" "a" "5"; row "2" "b" "1"] in
  let to_merge := [row "1" "b" "2"] in
  sums_apart scenario_roles /\
  sorted_run scenario_roles have /\ sorted_run scenario_roles to_merge /\
  sorted_run scenario_roles (fst (do_merge scenario_roles have to_merge)).
Proof.
  assert (sums_apart scenario_roles) as Ha.
  { intros i [<-|[]] [H|[H|[]]]; discriminate H. }
  assert (sorted_run scenario_roles [row "1" "a" "5"; row "2" "b" "1"]) as H1.
  { repeat constructor. }
  assert (sorted_run scenario_roles [row "1" "b" "2"]) as H2.
  { repeat constructor. }
  split; [exact Ha|]. split; [exact H1|]. split; [exact H2|].
  exact (merge_keeps_order scenario_roles Ha _ _ H1 H2).
Defined.

(** C7 as it is written does not hold when a summed field is also a
    key: with field 0 both the integer key and the summed field, the
    runs 5, 6 and 5 are sorted and their merge writes 10, then 6. *)
Lemma merge_breaks_order_of_summed_key :
  let self := {| intkeys := [0%nat]; strkeys := []; sums := [0%nat] |} in
  let have := ["5"; "6"]%string in
  let to_merge := ["5"%string] in
  sorted_run self have /\ sorted_run self to_merge /\
  fst (do_merge self have to_merge) = ["10"; "6"]%string /\
  ~ sorted_run self (fst (do_merge self have to_merge)).
Proof.
  repeat split.
  - repeat constructor.
  - repeat constructor.
  - intros H. apply Sorted_inv in H. destruct H as [_ H].
    inversion H as [|? ? Hle]; subst. destruct Hle as [Hle|Hle];
      vm_compute in Hle; discriminate Hle.
Qed.

(* ================================================================== *)
(** * [do_merge] and the merge that advances both inputs *)
(* ================================================================== *)

Section AdvanceBoth.

Variable self : MergeAdd.

Lemma advance_both_at_end have have_fields to_merge_fields to_merge :
  at_end have_fields || at_end to_merge_fields = true ->
  advance_both_loop self have have_fields to_merge_fields to_merge =
  drain_both have_fields have to_merge_fields to_merge.
Proof.
  intros H. destruct have; destruct to_merge; simpl; now rewrite H.
Qed.

(** One turn of the merge of the design document, in its own words. *)
Lemma advance_both_turn have have_fields to_merge_fields to_merge :
  advance_both_loop self have have_fields to_merge_fields to_merge =
  if at_end have_fields || at_end to_merge_fields then
    drain_both have_fields have to_merge_fields to_merge
  else
    match compare_fields self have_fields to_merge_fields with
    | Raise e => ([], Raise e)
    | Ok result =>
        if (result =? 0)%Z then
          match sum_fields self have_fields to_merge_fields with
          | Raise e => ([], Raise e)
          | Ok summed =>
              emit (join_tab summed)
                (let (have_fields', have') := read_fields have in
                 let (to_merge_fields', to_merge') := read_fields to_merge in
                 advance_both_loop self have' have_fields'
                                   to_merge_fields' to_merge')
          end
        else if (result <? 0)%Z then
          emit (join_tab have_fields)
            (let (have_fields', have') := read_fields have in
             advance_both_loop self have' have_fields' to_merge_fields to_merge)
        else
          emit (join_tab to_merge_fields)
            (let (to_merge_fields', to_merge') := read_fields to_merge in
             advance_both_loop self have have_fields to_merge_fields' to_merge')
    end.
Proof.
  unfold read_fields, readline_rstrip.
  destruct have as [|h have']; destruct to_merge as [|l tm'];
    cbv beta iota;
    rewrite ?(advance_both_at_end [] [EmptyString]) by reflexivity;
    rewrite ?(advance_both_at_end _ _ [EmptyString]) by apply orb_true_r;
    reflexivity.
Qed.

Lemma drain_step line handle :
  line <> EmptyString ->
  drain line handle =
  line :: (let (next, rest) := readline_rstrip handle in drain next rest).
Proof.
  destruct line; [congruence|]. intros _. destruct handle; reflexivity.
Qed.

(** At the end of the second input, what is held of the first input is
    written first, and the rest of the first input after it. *)
Lemma drain_both_held held have to_merge :
  held <> [] -> at_end held = false ->
  drain_both held have [EmptyString] to_merge =
  emit (join_tab held)
    (let (have_fields', have') := read_fields have in
     drain_both have_fields' have' [EmptyString] to_merge).
Proof.
  intros Hne Hend. unfold drain_both, emit, read_fields.
  rewrite (drain_step _ have (join_tab_not_empty _ Hne Hend)).
  destruct (readline_rstrip have) as [next rest].
  simpl fst. simpl snd. now rewrite join_tab_split.
Qed.

(** C1, first half: on records of the same keys [do_merge] writes
    nothing and reads the second input only; the sum takes the place of
    the record held of the first input. *)
Lemma merge_loop_same_keys have have_fields to_merge_fields to_merge summed :
  at_end have_fields || at_end to_merge_fields = false ->
  compare_fields self have_fields to_merge_fields = Ok 0%Z ->
  sum_fields self have_fields to_merge_fields = Ok summed ->
  merge_loop self have have_fields to_merge_fields to_merge =
  (let (to_merge_fields', to_merge') := read_fields to_merge in
   merge_loop self have summed to_merge_fields' to_merge').
Proof.
  intros Hend Hc Hs. rewrite merge_loop_turn, Hend, Hc, Hs. reflexivity.
Qed.

(** The sum is written at a later turn: when the second input is at its
    end or holds a record that comes after. *)
Lemma merge_loop_held have held to_merge_fields to_merge :
  held <> [] -> at_end held = false ->
  at_end to_merge_fields = true \/
  compare_fields self held to_merge_fields = Ok (-1)%Z ->
  merge_loop self have held to_merge_fields to_merge =
  emit (join_tab held)
    (let (have_fields', have') := read_fields have in
     merge_loop self have' have_fields' to_merge_fields to_merge).
Proof.
  intros Hne Hend H.
  destruct (at_end to_merge_fields) eqn:Et.
  - rewrite merge_loop_at_end by (rewrite Et; apply orb_true_r).
    apply at_end_true in Et. subst to_merge_fields.
    rewrite (drain_both_held _ _ _ Hne Hend).
    destruct (read_fields have) as [hf' have'].
    now rewrite merge_loop_at_end by apply orb_true_r.
  - destruct H as [H|H]; [discriminate|].
    rewrite merge_loop_turn, Hend, Et, H. reflexivity.
Qed.

Hypothesis apart : sums_apart self.

Lemma loops_agree n :
  forall have to_merge,
    (length have + length to_merge < n)%nat ->
    forall have_fields to_merge_fields,
      have_fields <> [] ->
      Sorted (before self) (to_merge_fields :: records to_merge) ->
      merge_loop self have have_fields to_merge_fields to_merge =
      advance_both_loop self have have_fields to_merge_fields to_merge.
Proof.
  induction n as [|n IH]; [lia|].
  intros have tm Hn hf tf Hne Hs.
  assert (forall tf' tm',
            Sorted (before self) (tf' :: records tm') ->
            (let (hf', have') := read_fields have in
             merge_loop self have' hf' tf' tm') =
            (let (hf', have') := read_fields have in
             advance_both_loop self have' hf' tf' tm') \/
            (length tm <= length tm')%nat) as Hhave.
  { intros tf' tm' Hs'.
    destruct (Nat.le_gt_cases (length tm) (length tm')) as [Hl|Hl];
      [now right|left].
    unfold read_fields, readline_rstrip. destruct have as [|h have'].
    - now rewrite merge_loop_at_end, advance_both_at_end.
    - apply IH; [simpl in Hn; lia|apply split_not_nil|exact Hs']. }
  rewrite (merge_loop_turn self have hf tf tm), advance_both_turn.
  destruct (at_end hf || at_end tf) eqn:Eend; [reflexivity|].
  apply orb_false_elim in Eend. destruct Eend as [Eh Et].
  destruct (compare_fields self hf tf) as [r|e] eqn:Ec; [|reflexivity].
  destruct (r =? 0)%Z eqn:E0.
  { apply Z.eqb_eq in E0. subst r.
    destruct (sum_fields self hf tf) as [s|e] eqn:Es; [|reflexivity].
    pose proof (sum_fields_same_view self _ _ _ apart Es) as Hview.
    pose proof (sum_fields_not_at_end self _ _ _ Es Eh) as Hends.
    assert (s <> []) as Hnes.
    { destruct Hview as (_ & _ & Hlen). destruct s; [|discriminate].
      destruct hf; [congruence|discriminate]. }
    destruct tm as [|l tm'];
      change (read_fields []) with ([EmptyString], @nil string);
      try change (read_fields (l :: tm')) with (split tab l, tm');
      cbv beta iota.
    - rewrite (merge_loop_held have s _ _ Hnes Hends) by now left.
      f_equal. destruct (read_fields have) as [hf' have'].
      now rewrite merge_loop_at_end, advance_both_at_end
        by apply orb_true_r.
    - rewrite records_cons in Hs. apply Sorted_inv in Hs.
      destruct Hs as [Hs Hhd].
      rewrite (merge_loop_held have s _ _ Hnes Hends).
      + f_equal. destruct (Hhave (split tab l) tm' Hs) as [H|H];
          [|simpl in H; lia].
        destruct (read_fields have) as [hf' have']. exact H.
      + right.
        rewrite (compare_fields_ext_left self _ _ _ Hview).
        rewrite (compare_fields_ext_left self _ _ _
                   (compare_fields_zero_view self _ _ Ec)).
        now inversion Hhd. }
  destruct (r <? 0)%Z.
  - f_equal. unfold read_fields, readline_rstrip. destruct have as [|h have'].
    + now rewrite merge_loop_at_end, advance_both_at_end.
    + apply IH; [simpl in Hn; lia|apply split_not_nil|exact Hs].
  - f_equal. unfold read_fields, readline_rstrip. destruct tm as [|l tm'].
    + now rewrite merge_loop_at_end, advance_both_at_end by apply orb_true_r.
    + rewrite records_cons in Hs. apply Sorted_inv in Hs.
      apply IH; [simpl in Hn; lia|exact Hne|tauto].
Qed.

(** C1, as the code has it.  On two records of the same keys [do_merge]
    writes nothing, puts their sum in the place of the record of the
    first input and reads the second input only; the sum is written at
    a later turn.  When no summed field is a key field and no two
    successive records of the second input have the same keys, the
    lines written and the way [do_merge] ends are nevertheless those
    of the merge that writes the sum at once and advances both inputs. *)
Theorem merge_advances_second_input (have to_merge : file) :
  strict_run self to_merge ->
  (forall have_fields to_merge_fields summed,
     at_end have_fields || at_end to_merge_fields = false ->
     compare_fields self have_fields to_merge_fields = Ok 0%Z ->
     sum_fields self have_fields to_merge_fields = Ok summed ->
     merge_loop self have have_fields to_merge_fields to_merge =
     (let (to_merge_fields', to_merge') := read_fields to_merge in
      merge_loop self have summed to_merge_fields' to_merge')) /\
  do_merge self have to_merge = advance_both_merge self have to_merge.
Proof.
  intros Hstrict. split.
  - intros hf tf s. apply merge_loop_same_keys.
  - unfold do_merge, advance_both_merge, read_fields, readline_rstrip.
    destruct have as [|h have']; destruct to_merge as [|l tm'];
      (eapply loops_agree;
       [apply Nat.lt_succ_diag_r
       |apply split_not_nil
       |first [exact Hstrict|repeat constructor]]).
Qed.

End AdvanceBoth.

Lemma scenario_roles_apart : sums_apart scenario_roles.
Proof. intros i [<-|[]] [H|[H|[]]]; discriminate H. Qed.

Lemma merge_advances_second_input_witness :
  let have := [row "1" "a" "5"; row "2" "b" "1"] in
  let to_merge := [row "1" "a" "3"; row "3" "c" "1"] in
  sums_apart scenario_roles /\ strict_run scenario_roles to_merge /\
  do_merge scenario_roles have to_merge
  = advance_both_merge scenario_roles have to_merge.
Proof.
  assert (strict_run scenario_roles [row "1" "a" "3"; row "3" "c" "1"]) as H
    by (repeat constructor).
  split; [exact scenario_roles_apart|]. split; [exact H|].
  exact (proj2 (merge_advances_second_input scenario_roles
                  scenario_roles_apart _ _ H)).
Defined.

(** C1 as it is written does not hold: when the second run has two
    successive records of the same keys, [do_merge] adds both to the
    record of the first run, where the merge that advances both inputs
    writes the first sum and then the second record. *)
Lemma merge_differs_from_advance_both :
  let have := [row "1" "a" "5"] in
  let to_merge := [row "1" "a" "3"; row "1" "a" "2"] in
  sorted_run scenario_roles have /\ sorted_run scenario_roles to_merge /\
  do_merge scenario_roles have to_merge = ([row "1" "a" "10"], Ok tt) /\
  advance_both_merge scenario_roles have to_merge
  = ([row "1" "a" "8"; row "1" "a" "2"], Ok tt) /\
  do_merge scenario_roles have to_merge
  <> advance_both_merge scenario_roles have to_merge.
Proof.
  split; [repeat constructor|].
  split; [constructor; [repeat constructor|]; constructor; right; reflexivity|].
  split; [reflexivity|]. split; [reflexivity|].
  vm_compute. discriminate.
Qed.

(* ================================================================== *)
(** * Two runs that share one pair of records of the same keys *)
(* ================================================================== *)

Section SharedPair.

Variable self : MergeAdd.

Lemma at_end_split_line line :
  line <> EmptyString -> at_end (split tab line) = false.
Proof.
  intros H. destruct (at_end (split tab line)) eqn:E; [|reflexivity].
  now apply at_end_split in E.
Qed.

Lemma pending_line line handle :
  line <> EmptyString -> pending (split tab line) handle = line :: handle.
Proof.
  intros H. unfold pending.
  now rewrite (at_end_split_line _ H), join_tab_split.
Qed.

Lemma pending_records_line line handle :
  line <> EmptyString ->
  pending_records (split tab line) handle = records (line :: handle).
Proof.
  intros H. unfold pending_records. now rewrite (at_end_split_line _ H).
Qed.

Lemma drain_pending current handle :
  current <> [] -> no_empty_line handle ->
  drain (join_tab current) handle = pending current handle.
Proof.
  intros Hne Hh. unfold pending. destruct (at_end current) eqn:E.
  - apply at_end_true in E. subst current. apply drain_empty.
  - apply drain_all. constructor; [|exact Hh].
    now apply join_tab_not_empty.
Qed.

(** When no record of one input has the keys of a record of the other,
    [do_merge] writes the lines of both, each once and as it is. *)
Lemma merge_loop_disjoint have have_fields to_merge_fields to_merge :
  no_empty_line have -> no_empty_line to_merge ->
  have_fields <> [] -> to_merge_fields <> [] ->
  (forall x y,
     In x (pending_records have_fields have) ->
     In y (pending_records to_merge_fields to_merge) ->
     compare_fields self x y = Ok (-1)%Z \/ compare_fields self x y = Ok 1%Z) ->
  exists out,
    merge_loop self have have_fields to_merge_fields to_merge = (out, Ok tt) /\
    Permutation out
      (pending have_fields have ++ pending to_merge_fields to_merge).
Proof.
  pattern have, have_fields, to_merge_fields, to_merge.
  apply merge_loop_ind. clear have have_fields to_merge_fields to_merge.
  intros have hf tf tm IHto IHhave Hh Ht Hne1 Hne2 Hcross.
  rewrite merge_loop_unfold.
  assert (drain_both hf have tf tm = (pending hf have ++ pending tf tm, Ok tt))
    as Hdrain.
  { unfold drain_both. now rewrite !drain_pending. }
  destruct (at_end hf) eqn:Eh; [exists (pending hf have ++ pending tf tm); auto|].
  destruct (at_end tf) eqn:Et; [exists (pending hf have ++ pending tf tm); auto|].
  simpl orb. cbv iota.
  assert (In hf (pending_records hf have)) as Hin1
    by (unfold pending_records; rewrite Eh; now left).
  assert (In tf (pending_records tf tm)) as Hin2
    by (unfold pending_records; rewrite Et; now left).
  unfold pending at 1 2. rewrite Eh, Et.
  destruct (Hcross hf tf Hin1 Hin2) as [Hc|Hc]; rewrite Hc;
    simpl Z.eqb; simpl Z.ltb; cbv iota.
  - (* the first input comes first *)
    destruct have as [|h have'].
    + exists (join_tab hf :: join_tab tf :: tm). split; [|reflexivity].
      unfold emit, drain_both. simpl join_tab at 2.
      rewrite drain_empty, (drain_pending _ _ Hne2 Ht).
      unfold pending. now rewrite Et.
    + inversion Hh as [|? ? Hline Hh']; subst.
      destruct (IHhave h have' eq_refl Hh' Ht (split_not_nil _ _) Hne2)
        as (out & Hout & Hperm).
      * intros x y Hx Hy. apply Hcross; [|exact Hy].
        rewrite (pending_records_line _ _ Hline) in Hx.
        unfold pending_records. rewrite Eh. now right.
      * exists (join_tab hf :: out). rewrite Hout. split; [reflexivity|].
        simpl. constructor.
        rewrite (pending_line _ _ Hline) in Hperm. unfold pending in Hperm.
        now rewrite Et in Hperm.
  - (* the second input comes first *)
    destruct tm as [|l tm'].
    + exists (join_tab tf :: join_tab hf :: have ++ []). split.
      * unfold emit, drain_both. simpl join_tab at 3.
        rewrite drain_empty, (drain_pending _ _ Hne1 Hh).
        unfold pending. now rewrite Eh.
      * rewrite app_nil_r.
        apply (Permutation_cons_app (join_tab hf :: have) []).
        now rewrite app_nil_r.
    + inversion Ht as [|? ? Hline Ht']; subst.
      destruct (IHto l tm' hf eq_refl Hh Ht' Hne1 (split_not_nil _ _))
        as (out & Hout & Hperm).
      * intros x y Hx Hy. apply Hcross; [exact Hx|].
        rewrite (pending_records_line _ _ Hline) in Hy.
        unfold pending_records. rewrite Et. now right.
      * exists (join_tab tf :: out). rewrite Hout. split; [reflexivity|].
        rewrite (pending_line _ _ Hline) in Hperm. unfold pending in Hperm.
        rewrite Eh in Hperm.
        now apply (Permutation_cons_app (join_tab hf :: have) (l :: tm')).
Qed.

Lemma le_Transitive : Relations_1.Transitive (le self).
Proof. intros x y z. apply le_trans. Qed.

(** In a sorted run a record is not after the records that follow it. *)
Lemma sorted_before_in (head : list fields) (x a : fields) (rest : list fields) :
  Sorted (le self) (head ++ a :: rest) -> In x head -> le self x a.
Proof.
  intros Hs Hx. apply (Sorted_StronglySorted le_Transitive) in Hs.
  induction head as [|y head IH]; [destruct Hx|].
  simpl in Hs. apply StronglySorted_inv in Hs. destruct Hs as [Hs Hall].
  destruct Hx as [->|Hx]; [|now apply IH].
  rewrite Forall_forall in Hall. apply Hall, in_or_app. right. now left.
Qed.

Lemma sorted_run_before (head : file) line (rest : file) x :
  Sorted (le self) (records (head ++ line :: rest)) ->
  In x (records head) -> le self x (split tab line).
Proof.
  unfold records. rewrite map_app. simpl map. apply sorted_before_in.
Qed.

Lemma sorted_app_tail (head rest : list fields) :
  Sorted (le self) (head ++ rest) -> Sorted (le self) rest.
Proof.
  induction head as [|y head IH]; [auto|].
  intros Hs. apply Sorted_inv in Hs. now apply IH.
Qed.

Lemma le_not_after one two :
  le self one two -> compare_fields self two one <> Ok (-1)%Z.
Proof.
  intros [H|H] Hc; apply (compare_fields_antisym self) in H;
    rewrite H in Hc; discriminate Hc.
Qed.

Variables line_a line_b : string.
Variables tail_a tail_b : file.
Variable summed : fields.

Hypothesis apart : sums_apart self.
Hypothesis same_keys :
  compare_fields self (split tab line_a) (split tab line_b) = Ok 0%Z.
Hypothesis sum_ok :
  sum_fields self (split tab line_a) (split tab line_b) = Ok summed.

Lemma merge_loop_pair n :
  forall head_a head_b,
    (length head_a + length head_b)%nat = n ->
    forall line_h have line_t to_merge,
      line_h :: have = (head_a ++ line_a :: tail_a)%list ->
      line_t :: to_merge = (head_b ++ line_b :: tail_b)%list ->
      no_empty_line (line_h :: have) -> no_empty_line (line_t :: to_merge) ->
      Sorted (le self) (records (line_h :: have)) ->
      Sorted (le self) (records (line_t :: to_merge)) ->
      (forall x y, In x (records (line_h :: have)) ->
                   In y (records (line_t :: to_merge)) ->
                   exists r, compare_fields self x y = Ok r) ->
      (forall x y, In x (records (head_a ++ tail_a)) ->
                   In y (records (line_t :: to_merge)) ->
                   compare_fields self x y <> Ok 0%Z) ->
      (forall y, In y (records (head_b ++ tail_b)) ->
                 compare_fields self (split tab line_a) y <> Ok 0%Z) ->
      exists out,
        merge_loop self have (split tab line_h) (split tab line_t) to_merge
        = (out, Ok tt) /\
        Permutation out
          (join_tab summed :: head_a ++ tail_a ++ head_b ++ tail_b).
Proof.
  pose proof (compare_fields_zero_view self _ _ same_keys) as Hab.
  pose proof (sum_fields_same_view self _ _ _ apart sum_ok) as Hsa.
  induction n as [|n IH];
    intros L1 M1 Hn lh have lt tm HX HY Hh Ht Hs1 Hs2 Hok Hu1 Hu2.
  all: rewrite merge_loop_unfold.
  all: inversion Hh as [|? ? Hlh Hh']; inversion Ht as [|? ? Hlt Ht']; subst.
  all: rewrite (at_end_split_line _ Hlh), (at_end_split_line _ Hlt);
    simpl orb; cbv iota.
  all: destruct (Hok (split tab lh) (split tab lt)
                   (or_introl eq_refl) (or_introl eq_refl)) as [r Hr];
    rewrite Hr.
  all: pose proof (compare_fields_range self _ _ _ Hr) as Hrange.
  - (* both heads are empty: the pair is read *)
    destruct L1; [|discriminate Hn]. destruct M1; [|discriminate Hn].
    simpl in HX, HY. injection HX as -> ->. injection HY as -> ->.
    rewrite same_keys in Hr. injection Hr as <-. simpl Z.eqb. cbv iota.
    rewrite sum_ok.
    assert (at_end summed = false) as Hends
      by (apply (sum_fields_not_at_end self _ _ _ sum_ok);
          now apply at_end_split_line).
    assert (summed <> []) as Hnes.
    { destruct Hsa as (_ & _ & Hlen). destruct summed; [|discriminate].
      pose proof (split_not_nil tab line_a).
      destruct (split tab line_a); [congruence|discriminate]. }
    destruct tail_b as [|l tm'].
    + exists (join_tab summed :: tail_a ++ []). split.
      * unfold drain_both. simpl join_tab at 2.
        rewrite drain_empty, (drain_pending _ _ Hnes Hh').
        unfold pending. now rewrite Hends.
      * simpl. now rewrite !app_nil_r.
    + inversion Ht' as [|? ? Hl Ht'']; subst.
      destruct (merge_loop_disjoint tail_a summed (split tab l) tm'
                  Hh' Ht'' Hnes (split_not_nil _ _)) as (out & Hout & Hperm).
      * intros x y Hx Hy.
        rewrite (pending_records_line _ _ Hl) in Hy.
        unfold pending_records in Hx. rewrite Hends in Hx.
        assert (exists r, compare_fields self x y = Ok r /\ r <> 0%Z)
          as (r & Hr & Hr0).
        { destruct Hx as [<-|Hx].
          - rewrite (compare_fields_ext_left self _ _ _ Hsa).
            destruct (Hok (split tab line_a) y (or_introl eq_refl)
                        (or_intror Hy)) as [r Hr].
            exists r. split; [exact Hr|]. intros ->. exact (Hu2 y Hy Hr).
          - destruct (Hok x y (or_intror Hx) (or_intror Hy)) as [r Hr].
            exists r. split; [exact Hr|]. intros ->.
            exact (Hu1 x y Hx (or_intror Hy) Hr). }
        rewrite Hr.
        destruct (compare_fields_range self _ _ _ Hr) as [->|[->| ->]];
          [now left|congruence|now right].
      * exists out. split; [exact Hout|].
        rewrite (pending_line _ _ Hl) in Hperm. unfold pending in Hperm.
        now rewrite Hends in Hperm.
  - destruct (Z.eqb_spec r 0) as [->|Hr0].
    { (* the keys are the same: this is the pair, no head is left *)
      exfalso. destruct L1 as [|l1 L1'].
      - destruct M1 as [|m1 M1']; [simpl in Hn; discriminate Hn|].
        simpl in HX, HY. injection HX as -> ->. injection HY as -> ->.
        apply (Hu2 (split tab m1)); [now left|exact Hr].
      - simpl in HX. injection HX as -> ->.
        apply (Hu1 (split tab l1) (split tab lt)); [now left|now left|exact Hr]. }
    destruct (r <? 0)%Z eqn:Er.
    + (* the first input comes first: its head is not empty *)
      assert (r = (-1)%Z) as -> by (apply Z.ltb_lt in Er; lia).
      destruct L1 as [|l1 L1'].
      { exfalso. simpl in HX. injection HX as -> ->.
        rewrite (compare_fields_ext_left self _ _ _ Hab) in Hr.
        destruct M1 as [|m1 M1'].
        - simpl in HY. injection HY as -> ->.
          apply (le_not_after (split tab line_b) (split tab line_b));
            [|exact Hr].
          right. rewrite <- (compare_fields_ext_left self _ _ _ Hab).
          exact same_keys.
        - simpl in HY. injection HY as -> ->.
          apply (le_not_after (split tab m1) (split tab line_b)); [|exact Hr].
          apply (sorted_run_before (m1 :: M1') line_b tail_b);
            [exact Hs2|now left]. }
      simpl in HX. injection HX as -> ->.
      destruct (L1' ++ line_a :: tail_a)%list as [|h have'] eqn:Ehave;
        [destruct L1'; discriminate Ehave|].
      destruct (IH L1' M1 ltac:(simpl in Hn; lia) h have' lt tm
                  (eq_sym Ehave) HY Hh' Ht
                  (proj1 (Sorted_inv Hs1)) Hs2) as (out & Hout & Hperm).
      * intros x y Hx Hy. apply Hok; [now right|exact Hy].
      * intros x y Hx Hy. apply Hu1; [|exact Hy].
        simpl. now right.
      * exact Hu2.
      * exists (join_tab (split tab l1) :: out). rewrite Hout.
        split; [reflexivity|]. rewrite join_tab_split.
        apply (perm_trans (perm_skip l1 Hperm)). apply perm_swap.
    + (* the second input comes first: its head is not empty *)
      assert (r = 1%Z) as -> by (apply Z.ltb_ge in Er; lia).
      destruct M1 as [|m1 M1'].
      { exfalso. simpl in HY. injection HY as -> ->.
        rewrite <- (compare_fields_ext_right self _ _ _ Hab) in Hr.
        destruct L1 as [|l1 L1'].
        - simpl in HX. injection HX as -> ->.
          rewrite (compare_fields_ext_right self _ _ _ Hab) in Hr.
          rewrite same_keys in Hr. discriminate Hr.
        - simpl in HX. injection HX as -> ->.
          assert (le self (split tab l1) (split tab line_a)) as Hle.
          { apply (sorted_run_before (l1 :: L1') line_a tail_a);
              [exact Hs1|now left]. }
          destruct Hle as [Hle|Hle]; rewrite Hle in Hr; discriminate Hr. }
      simpl in HY. injection HY as -> ->.
      destruct (M1' ++ line_b :: tail_b)%list as [|l tm'] eqn:Etm;
        [destruct M1'; discriminate Etm|].
      destruct (IH L1 M1' ltac:(simpl in Hn; lia) lh have l tm'
                  HX (eq_sym Etm) Hh Ht'
                  Hs1 (proj1 (Sorted_inv Hs2))) as (out & Hout & Hperm).
      * intros x y Hx Hy. apply Hok; [exact Hx|now right].
      * intros x y Hx Hy. apply Hu1; [exact Hx|now right].
      * intros y Hy. apply Hu2. simpl. now right.
      * exists (join_tab (split tab m1) :: out). rewrite Hout.
        split; [reflexivity|]. rewrite join_tab_split.
        change (join_tab summed :: L1 ++ tail_a ++ (m1 :: M1') ++ tail_b)%list
          with ((join_tab summed :: L1) ++ tail_a ++ m1 :: M1' ++ tail_b)%list.
        rewrite app_assoc.
        apply Permutation_cons_app. rewrite <- app_assoc. exact Hperm.
Qed.

End SharedPair.

Section SharedPairSum.

Variable self : MergeAdd.

(** [sum_fields] returns when the summed positions are summed once and
    hold integers in both records. *)
Lemma sum_loop_succeeds indexes infields to_add_fields :
  NoDup indexes ->
  (forall i, In i indexes ->
     exists x a y b,
       nth_error infields i = Some x /\ parse_int x = Some a /\
       nth_error to_add_fields i = Some y /\ parse_int y = Some b) ->
  exists result, sum_loop indexes infields to_add_fields = Ok result.
Proof.
  revert infields. induction indexes as [|j indexes IH]; intros infields Hnd H.
  - now exists infields.
  - inversion Hnd as [|? ? Hj Hnd']; subst.
    destruct (H j (or_introl eq_refl)) as (x & a & y & b & Hx & Ha & Hy & Hb).
    simpl. unfold getitem. rewrite Hx. simpl. rewrite Ha, Hy. simpl. rewrite Hb.
    apply IH; [exact Hnd'|].
    intros i Hi. destruct (H i (or_intror Hi)) as (x' & a' & y' & b' & Hx' & R).
    exists x', a', y', b'. split; [|exact R].
    rewrite <- Hx'. apply setitem_other. intros ->. contradiction.
Qed.

Lemma well_keyed_compare one two :
  well_keyed self one -> well_keyed self two ->
  exists r, compare_fields self one two = Ok r.
Proof.
  intros H1 H2. eexists.
  apply compare_fields_follows_order; assumption.
Qed.

End SharedPairSum.

(** C6, as the code has it.  Take a field-role assignment where no
    summed position is a key position and none is listed twice, and
    two sorted runs without empty line, of records whose keys are
    present and well formed, that share exactly one pair of records of
    the same keys, with integers at the summed positions.  Then
    [do_merge] returns, and what it writes is, in some order, one
    record for the pair and every other line of the two runs as it is;
    no other line has the keys of the pair; the record of the pair has
    the keys of the pair, at each summed position the decimal writing
    of the sum of the two values, and elsewhere the fields of the
    record of the first run.  In the scenario of the design document,
    (1,a,5) merged with (1,a,3) gives (1,a,8). *)
Theorem merge_sums_shared_pair :
  (forall (self : MergeAdd)
     (head_a : file) (line_a : string) (tail_a : file)
     (head_b : file) (line_b : string) (tail_b : file),
     sums_apart self -> NoDup (sums self) ->
     no_empty_line (head_a ++ line_a :: tail_a) ->
     no_empty_line (head_b ++ line_b :: tail_b) ->
     Forall (well_keyed self) (records (head_a ++ line_a :: tail_a)) ->
     Forall (well_keyed self) (records (head_b ++ line_b :: tail_b)) ->
     sorted_run self (head_a ++ line_a :: tail_a) ->
     sorted_run self (head_b ++ line_b :: tail_b) ->
     compare_fields self (split tab line_a) (split tab line_b) = Ok 0%Z ->
     (forall x y, In x (records (head_a ++ tail_a)) ->
                  In y (records (head_b ++ line_b :: tail_b)) ->
                  compare_fields self x y <> Ok 0%Z) ->
     (forall y, In y (records (head_b ++ tail_b)) ->
                compare_fields self (split tab line_a) y <> Ok 0%Z) ->
     (forall i, In i (sums self) ->
        (i < length (split tab line_a))%nat /\
        (exists n, parse_int (nth i (split tab line_a) EmptyString) = Some n) /\
        (exists n, parse_int (nth i (split tab line_b) EmptyString) = Some n)) ->
     exists summed out,
       do_merge self (head_a ++ line_a :: tail_a) (head_b ++ line_b :: tail_b)
       = (out, Ok tt) /\
       Permutation out
         (join_tab summed :: head_a ++ tail_a ++ head_b ++ tail_b) /\
       (forall line, In line (head_a ++ tail_a ++ head_b ++ tail_b) ->
          compare_fields self (split tab line) (split tab line_a) <> Ok 0%Z) /\
       compare_fields self summed (split tab line_a) = Ok 0%Z /\
       length summed = length (split tab line_a) /\
       (forall i, In i (sums self) ->
          nth_error summed i
          = Some (str (int_value (split tab line_a) i
                       + int_value (split tab line_b) i))) /\
       (forall i, ~ In i (sums self) ->
          nth_error summed i = nth_error (split tab line_a) i)) /\
  do_merge scenario_roles [row "1" "a" "5"] [row "1" "a" "3"]
  = ([row "1" "a" "8"], Ok tt).
Proof.
  split; [|reflexivity].
  intros self head_a line_a tail_a head_b line_b tail_b.
  intros apart Hnd Hea Heb Hka Hkb Hsa Hsb Hsame Hu1 Hu2 Hnum.
  pose proof (compare_fields_zero_length self _ _ Hsame) as Hlen.
  pose proof (compare_fields_zero_view self _ _ Hsame) as Hab.
  (* the sum of the pair *)
  destruct (sum_loop_succeeds (sums self) (split tab line_a) (split tab line_b)
              Hnd) as [s Hloop].
  { intros i Hi. destruct (Hnum i Hi) as (Hi1 & [na Hna] & [nb Hnb]).
    exists (nth i (split tab line_a) EmptyString), na,
           (nth i (split tab line_b) EmptyString), nb.
    repeat split; try assumption; apply nth_error_nth'; lia. }
  assert (sum_fields self (split tab line_a) (split tab line_b) = Ok s) as Hsum.
  { unfold sum_fields. rewrite (proj2 (Nat.eqb_eq _ _) Hlen). exact Hloop. }
  pose proof (sum_fields_same_view self _ _ _ apart Hsum) as Hview.
  (* the merge *)
  assert (forall x y,
            In x (records (head_a ++ line_a :: tail_a)) ->
            In y (records (head_b ++ line_b :: tail_b)) ->
            exists r, compare_fields self x y = Ok r) as Hok.
  { intros x y Hx Hy. rewrite Forall_forall in Hka, Hkb.
    apply well_keyed_compare; auto. }
  assert (exists out,
            do_merge self (head_a ++ line_a :: tail_a)
                     (head_b ++ line_b :: tail_b) = (out, Ok tt) /\
            Permutation out
              (join_tab s :: head_a ++ tail_a ++ head_b ++ tail_b))
    as (out & Hout & Hperm).
  { unfold do_merge, read_fields, readline_rstrip.
    destruct (head_a ++ line_a :: tail_a)%list as [|lh have] eqn:EA;
      [destruct head_a; discriminate EA|].
    destruct (head_b ++ line_b :: tail_b)%list as [|lt tm] eqn:EB;
      [destruct head_b; discriminate EB|].
    apply (merge_loop_pair self line_a line_b tail_a tail_b s apart Hsame Hsum
             _ head_a head_b eq_refl); auto. }
  exists s, out. split; [exact Hout|]. split; [exact Hperm|].
  split; [|split; [|split; [|split]]].
  - intros line Hline.
    rewrite app_assoc in Hline. apply in_app_or in Hline.
    destruct Hline as [Hline|Hline].
    + rewrite (compare_fields_ext_right self _ _ _ Hab).
      apply Hu1; [now apply in_map|].
      apply in_map, in_or_app. right. now left.
    + intros Hc. apply (compare_fields_antisym self) in Hc.
      revert Hc. apply Hu2. now apply in_map.
  - rewrite (compare_fields_ext_left self _ _ _ Hview).
    rewrite (compare_fields_ext_right self _ _ _ Hab). exact Hsame.
  - eapply sum_loop_length; eassumption.
  - intros i Hi.
    destruct (sum_loop_value _ _ _ _ i Hnd Hloop Hi)
      as (x & a & y & b & Hx & Ha & Hy & Hb & Hres).
    rewrite Hres. unfold int_value.
    rewrite (nth_error_nth _ _ EmptyString Hx), Ha.
    rewrite (nth_error_nth _ _ EmptyString Hy), Hb. reflexivity.
  - intros i Hi. eapply sum_loop_other; eassumption.
Qed.

Lemma scenario_well_keyed (key title count : string) (n : Z) :
  parse_int key = Some n ->
  free_of tab key -> free_of tab title -> free_of tab count ->
  well_keyed scenario_roles (split tab (row key title count)).
Proof.
  intros Hn Hk Ht Hc. unfold row. rewrite split_join_tab.
  - split.
    + intros i [<-|[<-|[]]]; simpl; lia.
    + intros i [<-|[]]. now exists n.
  - discriminate.
  - repeat constructor; assumption.
Qed.

Lemma merge_sums_shared_pair_witness :
  exists summed out,
    do_merge scenario_roles
      ([row "1" "a" "5"] ++ row "2" "b" "4" :: [row "3" "c" "1"])
      ([] ++ row "2" "b" "3" :: [row "2" "c" "9"])
    = (out, Ok tt) /\
    Permutation out
      (join_tab summed
       :: [row "1" "a" "5"] ++ [row "3" "c" "1"] ++ [] ++ [row "2" "c" "9"]) /\
    nth_error summed 2 = Some "7"%string.
Proof.
  destruct (proj1 merge_sums_shared_pair scenario_roles
              [row "1" "a" "5"] (row "2" "b" "4") [row "3" "c" "1"]
              [] (row "2" "b" "3") [row "2" "c" "9"])
    as (summed & out & Hout & Hperm & _ & _ & _ & Hsum & _).
  - exact scenario_roles_apart.
  - repeat constructor. intros [].
  - repeat constructor; discriminate.
  - repeat constructor; discriminate.
  - cbn [records map app].
    repeat (apply Forall_cons;
            [eapply scenario_well_keyed;
             [reflexivity|unfold tab; simpl; intuition discriminate..]|]).
    apply Forall_nil.
  - cbn [records map app].
    repeat (apply Forall_cons;
            [eapply scenario_well_keyed;
             [reflexivity|unfold tab; simpl; intuition discriminate..]|]).
    apply Forall_nil.
  - repeat constructor.
  - repeat constructor.
  - reflexivity.
  - intros x y [<-|[<-|[]]] [<-|[<-|[]]]; vm_compute; discriminate.
  - intros y [<-|[]]; vm_compute; discriminate.
  - intros i [<-|[]]. split; [vm_compute; lia|].
    split; eexists; reflexivity.
  - exists summed, out. split; [exact Hout|]. split; [exact Hperm|].
    exact (Hsum 2%nat (or_introl eq_refl)).
Defined.

(** C6 as it is written does not hold when the summed field is also a
    key: with field 0 both the integer key and the summed field, the
    runs 5, 7 and 5, 10 are sorted and share the one pair (5, 5), whose
    sum is 10; their merge writes 20, then 7, and no record 10. *)
Lemma merge_sum_of_summed_key :
  let self := {| intkeys := [0%nat]; strkeys := []; sums := [0%nat] |} in
  let run_a := ["5"; "7"]%string in
  let run_b := ["5"; "10"]%string in
  sorted_run self run_a /\ sorted_run self run_b /\
  (forall x y, In x (records run_a) -> In y (records run_b) ->
     compare_fields self x y = Ok 0%Z <->
     x = ["5"%string] /\ y = ["5"%string]) /\
  sum_fields self ["5"%string] ["5"%string] = Ok ["10"%string] /\
  do_merge self run_a run_b = (["20"; "7"]%string, Ok tt) /\
  ~ In "10"%string (fst (do_merge self run_a run_b)).
Proof.
  split; [repeat constructor|]. split; [repeat constructor|].
  split.
  { intros x y [<-|[<-|[]]] [<-|[<-|[]]]; vm_compute;
      (split; [intros H|intros [H1 H2]]); try discriminate; auto. }
  split; [reflexivity|]. split; [reflexivity|].
  vm_compute. intros [H|[H|[]]]; discriminate H.
Qed.

(* ================================================================== *)
(** * The batches of the dumper *)
(* ================================================================== *)

Section Batches.

Open Scope Z_scope.

Variable self : WatchlistDumper.

Lemma partitions_app t1 t2 :
  partitions (t1 ++ t2) = (partitions t1 ++ partitions t2)%list.
Proof. apply flat_map_app. Qed.

Lemma then_fst_returned (A B : Type) (r : run A) (k : A -> run B) a :
  snd r = Returned a ->
  then_ r k = ((fst r ++ fst (k a))%list, snd (k a)).
Proof. intros H. unfold then_. now rewrite H. Qed.

Lemma do_one_query_returns q outpath verbose dryrun :
  snd (Dump.do_one_query q outpath verbose dryrun) = Returned tt.
Proof. destruct verbose, dryrun; reflexivity. Qed.

Lemma merge_returns merge_into to_merge merged_path verbose dryrun :
  snd (Dump.merge merge_into to_merge merged_path verbose dryrun) = Returned tt.
Proof. destruct verbose, dryrun; reflexivity. Qed.

Lemma when_tell_returns b e : snd (when b (tell e)) = Returned tt.
Proof. destruct b; reflexivity. Qed.

Lemma do_one_query_partitions start stop outpath verbose dryrun :
  partitions (fst (Dump.do_one_query (WatchlistRows start stop)
                     outpath verbose dryrun)) = [(start, stop)].
Proof. destruct verbose, dryrun; reflexivity. Qed.

Lemma merge_partitions merge_into to_merge merged_path verbose dryrun :
  partitions (fst (Dump.merge merge_into to_merge merged_path verbose dryrun))
  = [].
Proof. destruct verbose, dryrun; reflexivity. Qed.

Lemma spans_next startrow span k :
  spans startrow span (S k)
  = (startrow, startrow + span) :: spans (startrow + span) span k.
Proof.
  unfold spans. change (seq 0 (S k)) with (0%nat :: seq 1 k).
  rewrite map_cons. f_equal; [f_equal; lia|].
  rewrite <- seq_shift, map_map. apply map_ext. intros i.
  f_equal; lia.
Qed.

(** One turn of the loop of [dump_merge_batch]: one partition is
    fetched and merged, the cursor moves by one span. *)
Lemma batch_loop_turn fuel count maxid merge_into_path dumped_path
      verbose dryrun startrow index :
  (startrow <? maxid) && (index <? count) = true ->
  let rest :=
    batch_loop self fuel count maxid merge_into_path dumped_path
               verbose dryrun (startrow + batchsize self) (index + 1) in
  snd (batch_loop self (S fuel) count maxid merge_into_path dumped_path
                  verbose dryrun startrow index) = snd rest /\
  partitions (fst (batch_loop self (S fuel) count maxid merge_into_path
                              dumped_path verbose dryrun startrow index))
  = (startrow, startrow + batchsize self) :: partitions (fst rest).
Proof.
  intros Hcond. simpl batch_loop. rewrite Hcond.
  rewrite (then_fst_returned _ _ _ _ tt (do_one_query_returns _ _ _ _)).
  rewrite (then_fst_returned _ _ _ _ tt (merge_returns _ _ _ _ _)).
  rewrite (then_fst_returned _ _ _ _ tt (when_tell_returns _ _)).
  simpl fst. simpl snd. split; [reflexivity|].
  rewrite !partitions_app, do_one_query_partitions, merge_partitions.
  destruct dryrun; reflexivity.
Qed.

(** The loop of [dump_merge_batch] from [index] on: it fetches [k]
    successive partitions, each starting under [maxid], and returns the
    cursor after them; it stops when [index] has reached [count] or the
    cursor [maxid]. *)
Lemma batch_loop_spec fuel count maxid merge_into_path dumped_path
      verbose dryrun :
  forall startrow index,
    fuel = Z.to_nat (count - index) ->
    exists k : nat,
      Z.of_nat k <= Z.max 0 (count - index) /\
      snd (batch_loop self fuel count maxid merge_into_path dumped_path
                      verbose dryrun startrow index)
      = Returned (startrow + Z.of_nat k * batchsize self) /\
      partitions (fst (batch_loop self fuel count maxid merge_into_path
                                  dumped_path verbose dryrun startrow index))
      = spans startrow (batchsize self) k /\
      (forall i, (i < k)%nat ->
                 startrow + Z.of_nat i * batchsize self < maxid) /\
      (Z.of_nat k = Z.max 0 (count - index) \/
       maxid <= startrow + Z.of_nat k * batchsize self).
Proof.
  induction fuel as [|fuel IH]; intros startrow index Hfuel.
  - exists 0%nat. simpl. rewrite Z.add_0_r.
    repeat split; try reflexivity; lia.
  - destruct ((startrow <? maxid) && (index <? count)) eqn:Hcond.
    + destruct (batch_loop_turn fuel count maxid merge_into_path dumped_path
                  verbose dryrun startrow index Hcond) as [Hsnd Hparts].
      apply andb_prop in Hcond. destruct Hcond as [Hrow Hidx].
      apply Z.ltb_lt in Hrow, Hidx.
      destruct (IH (startrow + batchsize self) (index + 1) ltac:(lia))
        as (k & Hk & Hret & Hp & Hunder & Hstop).
      exists (S k). rewrite Hsnd, Hparts, Hret, Hp, spans_next.
      repeat split.
      * lia.
      * f_equal. lia.
      * intros [|i] Hi; [lia|].
        specialize (Hunder i ltac:(lia)). lia.
      * destruct Hstop as [Hstop|Hstop]; [left|right]; lia.
    + assert (maxid <= startrow \/ count <= index) as Hstop
        by (apply andb_false_iff in Hcond;
            destruct Hcond as [H|H]; apply Z.ltb_ge in H; lia).
      exists 0%nat. simpl batch_loop. rewrite Hcond. simpl.
      rewrite Z.add_0_r. repeat split; try reflexivity; lia.
Qed.

(** With rows to dump and more than one file to do,
    [dump_merge_batch] runs its loop and returns the cursor the loop
    ends on; the partitions are those of the loop. *)
Lemma dump_merge_batch_runs_loop count startrow maxid merge_into_path
      verbose dryrun cursor :
  startrow < maxid -> 1 < count ->
  snd (batch_loop self (Z.to_nat (count - 1)) count maxid merge_into_path
         (path_join (outdir self) (db_name self ++ "-watchlist-dumped.gz"))
         verbose dryrun startrow 1) = Returned cursor ->
  snd (dump_merge_batch self count startrow maxid merge_into_path
                        verbose dryrun) = Returned (Some cursor) /\
  partitions (fst (dump_merge_batch self count startrow maxid
                     merge_into_path verbose dryrun))
  = partitions
      (fst (batch_loop self (Z.to_nat (count - 1)) count maxid merge_into_path
              (path_join (outdir self) (db_name self ++ "-watchlist-dumped.gz"))
              verbose dryrun startrow 1)).
Proof.
  intros Hrow Hcount Hret. unfold dump_merge_batch, create_empty_file.
  rewrite (then_fst_returned _ _ _ _ tt (when_tell_returns _ _)).
  rewrite !Z.geb_leb, (proj2 (Z.leb_gt _ _) Hrow), (proj2 (Z.leb_gt _ _) Hcount).
  simpl orb. cbv iota.
  rewrite (then_fst_returned _ _ _ _ _ Hret).
  rewrite (then_fst_returned _ _ _ _ tt (when_tell_returns _ _)).
  simpl fst. simpl snd. split; [reflexivity|].
  rewrite !partitions_app.
  destruct dryrun; simpl; now rewrite ?app_nil_r.
Qed.


End Batches.

Section BatchScenarios.

Open Scope Z_scope.


(** The call of C2 that the code does not serve: one partition asked
    for with rows left to dump; nothing is fetched and [None] comes
    back, as if no row were left. *)
Lemma dump_merge_batch_count_one :
  dump_merge_batch scenario_dumper 1 1 500 "/tmp/w-batch-mergeinto.gz"
                   false false
  = ([CreateEmptyFile "/tmp/w-batch-mergeinto.gz"], Returned None).
Proof. reflexivity. Qed.

End BatchScenarios.

(* ================================================================== *)
(** * A dry run beside the real run *)
(* ================================================================== *)

Section DryRun.

Open Scope Z_scope.

Variable self : WatchlistDumper.

Lemma plan_app t1 t2 : plan (t1 ++ t2) = (plan t1 ++ plan t2)%list.
Proof. apply flat_map_app. Qed.

Lemma commands_app t1 t2 :
  commands (t1 ++ t2) = (commands t1 ++ commands t2)%list.
Proof. apply flat_map_app. Qed.

Lemma mirrors_then (A B : Type) (dry real : run A) (kd kr : A -> run B) :
  mirrors A dry real -> (forall a, mirrors B (kd a) (kr a)) ->
  mirrors B (then_ dry kd) (then_ real kr).
Proof.
  destruct dry as [td ed], real as [tr er].
  intros (He & Hp & Hc) Hk. simpl in He, Hp, Hc. subst er.
  unfold then_. simpl. destruct ed as [a| | |];
    try (repeat split; assumption).
  destruct (Hk a) as (He' & Hp' & Hc'). repeat split; simpl.
  - exact He'.
  - apply Forall_app. now split.
  - rewrite plan_app, commands_app. congruence.
Qed.

Ltac mirrors_by_cases verbose :=
  destruct verbose; repeat split; repeat constructor.

(** What a dry run leaves out: a change to the files that is no command. *)
Lemma mirrors_left_out e :
  is_print e = false -> run_by e = [] ->
  mirrors unit (when (negb true) (tell e)) (when (negb false) (tell e)).
Proof.
  intros _ Hrun. split; [reflexivity|]. split; [constructor|].
  change ([] = (run_by e ++ [])%list). now rewrite Hrun.
Qed.

(** What both runs print alike. *)
Lemma mirrors_print b m :
  planned_by (Print m) = [] ->
  mirrors unit (when b (tell (Print m))) (when b (tell (Print m))).
Proof.
  intros Hplan. destruct b.
  - split; [reflexivity|]. split; [repeat constructor|].
    change ((planned_by (Print m) ++ [])%list = []).
    now rewrite Hplan.
  - repeat split. constructor.
Qed.

Lemma mirrors_ret (A : Type) (a : A) : mirrors A (ret a) (ret a).
Proof. repeat split. constructor. Qed.

Lemma mirrors_merge merge_into to_merge merged_path verbose :
  mirrors unit (Dump.merge merge_into to_merge merged_path verbose true)
          (Dump.merge merge_into to_merge merged_path verbose false).
Proof. mirrors_by_cases verbose. Qed.

Lemma mirrors_do_one_query q outpath verbose :
  mirrors unit (Dump.do_one_query q outpath verbose true)
          (Dump.do_one_query q outpath verbose false).
Proof. mirrors_by_cases verbose. Qed.

Lemma mirrors_batch_loop fuel count maxid merge_into_path dumped_path verbose :
  forall startrow index,
    mirrors Z
      (batch_loop self fuel count maxid merge_into_path dumped_path
                  verbose true startrow index)
      (batch_loop self fuel count maxid merge_into_path dumped_path
                  verbose false startrow index).
Proof.
  induction fuel as [|fuel IH]; intros startrow index; simpl;
    [apply mirrors_ret|].
  destruct ((startrow <? maxid) && (index <? count)); [|apply mirrors_ret].
  apply mirrors_then; [apply mirrors_do_one_query|intros _].
  apply mirrors_then; [apply mirrors_merge|intros _].
  apply mirrors_then; [now apply mirrors_left_out|intros _].
  apply IH.
Qed.

Lemma mirrors_dump_merge_batch count startrow maxid merge_into_path verbose :
  mirrors (option Z)
    (dump_merge_batch self count startrow maxid merge_into_path verbose true)
    (dump_merge_batch self count startrow maxid merge_into_path verbose false).
Proof.
  unfold dump_merge_batch, create_empty_file.
  apply mirrors_then; [now apply mirrors_left_out|intros _].
  destruct ((startrow >=? maxid) || (1 >=? count)); [apply mirrors_ret|].
  apply mirrors_then; [apply mirrors_batch_loop|intros startrow'].
  apply mirrors_then; [now apply mirrors_left_out|intros _].
  apply mirrors_ret.
Qed.

Lemma mirrors_watchlist_loop fuel file_batch_count maxid
      all_merge_into_path batch_merge_into_path batch_merged_path verbose :
  forall startrow,
    mirrors unit
      (watchlist_loop self fuel file_batch_count maxid all_merge_into_path
                      batch_merge_into_path batch_merged_path verbose true
                      startrow)
      (watchlist_loop self fuel file_batch_count maxid all_merge_into_path
                      batch_merge_into_path batch_merged_path verbose false
                      startrow).
Proof.
  induction fuel as [|fuel IH]; intros [row|]; simpl;
    try apply mirrors_ret;
    destruct (negb (row =? 0) && (row <? maxid)); try apply mirrors_ret.
  - repeat split. constructor.
  - apply mirrors_then; [now apply mirrors_print|intros _].
    apply mirrors_then; [apply mirrors_dump_merge_batch|intros startrow'].
    apply mirrors_then; [|intros _; apply IH].
    destruct (truthy startrow'); [|apply mirrors_ret].
    apply mirrors_then; [now apply mirrors_print|intros _].
    apply mirrors_then; [apply mirrors_merge|intros _].
    now apply mirrors_left_out.
Qed.

(** [get_max_id] sends its query, dry run or not: it is not told which. *)
Lemma get_max_id_trace results fieldname tablename :
  fst (get_max_id results fieldname tablename)
  = [RunSql (MaxOf fieldname tablename)].
Proof.
  unfold get_max_id, then_. simpl.
  destruct results as [[|first [|second lines]]|]; try reflexivity.
  simpl. destruct second; [reflexivity|].
  destruct (negb _); [reflexivity|].
  destruct (parse_int _); reflexivity.
Qed.

(** In [Dump], where every command succeeds at its first try: a dry
    run of [dump_watchlist] sends the data base one query, the one of
    [get_max_id]; after it the dry run only prints; it ends as the
    real run ends and the commands it says it would run are, in order,
    the commands of the real run. *)
Lemma dry_run_beside_real fuel results file_batch_count
        out_path verbose :
  Forall (fun e => changes_files e = false)
    (fst (dump_watchlist self fuel results file_batch_count
                         out_path verbose true)) /\
  filter queries_database
    (fst (dump_watchlist self fuel results file_batch_count
                         out_path verbose true))
  = [RunSql (MaxOf "wl_id" "watchlist")] /\
  plan (fst (dump_watchlist self fuel results file_batch_count
                            out_path verbose true))
  = commands (fst (dump_watchlist self fuel results file_batch_count
                                  out_path verbose false)) /\
  snd (dump_watchlist self fuel results file_batch_count out_path verbose true)
  = snd (dump_watchlist self fuel results file_batch_count
                        out_path verbose false).
Proof.
  assert (forall (kd kr : option Z -> run unit),
            (forall m, mirrors unit (kd m) (kr m)) ->
            let dry := then_ (get_max_id results "wl_id" "watchlist") kd in
            let real := then_ (get_max_id results "wl_id" "watchlist") kr in
            Forall (fun e => changes_files e = false) (fst dry) /\
            filter queries_database (fst dry)
            = [RunSql (MaxOf "wl_id" "watchlist")] /\
            plan (fst dry) = commands (fst real) /\
            snd dry = snd real) as Hsplit.
  { intros kd kr Hk. unfold then_.
    pose proof (get_max_id_trace results "wl_id" "watchlist") as Htrace.
    destruct (get_max_id results "wl_id" "watchlist") as [t e].
    simpl in Htrace. subst t. simpl snd. simpl fst.
    destruct e as [m| | |]; simpl;
      try (repeat split; repeat constructor; fail).
    destruct (Hk m) as (He & Hp & Hc).
    assert (forall t, Forall (fun e => is_print e = true) t ->
              Forall (fun e => changes_files e = false) t /\
              filter queries_database t = []) as Hquiet.
    { induction t as [|e t IHt]; intros H; [split; constructor|].
      inversion H as [|? ? He0 Ht]; subst. destruct (IHt Ht) as [H1 H2].
      destruct e; try discriminate He0. split; [now constructor|exact H2]. }
    destruct (Hquiet _ Hp) as [H1 H2].
    repeat split; [now constructor|now rewrite H2|exact Hc|exact He]. }
  apply Hsplit. intros [maxid|].
  - destruct (maxid =? 0).
    + repeat split; repeat constructor.
    + unfold create_empty_file.
      apply mirrors_then; [|intros _].
      { destruct verbose; repeat split; repeat constructor. }
      apply mirrors_then; [now apply mirrors_left_out|intros _].
      apply mirrors_then; [apply mirrors_watchlist_loop|intros _].
      destruct verbose; repeat split; repeat constructor.
  - repeat split; repeat constructor.
Qed.

(** ** Enough fuel *)

Lemma then_snd_returned (A B : Type) (r : run A) (k : A -> run B) a :
  snd r = Returned a -> snd (then_ r k) = snd (k a).
Proof. intros H. now rewrite (then_fst_returned _ _ _ _ _ H). Qed.

Lemma when_returns b (r : run unit) :
  snd r = Returned tt -> snd (when b r) = Returned tt.
Proof. now destruct b. Qed.

(** With partitions of one row at least, a batch that has rows to dump
    returns [None] or a cursor further on. *)
Lemma dump_merge_batch_advances count startrow maxid merge_into_path
      verbose dryrun :
  1 <= batchsize self -> startrow < maxid ->
  exists next,
    snd (dump_merge_batch self count startrow maxid merge_into_path
                          verbose dryrun) = Returned next /\
    match next with
    | Some row => startrow < row
    | None => True
    end.
Proof.
  intros Hspan Hrow. destruct (Z.le_gt_cases count 1) as [Hc|Hc].
  - exists None. split; [|exact I]. unfold dump_merge_batch, create_empty_file.
    rewrite (then_snd_returned _ _ _ _ tt (when_tell_returns _ _)).
    rewrite !Z.geb_leb, (proj2 (Z.leb_le count 1) Hc), orb_true_r.
    reflexivity.
  - destruct (batch_loop_spec self (Z.to_nat (count - 1)) count maxid
                merge_into_path
                (path_join (outdir self) (db_name self ++ "-watchlist-dumped.gz"))
                verbose dryrun startrow 1 eq_refl)
      as (k & Hk & Hret & _ & _ & Hstop).
    destruct (dump_merge_batch_runs_loop self count startrow maxid
                merge_into_path verbose dryrun _ Hrow Hc Hret) as [Hsome _].
    eexists. split; [exact Hsome|]. simpl. nia.
Qed.

Lemma watchlist_loop_returns file_batch_count maxid all_merge_into_path
      batch_merge_into_path batch_merged_path verbose dryrun :
  1 <= batchsize self ->
  forall fuel startrow,
    (match startrow with
     | Some row => Z.to_nat (maxid - row)
     | None => 0
     end <= fuel)%nat ->
    snd (watchlist_loop self fuel file_batch_count maxid all_merge_into_path
                        batch_merge_into_path batch_merged_path
                        verbose dryrun startrow) = Returned tt.
Proof.
  intros Hspan. induction fuel as [|fuel IH]; intros [row|] Hfuel; simpl;
    try reflexivity;
    destruct (negb (row =? 0)); simpl; try reflexivity;
    destruct (Z.ltb_spec row maxid) as [Hrow|Hrow]; try reflexivity;
    [lia|].
  rewrite (then_snd_returned _ _ _ _ tt (when_tell_returns _ _)).
  destruct (dump_merge_batch_advances file_batch_count row maxid
              batch_merge_into_path verbose dryrun Hspan Hrow)
    as (next & Hret & Hnext).
  rewrite (then_snd_returned _ _ _ _ _ Hret).
  rewrite (then_snd_returned _ _ _ _ tt).
  - apply IH. destruct next as [row'|]; lia.
  - apply when_returns.
    rewrite (then_snd_returned _ _ _ _ tt (when_tell_returns _ _)).
    rewrite (then_snd_returned _ _ _ _ tt (merge_returns _ _ _ _ _)).
    apply when_tell_returns.
Qed.

(** With partitions of one row at least, [maxid] turns of its loop are
    enough for [dump_watchlist] to return. *)
Lemma dump_watchlist_returns fuel results file_batch_count out_path
      verbose dryrun maxid :
  1 <= batchsize self ->
  snd (get_max_id results "wl_id" "watchlist") = Returned (Some maxid) ->
  maxid <> 0 -> (Z.to_nat maxid <= fuel)%nat ->
  snd (dump_watchlist self fuel results file_batch_count out_path
                      verbose dryrun) = Returned tt.
Proof.
  intros Hspan Hmax Hnz Hfuel. unfold dump_watchlist, create_empty_file.
  rewrite (then_snd_returned _ _ _ _ _ Hmax).
  rewrite (proj2 (Z.eqb_neq _ _) Hnz).
  rewrite (then_snd_returned _ _ _ _ tt (when_tell_returns _ _)).
  rewrite (then_snd_returned _ _ _ _ tt (when_tell_returns _ _)).
  rewrite (then_snd_returned _ _ _ _ tt).
  - destruct dryrun; [reflexivity|]. now destruct verbose.
  - apply watchlist_loop_returns; [exact Hspan|lia].
Qed.

End DryRun.

(* ================================================================== *)
(** * Further properties of [sum_fields] and [compare_fields] *)
(* ================================================================== *)

Section IntStr.

Open Scope Z_scope.

Lemma lstrip_head c l : is_space c = false -> lstrip (c :: l) = c :: l.
Proof. intros H. simpl. now rewrite H. Qed.

Lemma strip_nothing l :
  Forall (fun c => is_space c = false) l -> strip l = l.
Proof.
  intros H. unfold strip.
  assert (forall l', Forall (fun c => is_space c = false) l' -> lstrip l' = l')
    as Hl.
  { intros [|c l'] H'; [reflexivity|]. apply lstrip_head. now inversion H'. }
  rewrite (Hl l H), Hl, rev_involutive; [reflexivity|].
  apply Forall_rev. exact H.
Qed.

Lemma digits_cons_digit acc after c l :
  is_digit c = true ->
  digits acc after (c :: l) = digits (10 * acc + digit_value c) true l.
Proof. intros H. simpl. now rewrite H. Qed.

Lemma digits_chars_of_uint acc after d :
  d <> Decimal.Nil \/ after = true ->
  digits acc after (list_ascii_of_string (NilEmpty.string_of_uint d))
  = Some (uint_value acc d).
Proof.
  revert acc after.
  induction d; intros acc after H.
  1: destruct H as [H|H]; [congruence|now subst].
  all: cbn [NilEmpty.string_of_uint list_ascii_of_string uint_value].
  all: rewrite digits_cons_digit by reflexivity.
  all: apply IHd; now right.
Qed.

Lemma chars_of_uint_no_space d :
  Forall (fun c => is_space c = false)
         (list_ascii_of_string (NilEmpty.string_of_uint d)).
Proof. induction d; simpl; constructor; auto. Qed.

Lemma uint_value_of_uint (a : N) d :
  uint_value (Z.of_N a) d
  = Z.of_N match a with
           | N0 => Pos.of_uint d
           | Npos p => Npos (Pos.of_uint_acc d p)
           end.
Proof.
  revert a. induction d; intros a.
  1: now destruct a.
  all: destruct a as [|p]; cbn [uint_value Pos.of_uint Pos.of_uint_acc].
  all: lazymatch goal with
       | |- _ = Z.of_N (Npos (Pos.of_uint_acc ?l ?q)) =>
           transitivity (uint_value (Z.of_N (Npos q)) l);
           [f_equal; lia|exact (IHd (Npos q))]
       | |- _ = Z.of_N (Pos.of_uint ?l) =>
           transitivity (uint_value (Z.of_N 0) l);
           [f_equal; reflexivity|exact (IHd 0%N)]
       end.
Qed.

Lemma uint_value_to_uint p : uint_value 0 (Pos.to_uint p) = Z.pos p.
Proof.
  rewrite (uint_value_of_uint 0%N).
  exact (DecimalZ.of_to (Z.pos p)).
Qed.

Lemma to_uint_not_nil p : Pos.to_uint p <> Decimal.Nil.
Proof.
  intros H. pose proof (uint_value_to_uint p) as Hv. rewrite H in Hv.
  discriminate Hv.
Qed.

(** What [str] writes, [int] reads back. *)
Lemma parse_int_str n : parse_int (str n) = Some n.
Proof.
  unfold parse_int, str, NilZero.string_of_int, NilZero.string_of_uint.
  destruct n as [|p|p]; [reflexivity|..]; simpl Z.to_int; cbv iota.
  - pose proof (to_uint_not_nil p) as Hnil.
    pose proof (chars_of_uint_no_space (Pos.to_uint p)) as Hsp.
    pose proof (digits_chars_of_uint 0 false (Pos.to_uint p) (or_introl Hnil))
      as Hd.
    rewrite uint_value_to_uint in Hd.
    destruct (Pos.to_uint p) eqn:E; try congruence;
      rewrite (strip_nothing _ Hsp); simpl list_ascii_of_string in *;
      cbv iota beta; exact Hd.
  - pose proof (to_uint_not_nil p) as Hnil.
    pose proof (chars_of_uint_no_space (Pos.to_uint p)) as Hsp.
    pose proof (digits_chars_of_uint 0 false (Pos.to_uint p) (or_introl Hnil))
      as Hd.
    rewrite uint_value_to_uint in Hd.
    assert (list_ascii_of_string
              (String "-" match Pos.to_uint p with
                          | Decimal.Nil => "0"%string
                          | _ => NilEmpty.string_of_uint (Pos.to_uint p)
                          end)
            = "-"%char :: list_ascii_of_string
                            (NilEmpty.string_of_uint (Pos.to_uint p))) as ->.
    { destruct (Pos.to_uint p); try congruence; reflexivity. }
    rewrite strip_nothing by (constructor; [reflexivity|exact Hsp]).
    cbv iota beta. rewrite Hd. reflexivity.
Qed.

End IntStr.

Section SumFieldsMore.

Open Scope Z_scope.

Variable self : MergeAdd.

Lemma int_key_ok record i n :
  int_key record i = Ok n <->
  exists x, nth_error record i = Some x /\ parse_int x = Some n.
Proof.
  unfold int_key, getitem, int. destruct (nth_error record i) as [x|]; simpl.
  - destruct (parse_int x) as [m|] eqn:E; split.
    + intros [= <-]. now exists x.
    + intros (y & [= <-] & H). congruence.
    + discriminate.
    + intros (y & [= <-] & H). congruence.
  - split; [discriminate|]. intros (y & H & _). discriminate H.
Qed.

Lemma int_key_int_value record i n :
  int_key record i = Ok n -> int_value record i = n.
Proof.
  intros H. apply int_key_ok in H. destruct H as (x & Hx & Hn).
  unfold int_value. now rewrite (nth_error_nth _ _ EmptyString Hx), Hn.
Qed.

Lemma int_key_setitem_same record i x n :
  nth_error record i = Some x ->
  int_key (setitem record i (str n)) i = Ok n.
Proof.
  intros Hx. apply int_key_ok. exists (str n).
  split; [eapply setitem_same; eassumption|apply parse_int_str].
Qed.

Lemma int_key_setitem_other record i j v :
  i <> j -> int_key (setitem record i v) j = int_key record j.
Proof.
  intros H. unfold int_key, getitem. now rewrite setitem_other.
Qed.

(** When the loop of [sum_fields] returns, the positions it was to sum
    held integers in both records. *)
Lemma sum_loop_needs indexes infields to_add_fields result :
  sum_loop indexes infields to_add_fields = Ok result ->
  forall i, In i indexes ->
    (exists n, int_key infields i = Ok n) /\
    (exists n, int_key to_add_fields i = Ok n).
Proof.
  revert infields. induction indexes as [|j indexes IH]; intros infields H i Hi.
  - destruct Hi.
  - apply sum_loop_cons in H.
    destruct H as (x & a & y & b & Hx & Ha & Hy & Hb & H).
    assert (int_key infields j = Ok a /\ int_key to_add_fields j = Ok b)
      as [Hja Hjb] by (split; apply int_key_ok; eauto).
    destruct (Nat.eq_dec j i) as [<-|Hne]; [split; eauto|].
    destruct Hi as [->|Hi]; [congruence|].
    destruct (IH _ H i Hi) as [H1 H2]. split; [|exact H2].
    now rewrite int_key_setitem_other in H1.
Qed.

(** And it returns whenever they do. *)
Lemma sum_loop_returns indexes infields to_add_fields :
  (forall i, In i indexes -> exists n, int_key infields i = Ok n) ->
  (forall i, In i indexes -> exists n, int_key to_add_fields i = Ok n) ->
  exists result, sum_loop indexes infields to_add_fields = Ok result.
Proof.
  revert infields. induction indexes as [|j indexes IH]; intros infields H1 H2.
  - now exists infields.
  - destruct (H1 j (or_introl eq_refl)) as [a Ha].
    destruct (H2 j (or_introl eq_refl)) as [b Hb].
    apply int_key_ok in Ha, Hb.
    destruct Ha as (x & Hx & Ha). destruct Hb as (y & Hy & Hb).
    simpl. unfold getitem. rewrite Hx. simpl. rewrite Ha, Hy. simpl. rewrite Hb.
    apply IH.
    + intros i Hi. destruct (Nat.eq_dec j i) as [<-|Hne].
      * eexists. eapply int_key_setitem_same; eassumption.
      * rewrite int_key_setitem_other by assumption. apply H1. now right.
    + intros i Hi. apply H2. now right.
Qed.

Lemma sum_loop_never_value_error indexes infields to_add_fields :
  sum_loop indexes infields to_add_fields <> Raise ValueError.
Proof.
  revert infields. induction indexes as [|j indexes IH]; intros infields;
    simpl; [discriminate|].
  unfold bad_line, whine, getitem.
  destruct (nth_error infields j) as [x|]; simpl; [|discriminate].
  destruct (parse_int x).
  - destruct (nth_error to_add_fields j) as [y|]; simpl; [|discriminate].
    destruct (parse_int y); [apply IH|discriminate].
  - destruct (nth_error to_add_fields j); discriminate.
Qed.

Lemma sum_fields_returns (infields to_add_fields : fields) :
  length infields = length to_add_fields ->
  summable self infields -> summable self to_add_fields ->
  exists result, sum_fields self infields to_add_fields = Ok result.
Proof.
  intros Hlen H1 H2. unfold sum_fields.
  rewrite (proj2 (Nat.eqb_eq _ _) Hlen). simpl.
  apply sum_loop_returns; assumption.
Qed.

Lemma sum_fields_same_but_sums (infields to_add_fields result : fields) :
  sum_fields self infields to_add_fields = Ok result ->
  same_but_sums self result infields.
Proof.
  intros H. apply sum_fields_ok in H. destruct H as [Hlen H].
  split; [eapply sum_loop_length; eassumption|].
  intros i Hi. eapply sum_loop_other; eassumption.
Qed.

Lemma sum_fields_summed_int (infields to_add_fields result : fields) :
  sum_fields self infields to_add_fields = Ok result ->
  forall i, In i (sums self) ->
    exists n, nth_error result i = Some (str n) /\ int_key result i = Ok n.
Proof.
  intros H. apply sum_fields_ok in H. destruct H as [Hlen H].
  intros i Hi. destruct (sum_loop_summed _ _ _ _ i H Hi) as [n Hn].
  exists n. split; [exact Hn|]. apply int_key_ok. exists (str n).
  split; [exact Hn|apply parse_int_str].
Qed.

Lemma sum_fields_summed_value (infields to_add_fields result : fields) :
  sum_fields self infields to_add_fields = Ok result ->
  NoDup (sums self) ->
  forall i, In i (sums self) ->
    int_key result i = Ok (int_value infields i + int_value to_add_fields i).
Proof.
  intros H. apply sum_fields_ok in H. destruct H as [Hlen H].
  intros Hnd i Hi.
  destruct (sum_loop_value _ _ _ _ i Hnd H Hi)
    as (x & a & y & b & Hx & Ha & Hy & Hb & Hres).
  assert (int_value infields i = a) as ->
      by (apply int_key_int_value, int_key_ok; eauto).
  assert (int_value to_add_fields i = b) as ->
      by (apply int_key_int_value, int_key_ok; eauto).
  apply int_key_ok. exists (str (a + b)).
  split; [exact Hres|apply parse_int_str].
Qed.

(** X1.  [sum_fields] returns exactly when the two records have the
    same number of fields and every summed position is present and
    holds an integer in both; and it never lets a [ValueError] out: a
    field that is not an integer ends in [whine]. *)
Theorem sum_fields_returns_iff (infields to_add_fields : fields) :
  ((exists result, sum_fields self infields to_add_fields = Ok result) <->
   length infields = length to_add_fields /\
   summable self infields /\ summable self to_add_fields) /\
  sum_fields self infields to_add_fields <> Raise ValueError.
Proof.
  split.
  - split.
    + intros [result H]. apply sum_fields_ok in H. destruct H as [Hlen H].
      split; [exact Hlen|].
      split; intros i Hi; apply (sum_loop_needs _ _ _ _ H i Hi).
    + intros (Hlen & H1 & H2). now apply sum_fields_returns.
  - unfold sum_fields.
    destruct (negb _); [discriminate|apply sum_loop_never_value_error].
Qed.

(** X2.  What [sum_fields] returns has the number of fields of the
    first record and its fields outside the summed positions; each
    summed position holds the decimal writing of an integer, which
    [int] reads back; with each position summed once, that integer is
    the sum of the two values. *)
Theorem sum_fields_result (infields to_add_fields result : fields) :
  sum_fields self infields to_add_fields = Ok result ->
  same_but_sums self result infields /\
  (forall i, In i (sums self) ->
     exists n, nth_error result i = Some (str n) /\ int_key result i = Ok n) /\
  (NoDup (sums self) ->
   forall i, In i (sums self) ->
     int_key result i
     = Ok (int_value infields i + int_value to_add_fields i)).
Proof.
  intros H. split; [|split].
  - eapply sum_fields_same_but_sums; eassumption.
  - eapply sum_fields_summed_int; eassumption.
  - eapply sum_fields_summed_value; eassumption.
Qed.

(** X3.  [compare_fields] is an order on the records it can compare:
    swapping the records negates its answer; "before" and "not after"
    are transitive; and two records it answers 0 for are compared alike
    with any third record, errors included. *)
Theorem compare_fields_order_laws (one two three : fields) :
  (forall r, compare_fields self one two = Ok r ->
             compare_fields self two one = Ok (- r)) /\
  (before self one two -> before self two three -> before self one three) /\
  (le self one two -> le self two three -> le self one three) /\
  (compare_fields self one two = Ok 0 ->
   compare_fields self one three = compare_fields self two three /\
   compare_fields self three one = compare_fields self three two).
Proof.
  split; [|split; [|split]].
  - intros r. apply compare_fields_antisym.
  - apply compare_fields_trans_lt.
  - apply le_trans.
  - intros H. pose proof (compare_fields_zero_view self _ _ H) as Hv.
    split; [now apply compare_fields_ext_left
           |now apply compare_fields_ext_right].
Qed.

End SumFieldsMore.

Lemma sum_fields_returns_iff_witness :
  (exists result,
     sum_fields scenario_roles ["1"; "a"; "5"]%string ["1"; "a"; "3"]%string
     = Ok result) /\
  ~ (exists result,
       sum_fields scenario_roles ["1"; "a"; "x"]%string ["1"; "a"; "3"]%string
       = Ok result).
Proof.
  split.
  - apply (proj1 (sum_fields_returns_iff scenario_roles _ _)).
    split; [reflexivity|].
    split; intros i [<-|[]]; eexists; reflexivity.
  - intros H.
    apply (proj1 (sum_fields_returns_iff scenario_roles _ _)) in H.
    destruct H as (_ & H & _). destruct (H 2%nat (or_introl eq_refl)) as [n Hn].
    discriminate Hn.
Defined.

Lemma sum_fields_result_witness :
  sum_fields scenario_roles ["1"; "a"; "5"]%string ["1"; "a"; "3"]%string
  = Ok ["1"; "a"; "8"]%string /\
  int_key ["1"; "a"; "8"]%string 2 = Ok 8%Z.
Proof.
  assert (sum_fields scenario_roles ["1"; "a"; "5"]%string
                     ["1"; "a"; "3"]%string = Ok ["1"; "a"; "8"]%string) as H
    by reflexivity.
  split; [exact H|].
  destruct (sum_fields_result scenario_roles _ _ _ H) as (_ & _ & Hsum).
  apply Hsum; [repeat constructor; intros []|now left].
Defined.

Lemma compare_fields_order_laws_witness :
  before scenario_roles ["1"; "a"; "5"]%string ["1"; "b"; "2"]%string /\
  before scenario_roles ["1"; "b"; "2"]%string ["2"; "a"; "1"]%string /\
  before scenario_roles ["1"; "a"; "5"]%string ["2"; "a"; "1"]%string.
Proof.
  assert (before scenario_roles ["1"; "a"; "5"]%string ["1"; "b"; "2"]%string)
    as H1 by reflexivity.
  assert (before scenario_roles ["1"; "b"; "2"]%string ["2"; "a"; "1"]%string)
    as H2 by reflexivity.
  split; [exact H1|]. split; [exact H2|].
  exact (proj1 (proj2 (compare_fields_order_laws scenario_roles _ _ _)) H1 H2).
Defined.

(* ================================================================== *)
(** * Further properties of [do_merge] *)
(* ================================================================== *)

Section MergeReturns.

Variable self : MergeAdd.

Lemma well_keyed_of_int_keys record :
  (forall i, In i (intkeys self ++ strkeys self) -> (i < length record)%nat) ->
  (forall i, In i (intkeys self) -> exists n, int_key record i = Ok n) ->
  well_keyed self record.
Proof.
  intros Hp Hi. split; [exact Hp|].
  intros i Hin. destruct (Hi i Hin) as [n Hn].
  apply int_key_ok in Hn. destruct Hn as (x & Hx & Hn).
  exists n. now rewrite (nth_error_nth _ _ EmptyString Hx).
Qed.

(** The sum of two records fit for the merge is fit for the merge. *)
Lemma sum_fields_keeps_fit infields to_add_fields result :
  fit self infields ->
  sum_fields self infields to_add_fields = Ok result ->
  fit self result.
Proof.
  intros [[Hp Hi] Hs] H.
  destruct (sum_fields_same_but_sums self _ _ _ H) as [Hlen Hother].
  pose proof (sum_fields_summed_int self _ _ _ H) as Hsummed.
  split.
  - apply well_keyed_of_int_keys.
    + intros i Hin. rewrite Hlen. now apply Hp.
    + intros i Hin.
      destruct (in_dec Nat.eq_dec i (sums self)) as [Hsum|Hsum].
      * destruct (Hsummed i Hsum) as (n & _ & Hn). now exists n.
      * destruct (Hi i Hin) as [n Hn]. exists n.
        assert ((i < length infields)%nat) as Hlt
            by (apply Hp, in_or_app; now left).
        apply int_key_ok. exists (nth i infields EmptyString).
        split; [|exact Hn].
        rewrite (Hother i Hsum). now apply nth_error_nth'.
  - intros i Hin. destruct (Hsummed i Hin) as (n & _ & Hn). now exists n.
Qed.

Lemma merge_loop_returns have have_fields to_merge_fields to_merge :
  (at_end have_fields = true \/ fit self have_fields) ->
  (at_end to_merge_fields = true \/ fit self to_merge_fields) ->
  Forall (fit self) (records have) ->
  Forall (fit self) (records to_merge) ->
  snd (merge_loop self have have_fields to_merge_fields to_merge) = Ok tt.
Proof.
  pattern have, have_fields, to_merge_fields, to_merge.
  apply merge_loop_ind. clear have have_fields to_merge_fields to_merge.
  intros have hf tf tm IHto IHhave H1 H2 Hh Ht.
  rewrite merge_loop_unfold.
  destruct (at_end hf) eqn:Eh; [reflexivity|].
  destruct (at_end tf) eqn:Et; [reflexivity|].
  destruct H1 as [H1|[Hk1 Hs1]]; [discriminate|].
  destruct H2 as [H2|[Hk2 Hs2]]; [discriminate|].
  simpl orb. cbv iota.
  rewrite (compare_fields_follows_order self _ _ Hk1 Hk2).
  remember (sign (total_order self hf tf)) as r eqn:Er.
  assert (compare_fields self hf tf = Ok r) as Hc
      by (subst r; now apply compare_fields_follows_order).
  destruct (Z.eqb_spec r 0) as [->|Hr0].
  - destruct (sum_fields_returns self hf tf) as [s Hsum]; auto.
    { now apply (compare_fields_zero_length self). }
    rewrite Hsum.
    destruct tm as [|l tm']; [reflexivity|].
    inversion Ht as [|? ? Hl Ht']; subst.
    apply (IHto l tm' s eq_refl); auto.
    right. apply (sum_fields_keeps_fit hf tf s); [now split|exact Hsum].
  - destruct (r <? 0)%Z.
    + simpl. destruct have as [|l have']; [reflexivity|].
      inversion Hh as [|? ? Hl Hh']; subst.
      apply (IHhave l have' eq_refl); auto.
      right. now split.
    + simpl. destruct tm as [|l tm']; [reflexivity|].
      inversion Ht as [|? ? Hl Ht']; subst.
      apply (IHto l tm' hf eq_refl); auto.
      right. now split.
Qed.

Lemma do_merge_fit_returns (have to_merge : file) :
  Forall (fit self) (records have) ->
  Forall (fit self) (records to_merge) ->
  snd (do_merge self have to_merge) = Ok tt.
Proof.
  intros H1 H2. unfold do_merge, read_fields, readline_rstrip.
  destruct have as [|l1 have']; destruct to_merge as [|l2 to_merge'];
    apply merge_loop_returns;
    repeat match goal with
           | H : Forall _ (records (_ :: _)) |- _ =>
               apply Forall_cons_iff in H; destruct H
           end;
    auto.
Qed.

(** X4.  [do_merge] returns, with neither an exception nor [whine],
    when every record of the two files is fit for it: key and summed
    positions present, integer keys and summed fields integers. *)
Theorem do_merge_returns (have to_merge : file) :
  Forall (fit self) (records have) ->
  Forall (fit self) (records to_merge) ->
  snd (do_merge self have to_merge) = Ok tt.
Proof. apply do_merge_fit_returns. Qed.

End MergeReturns.

(** Fitness of a concrete record for the roles of the scenarios. *)
Ltac scenario_fit :=
  split;
  [split;
   [intros ? [<-|[<-|[]]]; simpl; lia
   |intros ? [<-|[]]; eexists; reflexivity]
  |intros ? [<-|[]]; eexists; reflexivity].

Lemma do_merge_returns_witness :
  let have := [row "1" "a" "5"; row "2" "b" "1"] in
  let to_merge := [row "1" "a" "3"] in
  Forall (fit scenario_roles) (records have) /\
  Forall (fit scenario_roles) (records to_merge) /\
  snd (do_merge scenario_roles have to_merge) = Ok tt.
Proof.
  assert (Forall (fit scenario_roles)
            (records [row "1" "a" "5"; row "2" "b" "1"])) as H1.
  { repeat (apply Forall_cons; [scenario_fit|]). apply Forall_nil. }
  assert (Forall (fit scenario_roles) (records [row "1" "a" "3"])) as H2.
  { repeat (apply Forall_cons; [scenario_fit|]). apply Forall_nil. }
  split; [exact H1|]. split; [exact H2|].
  exact (do_merge_returns scenario_roles _ _ H1 H2).
Defined.

(* ================================================================== *)
(** * What the merge keeps: totals, lines, lengths *)
(* ================================================================== *)

Section MergeTotals.

Variable self : MergeAdd.
Variable index : nat.
Hypothesis once : NoDup (sums self).
Hypothesis summed : In index (sums self).

#[local] Open Scope Z_scope.

Lemma field_total_app (one two : list string) :
  field_total index (one ++ two)
  = field_total index one + field_total index two.
Proof.
  induction one as [|line one IH]; [reflexivity|].
  change (int_value (split tab line) index + field_total index (one ++ two)
          = int_value (split tab line) index + field_total index one
            + field_total index two).
  rewrite IH. lia.
Qed.

Lemma field_total_cons line (rest : list string) :
  field_total index (line :: rest)
  = int_value (split tab line) index + field_total index rest.
Proof. reflexivity. Qed.

Lemma field_total_pending current handle :
  current <> [] -> Forall (free_of tab) current -> at_end current = false ->
  field_total index (pending current handle)
  = int_value current index + field_total index handle.
Proof.
  intros Hne Hfree Hend. unfold pending. rewrite Hend.
  now rewrite field_total_cons, split_join_tab.
Qed.

Lemma field_total_at_end current handle :
  at_end current = true -> field_total index (pending current handle) = 0.
Proof. intros Hend. unfold pending. now rewrite Hend. Qed.

Lemma sum_fields_total infields to_add_fields result :
  sum_fields self infields to_add_fields = Ok result ->
  int_value result index
  = int_value infields index + int_value to_add_fields index.
Proof.
  intros H. apply int_key_int_value.
  now apply (sum_fields_summed_value self infields to_add_fields).
Qed.

Lemma sum_fields_not_nil infields to_add_fields result :
  infields <> [] ->
  sum_fields self infields to_add_fields = Ok result -> result <> [].
Proof.
  intros Hne H. destruct (sum_fields_same_but_sums self _ _ _ H) as [Hlen _].
  destruct result; [|discriminate]. destruct infields; [congruence|discriminate].
Qed.

Lemma merge_loop_totals have have_fields to_merge_fields to_merge :
  no_empty_line have -> no_empty_line to_merge ->
  have_fields <> [] -> to_merge_fields <> [] ->
  Forall (free_of tab) have_fields -> Forall (free_of tab) to_merge_fields ->
  snd (merge_loop self have have_fields to_merge_fields to_merge) = Ok tt ->
  field_total index
    (fst (merge_loop self have have_fields to_merge_fields to_merge))
  = field_total index (pending have_fields have)
    + field_total index (pending to_merge_fields to_merge).
Proof.
  pattern have, have_fields, to_merge_fields, to_merge.
  apply merge_loop_ind. clear have have_fields to_merge_fields to_merge.
  intros have hf tf tm IHto IHhave Hh Ht Hne1 Hne2 Hfree1 Hfree2.
  rewrite merge_loop_unfold.
  assert (forall current handle current' handle',
            current <> [] -> current' <> [] ->
            no_empty_line handle -> no_empty_line handle' ->
            field_total index
              (fst (drain_both current handle current' handle'))
            = field_total index (pending current handle)
              + field_total index (pending current' handle')) as Hdrain.
  { intros c h c' h' Hc Hc' Hn Hn'. unfold drain_both, fst.
    now rewrite !drain_pending, field_total_app. }
  destruct (at_end hf || at_end tf) eqn:Eend.
  { intros _. now apply Hdrain. }
  apply orb_false_elim in Eend. destruct Eend as [Eh Et].
  destruct (compare_fields self hf tf) as [r|e] eqn:Ec; [|discriminate].
  rewrite (field_total_pending hf have Hne1 Hfree1 Eh).
  rewrite (field_total_pending tf tm Hne2 Hfree2 Et).
  destruct (r =? 0)%Z eqn:E0.
  { destruct (sum_fields self hf tf) as [s|e] eqn:Es; [|discriminate].
    pose proof (sum_fields_not_nil _ _ _ Hne1 Es) as Hne.
    pose proof (sum_fields_free self _ _ _ Hfree1 Es) as Hfree.
    pose proof (sum_fields_not_at_end self _ _ _ Es Eh) as Hend.
    pose proof (sum_fields_total _ _ _ Es) as Hsum.
    destruct tm as [|l tm'].
    - intros _. rewrite Hdrain; auto; [|discriminate].
      rewrite (field_total_pending s have Hne Hfree Hend).
      rewrite (field_total_at_end [EmptyString] []) by reflexivity.
      simpl field_total at 3. lia.
    - inversion Ht as [|? ? Hl Ht']; subst.
      intros Hret.
      rewrite (IHto l tm' s eq_refl Hh Ht' Hne (split_not_nil _ _) Hfree
                 (split_free _ _) Hret).
      rewrite (field_total_pending s have Hne Hfree Hend).
      rewrite (pending_line _ _ Hl), !field_total_cons. lia. }
  destruct (r <? 0)%Z eqn:Er.
  { unfold emit. cbn [fst snd]. rewrite field_total_cons, split_join_tab by assumption.
    destruct have as [|l have'].
    - intros _. rewrite Hdrain; auto; [|discriminate].
      rewrite (field_total_at_end [EmptyString] []) by reflexivity.
      rewrite (field_total_pending tf tm Hne2 Hfree2 Et).
      simpl field_total at 2. lia.
    - inversion Hh as [|? ? Hl Hh']; subst.
      intros Hret.
      rewrite (IHhave l have' eq_refl Hh' Ht (split_not_nil _ _) Hne2
                 (split_free _ _) Hfree2 Hret).
      rewrite (pending_line _ _ Hl), !field_total_cons.
      rewrite (field_total_pending tf tm Hne2 Hfree2 Et). lia. }
  { unfold emit. cbn [fst snd]. rewrite field_total_cons, split_join_tab by assumption.
    destruct tm as [|l tm'].
    - intros _. rewrite Hdrain; auto; [|discriminate].
      rewrite (field_total_at_end [EmptyString] []) by reflexivity.
      rewrite (field_total_pending hf have Hne1 Hfree1 Eh).
      simpl field_total at 3. lia.
    - inversion Ht as [|? ? Hl Ht']; subst.
      intros Hret.
      rewrite (IHto l tm' hf eq_refl Hh Ht' Hne1 (split_not_nil _ _)
                 Hfree1 (split_free _ _) Hret).
      rewrite (pending_line _ _ Hl), !field_total_cons.
      rewrite (field_total_pending hf have Hne1 Hfree1 Eh). lia. }
Qed.

Lemma do_merge_totals (have to_merge : file) :
  no_empty_line have -> no_empty_line to_merge ->
  snd (do_merge self have to_merge) = Ok tt ->
  field_total index (fst (do_merge self have to_merge))
  = field_total index have + field_total index to_merge.
Proof.
  intros H1 H2. unfold do_merge, read_fields, readline_rstrip.
  assert (forall line handle,
            no_empty_line (line :: handle) ->
            field_total index (pending (split tab line) handle)
            = field_total index (line :: handle)) as Hread.
  { intros line handle H. inversion H; subst. now rewrite pending_line. }
  assert (forall handle, field_total index (pending (split tab EmptyString) handle) = 0)
    as Hend by (intros handle; now apply field_total_at_end).
  destruct have as [|l1 have']; destruct to_merge as [|l2 to_merge'];
    intros Hret;
    rewrite merge_loop_totals;
    try (inversion H1; subst); try (inversion H2; subst);
    auto using split_not_nil, split_free; try discriminate;
    try apply Forall_nil;
    rewrite ?Hend;
    try rewrite (Hread _ _ H1); try rewrite (Hread _ _ H2);
    change (field_total index []) with 0; lia.
Qed.

(** X5.  When [do_merge] returns, it has kept the total of every
    summed field: the values of the field over the lines written add up
    to what they add up to over the lines of the two files (each
    position being summed once, and the files holding no empty line). *)
Theorem do_merge_keeps_totals (have to_merge : file) :
  no_empty_line have -> no_empty_line to_merge ->
  snd (do_merge self have to_merge) = Ok tt ->
  field_total index (fst (do_merge self have to_merge))
  = field_total index have + field_total index to_merge.
Proof. apply do_merge_totals. Qed.

End MergeTotals.

Lemma do_merge_keeps_totals_witness :
  let have := [row "1" "a" "5"; row "2" "b" "1"] in
  let to_merge := [row "1" "a" "3"; row "3" "c" "4"] in
  NoDup (sums scenario_roles) /\ In 2%nat (sums scenario_roles) /\
  no_empty_line have /\ no_empty_line to_merge /\
  snd (do_merge scenario_roles have to_merge) = Ok tt /\
  field_total 2 (fst (do_merge scenario_roles have to_merge))
  = (field_total 2 have + field_total 2 to_merge)%Z.
Proof.
  assert (NoDup (sums scenario_roles)) as Hnd.
  { constructor; [intros []|constructor]. }
  assert (In 2%nat (sums scenario_roles)) as Hin by (left; reflexivity).
  assert (no_empty_line [row "1" "a" "5"; row "2" "b" "1"]) as H1.
  { repeat constructor; discriminate. }
  assert (no_empty_line [row "1" "a" "3"; row "3" "c" "4"]) as H2.
  { repeat constructor; discriminate. }
  assert (snd (do_merge scenario_roles [row "1" "a" "5"; row "2" "b" "1"]
                 [row "1" "a" "3"; row "3" "c" "4"]) = Ok tt) as Hret
      by reflexivity.
  repeat (split; [assumption|]).
  exact (do_merge_keeps_totals scenario_roles 2 Hnd Hin _ _ H1 H2 Hret).
Defined.

Section MergeLines.

Variable self : MergeAdd.

Lemma same_but_sums_refl (record : fields) : same_but_sums self record record.
Proof. split; [reflexivity|intros; reflexivity]. Qed.

Lemma same_but_sums_trans (one two three : fields) :
  same_but_sums self one two -> same_but_sums self two three ->
  same_but_sums self one three.
Proof.
  intros [Hl1 H1] [Hl2 H2]. split; [congruence|].
  intros i Hi. now rewrite H1, H2.
Qed.

(** What a final loop writes: lines that are not empty, each the line
    it starts from or a line of the file. *)
Lemma drain_lines line handle l :
  In l (drain line handle) ->
  l <> EmptyString /\ (l = line \/ In l handle).
Proof.
  revert line. induction handle as [|next handle IH]; intros line.
  - destruct line; simpl; [intros []|].
    intros [<-|[]]. split; [discriminate|now left].
  - destruct line; [intros []|].
    change (drain (String a line) (next :: handle))
      with (String a line :: drain next handle).
    intros [<-|H]; [split; [discriminate|now left]|].
    destruct (IH _ H) as [Hne [->|Hin]]; (split; [exact Hne|]);
      right; [now left|now right].
Qed.

Lemma drain_length line handle :
  (length (drain line handle) <= length (pending (split tab line) handle))%nat.
Proof.
  destruct line as [|c line]; [rewrite drain_empty; apply Nat.le_0_l|].
  rewrite pending_line by discriminate.
  revert c line. induction handle as [|next handle IH]; intros c line.
  - simpl. lia.
  - change (drain (String c line) (next :: handle))
      with (String c line :: drain next handle).
    destruct next as [|c' next]; [rewrite drain_empty; simpl; lia|].
    specialize (IH c' next). simpl length in *. lia.
Qed.

Lemma pending_length current handle :
  (length (pending current handle) <= S (length handle))%nat.
Proof. unfold pending. destruct (at_end current); simpl; lia. Qed.

Lemma drain_fields_length current handle :
  current <> [] -> Forall (free_of tab) current ->
  (length (drain (join_tab current) handle)
   <= length (pending current handle))%nat.
Proof.
  intros Hne Hfree.
  pose proof (drain_length (join_tab current) handle) as H.
  now rewrite split_join_tab in H.
Qed.

(** Where the lines written come from.  [lines_one] and [lines_two] are
    the lines of the two files; the record held for the first file has,
    outside the summed positions, the fields of one of its lines, and
    the record held for the second file is one of its lines. *)
Lemma merge_loop_lines (lines_one lines_two : list string)
  have have_fields to_merge_fields to_merge :
  incl have lines_one -> incl to_merge lines_two ->
  have_fields <> [] -> to_merge_fields <> [] ->
  Forall (free_of tab) have_fields -> Forall (free_of tab) to_merge_fields ->
  (at_end have_fields = true \/
   exists origin, In origin lines_one /\
                  same_but_sums self have_fields (split tab origin)) ->
  (at_end to_merge_fields = true \/ In (join_tab to_merge_fields) lines_two) ->
  forall l,
    In l (fst (merge_loop self have have_fields to_merge_fields to_merge)) ->
    l <> EmptyString /\
    (In l lines_two \/
     exists origin, In origin lines_one /\
                    same_but_sums self (split tab l) (split tab origin)).
Proof.
  pattern have, have_fields, to_merge_fields, to_merge.
  apply merge_loop_ind. clear have have_fields to_merge_fields to_merge.
  intros have hf tf tm IHto IHhave Hh Ht Hne1 Hne2 Hfree1 Hfree2 H1 H2 l.
  assert (forall current,
            current <> [] -> Forall (free_of tab) current ->
            (at_end current = true \/
             exists origin, In origin lines_one /\
                            same_but_sums self current (split tab origin)) ->
            In l (drain (join_tab current) have) ->
            l <> EmptyString /\
            exists origin, In origin lines_one /\
              same_but_sums self (split tab l) (split tab origin)) as Hfirst.
  { intros c Hc Hfree Hor Hin.
    destruct (drain_lines _ _ _ Hin) as [Hl [->|Hin']]; (split; [exact Hl|]).
    - destruct Hor as [Hend|Hor].
      + apply at_end_true in Hend. subst c. now contradiction Hl.
      + now rewrite split_join_tab.
    - exists l. split; [now apply Hh|apply same_but_sums_refl]. }
  assert (forall current,
            (at_end current = true \/ In (join_tab current) lines_two) ->
            In l (drain (join_tab current) tm) ->
            l <> EmptyString /\ In l lines_two) as Hsecond.
  { intros c Hor Hin.
    destruct (drain_lines _ _ _ Hin) as [Hl [->|Hin']]; (split; [exact Hl|]).
    - destruct Hor as [Hend|Hor]; [|exact Hor].
      apply at_end_true in Hend. subst c. now contradiction Hl.
    - now apply Ht. }
  assert (forall current current',
            current <> [] -> Forall (free_of tab) current ->
            (at_end current = true \/
             exists origin, In origin lines_one /\
                            same_but_sums self current (split tab origin)) ->
            (at_end current' = true \/ In (join_tab current') lines_two) ->
            In l (fst (drain_both current have current' tm)) ->
            l <> EmptyString /\
            (In l lines_two \/
             exists origin, In origin lines_one /\
               same_but_sums self (split tab l) (split tab origin))) as Hdrain.
  { intros c c' Hc Hfree Hor Hor' Hin. unfold drain_both, fst in Hin.
    apply in_app_or in Hin. destruct Hin as [Hin|Hin].
    - destruct (Hfirst c Hc Hfree Hor Hin) as [Hl Ho]. split; [exact Hl|now right].
    - destruct (Hsecond c' Hor' Hin) as [Hl Ho]. split; [exact Hl|now left]. }
  rewrite merge_loop_unfold.
  destruct (at_end hf || at_end tf) eqn:Eend.
  { now apply Hdrain. }
  apply orb_false_elim in Eend. destruct Eend as [Eh Et].
  destruct H1 as [H1|(o1 & Ho1 & Hsame1)]; [congruence|].
  destruct H2 as [H2|H2]; [congruence|].
  destruct (compare_fields self hf tf) as [r|e] eqn:Ec; [|intros []].
  destruct (r =? 0)%Z eqn:E0.
  { destruct (sum_fields self hf tf) as [s|e] eqn:Es; [|intros []].
    assert (s <> []) as Hne.
    { destruct (sum_fields_same_but_sums self _ _ _ Es) as [Hlen _].
      destruct s; [|discriminate]. destruct hf; [congruence|discriminate]. }
    pose proof (sum_fields_free self _ _ _ Hfree1 Es) as Hfree.
    assert (exists origin, In origin lines_one /\
              same_but_sums self s (split tab origin)) as Hs.
    { exists o1. split; [exact Ho1|].
      apply (same_but_sums_trans s hf); [|exact Hsame1].
      eapply sum_fields_same_but_sums; eassumption. }
    destruct tm as [|next tm'].
    - intros Hin. unfold drain_both, fst in Hin.
      simpl join_tab in Hin at 2. rewrite drain_empty, app_nil_r in Hin.
      destruct (Hfirst s Hne Hfree (or_intror Hs) Hin) as [Hl Ho].
      split; [exact Hl|now right].
    - apply (IHto next tm' s eq_refl); auto using split_not_nil, split_free.
      + intros x Hx. apply Ht. now right.
      + right. rewrite join_tab_split. apply Ht. now left. }
  assert (join_tab hf <> EmptyString) as Hj1 by now apply join_tab_not_empty.
  assert (join_tab tf <> EmptyString) as Hj2 by now apply join_tab_not_empty.
  destruct (r <? 0)%Z eqn:Er.
  { unfold emit, fst at 1. intros [<-|Hin].
    - split; [exact Hj1|]. right. exists o1. now rewrite split_join_tab.
    - destruct have as [|next have'].
      + unfold drain_both, fst in Hin. simpl join_tab in Hin at 1.
        rewrite drain_empty in Hin. simpl app in Hin.
        destruct (Hsecond tf (or_intror H2) Hin) as [Hl Ho].
        split; [exact Hl|now left].
      + apply (IHhave next have' eq_refl);
          auto using split_not_nil, split_free.
        * intros x Hx. apply Hh. now right.
        * right. exists next. split; [apply Hh; now left|].
          apply same_but_sums_refl. }
  { unfold emit, fst at 1. intros [<-|Hin].
    - split; [exact Hj2|now left].
    - destruct tm as [|next tm'].
      + unfold drain_both, fst in Hin. simpl join_tab in Hin at 2.
        rewrite drain_empty, app_nil_r in Hin.
        destruct (Hfirst hf Hne1 Hfree1
                    (or_intror (ex_intro _ o1 (conj Ho1 Hsame1))) Hin)
          as [Hl Ho].
        split; [exact Hl|now right].
      + apply (IHto next tm' hf eq_refl);
          auto using split_not_nil, split_free.
        * intros x Hx. apply Ht. now right.
        * right. now exists o1.
        * right. rewrite join_tab_split. apply Ht. now left. }
Qed.

Lemma merge_loop_length have have_fields to_merge_fields to_merge :
  have_fields <> [] -> to_merge_fields <> [] ->
  Forall (free_of tab) have_fields -> Forall (free_of tab) to_merge_fields ->
  (length (fst (merge_loop self have have_fields to_merge_fields to_merge))
   <= length (pending have_fields have)
      + length (pending to_merge_fields to_merge))%nat.
Proof.
  pattern have, have_fields, to_merge_fields, to_merge.
  apply merge_loop_ind. clear have have_fields to_merge_fields to_merge.
  intros have hf tf tm IHto IHhave Hne1 Hne2 Hfree1 Hfree2.
  assert (forall current handle current' handle',
            current <> [] -> current' <> [] ->
            Forall (free_of tab) current -> Forall (free_of tab) current' ->
            (length (fst (drain_both current handle current' handle'))
             <= length (pending current handle)
                + length (pending current' handle'))%nat) as Hdrain.
  { intros c h c' h' Hc Hc' Hf Hf'. unfold drain_both, fst.
    rewrite length_app.
    pose proof (drain_fields_length c h Hc Hf).
    pose proof (drain_fields_length c' h' Hc' Hf'). lia. }
  rewrite merge_loop_unfold.
  destruct (at_end hf || at_end tf) eqn:Eend; [now apply Hdrain|].
  apply orb_false_elim in Eend. destruct Eend as [Eh Et].
  unfold pending at 1 2. rewrite Eh, Et.
  destruct (compare_fields self hf tf) as [r|e] eqn:Ec; [|simpl; lia].
  destruct (r =? 0)%Z eqn:E0.
  { destruct (sum_fields self hf tf) as [s|e] eqn:Es; [|simpl; lia].
    assert (s <> []) as Hne.
    { destruct (sum_fields_same_but_sums self _ _ _ Es) as [Hlen _].
      destruct s; [|discriminate]. destruct hf; [congruence|discriminate]. }
    pose proof (sum_fields_free self _ _ _ Hfree1 Es) as Hfree.
    destruct tm as [|next tm'].
    - pose proof (Hdrain s have [EmptyString] [] Hne ltac:(discriminate) Hfree
                    ltac:(repeat constructor)) as H.
      pose proof (pending_length s have). simpl in *. lia.
    - pose proof (IHto next tm' s eq_refl Hne (split_not_nil _ _) Hfree
                    (split_free _ _)) as H.
      pose proof (pending_length s have).
      pose proof (pending_length (split tab next) tm'). simpl length. lia. }
  destruct (r <? 0)%Z eqn:Er.
  { unfold emit, fst at 1. simpl length.
    destruct have as [|next have'].
    - pose proof (Hdrain [EmptyString] [] tf tm ltac:(discriminate) Hne2
                    ltac:(repeat constructor) Hfree2) as H.
      pose proof (pending_length tf tm). simpl in *. lia.
    - pose proof (IHhave next have' eq_refl (split_not_nil _ _) Hne2
                    (split_free _ _) Hfree2) as H.
      pose proof (pending_length (split tab next) have').
      pose proof (pending_length tf tm). simpl length. lia. }
  { unfold emit, fst at 1. simpl length.
    destruct tm as [|next tm'].
    - pose proof (Hdrain hf have [EmptyString] [] Hne1 ltac:(discriminate)
                    Hfree1 ltac:(repeat constructor)) as H.
      pose proof (pending_length hf have). simpl in *. lia.
    - pose proof (IHto next tm' hf eq_refl Hne1 (split_not_nil _ _) Hfree1
                    (split_free _ _)) as H.
      pose proof (pending_length hf have).
      pose proof (pending_length (split tab next) tm'). simpl length. lia. }
Qed.

Lemma pending_read_length handle :
  (length (pending (fst (read_fields handle)) (snd (read_fields handle)))
   <= length handle)%nat.
Proof.
  destruct handle as [|line rest]; [simpl; lia|].
  unfold read_fields, readline_rstrip, fst, snd, pending.
  destruct (at_end _); simpl; lia.
Qed.

Lemma do_merge_origin (have to_merge : file) :
  forall l, In l (fst (do_merge self have to_merge)) ->
    l <> EmptyString /\
    (In l to_merge \/
     exists origin, In origin have /\
                    same_but_sums self (split tab l) (split tab origin)).
Proof.
  unfold do_merge, read_fields, readline_rstrip.
  destruct have as [|l1 have']; destruct to_merge as [|l2 to_merge'];
    apply merge_loop_lines;
    auto using split_not_nil, split_free, incl_nil_l, incl_tl, incl_refl;
    right; rewrite ?join_tab_split; try (now left);
    exists l1; (split; [now left|apply same_but_sums_refl]).
Qed.

Lemma do_merge_length (have to_merge : file) :
  (length (fst (do_merge self have to_merge))
   <= length have + length to_merge)%nat.
Proof.
  pose proof (pending_read_length have) as H1.
  pose proof (pending_read_length to_merge) as H2.
  unfold do_merge.
  destruct (read_fields have) as [hf have'] eqn:E1.
  destruct (read_fields to_merge) as [tf tm'] eqn:E2.
  assert (hf <> [] /\ Forall (free_of tab) hf) as [Hne1 Hfree1].
  { unfold read_fields in E1. destruct (readline_rstrip have).
    injection E1 as <- <-. auto using split_not_nil, split_free. }
  assert (tf <> [] /\ Forall (free_of tab) tf) as [Hne2 Hfree2].
  { unfold read_fields in E2. destruct (readline_rstrip to_merge).
    injection E2 as <- <-. auto using split_not_nil, split_free. }
  pose proof (merge_loop_length have' hf tf tm' Hne1 Hne2 Hfree1 Hfree2).
  simpl fst in *. simpl snd in *. lia.
Qed.

Lemma do_merge_no_empty_line (have to_merge : file) :
  no_empty_line (fst (do_merge self have to_merge)).
Proof.
  apply Forall_forall. intros l Hl. now apply (do_merge_origin have to_merge).
Qed.

(** X6.  [do_merge] invents no line, whether it returns or not: a line
    it writes is not empty, and is a line of the second file as it
    stands, or has the number of fields and, outside the summed
    positions, the fields of a line of the first file; and it writes no
    more lines than the two files have together. *)
Theorem do_merge_lines (have to_merge : file) :
  (forall l, In l (fst (do_merge self have to_merge)) ->
     l <> EmptyString /\
     (In l to_merge \/
      exists origin, In origin have /\
                     same_but_sums self (split tab l) (split tab origin))) /\
  (length (fst (do_merge self have to_merge))
   <= length have + length to_merge)%nat.
Proof. split; [apply do_merge_origin|apply do_merge_length]. Qed.

End MergeLines.

Section MergeApart.

Variable self : MergeAdd.

Lemma pending_read handle :
  no_empty_line handle ->
  pending (fst (read_fields handle)) (snd (read_fields handle)) = handle /\
  pending_records (fst (read_fields handle)) (snd (read_fields handle))
  = records handle.
Proof.
  destruct handle as [|line rest]; [split; reflexivity|].
  intros H. inversion H; subst.
  unfold read_fields, readline_rstrip, fst, snd.
  now rewrite pending_line, pending_records_line.
Qed.

(** X7.  When no record of one file has the keys of a record of the
    other (they compare, and never equal), [do_merge] returns and what
    it writes is the lines of the two files, each once and as it
    stands. *)
Theorem do_merge_apart (have to_merge : file) :
  no_empty_line have -> no_empty_line to_merge ->
  (forall x y, In x (records have) -> In y (records to_merge) ->
     compare_fields self x y = Ok (-1)%Z \/ compare_fields self x y = Ok 1%Z) ->
  exists out,
    do_merge self have to_merge = (out, Ok tt) /\
    Permutation out (have ++ to_merge).
Proof.
  intros H1 H2 Hcross. unfold do_merge.
  destruct (pending_read have H1) as [P1 R1].
  destruct (pending_read to_merge H2) as [P2 R2].
  destruct (read_fields have) as [hf have'] eqn:E1.
  destruct (read_fields to_merge) as [tf tm'] eqn:E2.
  simpl fst in *. simpl snd in *.
  assert (hf <> [] /\ no_empty_line have') as [Hne1 Hh].
  { unfold read_fields, readline_rstrip in E1.
    destruct have; injection E1 as <- <-;
      (split; [first [discriminate|apply split_not_nil]|]); [constructor|now inversion H1]. }
  assert (tf <> [] /\ no_empty_line tm') as [Hne2 Ht].
  { unfold read_fields, readline_rstrip in E2.
    destruct to_merge; injection E2 as <- <-;
      (split; [first [discriminate|apply split_not_nil]|]); [constructor|now inversion H2]. }
  rewrite <- P1, <- P2. apply merge_loop_disjoint; auto.
  rewrite R1, R2. exact Hcross.
Qed.

End MergeApart.

Lemma do_merge_apart_witness :
  let have := [row "1" "a" "5"; row "3" "c" "1"] in
  let to_merge := [row "2" "b" "3"] in
  no_empty_line have /\ no_empty_line to_merge /\
  exists out,
    do_merge scenario_roles have to_merge = (out, Ok tt) /\
    Permutation out (have ++ to_merge).
Proof.
  assert (no_empty_line [row "1" "a" "5"; row "3" "c" "1"]) as H1.
  { repeat constructor; discriminate. }
  assert (no_empty_line [row "2" "b" "3"]) as H2.
  { repeat constructor; discriminate. }
  split; [exact H1|]. split; [exact H2|].
  apply (do_merge_apart scenario_roles _ _ H1 H2).
  intros x y [<-|[<-|[]]] [<-|[]]; vm_compute; auto.
Defined.

(* ================================================================== *)
(** * Runs without two records of the same keys *)
(* ================================================================== *)

Section StrictRuns.

Variable self : MergeAdd.

Lemma before_ext_left one one' two :
  same_view self one one' -> before self one two -> before self one' two.
Proof.
  intros Hv. unfold before.
  now rewrite (compare_fields_ext_left self _ _ two Hv).
Qed.

Lemma before_ext_right one two two' :
  same_view self two two' -> before self one two -> before self one two'.
Proof.
  intros Hv. unfold before.
  now rewrite (compare_fields_ext_right self one _ _ Hv).
Qed.

Lemma before_trans one two three :
  before self one two -> before self two three -> before self one three.
Proof. apply compare_fields_trans_lt. Qed.

Lemma compare_negative_before one two r :
  compare_fields self one two = Ok r -> (r <? 0)%Z = true ->
  before self one two.
Proof.
  intros Hc Hr. apply Z.ltb_lt in Hr. unfold before.
  destruct (compare_fields_range self _ _ _ Hc) as [->|[->| ->]];
    [exact Hc|lia|lia].
Qed.

Lemma compare_positive_before one two r :
  compare_fields self one two = Ok r ->
  (r =? 0)%Z = false -> (r <? 0)%Z = false -> before self two one.
Proof.
  intros Hc H0 Hr. apply Z.eqb_neq in H0. apply Z.ltb_ge in Hr.
  destruct (compare_fields_range self _ _ _ Hc) as [->|[->| ->]]; try lia.
  apply (compare_fields_antisym self _ _ _ Hc).
Qed.

Lemma drain_strict line handle :
  Sorted (before self) (records (line :: handle)) ->
  Sorted (before self) (records (drain line handle)) /\
  (forall x, before self x (split tab line) ->
             HdRel (before self) x (records (drain line handle))).
Proof.
  revert line. induction handle as [|next handle IH]; intros line Hs.
  - destruct line as [|c line].
    + simpl. split; [|intros x Hx]; constructor.
    + change (drain (String c line) []) with [String c line].
      rewrite records_cons. split.
      * repeat constructor.
      * intros x Hx. now constructor.
  - destruct line as [|c line].
    + simpl. split; [|intros x Hx]; constructor.
    + change (drain (String c line) (next :: handle))
        with (String c line :: drain next handle).
      rewrite !records_cons in *.
      apply Sorted_inv in Hs. destruct Hs as [Hs Hhd].
      destruct (IH next Hs) as [Hsorted Hbound]. split.
      * constructor; [exact Hsorted|]. apply Hbound.
        now inversion Hhd.
      * intros x Hx. now constructor.
Qed.

Lemma drain_fields_strict current handle :
  current <> [] -> Forall (free_of tab) current ->
  Sorted (before self) (current :: records handle) ->
  Sorted (before self) (records (drain (join_tab current) handle)) /\
  (forall x, before self x current ->
             HdRel (before self) x
               (records (drain (join_tab current) handle))).
Proof.
  intros Hne Hfree Hs.
  rewrite <- (records_join_cons _ _ Hne Hfree) in Hs.
  destruct (drain_strict _ _ Hs) as [H1 H2]. split; [exact H1|].
  intros x Hx. apply H2. now rewrite split_join_tab.
Qed.

Lemma strict_tail one two rest :
  Sorted (before self) (one :: two :: rest) ->
  before self one two /\ Sorted (before self) (two :: rest).
Proof.
  intros H. apply Sorted_inv in H. destruct H as [Hs Hhd].
  split; [now inversion Hhd|exact Hs].
Qed.

Hypothesis apart : sums_apart self.

Lemma strict_sum have_fields to_merge_fields summed rest :
  sum_fields self have_fields to_merge_fields = Ok summed ->
  Sorted (before self) (have_fields :: rest) ->
  Sorted (before self) (summed :: rest).
Proof.
  intros Hsum Hs. apply Sorted_inv in Hs. destruct Hs as [Hs Hhd].
  constructor; [exact Hs|].
  pose proof (sum_fields_same_view self _ _ _ apart Hsum) as Hv.
  apply same_view_sym in Hv.
  destruct Hhd; constructor. eapply before_ext_left; eassumption.
Qed.

Lemma merge_loop_strict have have_fields to_merge_fields to_merge :
  have_fields <> [] -> to_merge_fields <> [] ->
  Forall (free_of tab) have_fields -> Forall (free_of tab) to_merge_fields ->
  Sorted (before self) (have_fields :: records have) ->
  Sorted (before self) (to_merge_fields :: records to_merge) ->
  Sorted (before self)
    (records (fst (merge_loop self have have_fields to_merge_fields to_merge)))
  /\
  (forall x, before self x have_fields -> before self x to_merge_fields ->
     HdRel (before self) x
       (records
          (fst (merge_loop self have have_fields to_merge_fields to_merge)))).
Proof.
  pattern have, have_fields, to_merge_fields, to_merge.
  apply merge_loop_ind. clear have have_fields to_merge_fields to_merge.
  intros have hf tf tm IHto IHhave Hne1 Hne2 Hfree1 Hfree2 Hs1 Hs2.
  rewrite merge_loop_unfold.
  destruct (at_end hf || at_end tf) eqn:Eend.
  { unfold drain_both, fst.
    destruct (at_end hf) eqn:E1.
    - apply at_end_true in E1. subst hf. simpl join_tab.
      rewrite drain_empty. simpl app.
      destruct (drain_fields_strict tf tm Hne2 Hfree2 Hs2) as [H1 H2].
      split; [exact H1|]. intros x _ Hx. now apply H2.
    - simpl in Eend. apply at_end_true in Eend. subst tf. simpl join_tab.
      rewrite drain_empty, app_nil_r.
      destruct (drain_fields_strict hf have Hne1 Hfree1 Hs1) as [H1 H2].
      split; [exact H1|]. intros x Hx _. now apply H2. }
  destruct (compare_fields self hf tf) as [r|e] eqn:Ec;
    [|split; [|intros x _ _]; constructor].
  destruct (r =? 0)%Z eqn:E0.
  { apply Z.eqb_eq in E0. subst r.
    destruct (sum_fields self hf tf) as [s|e] eqn:Es;
      [|split; [|intros x _ _]; constructor].
    pose proof (sum_fields_same_view self _ _ _ apart Es) as Hview.
    assert (s <> []) as Hne.
    { destruct Hview as (_ & _ & Hlen). destruct s; [|discriminate].
      destruct hf; [congruence|discriminate]. }
    pose proof (sum_fields_free self _ _ _ Hfree1 Es) as Hfree.
    pose proof (strict_sum _ _ _ _ Es Hs1) as Hs.
    destruct tm as [|l tm'].
    - unfold drain_both, fst. simpl join_tab at 2.
      rewrite drain_empty, app_nil_r.
      destruct (drain_fields_strict s have Hne Hfree Hs) as [H1 H2].
      split; [exact H1|]. intros x Hx _. apply H2.
      apply (before_ext_right x hf); [now apply same_view_sym|exact Hx].
    - rewrite records_cons in Hs2. apply strict_tail in Hs2.
      destruct Hs2 as [Hle Hs2].
      destruct (IHto l tm' s eq_refl Hne (split_not_nil _ _) Hfree
                  (split_free _ _) Hs Hs2) as [H1 H2].
      split; [exact H1|]. intros x Hx1 Hx2. apply H2.
      + apply (before_ext_right x hf); [now apply same_view_sym|exact Hx1].
      + now apply (before_trans x tf). }
  destruct (r <? 0)%Z eqn:Er.
  { pose proof (compare_negative_before _ _ _ Ec Er) as Hle.
    unfold emit, fst at 1 3. fold (@fst (list string) (result unit)).
    rewrite !(records_join_cons _ _ Hne1 Hfree1).
    assert (Sorted (before self) (records (fst
              match have with
              | [] => drain_both [EmptyString] [] tf tm
              | line :: have' => merge_loop self have' (split tab line) tf tm
              end)) /\
            HdRel (before self) hf (records (fst
              match have with
              | [] => drain_both [EmptyString] [] tf tm
              | line :: have' => merge_loop self have' (split tab line) tf tm
              end))) as [H1 H2].
    { destruct have as [|l have'].
      - unfold drain_both, fst. simpl join_tab at 1.
        rewrite drain_empty. simpl app.
        destruct (drain_fields_strict tf tm Hne2 Hfree2 Hs2) as [H1 H2].
        split; [exact H1|now apply H2].
      - rewrite records_cons in Hs1. apply strict_tail in Hs1.
        destruct Hs1 as [Hle1 Hs1].
        destruct (IHhave l have' eq_refl (split_not_nil _ _) Hne2
                    (split_free _ _) Hfree2 Hs1 Hs2) as [H1 H2].
        split; [exact H1|now apply H2]. }
    split; [now constructor|]. intros x Hx _. now constructor. }
  { pose proof (compare_positive_before _ _ _ Ec E0 Er) as Hle.
    unfold emit, fst at 1 3. fold (@fst (list string) (result unit)).
    rewrite !(records_join_cons _ _ Hne2 Hfree2).
    assert (Sorted (before self) (records (fst
              match tm with
              | [] => drain_both hf have [EmptyString] []
              | line :: to_merge' =>
                  merge_loop self have hf (split tab line) to_merge'
              end)) /\
            HdRel (before self) tf (records (fst
              match tm with
              | [] => drain_both hf have [EmptyString] []
              | line :: to_merge' =>
                  merge_loop self have hf (split tab line) to_merge'
              end))) as [H1 H2].
    { destruct tm as [|l tm'].
      - unfold drain_both, fst. simpl join_tab at 2.
        rewrite drain_empty, app_nil_r.
        destruct (drain_fields_strict hf have Hne1 Hfree1 Hs1) as [H1 H2].
        split; [exact H1|now apply H2].
      - rewrite records_cons in Hs2. apply strict_tail in Hs2.
        destruct Hs2 as [Hle2 Hs2].
        destruct (IHto l tm' hf eq_refl Hne1 (split_not_nil _ _)
                    Hfree1 (split_free _ _) Hs1 Hs2) as [H1 H2].
        split; [exact H1|now apply H2]. }
    split; [now constructor|]. intros x _ Hx. now constructor. }
Qed.

Lemma do_merge_strict_run (have to_merge : file) :
  strict_run self have -> strict_run self to_merge ->
  strict_run self (fst (do_merge self have to_merge)).
Proof.
  intros H1 H2. unfold do_merge, read_fields, readline_rstrip.
  assert (forall handle, strict_run self handle ->
            let (line, rest) :=
              match handle with
              | [] => (EmptyString, [])
              | line :: rest => (line, rest)
              end in
            Sorted (before self) (split tab line :: records rest)) as Hread.
  { intros [|line rest] H; [repeat constructor|exact H]. }
  pose proof (Hread _ H1) as S1. pose proof (Hread _ H2) as S2.
  destruct have as [|l1 have']; destruct to_merge as [|l2 to_merge'];
    apply merge_loop_strict; auto using split_not_nil, split_free.
Qed.

(** X8.  When no summed field is a key field, merging two runs that
    each hold at most one record per key gives a run that holds at most
    one record per key: the records written are strictly ascending,
    whether [do_merge] returns or raises on the way. *)
Theorem do_merge_strict (have to_merge : file) :
  strict_run self have -> strict_run self to_merge ->
  strict_run self (fst (do_merge self have to_merge)).
Proof. apply do_merge_strict_run. Qed.

End StrictRuns.

Lemma do_merge_strict_witness :
  let have := [row "1" "a" "5"; row "2" "b" "1"] in
  let to_merge := [row "1" "a" "2"; row "3" "c" "1"] in
  sums_apart scenario_roles /\
  strict_run scenario_roles have /\ strict_run scenario_roles to_merge /\
  strict_run scenario_roles (fst (do_merge scenario_roles have to_merge)).
Proof.
  assert (sums_apart scenario_roles) as Ha.
  { intros i [<-|[]] [H|[H|[]]]; discriminate H. }
  assert (strict_run scenario_roles [row "1" "a" "5"; row "2" "b" "1"]) as H1.
  { repeat constructor. }
  assert (strict_run scenario_roles [row "1" "a" "2"; row "3" "c" "1"]) as H2.
  { repeat constructor. }
  split; [exact Ha|]. split; [exact H1|]. split; [exact H2|].
  exact (do_merge_strict scenario_roles Ha _ _ H1 H2).
Defined.

(* ================================================================== *)
(** * merge.py: the command line *)
(* ================================================================== *)

Section MergeArguments.

Import MergeMain.

#[local] Open Scope Z_scope.

Lemma is_digit_not_space c : is_digit c = true -> is_space c = false.
Proof.
  destruct c as [[] [] [] [] [] [] [] []]; try reflexivity; discriminate.
Qed.

Lemma is_digit_value c : is_digit c = true -> 0 <= digit_value c.
Proof.
  unfold is_digit, digit_value. intros H.
  apply andb_prop in H. destruct H as [H _]. apply Nat.leb_le in H. lia.
Qed.

Lemma digits_of_digits l : forall acc after,
  forallb is_digit l = true -> l <> [] \/ after = true -> 0 <= acc ->
  exists n, digits acc after l = Some n /\ 0 <= n.
Proof.
  induction l as [|c l IH]; intros acc after Hall Hne Hacc.
  - destruct Hne as [Hne| ->]; [congruence|]. now exists acc.
  - simpl in Hall. apply andb_prop in Hall. destruct Hall as [Hc Hall].
    rewrite digits_cons_digit by exact Hc.
    apply IH; [exact Hall|now right|].
    pose proof (is_digit_value c Hc). lia.
Qed.

(** A string [isdigit] accepts is read by [int], as a number that is
    not negative. *)
Lemma isdigit_parse_int s :
  isdigit s = true -> exists n, parse_int s = Some n /\ 0 <= n.
Proof.
  destruct s as [|c s]; [discriminate|].
  unfold isdigit. intros Hall.
  assert (Forall (fun c => is_space c = false)
            (list_ascii_of_string (String c s))) as Hsp.
  { apply Forall_forall. intros x Hx. apply is_digit_not_space.
    now apply (proj1 (forallb_forall _ _) Hall). }
  destruct (digits_of_digits _ 0 false Hall) as (n & Hn & Hpos);
    [left; discriminate|lia|].
  exists n. split; [|exact Hpos].
  unfold parse_int. rewrite (strip_nothing _ Hsp).
  simpl in Hall. apply andb_prop in Hall. destruct Hall as [Hc _].
  simpl list_ascii_of_string in *.
  destruct c as [[] [] [] [] [] [] [] []]; try discriminate Hc; exact Hn.
Qed.

Lemma digits_loop_returns why entries :
  digits_loop why entries = inr tt <-> forallb isdigit entries = true.
Proof.
  induction entries as [|entry rest IH]; simpl; [tauto|].
  destruct (isdigit entry); simpl; [exact IH|]. split; discriminate.
Qed.

Lemma digits_loop_stops why entries s :
  digits_loop why entries = inl s -> s = Usage why.
Proof.
  induction entries as [|entry rest IH]; simpl; [discriminate|].
  destruct (isdigit entry); simpl; [exact IH|]. now intros [= <-].
Qed.

Lemma digits_loop_cases why entries :
  (digits_loop why entries = inr tt /\ forallb isdigit entries = true) \/
  (digits_loop why entries = inl (Usage why) /\
   forallb isdigit entries = false).
Proof.
  destruct (digits_loop why entries) as [s|[]] eqn:E.
  - right. rewrite (digits_loop_stops _ _ _ E). split; [reflexivity|].
    destruct (forallb isdigit entries) eqn:F; [|reflexivity].
    apply (digits_loop_returns why) in F. congruence.
  - left. split; [reflexivity|]. now apply (digits_loop_returns why).
Qed.

Lemma given_string_some s :
  given_string s = true <-> exists path, s = Some path /\ path <> EmptyString.
Proof.
  destruct s as [[|c s]|]; simpl; split; try discriminate.
  - intros (p & [= <-] & H). congruence.
  - intros _. eexists. split; [reflexivity|discriminate].
  - reflexivity.
  - intros (p & H & _). discriminate H.
Qed.

Lemma validate_args_spec (exists_ : string -> bool)
  (indir : option string) (intkeys strkeys sums : option (list string))
  (output : option string) :
  validate_args exists_ indir intkeys strkeys sums output = inr tt <->
  exists dir out ik sk su,
    indir = Some dir /\ output = Some out /\
    intkeys = Some ik /\ strkeys = Some sk /\ sums = Some su /\
    dir <> EmptyString /\ out <> EmptyString /\ (ik <> [] \/ sk <> []) /\
    forallb isdigit (ik ++ sk ++ su) = true /\
    exists_ dir = true.
Proof.
  unfold validate_args. split.
  - destruct (given_string indir) eqn:Ei; simpl; [|discriminate].
    apply given_string_some in Ei. destruct Ei as (dir & -> & Hdir).
    destruct (negb (given_list intkeys) && negb (given_list strkeys)) eqn:Ek;
      [discriminate|].
    destruct (given_string output) eqn:Eo; simpl; [|discriminate].
    apply given_string_some in Eo. destruct Eo as (out & -> & Hout).
    destruct intkeys as [ik|]; [|discriminate].
    destruct strkeys as [sk|];
      [|simpl; destruct (digits_loop _ ik) as [?|[]]; discriminate].
    destruct sums as [su|];
      [|simpl; destruct (digits_loop _ ik) as [?|[]]; [discriminate|];
        simpl; destruct (digits_loop _ sk) as [?|[]]; discriminate].
    simpl.
    destruct (digits_loop_cases BadIntkeys ik) as [[-> H1]|[-> _]];
      [|discriminate].
    destruct (digits_loop_cases BadStrkeys sk) as [[-> H2]|[-> _]];
      [|discriminate].
    destruct (digits_loop_cases BadSums su) as [[-> H3]|[-> _]];
      [|discriminate].
    simpl. destruct (exists_ dir) eqn:Ex; [|discriminate]. intros _.
    exists dir, out, ik, sk, su.
    repeat (split; [reflexivity|]).
    split; [exact Hdir|]. split; [exact Hout|].
    split.
    { destruct ik; [|left; discriminate]. destruct sk; [|right; discriminate].
      discriminate Ek. }
    split; [|exact Ex].
    now rewrite !forallb_app, H1, H2, H3.
  - intros (dir & out & ik & sk & su & -> & -> & -> & -> & -> & Hdir & Hout
            & Hk & Hall & Hex).
    rewrite !forallb_app in Hall.
    apply andb_prop in Hall. destruct Hall as [H1 Hall].
    apply andb_prop in Hall. destruct Hall as [H2 H3].
    rewrite (proj2 (given_string_some (Some dir)))
      by (exists dir; split; [reflexivity|exact Hdir]).
    rewrite (proj2 (given_string_some (Some out)))
      by (exists out; split; [reflexivity|exact Hout]).
    assert (negb (given_list (Some ik)) && negb (given_list (Some sk)) = false)
      as ->.
    { destruct Hk as [Hk|Hk]; [destruct ik|destruct sk]; try congruence;
        simpl; [reflexivity|apply andb_false_r]. }
    simpl.
    rewrite (proj2 (digits_loop_returns BadIntkeys ik) H1). simpl.
    rewrite (proj2 (digits_loop_returns BadStrkeys sk) H2). simpl.
    rewrite (proj2 (digits_loop_returns BadSums su) H3). simpl.
    now rewrite Hex.
Qed.

(** X9.  [validate_args] returns exactly when the directory and the
    output are given and not empty, the directory exists, and the
    integer keys, the string keys and the summed fields are all three
    given, one list of keys at least not empty, and every entry of the
    three a string of digits.  So [--sums] and both lists of keys are
    needed. *)
Theorem validate_args_returns_iff (exists_ : string -> bool)
  (indir : option string) (intkeys strkeys sums : option (list string))
  (output : option string) :
  validate_args exists_ indir intkeys strkeys sums output = inr tt <->
  exists dir out ik sk su,
    indir = Some dir /\ output = Some out /\
    intkeys = Some ik /\ strkeys = Some sk /\ sums = Some su /\
    dir <> EmptyString /\ out <> EmptyString /\ (ik <> [] \/ sk <> []) /\
    forallb isdigit (ik ++ sk ++ su) = true /\
    exists_ dir = true.
Proof. apply validate_args_spec. Qed.

(** X10.  Left out, a list is not asked for with a usage message: when
    the directory, the output and a list of keys are given,
    [validate_args] ends in a [TypeError] exactly when the first of
    integer keys, string keys and summed fields that is not given comes
    after lists of digits only. *)
Theorem validate_args_type_error (exists_ : string -> bool)
  (indir : option string) (intkeys strkeys sums : option (list string))
  (output : option string) :
  validate_args exists_ indir intkeys strkeys sums output = inl TypeError <->
  given_string indir = true /\ given_string output = true /\
  (given_list intkeys = true \/ given_list strkeys = true) /\
  (intkeys = None \/
   exists ik, intkeys = Some ik /\ forallb isdigit ik = true /\
     (strkeys = None \/
      exists sk, strkeys = Some sk /\ forallb isdigit sk = true /\
                 sums = None)).
Proof.
  unfold validate_args.
  destruct (given_string indir) eqn:Ei; simpl;
    [|split; [discriminate|intros (H & _); discriminate H]].
  destruct (given_list intkeys) eqn:Eik; simpl.
  2: destruct (given_list strkeys) eqn:Esk; simpl;
       [|split; [discriminate|intros (_ & _ & [H|H] & _); discriminate H]].
  all: destruct (given_string output) eqn:Eo; simpl;
         [|split; [discriminate|intros (_ & H & _); discriminate H]].
  all: destruct intkeys as [ik|]; simpl;
         [|split; [intros _; repeat split; auto|reflexivity]].
  all: destruct (digits_loop_cases BadIntkeys ik) as [[-> H1]|[-> H1]]; simpl.
  all: try (split; [discriminate|];
            intros (_ & _ & _ & [H|(ik' & [= <-] & H & _)]); congruence).
  all: destruct strkeys as [sk|]; simpl;
         [|split; [intros _; repeat split; auto; right; exists ik; auto
                  |reflexivity]].
  all: destruct (digits_loop_cases BadStrkeys sk) as [[-> H2]|[-> H2]]; simpl.
  all: try (split; [discriminate|];
            intros (_ & _ & _ & [H|(ik' & [= <-] & _ &
                                    [H|(sk' & [= <-] & H & _)])]);
            congruence).
  all: destruct sums as [su|]; simpl.
  all: try (split; [intros _; repeat split; auto; right; exists ik;
                    repeat split; auto; right; exists sk; auto
                   |reflexivity]).
  all: destruct (digits_loop_cases BadSums su) as [[-> H3]|[-> H3]]; simpl.
  all: try (destruct indir as [path|]; [destruct (exists_ path)|]; simpl).
  all: split; try discriminate.
  all: intros (_ & _ & _ & [H|(ik' & _ & _ & [H|(sk' & _ & _ & H)])]);
         discriminate H.
Qed.

Lemma ints_of_digits items :
  forallb isdigit items = true ->
  exists ns, ints items = Ok ns /\ Forall (fun n => 0 <= n) ns /\
             length ns = length items.
Proof.
  induction items as [|item rest IH]; intros Hall.
  - exists []. repeat split. constructor.
  - simpl in Hall. apply andb_prop in Hall. destruct Hall as [Hi Hall].
    destruct (isdigit_parse_int _ Hi) as (n & Hn & Hpos).
    destruct (IH Hall) as (ns & Hns & Hposs & Hlen).
    exists (n :: ns). simpl. unfold int. rewrite Hn. simpl. rewrite Hns.
    simpl. repeat split; [now constructor|now rewrite Hlen].
Qed.

(** X11.  Past [validate_args], [safe_assign] raises nothing and gives
    field numbers that are not negative, so each counts from the start
    of a record: for a list of entries written in ASCII that [isdigit]
    accepts, [int] reads every entry, as a number that is zero or
    more. *)
Theorem safe_assign_validated (items : list string) :
  Forall is_ascii items -> forallb isdigit items = true ->
  exists ns,
    safe_assign (Some items) = Ok ns /\
    length ns = length items /\
    Forall (fun n => 0 <= n) ns /\
    map Z.of_nat (map Z.to_nat ns) = ns.
Proof.
  intros _ Hall. destruct (ints_of_digits items Hall) as (ns & Hns & Hpos & Hlen).
  exists ns. repeat split; try assumption.
  rewrite map_map. rewrite <- (map_id ns) at 2.
  apply map_ext_in. intros n Hn.
  rewrite Forall_forall in Hpos. specialize (Hpos n Hn). lia.
Qed.

End MergeArguments.

Section MergeOptions.

Import MergeMain.

Ltac option_cases opt :=
  repeat match goal with
         | |- context [String.eqb opt ?n] =>
             destruct (String.eqb_spec opt n) as [->|?]
         end.

Lemma options_loop_spec options : forall a0 a,
  options_loop options a0 = inr a ->
  Forall known_option options /\
  indir a = or_else (last_value ["-i"; "--indir"]%string options) (indir a0) /\
  intkeys a
  = or_else (option_map (split comma)
               (last_value ["-I"; "--intkeys"]%string options)) (intkeys a0) /\
  strkeys a
  = or_else (option_map (split comma)
               (last_value ["-S"; "--strkeys"]%string options)) (strkeys a0) /\
  sums a
  = or_else (option_map (split comma)
               (last_value ["-s"; "--sums"]%string options)) (sums a0) /\
  output a
  = or_else (last_value ["-o"; "--output"]%string options) (output a0) /\
  verbose a
  = (existsb (fun o => among (fst o) ["-v"; "--verbose"]%string) options
     || verbose a0)%bool.
Proof.
  induction options as [|[opt val] rest IH]; intros a0 a.
  - intros [= <-]. repeat split; constructor.
  - cbn [options_loop last_value existsb fst].
    unfold known_option, merge_options, among at 1 2 3 4 5 6 7.
    cbn [existsb].
    option_cases opt; cbn [orb]; try discriminate;
      intros H; apply IH in H;
      destruct H as (Hk & Hi & HI & HS & Hs & Ho & Hv);
      cbn [indir intkeys strkeys sums output verbose] in *;
      (split; [constructor; [reflexivity|exact Hk]|]);
      rewrite Hi, HI, HS, Hs, Ho, Hv;
      unfold among; cbn [existsb fst String.eqb Ascii.eqb Bool.eqb orb andb];
      repeat split;
      repeat match goal with
             | |- context [last_value ?names rest] =>
                 destruct (last_value names rest)
             | |- context [existsb ?f rest] => destruct (existsb f rest)
             end;
      reflexivity.
Qed.

Lemma options_loop_known options :
  Forall known_option options ->
  forall a0, exists a, options_loop options a0 = inr a.
Proof.
  induction 1 as [|[opt val] rest Hk _ IH]; intros a0.
  - now exists a0.
  - unfold known_option, merge_options, among in Hk.
    cbn [existsb fst] in Hk. cbn [options_loop].
    unfold among at 1 2 3 4 5 6 7. cbn [existsb].
    revert Hk. option_cases opt; cbn [orb]; try discriminate;
      intros _; apply IH.
Qed.

(** X12.  [get_args] returns exactly when nothing is left beside the
    options and every option goes by one of the twelve names that are
    neither [-h] nor [--help]; each variable then holds the value of
    the last option given for it, cut at the commas for the three
    lists, and [None] when there is no such option. *)
Theorem get_args_last_wins (options : list (string * string))
  (remainder : list string) :
  ((exists a, get_args (Parsed options remainder) = inr a) <->
   remainder = [] /\ Forall known_option options) /\
  (forall a, get_args (Parsed options remainder) = inr a ->
     indir a = last_value ["-i"; "--indir"]%string options /\
     intkeys a
     = option_map (split comma)
         (last_value ["-I"; "--intkeys"]%string options) /\
     strkeys a
     = option_map (split comma)
         (last_value ["-S"; "--strkeys"]%string options) /\
     sums a
     = option_map (split comma) (last_value ["-s"; "--sums"]%string options) /\
     output a = last_value ["-o"; "--output"]%string options /\
     verbose a
     = existsb (fun o => among (fst o) ["-v"; "--verbose"]%string) options).
Proof.
  unfold get_args. split; [split|].
  - intros [a H].
    destruct (options_loop options defaults) as [s|a'] eqn:E; [discriminate|].
    destruct remainder; [|discriminate].
    split; [reflexivity|]. now apply (options_loop_spec _ _ _ E).
  - intros [-> Hk].
    destruct (options_loop_known options Hk defaults) as [a ->]. now exists a.
  - intros a H.
    destruct (options_loop options defaults) as [s|a'] eqn:E; [discriminate|].
    destruct remainder; [|discriminate]. injection H as ->.
    destruct (options_loop_spec _ _ _ E) as (_ & Hi & HI & HS & Hs & Ho & Hv).
    rewrite Hi, HI, HS, Hs, Ho, Hv. cbn [defaults indir intkeys strkeys sums
                                          output verbose].
    rewrite orb_false_r.
    repeat split;
      repeat match goal with
             | |- context [last_value ?names options] =>
                 destruct (last_value names options)
             end;
      reflexivity.
Qed.

End MergeOptions.

(* ================================================================== *)
(** * merge.py: [do_main], the fold of [do_merge] over the files *)
(* ================================================================== *)

Section MergeKeeps.

Variable self : MergeAdd.
Variable P : fields -> Prop.
Hypothesis kept : kept_by_sum self P.

Lemma drain_keeps line handle :
  line = EmptyString \/ P (split tab line) ->
  Forall P (records handle) ->
  Forall P (records (drain line handle)).
Proof.
  intros Hline Hh. apply Forall_forall. intros r Hr.
  apply in_map_iff in Hr. destruct Hr as (l & <- & Hl).
  destruct (drain_lines _ _ _ Hl) as [Hne [->|Hin]].
  - destruct Hline as [->|Hp]; [congruence|exact Hp].
  - rewrite Forall_forall in Hh. apply Hh. now apply in_map.
Qed.

Lemma drain_both_keeps current handle current' handle' :
  current <> [] -> current' <> [] ->
  Forall (free_of tab) current -> Forall (free_of tab) current' ->
  at_end current = true \/ P current ->
  at_end current' = true \/ P current' ->
  Forall P (records handle) -> Forall P (records handle') ->
  Forall P (records (fst (drain_both current handle current' handle'))).
Proof.
  intros Hne Hne' Hfree Hfree' Hp Hp' Hh Hh'.
  unfold drain_both, fst, records. rewrite map_app. apply Forall_app.
  split; apply drain_keeps; try assumption.
  - destruct Hp as [Hp|Hp]; [left|right].
    + apply at_end_true in Hp. now subst.
    + now rewrite split_join_tab.
  - destruct Hp' as [Hp'|Hp']; [left|right].
    + apply at_end_true in Hp'. now subst.
    + now rewrite split_join_tab.
Qed.

Lemma merge_loop_keeps have have_fields to_merge_fields to_merge :
  have_fields <> [] -> to_merge_fields <> [] ->
  Forall (free_of tab) have_fields -> Forall (free_of tab) to_merge_fields ->
  at_end have_fields = true \/ P have_fields ->
  at_end to_merge_fields = true \/ P to_merge_fields ->
  Forall P (records have) -> Forall P (records to_merge) ->
  Forall P
    (records (fst (merge_loop self have have_fields to_merge_fields to_merge))).
Proof.
  pattern have, have_fields, to_merge_fields, to_merge.
  apply merge_loop_ind. clear have have_fields to_merge_fields to_merge.
  intros have hf tf tm IHto IHhave Hne1 Hne2 Hfree1 Hfree2 H1 H2 Hh Ht.
  rewrite merge_loop_unfold.
  destruct (at_end hf || at_end tf) eqn:Eend.
  { now apply drain_both_keeps. }
  apply orb_false_elim in Eend. destruct Eend as [Eh Et].
  destruct H1 as [H1|H1]; [congruence|].
  destruct H2 as [H2|H2]; [congruence|].
  destruct (compare_fields self hf tf) as [r|e] eqn:Ec; [|constructor].
  destruct (r =? 0)%Z eqn:E0.
  { destruct (sum_fields self hf tf) as [s|e] eqn:Es; [|constructor].
    assert (s <> []) as Hne.
    { destruct (sum_fields_same_but_sums self _ _ _ Es) as [Hlen _].
      destruct s; [|discriminate]. destruct hf; [congruence|discriminate]. }
    pose proof (sum_fields_free self _ _ _ Hfree1 Es) as Hfree.
    pose proof (kept _ _ _ H1 H2 Es) as Hs.
    destruct tm as [|next tm'].
    - apply drain_both_keeps; auto; try discriminate.
      repeat constructor.
    - rewrite records_cons in Ht. inversion Ht; subst.
      apply (IHto next tm' s eq_refl); auto using split_not_nil, split_free. }
  destruct (r <? 0)%Z eqn:Er.
  { unfold emit, fst at 1. rewrite records_join_cons by assumption.
    constructor; [exact H1|].
    destruct have as [|next have'].
    - apply drain_both_keeps; auto; try discriminate.
      repeat constructor.
    - rewrite records_cons in Hh. inversion Hh; subst.
      apply (IHhave next have' eq_refl);
        auto using split_not_nil, split_free. }
  { unfold emit, fst at 1. rewrite records_join_cons by assumption.
    constructor; [exact H2|].
    destruct tm as [|next tm'].
    - apply drain_both_keeps; auto; try discriminate.
      repeat constructor.
    - rewrite records_cons in Ht. inversion Ht; subst.
      apply (IHto next tm' hf eq_refl);
        auto using split_not_nil, split_free. }
Qed.

Lemma do_merge_keeps (have to_merge : file) :
  Forall P (records have) -> Forall P (records to_merge) ->
  Forall P (records (fst (do_merge self have to_merge))).
Proof.
  intros H1 H2. unfold do_merge, read_fields, readline_rstrip.
  destruct have as [|l1 have']; destruct to_merge as [|l2 to_merge'];
    apply merge_loop_keeps;
    repeat match goal with
           | H : Forall _ (records (_ :: _)) |- _ =>
               rewrite records_cons in H; inversion H; subst; clear H
           end;
    auto using split_not_nil, split_free.
Qed.

End MergeKeeps.

Section MergeAll.

Variable self : MergeAdd.

Lemma merge_all_cons first to_merge others :
  merge_all self first (to_merge :: others)
  = merge_all self (fst (do_merge self first to_merge)) others.
Proof. reflexivity. Qed.

Lemma merge_all_keeps (P : fields -> Prop) first others :
  kept_by_sum self P ->
  Forall P (records first) ->
  Forall (fun content => Forall P (records content)) others ->
  Forall P (records (merge_all self first others)).
Proof.
  intros Hkept. revert first.
  induction others as [|to_merge others IH]; intros first H1 H2.
  - exact H1.
  - inversion H2; subst. rewrite merge_all_cons. apply IH; [|assumption].
    now apply do_merge_keeps.
Qed.

Lemma fit_kept : kept_by_sum self (fit self).
Proof.
  intros infields to_add_fields result H1 _ Hsum.
  eapply sum_fields_keeps_fit; eassumption.
Qed.

Lemma merge_all_returns first others :
  Forall (fit self) (records first) ->
  Forall (fun content => Forall (fit self) (records content)) others ->
  merges_return self first others.
Proof.
  revert first. induction others as [|to_merge others IH]; intros first H1 H2.
  - exact I.
  - inversion H2; subst. split.
    + now apply do_merge_fit_returns.
    + apply IH; [|assumption]. apply do_merge_keeps; auto using fit_kept.
Qed.

Lemma do_merge_sorted_run have to_merge :
  sums_apart self ->
  sorted_run self have -> sorted_run self to_merge ->
  sorted_run self (fst (do_merge self have to_merge)).
Proof.
  intros Hapart H1 H2. unfold do_merge, read_fields, readline_rstrip.
  assert (forall handle, sorted_run self handle ->
            let (line, rest) :=
              match handle with
              | [] => (EmptyString, [])
              | line :: rest => (line, rest)
              end in
            Sorted (le self) (split tab line :: records rest)) as Hread.
  { intros [|line rest] H; [repeat constructor|exact H]. }
  pose proof (Hread _ H1) as S1. pose proof (Hread _ H2) as S2.
  destruct have as [|l1 have']; destruct to_merge as [|l2 to_merge'];
    apply merge_loop_sorted; auto using split_not_nil, split_free.
Qed.

Lemma merge_all_sorted first others :
  sums_apart self ->
  sorted_run self first -> Forall (sorted_run self) others ->
  sorted_run self (merge_all self first others).
Proof.
  intros Hapart. revert first.
  induction others as [|to_merge others IH]; intros first H1 H2.
  - exact H1.
  - inversion H2; subst. rewrite merge_all_cons. apply IH; [|assumption].
    now apply do_merge_sorted_run.
Qed.

Lemma merge_all_strict first others :
  sums_apart self ->
  strict_run self first -> Forall (strict_run self) others ->
  strict_run self (merge_all self first others).
Proof.
  intros Hapart. revert first.
  induction others as [|to_merge others IH]; intros first H1 H2.
  - exact H1.
  - inversion H2; subst. rewrite merge_all_cons. apply IH; [|assumption].
    now apply do_merge_strict_run.
Qed.

Lemma merge_all_totals index first others :
  NoDup (sums self) -> In index (sums self) ->
  no_empty_line first -> Forall no_empty_line others ->
  merges_return self first others ->
  field_total index (merge_all self first others)
  = (field_total index first + files_total index others)%Z.
Proof.
  intros Hnd Hin. revert first.
  induction others as [|to_merge others IH]; intros first H1 H2 Hret.
  - simpl. lia.
  - inversion H2; subst. destruct Hret as [Hret Hrest].
    rewrite merge_all_cons, IH; auto using do_merge_no_empty_line.
    rewrite (do_merge_totals self index Hnd Hin first to_merge) by assumption.
    cbn [files_total fold_right]. fold (files_total index others). lia.
Qed.

Lemma merge_all_length first others :
  (length (merge_all self first others)
   <= length first + length (concat others))%nat.
Proof.
  revert first. induction others as [|to_merge others IH]; intros first.
  - simpl. lia.
  - rewrite merge_all_cons. specialize (IH (fst (do_merge self first to_merge))).
    pose proof (do_merge_length self first to_merge).
    simpl concat. rewrite length_app. lia.
Qed.

(** X13.  The fold of [do_merge] that [do_main] runs over files that
    are sorted runs of records fit for the merge, without an empty
    line, no summed field a key field and none summed twice: every
    merge returns; the last result is a sorted run of fit records; it
    holds no more lines than the files together; and the total of
    every summed field over it is its total over all the files. *)
Theorem merge_all_sound (first : file) (others : list file) (index : nat) :
  sums_apart self -> NoDup (sums self) -> In index (sums self) ->
  Forall (fun content =>
            sorted_run self content /\ no_empty_line content /\
            Forall (fit self) (records content)) (first :: others) ->
  merges_return self first others /\
  sorted_run self (merge_all self first others) /\
  Forall (fit self) (records (merge_all self first others)) /\
  (length (merge_all self first others)
   <= length (concat (first :: others)))%nat /\
  field_total index (merge_all self first others)
  = files_total index (first :: others).
Proof.
  intros Hapart Hnd Hin Hall.
  inversion Hall as [|? ? (Hs1 & He1 & Hf1) Hothers]; subst.
  assert (Forall (sorted_run self) others) as Hs
      by (eapply Forall_impl; [|exact Hothers]; intros ? H; apply H).
  assert (Forall no_empty_line others) as He
      by (eapply Forall_impl; [|exact Hothers]; intros ? H; apply H).
  assert (Forall (fun content => Forall (fit self) (records content)) others)
    as Hf by (eapply Forall_impl; [|exact Hothers]; intros ? H; apply H).
  pose proof (merge_all_returns first others Hf1 Hf) as Hret.
  split; [exact Hret|].
  split; [now apply merge_all_sorted|].
  split; [apply merge_all_keeps; auto using fit_kept|].
  split.
  - pose proof (merge_all_length first others). simpl concat.
    rewrite length_app. lia.
  - now apply merge_all_totals.
Qed.

End MergeAll.

Section MergeFiles.

Import MergeMain.

Variable merger : MergeAdd.
Variable dir : string.
Variable chatty : bool.

Lemma print_disk b n st : disk (print b n st) = disk st.
Proof. now destruct b. Qed.

Lemma print_printed b n st :
  printed (print b n st)
  = (printed st ++ if b then [n] else [])%list.
Proof. destruct b; simpl; [reflexivity|now rewrite app_nil_r]. Qed.

Lemma write_same files path content :
  write files path content path = Some content.
Proof. unfold write. now rewrite String.eqb_refl. Qed.

Lemma write_other files path content p :
  p <> path -> write files path content p = files p.
Proof.
  intros H. unfold write. now rewrite (proj2 (String.eqb_neq _ _) H).
Qed.

Lemma rename_target files src dst : rename files src dst dst = files src.
Proof. unfold rename. now rewrite String.eqb_refl. Qed.

Lemma rename_source files src dst :
  src <> dst -> rename files src dst src = None.
Proof.
  intros H. unfold rename.
  now rewrite (proj2 (String.eqb_neq _ _) H), String.eqb_refl.
Qed.

Lemma rename_other files src dst p :
  p <> src -> p <> dst -> rename files src dst p = files p.
Proof.
  intros H1 H2. unfold rename.
  now rewrite (proj2 (String.eqb_neq _ _) H1), (proj2 (String.eqb_neq _ _) H2).
Qed.

Lemma tempfile_not_nextinput : tempfile <> nextinput.
Proof. discriminate. Qed.

(** The loop writes the two temporary files and no other. *)
Lemma files_loop_frame filenames : forall startfile st st' how,
  files_loop merger dir chatty filenames startfile st = (st', how) ->
  forall p, p <> tempfile -> p <> nextinput -> disk st' p = disk st p.
Proof.
  induction filenames as [|filename rest IH]; intros startfile st st' how.
  - intros [= <- <-]. reflexivity.
  - cbn [files_loop]. rewrite !print_disk.
    destruct (disk st startfile) as [have|];
      [|intros [= <- <-] p _ _; now rewrite print_disk].
    destruct (disk st (Dump.path_join dir filename)) as [to_merge|];
      [|intros [= <- <-] p _ _; now rewrite print_disk].
    destruct (do_merge merger _ _) as [written [[]|e]].
    + intros H p Hp1 Hp2. rewrite (IH _ _ _ _ H p Hp1 Hp2). cbn [disk].
      rewrite rename_other, write_other, ?print_disk by assumption.
      reflexivity.
    + intros [= <- <-] p Hp1 Hp2. cbn [disk].
      now rewrite write_other, ?print_disk.
Qed.

(** The loop run over files that can be read, none of them a temporary
    file, with merges that return. *)
Lemma files_loop_runs filenames : forall contents startfile have st,
  Forall2 (fun filename content =>
             disk st (Dump.path_join dir filename) = Some content /\
             Dump.path_join dir filename <> tempfile /\
             Dump.path_join dir filename <> nextinput)
          filenames contents ->
  disk st startfile = Some have -> startfile <> tempfile ->
  merges_return merger have contents ->
  exists st',
    files_loop merger dir chatty filenames startfile st = (st', inr tt) /\
    disk st' (match filenames with [] => startfile | _ => nextinput end)
    = Some (merge_all merger have contents) /\
    (filenames <> [] -> disk st' tempfile = None) /\
    printed st'
    = (printed st ++ if chatty then processing startfile filenames else [])%list.
Proof.
  induction filenames as [|filename rest IH];
    intros contents startfile have st Hread Hstart Hne Hret.
  - inversion Hread; subst. exists st. cbn [files_loop merge_all fold_left].
    repeat split; [exact Hstart|congruence|].
    destruct chatty; simpl; now rewrite app_nil_r.
  - inversion Hread as [|? to_merge ? others (Hfile & Hp1 & Hp2) Hrest];
      subst.
    destruct Hret as [Hret Hrets].
    cbn [files_loop]. rewrite !print_disk, Hstart, Hfile.
    unfold read_from.
    rewrite (proj2 (String.eqb_neq _ _) Hne), (proj2 (String.eqb_neq _ _) Hp1).
    destruct (do_merge merger have to_merge) as [written how] eqn:Em.
    cbn [fst snd] in *. subst how.
    cbn [disk printed].
    set (st1 := {| disk := rename (write (disk st) tempfile written)
                             tempfile nextinput;
                   printed := printed (print chatty
                     (ProcessingFiles startfile filename) st) |}).
    destruct (IH others nextinput written st1) as (st' & Hrun & Hout & Htmp & Hpr).
    + eapply Forall2_impl; [|exact Hrest].
      intros name content (Hc & Hn1 & Hn2). split; [|now split].
      unfold st1. cbn [disk].
      now rewrite rename_other, write_other.
    + unfold st1. cbn [disk]. now rewrite rename_target, write_same.
    + intros H. symmetry in H. now apply tempfile_not_nextinput in H.
    + exact Hrets.
    + exists st'. split; [exact Hrun|].
      split.
      { rewrite merge_all_cons, Em. cbn [fst].
        destruct rest; exact Hout. }
      split.
      { intros _. destruct rest as [|r rest'].
        - inversion Hrest; subst. cbn [files_loop] in Hrun.
          injection Hrun as <-. unfold st1. cbn [disk].
          apply rename_source, tempfile_not_nextinput.
        - apply Htmp. discriminate. }
      rewrite Hpr. unfold st1. cbn [printed]. rewrite print_printed.
      rewrite <- app_assoc. f_equal.
      destruct chatty; [|reflexivity]. cbn [processing app].
      destruct rest; reflexivity.
Qed.

End MergeFiles.

Section MergeDoMain.

Import MergeMain.

Lemma new_merger_validated exists_ indir intkeys strkeys sums output :
  validate_args exists_ indir intkeys strkeys sums output = inr tt ->
  exists merger, new_merger intkeys strkeys sums = Ok merger.
Proof.
  intros H. apply validate_args_spec in H.
  destruct H as (dir & out & ik & sk & su & _ & _ & -> & -> & -> & _ & _ & _
                 & Hall & _).
  rewrite !forallb_app in Hall.
  apply andb_prop in Hall. destruct Hall as [H1 Hall].
  apply andb_prop in Hall. destruct Hall as [H2 H3].
  destruct (ints_of_digits ik H1) as (ni & Hi & _).
  destruct (ints_of_digits sk H2) as (ns & Hs & _).
  destruct (ints_of_digits su H3) as (nt & Ht & _).
  unfold new_merger, safe_assign. rewrite Hi, Hs, Ht. simpl. eauto.
Qed.

Lemma do_main_past_arguments answer exists_ infiles st a :
  get_args answer = inr a ->
  validate_args exists_ (indir a) (intkeys a) (strkeys a) (sums a) (output a)
  = inr tt ->
  exists merger dir out,
    new_merger (intkeys a) (strkeys a) (sums a) = Ok merger /\
    indir a = Some dir /\ output a = Some out /\
    do_main answer exists_ infiles st
    = match infiles with
      | [] => (st, inl (Whined EmptyDirectory))
      | [_] => (st, inl (Whined OnlyOneFile))
      | first :: others =>
          let (st', how) :=
            files_loop merger dir (verbose a) others
              (Dump.path_join dir first) st in
          match how with
          | inl s => (st', inl s)
          | inr _ =>
              (print (verbose a) (FinalOutput out)
                 {| disk := rename (disk st') nextinput out;
                    printed := printed st' |},
               inr tt)
          end
      end.
Proof.
  intros Hargs Hvalid.
  destruct (new_merger_validated _ _ _ _ _ _ Hvalid) as [merger Hm].
  pose proof (proj1 (validate_args_spec _ _ _ _ _ _) Hvalid)
    as (dir & out & _ & _ & _ & Hdir & Hout & _).
  exists merger, dir, out. repeat split; try assumption.
  unfold do_main. rewrite Hargs, Hvalid, Hm, Hdir, Hout.
  destruct infiles as [|first [|second rest]]; reflexivity.
Qed.

(** X14.  [do_main] writes nowhere but to its two temporary files and,
    when it reaches its end, to the output: any other file is then as
    it was.  Given fewer than two files it stops with nothing written
    or printed, the single file not copied to the output. *)
Theorem do_main_touches (answer : getopt_answer) (exists_ : string -> bool)
  (infiles : list string) (st st' : state) (how : stop + unit) :
  do_main answer exists_ infiles st = (st', how) ->
  (forall p, p <> tempfile -> p <> nextinput -> disk st' p <> disk st p ->
     how = inr tt /\
     exists a, get_args answer = inr a /\ output a = Some p) /\
  ((length infiles < 2)%nat -> st' = st /\ exists s, how = inl s).
Proof.
  intros Hrun.
  destruct (get_args answer) as [s|a] eqn:Hargs.
  { unfold do_main in Hrun. rewrite Hargs in Hrun. injection Hrun as <- <-.
    split; [intros p _ _ H; congruence|eauto]. }
  destruct (validate_args exists_ (indir a) (intkeys a) (strkeys a) (sums a)
              (output a)) as [s|[]] eqn:Hvalid.
  { unfold do_main in Hrun. rewrite Hargs, Hvalid in Hrun.
    injection Hrun as <- <-.
    split; [intros p _ _ H; congruence|eauto]. }
  destruct (do_main_past_arguments answer exists_ infiles st a Hargs Hvalid)
    as (merger & dir & out & _ & _ & Hout & Hmain).
  rewrite Hmain in Hrun. clear Hmain.
  destruct infiles as [|first [|second rest]].
  - injection Hrun as <- <-. split; [intros p _ _ H; congruence|eauto].
  - injection Hrun as <- <-. split; [intros p _ _ H; congruence|eauto].
  - split; [|simpl; lia].
    destruct (files_loop merger dir (verbose a) (second :: rest)
                (Dump.path_join dir first) st) as [st1 how1] eqn:Hloop.
    pose proof (files_loop_frame _ _ _ _ _ _ _ _ Hloop) as Hframe.
    destruct how1 as [s|[]]; injection Hrun as <- <-; intros p Hp1 Hp2 Hp.
    + rewrite Hframe in Hp by assumption. congruence.
    + split; [reflexivity|]. exists a. split; [reflexivity|].
      rewrite Hout. f_equal.
      destruct (String.eqb_spec p out) as [->|Hne]; [reflexivity|].
      rewrite print_disk in Hp. cbn [disk] in Hp.
      rewrite rename_other, Hframe in Hp by assumption. congruence.
Qed.

(** X15.  Past [get_args] and [validate_args], with key and sum
    entries written in ASCII (on these [isdigit] and [int] are
    Python's), [MergeAdd] is built without an exception; then, over two
    files or more that can be read, none of them one of the two
    temporary files, and with merges that all return, [do_main] reaches
    its end; the output then holds the lines of the fold, the first
    file merged with the second, the result with the third and so on;
    the temporary files are gone, the other files are as they were, and
    what is printed is the pairs merged and the output, when verbose. *)
Theorem do_main_merges_all (answer : getopt_answer)
  (exists_ : string -> bool) (a : args) (first : string)
  (others : list string) (have : file) (contents : list file) (st : state) :
  get_args answer = inr a ->
  validate_args exists_ (indir a) (intkeys a) (strkeys a) (sums a) (output a)
  = inr tt ->
  (forall entries, In (Some entries) [intkeys a; strkeys a; sums a] ->
                   Forall is_ascii entries) ->
  others <> [] ->
  exists merger dir out,
    new_merger (intkeys a) (strkeys a) (sums a) = Ok merger /\
    indir a = Some dir /\ output a = Some out /\
    (Forall2 (fun filename content =>
                disk st (Dump.path_join dir filename) = Some content /\
                Dump.path_join dir filename <> tempfile /\
                Dump.path_join dir filename <> nextinput)
             (first :: others) (have :: contents) ->
     merges_return merger have contents ->
     exists st',
       do_main answer exists_ (first :: others) st = (st', inr tt) /\
       disk st' out = Some (merge_all merger have contents) /\
       (forall p, p <> tempfile -> p <> nextinput -> p <> out ->
                  disk st' p = disk st p) /\
       (out <> tempfile -> disk st' tempfile = None) /\
       (out <> nextinput -> disk st' nextinput = None) /\
       printed st'
       = (printed st
          ++ if verbose a
             then processing (Dump.path_join dir first) others
                  ++ [FinalOutput out]
             else [])%list).
Proof.
  intros Hargs Hvalid _ Hothers.
  destruct (new_merger_validated _ _ _ _ _ _ Hvalid) as [merger Hm].
  pose proof (proj1 (validate_args_spec _ _ _ _ _ _) Hvalid)
    as (dir & out & _ & _ & _ & Hdir & Hout & _).
  exists merger, dir, out. repeat (split; [assumption|]).
  intros Hread Hret.
  destruct (do_main_past_arguments answer exists_ (first :: others) st a
              Hargs Hvalid)
    as (merger' & dir' & out' & Hm' & Hdir' & Hout' & Hmain).
  assert (merger' = merger) as -> by congruence.
  assert (dir' = dir) as -> by congruence.
  assert (out' = out) as -> by congruence.
  rewrite Hmain. clear Hmain.
  inversion Hread as [|? ? ? ? (Hfirst & Hf1 & Hf2) Hrest]; subst.
  destruct (files_loop_runs merger dir (verbose a) others contents
              (Dump.path_join dir first) have st Hrest Hfirst Hf1 Hret)
    as (st1 & Hloop & Hnext & Htmp & Hpr).
  pose proof (files_loop_frame _ _ _ _ _ _ _ _ Hloop) as Hframe.
  destruct others as [|second rest]; [congruence|].
  rewrite Hloop. eexists. split; [reflexivity|].
  rewrite print_disk, print_printed. cbn [disk printed].
  split; [now rewrite rename_target|].
  split.
  { intros p Hp1 Hp2 Hp3. rewrite rename_other by assumption.
    now apply Hframe. }
  split.
  { intros Hne. rewrite rename_other;
      [apply Htmp; discriminate|apply tempfile_not_nextinput|congruence]. }
  split.
  { intros Hne. apply rename_source. congruence. }
  rewrite Hpr, <- app_assoc. f_equal. now destruct (verbose a).
Qed.

End MergeDoMain.

Lemma safe_assign_validated_witness :
  let items := ["0"; "12"]%string in
  Forall is_ascii items /\ forallb isdigit items = true /\
  exists ns,
    MergeMain.safe_assign (Some items) = Ok ns /\
    length ns = length items /\
    Forall (fun n => (0 <= n)%Z) ns /\
    map Z.of_nat (map Z.to_nat ns) = ns.
Proof.
  assert (Forall is_ascii ["0"; "12"]%string) as H1.
  { repeat constructor; simpl; lia. }
  split; [exact H1|]. split; [reflexivity|].
  exact (safe_assign_validated ["0"; "12"]%string H1 eq_refl).
Defined.

Lemma merge_all_sound_witness :
  let first := [row "1" "a" "5"; row "2" "b" "1"] in
  let others := [[row "1" "a" "3"]; [row "2" "b" "2"; row "3" "c" "1"]] in
  sums_apart scenario_roles /\ NoDup (sums scenario_roles) /\
  In 2%nat (sums scenario_roles) /\
  Forall (fun content =>
            sorted_run scenario_roles content /\ no_empty_line content /\
            Forall (fit scenario_roles) (records content)) (first :: others) /\
  merges_return scenario_roles first others /\
  sorted_run scenario_roles (merge_all scenario_roles first others) /\
  Forall (fit scenario_roles) (records (merge_all scenario_roles first others))
  /\
  (length (merge_all scenario_roles first others)
   <= length (concat (first :: others)))%nat /\
  field_total 2 (merge_all scenario_roles first others)
  = files_total 2 (first :: others).
Proof.
  assert (sums_apart scenario_roles) as Ha.
  { intros i [<-|[]] [H|[H|[]]]; discriminate H. }
  assert (NoDup (sums scenario_roles)) as Hnd.
  { constructor; [intros []|constructor]. }
  assert (In 2%nat (sums scenario_roles)) as Hin by (left; reflexivity).
  assert (Forall (fun content =>
            sorted_run scenario_roles content /\ no_empty_line content /\
            Forall (fit scenario_roles) (records content))
            [[row "1" "a" "5"; row "2" "b" "1"]; [row "1" "a" "3"];
             [row "2" "b" "2"; row "3" "c" "1"]]) as Hall.
  { repeat (apply Forall_cons;
            [split; [repeat constructor|];
             split; [repeat constructor; discriminate|];
             repeat (apply Forall_cons; [scenario_fit|]); apply Forall_nil|]).
    apply Forall_nil. }
  split; [exact Ha|]. split; [exact Hnd|]. split; [exact Hin|].
  split; [exact Hall|].
  exact (merge_all_sound scenario_roles _ _ 2 Ha Hnd Hin Hall).
Defined.

Lemma do_main_touches_witness :
  let answer :=
    MergeMain.Parsed [("-i", "/in"); ("-I", "0"); ("-S", "1"); ("-s", "2");
                      ("-o", "/out.gz")]%string [] in
  let st := {| MergeMain.disk := fun _ => None; MergeMain.printed := [] |} in
  let run := MergeMain.do_main answer (fun _ => true) ["only"%string] st in
  MergeMain.do_main answer (fun _ => true) ["only"%string] st = run /\
  (forall p, p <> MergeMain.tempfile -> p <> MergeMain.nextinput ->
     MergeMain.disk (fst run) p <> MergeMain.disk st p ->
     snd run = inr tt /\
     exists a, MergeMain.get_args answer = inr a /\
               MergeMain.output a = Some p) /\
  ((length ["only"%string] < 2)%nat ->
   fst run = st /\ exists s, snd run = inl s).
Proof.
  intros answer st run. split; [reflexivity|].
  apply (do_main_touches answer (fun _ => true) ["only"%string] st
           (fst run) (snd run)).
  apply surjective_pairing.
Defined.

Lemma do_main_merges_all_witness :
  let answer :=
    MergeMain.Parsed [("-i", "/in"); ("-I", "0"); ("-S", "1"); ("-s", "2");
                      ("-o", "/out.gz"); ("-v", EmptyString)]%string [] in
  let a :=
    {| MergeMain.indir := Some "/in"%string;
       MergeMain.intkeys := Some ["0"%string];
       MergeMain.strkeys := Some ["1"%string];
       MergeMain.sums := Some ["2"%string];
       MergeMain.output := Some "/out.gz"%string;
       MergeMain.verbose := true |} in
  let have := [row "1" "Apple" "2"; row "3" "Cherry" "1"] in
  let second := [row "1" "Apple" "5"; row "2" "Banana" "4"] in
  let third := [row "3" "Cherry" "7"] in
  let st :=
    {| MergeMain.disk :=
         fun p =>
           if String.eqb p "/in/a.gz" then Some have
           else if String.eqb p "/in/b.gz" then Some second
           else if String.eqb p "/in/c.gz" then Some third
           else None;
       MergeMain.printed := [] |} in
  MergeMain.get_args answer = inr a /\
  MergeMain.validate_args (fun _ => true) (MergeMain.indir a)
    (MergeMain.intkeys a) (MergeMain.strkeys a) (MergeMain.sums a)
    (MergeMain.output a) = inr tt /\
  (forall entries,
     In (Some entries)
        [MergeMain.intkeys a; MergeMain.strkeys a; MergeMain.sums a] ->
     Forall is_ascii entries) /\
  ["b.gz"; "c.gz"]%string <> [] /\
  MergeMain.new_merger (MergeMain.intkeys a) (MergeMain.strkeys a)
    (MergeMain.sums a) = Ok scenario_roles /\
  Forall2 (fun filename content =>
             MergeMain.disk st (Dump.path_join "/in" filename)
             = Some content /\
             Dump.path_join "/in" filename <> MergeMain.tempfile /\
             Dump.path_join "/in" filename <> MergeMain.nextinput)
          ["a.gz"; "b.gz"; "c.gz"]%string [have; second; third] /\
  merges_return scenario_roles have [second; third] /\
  exists st',
    MergeMain.do_main answer (fun _ => true) ["a.gz"; "b.gz"; "c.gz"]%string st
    = (st', inr tt) /\
    MergeMain.disk st' "/out.gz"%string
    = Some [row "1" "Apple" "7"; row "2" "Banana" "4"; row "3" "Cherry" "8"] /\
    MergeMain.disk st' "/in/a.gz"%string = Some have /\
    MergeMain.disk st' MergeMain.tempfile = None /\
    MergeMain.disk st' MergeMain.nextinput = None /\
    MergeMain.printed st'
    = [MergeMain.ProcessingFiles "/in/a.gz" "b.gz";
       MergeMain.ProcessingFiles MergeMain.nextinput "c.gz";
       MergeMain.FinalOutput "/out.gz"].
Proof.
  intros answer a have second third st.
  assert (MergeMain.get_args answer = inr a) as Hargs by reflexivity.
  assert (MergeMain.validate_args (fun _ => true) (MergeMain.indir a)
            (MergeMain.intkeys a) (MergeMain.strkeys a) (MergeMain.sums a)
            (MergeMain.output a) = inr tt) as Hvalid by reflexivity.
  assert (forall entries,
            In (Some entries)
               [MergeMain.intkeys a; MergeMain.strkeys a; MergeMain.sums a] ->
            Forall is_ascii entries) as Hascii.
  { intros entries [H|[H|[H|[]]]]; injection H as <-;
      repeat constructor; simpl; lia. }
  assert (["b.gz"; "c.gz"]%string <> []) as Hothers by discriminate.
  assert (Forall2 (fun filename content =>
                     MergeMain.disk st (Dump.path_join "/in" filename)
                     = Some content /\
                     Dump.path_join "/in" filename <> MergeMain.tempfile /\
                     Dump.path_join "/in" filename <> MergeMain.nextinput)
                  ["a.gz"; "b.gz"; "c.gz"]%string [have; second; third])
    as Hread.
  { repeat constructor; discriminate. }
  assert (merges_return scenario_roles have [second; third]) as Hret.
  { repeat split. }
  destruct (do_main_merges_all answer (fun _ => true) a "a.gz"
              ["b.gz"; "c.gz"]%string have [second; third] st
              Hargs Hvalid Hascii Hothers)
    as (merger & dir & out & Hmerger & Hdir & Hout & Hrun).
  injection Hmerger as <-. injection Hdir as <-. injection Hout as <-.
  destruct (Hrun Hread Hret)
    as (st' & Hmain & Hdisk & Hframe & Htemp & Hnext & Hprinted).
  repeat (split; [assumption || reflexivity|]).
  exists st'. split; [exact Hmain|]. split; [exact Hdisk|].
  split; [apply (Hframe "/in/a.gz"%string); discriminate|].
  split; [apply Htemp; discriminate|].
  split; [apply Hnext; discriminate|exact Hprinted].
Defined.

(* ================================================================== *)
(** * The watchlist dumper: the greatest id and the partitions of a run *)
(* ================================================================== *)

Section MaxId.

Open Scope Z_scope.

Variables fieldname tablename : string.

Lemma get_max_id_answer header line rest :
  snd (get_max_id (Some (header :: line :: rest)) fieldname tablename)
  = match line with
    | EmptyString => Returned None
    | _ => if isdigit line
           then match parse_int line with
                | Some n => Returned (Some n)
                | None => Raised ValueError
                end
           else Returned None
    end.
Proof.
  unfold get_max_id, then_. simpl.
  destruct line as [|c line]; [reflexivity|].
  destruct (isdigit (String c line)); simpl; [|reflexivity].
  destruct (parse_int (String c line)); reflexivity.
Qed.

(** X16.  [get_max_id] on the answer of the data base.  An answer of a
    single line raises [IndexError]: the second line is read without a
    look at their number.  When an id is returned it is not negative,
    and is what [int] reads on a second line that [isdigit] accepts.
    And on an answer of two lines or more whose second line is written
    in ASCII, it returns: the number read when [isdigit] accepts the
    line, [None] otherwise, [ValueError] never. *)
Theorem get_max_id_answers (results : option (list string)) :
  (forall only, results = Some [only] ->
     snd (get_max_id results fieldname tablename) = Raised IndexError) /\
  (forall n,
     snd (get_max_id results fieldname tablename) = Returned (Some n) ->
     0 <= n /\
     exists header line rest,
       results = Some (header :: line :: rest) /\
       isdigit line = true /\ parse_int line = Some n) /\
  (forall header line rest,
     results = Some (header :: line :: rest) -> is_ascii line ->
     exists answer,
       snd (get_max_id results fieldname tablename) = Returned answer /\
       (isdigit line = true -> exists n, answer = Some n /\ 0 <= n) /\
       (isdigit line = false -> answer = None)).
Proof.
  split; [|split].
  - intros only ->. reflexivity.
  - intros n H.
    destruct results as [[|header [|line rest]]|]; try discriminate H.
    rewrite get_max_id_answer in H.
    destruct line as [|c line]; [discriminate|].
    destruct (isdigit (String c line)) eqn:Hd; [|discriminate].
    destruct (isdigit_parse_int _ Hd) as (m & Hm & Hpos).
    rewrite Hm in H. injection H as <-.
    split; [exact Hpos|]. exists header, (String c line), rest. auto.
  - intros header line rest -> _. rewrite get_max_id_answer.
    destruct line as [|c line].
    + exists None. split; [reflexivity|]. split; [discriminate|reflexivity].
    + destruct (isdigit (String c line)) eqn:Hd.
      * destruct (isdigit_parse_int _ Hd) as (m & Hm & Hpos). rewrite Hm.
        exists (Some m). split; [reflexivity|].
        split; [eauto|discriminate].
      * exists None. split; [reflexivity|]. split; [discriminate|reflexivity].
Qed.

End MaxId.

Section DumpRuns.

Open Scope Z_scope.

Variable self : WatchlistDumper.

Lemma get_max_id_ending results fieldname tablename :
  (exists maxid, snd (get_max_id results fieldname tablename)
                 = Returned maxid) \/
  (exists e, snd (get_max_id results fieldname tablename) = Raised e).
Proof.
  destruct results as [[|header [|line rest]]|];
    try (left; eexists; reflexivity); [right; eexists; reflexivity|].
  rewrite get_max_id_answer.
  destruct line as [|c line]; [left; eexists; reflexivity|].
  destruct (isdigit _); [|left; eexists; reflexivity].
  destruct (parse_int _); [left|right]; eexists; reflexivity.
Qed.

Lemma then_raised (A B : Type) (r : run A) (k : A -> run B) e :
  snd r = Raised e -> then_ r k = (fst r, Raised e).
Proof. intros H. unfold then_. now rewrite H. Qed.

(** X17.  Unless [get_max_id] returns an id other than 0,
    [dump_watchlist] stops having done nothing but ask for that id and,
    on an answer without one, say that it failed: it creates, moves
    and removes no file and runs no command, dry run or not, and ends
    in [sys.exit(1)] or in the exception of [get_max_id]. *)
Theorem dump_watchlist_bails (fuel : nat) (results : option (list string))
  (file_batch_count : Z) (out_path : string) (verbose dryrun : bool) :
  (forall maxid,
     snd (get_max_id results "wl_id" "watchlist") = Returned (Some maxid) ->
     maxid = 0) ->
  let run := dump_watchlist self fuel results file_batch_count out_path
               verbose dryrun in
  (snd run = Exited 1 /\
   fst run = [RunSql (MaxOf "wl_id" "watchlist"); Print FailedToGetMaxId]) \/
  (exists e, snd run = Raised e /\
             fst run = [RunSql (MaxOf "wl_id" "watchlist")]).
Proof.
  intros Hnone. unfold dump_watchlist.
  pose proof (get_max_id_trace results "wl_id" "watchlist") as Htrace.
  destruct (get_max_id_ending results "wl_id" "watchlist")
    as [[maxid Hret]|[e Hraise]].
  - left. rewrite (then_fst_returned _ _ _ _ _ Hret), Htrace.
    destruct maxid as [maxid|]; [|split; reflexivity].
    rewrite (Hnone maxid Hret). split; reflexivity.
  - right. exists e. rewrite (then_raised _ _ _ _ _ Hraise), Htrace.
    split; reflexivity.
Qed.

End DumpRuns.

Lemma dump_watchlist_bails_witness :
  let run := dump_watchlist scenario_dumper 10
               (Some ["MAX(wl_id)"; "NULL"]%string) 100 "/out" true false in
  (forall maxid,
     snd (get_max_id (Some ["MAX(wl_id)"; "NULL"]%string) "wl_id" "watchlist")
     = Returned (Some maxid) -> maxid = 0%Z) /\
  ((snd run = Exited 1 /\
    fst run = [RunSql (MaxOf "wl_id" "watchlist"); Print FailedToGetMaxId]) \/
   (exists e, snd run = Raised e /\
              fst run = [RunSql (MaxOf "wl_id" "watchlist")])).
Proof.
  assert (forall maxid,
     snd (get_max_id (Some ["MAX(wl_id)"; "NULL"]%string) "wl_id" "watchlist")
     = Returned (Some maxid) -> maxid = 0%Z) as H by discriminate.
  split; [exact H|].
  exact (dump_watchlist_bails scenario_dumper 10 _ 100 "/out" true false H).
Defined.

Section Partitions.

Open Scope Z_scope.

Variable self : WatchlistDumper.

Lemma spans_app startrow span k k' :
  spans startrow span (k + k')
  = (spans startrow span k
     ++ spans (startrow + Z.of_nat k * span) span k')%list.
Proof.
  revert startrow. induction k as [|k IH]; intros startrow.
  - simpl. f_equal. lia.
  - change (S k + k')%nat with (S (k + k')). rewrite !spans_next, IH.
    simpl app.
    replace (startrow + span + Z.of_nat k * span)
      with (startrow + Z.of_nat (S k) * span) by lia.
    reflexivity.
Qed.

Lemma in_spans startrow span k p :
  In p (spans startrow span k) <->
  exists i, (i < k)%nat /\
            p = (startrow + Z.of_nat i * span,
                 startrow + (Z.of_nat i + 1) * span).
Proof.
  unfold spans. rewrite in_map_iff. split.
  - intros (i & <- & Hi). apply in_seq in Hi. exists i. split; [lia|reflexivity].
  - intros (i & Hi & ->). exists i. split; [reflexivity|].
    apply in_seq. lia.
Qed.

(** The ids that [k] successive partitions of [span] rows hold. *)
Lemma covered_spans startrow span k id :
  1 <= span ->
  covered id (spans startrow span k) <->
  startrow <= id < startrow + Z.of_nat k * span.
Proof.
  intros Hspan. unfold covered. split.
  - intros (start & stop & Hin & Hid). apply in_spans in Hin.
    destruct Hin as (i & Hi & [= -> ->]). nia.
  - intros Hid.
    pose proof (Z.div_mod (id - startrow) span ltac:(lia)) as Hdiv.
    pose proof (Z.mod_pos_bound (id - startrow) span ltac:(lia)) as Hmod.
    assert (0 <= (id - startrow) / span) as Hq
        by (apply Z.div_pos; lia).
    exists (startrow + (id - startrow) / span * span),
           (startrow + ((id - startrow) / span + 1) * span).
    split; [|nia].
    apply in_spans. exists (Z.to_nat ((id - startrow) / span)).
    rewrite Z2Nat.id by exact Hq. split; [|reflexivity].
    apply Nat2Z.inj_lt. rewrite Z2Nat.id by exact Hq. nia.
Qed.

(** A batch that has rows to dump, with two files or more to the
    batch: it fetches one partition at least and returns the cursor
    after the last. *)
Lemma dump_merge_batch_partitions count startrow maxid merge_into_path
      verbose dryrun :
  startrow < maxid -> 1 < count ->
  exists k : nat,
    (1 <= k)%nat /\
    snd (dump_merge_batch self count startrow maxid merge_into_path
                          verbose dryrun)
    = Returned (Some (startrow + Z.of_nat k * batchsize self)) /\
    partitions (fst (dump_merge_batch self count startrow maxid
                       merge_into_path verbose dryrun))
    = spans startrow (batchsize self) k /\
    (forall i, (i < k)%nat ->
               startrow + Z.of_nat i * batchsize self < maxid) /\
    (Z.of_nat k = count - 1 \/
     maxid <= startrow + Z.of_nat k * batchsize self).
Proof.
  intros Hrow Hcount.
  destruct (batch_loop_spec self (Z.to_nat (count - 1)) count maxid
              merge_into_path
              (path_join (outdir self) (db_name self ++ "-watchlist-dumped.gz"))
              verbose dryrun startrow 1 eq_refl)
    as (k & Hk & Hret & Hparts & Hunder & Hstop).
  destruct (dump_merge_batch_runs_loop self count startrow maxid
              merge_into_path verbose dryrun _ Hrow Hcount Hret)
    as [Hsome Hsame].
  exists k. split; [|split; [exact Hsome|split; [congruence|split]]].
  - destruct Hstop as [Hstop|Hstop]; [lia|].
    destruct k; [simpl in Hstop; lia|lia].
  - exact Hunder.
  - destruct Hstop as [Hstop|Hstop]; [left; lia|now right].
Qed.

Lemma when_partitions b e :
  partition_of e = [] -> partitions (fst (when b (tell e))) = [].
Proof. intros H. destruct b; simpl; [now rewrite H|reflexivity]. Qed.

(** What follows a batch in the loop of [dump_watchlist]: the merge of
    its result, which fetches nothing. *)
Lemma after_batch all_merge_into_path batch_merge_into_path
      batch_merged_path verbose dryrun (b : bool) :
  let block :=
    when b
      (when verbose (tell (Print MergingBatchResults)) ;;;
       Dump.merge all_merge_into_path batch_merge_into_path
                  batch_merged_path verbose dryrun ;;;
       when (negb dryrun)
         (tell (Move batch_merged_path all_merge_into_path))) in
  snd block = Returned tt /\ partitions (fst block) = [].
Proof.
  destruct b; [|split; reflexivity].
  destruct verbose, dryrun; split; reflexivity.
Qed.

Lemma watchlist_loop_partitions file_batch_count maxid all_merge_into_path
      batch_merge_into_path batch_merged_path verbose dryrun :
  1 <= batchsize self -> 1 < file_batch_count ->
  forall fuel row,
    1 <= row -> (Z.to_nat (maxid - row) <= fuel)%nat ->
    exists K : nat,
      snd (watchlist_loop self fuel file_batch_count maxid
             all_merge_into_path batch_merge_into_path batch_merged_path
             verbose dryrun (Some row)) = Returned tt /\
      partitions
        (fst (watchlist_loop self fuel file_batch_count maxid
                all_merge_into_path batch_merge_into_path batch_merged_path
                verbose dryrun (Some row)))
      = spans row (batchsize self) K /\
      (forall i, (i < K)%nat -> row + Z.of_nat i * batchsize self < maxid) /\
      maxid <= row + Z.of_nat K * batchsize self.
Proof.
  intros Hspan Hcount.
  assert (forall fuel row, maxid <= row ->
            watchlist_loop self fuel file_batch_count maxid
              all_merge_into_path batch_merge_into_path batch_merged_path
              verbose dryrun (Some row) = ret tt) as Hdone.
  { intros fuel row Hrow. destruct fuel; simpl;
      rewrite (proj2 (Z.ltb_ge _ _) Hrow), andb_false_r; reflexivity. }
  induction fuel as [|fuel IH]; intros row Hrow Hfuel.
  - exists 0%nat. rewrite Hdone by lia.
    repeat split; [intros i Hi; lia|lia].
  - destruct (Z.le_gt_cases maxid row) as [Hend|Hmore].
    { exists 0%nat. rewrite Hdone by lia.
      repeat split; [intros i Hi; lia|lia]. }
    destruct (dump_merge_batch_partitions file_batch_count row maxid
                batch_merge_into_path verbose dryrun ltac:(lia) Hcount)
      as (k & Hk & Hret & Hparts & Hunder & _).
    set (row' := row + Z.of_nat k * batchsize self) in *.
    destruct (IH row') as (K & HKret & HKparts & HKunder & HKstop);
      [unfold row'; nia|unfold row'; nia|].
    destruct (after_batch all_merge_into_path batch_merge_into_path
                batch_merged_path verbose dryrun (truthy (Some row')))
      as [Hblock Hnone].
    exists (k + K)%nat.
    cbn [watchlist_loop].
    assert (truthy (Some row) && (row <? maxid) = true) as ->.
    { simpl. rewrite (proj2 (Z.eqb_neq row 0)) by lia.
      now rewrite (proj2 (Z.ltb_lt _ _)) by lia. }
    rewrite (then_fst_returned _ _ _ _ tt (when_tell_returns _ _)).
    rewrite (then_fst_returned _ _ _ _ _ Hret).
    rewrite (then_fst_returned _ _ _ _ tt Hblock).
    cbn [fst snd]. split; [exact HKret|].
    split.
    { rewrite !partitions_app, when_partitions by reflexivity.
      rewrite Hparts, Hnone, HKparts. simpl app. apply eq_sym, spans_app. }
    split.
    { intros i Hi. destruct (Nat.lt_ge_cases i k) as [Hik|Hik].
      - now apply Hunder.
      - specialize (HKunder (i - k)%nat ltac:(lia)). unfold row' in HKunder.
        nia. }
    unfold row' in HKstop. nia.
Qed.

(** In [Dump], where every command succeeds at its first try: the
    partitions of a whole run, with partitions of one row or more and
    two files or more to the batch. *)
Lemma dump_watchlist_spans (fuel : nat)
  (results : option (list string)) (file_batch_count : Z)
  (out_path : string) (verbose dryrun : bool) (maxid : Z) :
  1 <= batchsize self -> 1 < file_batch_count ->
  snd (get_max_id results "wl_id" "watchlist") = Returned (Some maxid) ->
  1 <= maxid -> (Z.to_nat maxid <= fuel)%nat ->
  let run := dump_watchlist self fuel results file_batch_count out_path
               verbose dryrun in
  exists K : nat,
    snd run = Returned tt /\
    partitions (fst run) = spans 1 (batchsize self) K /\
    (forall i, (i < K)%nat -> 1 + Z.of_nat i * batchsize self < maxid) /\
    maxid <= 1 + Z.of_nat K * batchsize self /\
    (forall id, 1 <= id < maxid -> covered id (partitions (fst run))) /\
    ((batchsize self | maxid - 1) -> ~ covered maxid (partitions (fst run))).
Proof.
  intros Hspan Hcount Hmax Hpos Hfuel run.
  destruct (watchlist_loop_partitions file_batch_count maxid
              (path_join (outdir self) (db_name self ++ "-mergeinto-all.gz"))
              (path_join (outdir self) (db_name self ++ "-batch-mergeinto.gz"))
              (path_join (outdir self) (db_name self ++ "-watchlist-merged.gz"))
              verbose dryrun Hspan Hcount fuel 1 ltac:(lia) ltac:(lia))
    as (K & Hret & Hparts & Hunder & Hstop).
  assert (snd run = Returned tt /\
          partitions (fst run) = spans 1 (batchsize self) K) as [Hr Hp].
  { unfold run, dump_watchlist, create_empty_file.
    rewrite (then_fst_returned _ _ _ _ _ Hmax).
    rewrite (proj2 (Z.eqb_neq maxid 0)) by lia.
    rewrite (then_fst_returned _ _ _ _ tt (when_tell_returns _ _)).
    rewrite (then_fst_returned _ _ _ _ tt (when_tell_returns _ _)).
    rewrite (then_fst_returned _ _ _ _ tt Hret).
    cbn [fst snd]. split.
    - destruct dryrun; [reflexivity|]. now destruct verbose.
    - rewrite !partitions_app, get_max_id_trace, Hparts.
      rewrite !when_partitions by reflexivity.
      destruct dryrun, verbose; simpl; now rewrite app_nil_r. }
  exists K. repeat (split; [assumption|]).
  rewrite Hp. split.
  - intros id Hid. apply covered_spans; [exact Hspan|]. lia.
  - intros [q Hq] Hcov. apply covered_spans in Hcov; [|exact Hspan].
    destruct K as [|K']; [lia|].
    specialize (Hunder K' ltac:(lia)).
    rewrite Nat2Z.inj_succ in Hcov.
    assert (Z.of_nat K' < q) by nia.
    assert (q < Z.of_nat K' + 1) by nia.
    lia.
Qed.

Lemma then_out_of_fuel (A B : Type) (r : run A) (k : A -> run B) :
  snd r = OutOfFuel -> then_ r k = (fst r, OutOfFuel).
Proof. intros H. unfold then_. now rewrite H. Qed.

(** With partitions of no row the cursor stays where it is. *)
Lemma watchlist_loop_stalls file_batch_count maxid all_merge_into_path
      batch_merge_into_path batch_merged_path verbose dryrun :
  batchsize self = 0 -> 1 < file_batch_count ->
  forall fuel row,
    1 <= row -> row < maxid ->
    snd (watchlist_loop self fuel file_batch_count maxid
           all_merge_into_path batch_merge_into_path batch_merged_path
           verbose dryrun (Some row)) = OutOfFuel /\
    Forall (fun p => p = (row, row))
      (partitions
         (fst (watchlist_loop self fuel file_batch_count maxid
                 all_merge_into_path batch_merge_into_path batch_merged_path
                 verbose dryrun (Some row)))).
Proof.
  intros Hzero Hcount fuel row Hrow Hmore.
  assert (truthy (Some row) && (row <? maxid) = true) as Hcond.
  { simpl. rewrite (proj2 (Z.eqb_neq row 0)) by lia.
    now rewrite (proj2 (Z.ltb_lt _ _)) by lia. }
  induction fuel as [|fuel IH]; cbn [watchlist_loop]; rewrite Hcond.
  - split; [reflexivity|constructor].
  - destruct (dump_merge_batch_partitions file_batch_count row maxid
                batch_merge_into_path verbose dryrun Hmore Hcount)
      as (k & Hk & Hret & Hparts & _).
    rewrite Hzero, Z.mul_0_r, Z.add_0_r in Hret.
    destruct (after_batch all_merge_into_path batch_merge_into_path
                batch_merged_path verbose dryrun (truthy (Some row)))
      as [Hblock Hnone].
    rewrite (then_fst_returned _ _ _ _ tt (when_tell_returns _ _)).
    rewrite (then_fst_returned _ _ _ _ _ Hret).
    rewrite (then_fst_returned _ _ _ _ tt Hblock).
    cbn [fst snd]. destruct IH as [IHend IHparts]. split; [exact IHend|].
    rewrite !partitions_app, when_partitions by reflexivity.
    rewrite Hparts, Hnone. simpl app.
    apply Forall_app. split; [|exact IHparts].
    apply Forall_forall. intros p Hp. apply in_spans in Hp.
    destruct Hp as (i & _ & ->). rewrite Hzero. f_equal; lia.
Qed.

(** In [Dump], where every command succeeds at its first try: with
    partitions of no row the run is cut at every fuel. *)
Lemma dump_watchlist_stalls (results : option (list string))
  (file_batch_count : Z) (out_path : string) (verbose dryrun : bool)
  (maxid : Z) :
  batchsize self = 0 -> 1 < file_batch_count ->
  snd (get_max_id results "wl_id" "watchlist") = Returned (Some maxid) ->
  1 < maxid ->
  forall fuel,
    snd (dump_watchlist self fuel results file_batch_count out_path
                        verbose dryrun) = OutOfFuel /\
    Forall (fun p => p = (1, 1))
      (partitions (fst (dump_watchlist self fuel results file_batch_count
                          out_path verbose dryrun))).
Proof.
  intros Hzero Hcount Hmax Hmore fuel.
  destruct (watchlist_loop_stalls file_batch_count maxid
              (path_join (outdir self) (db_name self ++ "-mergeinto-all.gz"))
              (path_join (outdir self) (db_name self ++ "-batch-mergeinto.gz"))
              (path_join (outdir self) (db_name self ++ "-watchlist-merged.gz"))
              verbose dryrun Hzero Hcount fuel 1 ltac:(lia) Hmore)
    as [Hend Hparts].
  unfold dump_watchlist, create_empty_file.
  rewrite (then_fst_returned _ _ _ _ _ Hmax).
  rewrite (proj2 (Z.eqb_neq maxid 0)) by lia.
  rewrite (then_fst_returned _ _ _ _ tt (when_tell_returns _ _)).
  rewrite (then_fst_returned _ _ _ _ tt (when_tell_returns _ _)).
  rewrite (then_out_of_fuel _ _ _ _ Hend).
  cbn [fst snd]. split; [reflexivity|].
  rewrite !partitions_app, get_max_id_trace.
  rewrite !when_partitions by reflexivity. exact Hparts.
Qed.

End Partitions.

Section OneFileBatches.

Open Scope Z_scope.

Variable self : WatchlistDumper.

Lemma dump_merge_batch_no_room count startrow maxid merge_into_path
      verbose dryrun :
  count <= 1 ->
  dump_merge_batch self count startrow maxid merge_into_path verbose dryrun
  = (if dryrun then [] else [CreateEmptyFile merge_into_path], Returned None).
Proof.
  intros Hcount. unfold dump_merge_batch, create_empty_file.
  rewrite (then_fst_returned _ _ _ _ tt (when_tell_returns _ _)).
  rewrite !Z.geb_leb, (proj2 (Z.leb_le count 1) Hcount), orb_true_r.
  destruct dryrun; reflexivity.
Qed.

(** X20.  With one file to the batch or fewer, [dump_merge_batch]
    has no room for a partition and [dump_watchlist] fetches nothing:
    whatever the greatest id, a run that is not dry returns having run
    no command, and what it moves to the output is the empty file it
    created at the start. *)
Theorem dump_watchlist_one_file_batches (fuel : nat)
  (results : option (list string)) (file_batch_count : Z)
  (out_path : string) (verbose : bool) (maxid : Z) :
  file_batch_count <= 1 ->
  snd (get_max_id results "wl_id" "watchlist") = Returned (Some maxid) ->
  maxid <> 0 -> (1 <= fuel)%nat ->
  let run := dump_watchlist self fuel results file_batch_count out_path
               verbose false in
  let all_merge_into_path :=
    path_join (outdir self) (db_name self ++ "-mergeinto-all.gz") in
  let batch_merge_into_path :=
    path_join (outdir self) (db_name self ++ "-batch-mergeinto.gz") in
  snd run = Returned tt /\
  commands (fst run) = [] /\
  filter changes_files (fst run)
  = (CreateEmptyFile all_merge_into_path
     :: (if 1 <? maxid then [CreateEmptyFile batch_merge_into_path] else [])
     ++ [Move all_merge_into_path out_path])%list.
Proof.
  intros Hcount Hmax Hnz Hfuel run all_merge_into_path batch_merge_into_path.
  destruct fuel as [|fuel]; [lia|].
  pose proof (get_max_id_trace results "wl_id" "watchlist") as Htrace.
  assert (watchlist_loop self (S fuel) file_batch_count maxid
            all_merge_into_path batch_merge_into_path
            (path_join (outdir self) (db_name self ++ "-watchlist-merged.gz"))
            verbose false (Some 1)
          = ((if 1 <? maxid
              then (if verbose then [Print (StartingBatch 1)] else [])
                   ++ [CreateEmptyFile batch_merge_into_path]
              else [])%list, Returned tt)) as Hloop.
  { cbn [watchlist_loop]. change (truthy (Some 1)) with true. cbn [andb].
    destruct (1 <? maxid); [|reflexivity].
    rewrite dump_merge_batch_no_room by exact Hcount.
    destruct verbose, fuel; reflexivity. }
  unfold run, dump_watchlist, create_empty_file.
  fold all_merge_into_path. fold batch_merge_into_path.
  rewrite (then_fst_returned _ _ _ _ _ Hmax), Htrace.
  rewrite (proj2 (Z.eqb_neq maxid 0) Hnz), Hloop.
  destruct verbose, (1 <? maxid); repeat split.
Qed.

End OneFileBatches.

Lemma dump_watchlist_one_file_batches_witness :
  let results := Some ["MAX(wl_id)"; "2500"]%string in
  let run := dump_watchlist scenario_dumper 1 results 1 "/out" false false in
  (1 <= 1)%Z /\
  snd (get_max_id results "wl_id" "watchlist") = Returned (Some 2500%Z) /\
  2500%Z <> 0%Z /\ (1 <= 1)%nat /\
  snd run = Returned tt /\
  commands (fst run) = [] /\
  filter changes_files (fst run)
  = [CreateEmptyFile "/tmp/w-mergeinto-all.gz";
     CreateEmptyFile "/tmp/w-batch-mergeinto.gz";
     Move "/tmp/w-mergeinto-all.gz" "/out"].
Proof.
  intros results run.
  split; [lia|]. split; [reflexivity|]. split; [lia|]. split; [lia|].
  apply (dump_watchlist_one_file_batches scenario_dumper 1 results 1 "/out"
           false 2500); [lia|reflexivity|lia|lia].
Defined.

(* ================================================================== *)
(** * The tries of [run_without_output] *)
(* ================================================================== *)

Section Tries.

Import Retry.

Open Scope Z_scope.

Variable c : command.
Variable retry_delay : Z.
Variable attempts : nat -> Z * string.

Lemma started_turn (error : string) rest :
  started (Popen c :: match error with
                      | EmptyString => []
                      | _ => [PrintError c error]
                      end ++ Sleep retry_delay :: rest)
  = S (started rest) /\
  slept (Popen c :: match error with
                    | EmptyString => []
                    | _ => [PrintError c error]
                    end ++ Sleep retry_delay :: rest)
  = S (slept rest).
Proof. destruct error; split; reflexivity. Qed.

Lemma started_last (error : string) :
  started (Popen c :: match error with
                      | EmptyString => []
                      | _ => [PrintError c error]
                      end) = 1%nat /\
  slept (Popen c :: match error with
                    | EmptyString => []
                    | _ => [PrintError c error]
                    end) = 0%nat.
Proof. destruct error; split; reflexivity. Qed.

Lemma tries_loop_spec left : forall tries last trace success final,
  tries_loop c retry_delay attempts tries left last
  = (trace, (success, final)) ->
  (success = true ->
   exists m : nat,
     (m < left)%nat /\ started trace = S m /\ slept trace = m /\
     fst (attempts (tries + m)%nat) = 0 /\
     (forall i, (i < m)%nat -> fst (attempts (tries + i)%nat) <> 0) /\
     final = Some (attempts (tries + m)%nat)) /\
  (success = false ->
   started trace = left /\ slept trace = left /\
   (forall i, (i < left)%nat -> fst (attempts (tries + i)%nat) <> 0) /\
   final = match left with
           | O => last
           | S l => Some (attempts (tries + l)%nat)
           end).
Proof.
  induction left as [|left IH]; intros tries last trace success final.
  - intros [= <- <- <-]. split; [discriminate|]. intros _.
    repeat split. intros i Hi. lia.
  - cbn [tries_loop].
    destruct (attempts tries) as [returncode error] eqn:Ea.
    destruct (Z.eqb_spec returncode 0) as [->|Hcode].
    + intros [= <- <- <-]. split; [|discriminate]. intros _.
      exists 0%nat. rewrite Nat.add_0_r, Ea.
      destruct (started_last error) as [-> ->].
      repeat split; [lia|]. intros i Hi. lia.
    + destruct (tries_loop c retry_delay attempts (S tries) left
                  (Some (returncode, error))) as [rest [s f]] eqn:Eloop.
      intros [= <- <- <-].
      destruct (IH _ _ _ _ _ Eloop) as [Hyes Hno].
      destruct (started_turn error rest) as [-> ->].
      assert (forall i, fst (attempts (tries + S i)%nat)
                        = fst (attempts (S tries + i)%nat)) as Hshift
          by (intros i; f_equal; f_equal; lia).
      split.
      * intros Hs. destruct (Hyes Hs) as (m & Hm & Hst & Hsl & Hz & Hnz & Hf).
        exists (S m). rewrite Hst, Hsl, Hshift.
        replace (tries + S m)%nat with (S tries + m)%nat by lia.
        repeat split; try assumption; [lia|].
        intros [|i] Hi; [rewrite Nat.add_0_r, Ea; exact Hcode|].
        rewrite Hshift. apply Hnz. lia.
      * intros Hs. destruct (Hno Hs) as (Hst & Hsl & Hnz & Hf).
        rewrite Hst, Hsl. repeat split.
        -- intros [|i] Hi; [rewrite Nat.add_0_r, Ea; exact Hcode|].
           rewrite Hshift. apply Hnz. lia.
        -- rewrite Hf. destruct left as [|l]; [|f_equal; f_equal; lia].
           now rewrite Nat.add_0_r, Ea.
Qed.

Lemma started_verbose (verbose : bool) trace :
  started ((if verbose then [PrintCommand c] else []) ++ trace)
  = started trace /\
  slept ((if verbose then [PrintCommand c] else []) ++ trace) = slept trace.
Proof. destruct verbose; split; reflexivity. Qed.

(** X21.  The tries of [run_without_output].  The command is started
    once per try, [maxtries] times at most, until a try ends with
    return code 0.  It returns [True] exactly when one of the first
    [maxtries] tries does so, having slept once after each try before
    it; it raises [BackupError] when [maxtries] is 1 or more and none
    does, with the code and the error of the last try, and then it has
    slept after every try, the last one too; and with [maxtries] of 0
    or less it starts nothing and ends in [UnboundLocalError], the
    message being made of a return code that was never set. *)
Theorem run_without_output_tries (maxtries : Z) (verbose : bool) :
  let run := Retry.run_without_output c maxtries retry_delay verbose
               attempts in
  Z.of_nat (started (fst run)) <= Z.max 0 maxtries /\
  (snd run = Returned true <->
   exists i : nat, Z.of_nat i < maxtries /\ fst (attempts i) = 0) /\
  (snd run = Returned true ->
   exists m : nat,
     started (fst run) = S m /\ slept (fst run) = m /\
     fst (attempts m) = 0 /\
     forall i, (i < m)%nat -> fst (attempts i) <> 0) /\
  (forall c' returncode error,
     snd run = BackupError c' returncode error ->
     c' = c /\ 0 < maxtries /\
     Z.of_nat (started (fst run)) = maxtries /\
     slept (fst run) = started (fst run) /\
     (returncode, error) = attempts (Z.to_nat (maxtries - 1)) /\
     forall i : nat, Z.of_nat i < maxtries -> fst (attempts i) <> 0) /\
  (snd run = UnboundLocalError <-> maxtries <= 0) /\
  snd run <> Returned false.
Proof.
  unfold Retry.run_without_output.
  destruct (tries_loop c retry_delay attempts 0 (Z.to_nat maxtries) None)
    as [trace [success final]] eqn:Eloop.
  destruct (tries_loop_spec _ _ _ _ _ _ Eloop) as [Hyes Hno].
  cbn [fst snd]. destruct (started_verbose verbose trace) as [-> ->].
  destruct success.
  - destruct (Hyes eq_refl) as (m & Hm & Hst & Hsl & Hz & Hnz & Hf).
    simpl in Hz, Hnz.
    split; [lia|]. split.
    { split; [intros _|reflexivity]. exists m. split; [lia|exact Hz]. }
    split; [intros _; exists m; auto|].
    split; [discriminate|].
    split; [split; [discriminate|lia]|discriminate].
  - destruct (Hno eq_refl) as (Hst & Hsl & Hnz & Hf). simpl in Hnz.
    split; [lia|]. split.
    { split; [destruct final as [[? ?]|]; discriminate|].
      intros (i & Hi & Hz). exfalso. apply (Hnz i); [lia|exact Hz]. }
    split; [destruct final as [[? ?]|]; discriminate|].
    destruct (Z.to_nat maxtries) as [|l] eqn:El.
    + subst final. split; [discriminate|].
      split; [split; [lia|reflexivity]|discriminate].
    + subst final. destruct (attempts (0 + l)) as [code err] eqn:Ea.
      split.
      { intros c' returncode error [= <- <- <-].
        split; [reflexivity|]. split; [lia|]. split; [lia|].
        split; [lia|]. split.
        - replace (Z.to_nat (maxtries - 1)) with l by lia.
          now rewrite <- Ea.
        - intros i Hi. apply Hnz. lia. }
      split; [split; [discriminate|lia]|discriminate].
Qed.

(** X22.  When the first try ends with return code 0,
    [run_without_output] with its tries does what the one of the
    orchestration model does, whatever the number of tries allowed, 1
    at least: it returns having shown the command, when verbose, and
    started it once; beside that it sleeps never and prints only what
    the command wrote on its standard error. *)
Theorem run_without_output_first_try (maxtries : Z) (verbose : bool) :
  1 <= maxtries -> fst (attempts 0%nat) = 0 ->
  let run := Retry.run_without_output c maxtries retry_delay verbose
               attempts in
  snd run = Returned true /\
  snd (Dump.run_without_output c verbose) = Dump.Returned tt /\
  flat_map plain (fst run) = fst (Dump.run_without_output c verbose) /\
  slept (fst run) = 0%nat /\
  Forall (fun e => plain e = [] -> e = PrintError c (snd (attempts 0%nat)))
         (fst run).
Proof.
  intros Hmax Hzero. unfold Retry.run_without_output.
  destruct (Z.to_nat maxtries) as [|left] eqn:El; [lia|].
  cbn [tries_loop]. destruct (attempts 0%nat) as [returncode error].
  simpl in Hzero. subst returncode. cbn [Z.eqb fst snd].
  destruct verbose, error; repeat split; repeat constructor;
    discriminate.
Qed.

End Tries.

(* ================================================================== *)
(** * dump_merge_watchlist_mlr.py: the command line *)
(* ================================================================== *)

Section DumpOptions.

Import DumpMain.

Ltac each_option opt :=
  repeat match goal with
         | |- context [String.eqb opt ?n] =>
             destruct (String.eqb_spec opt n) as [->|?]
         end.

Lemma dump_options_loop_spec options : forall a0 a,
  options_loop options a0 = inr a ->
  wiki a = or_else (last_value ["-w"; "--wiki"]%string options) (wiki a0) /\
  output a
  = or_else (last_value ["-o"; "--output"]%string options) (output a0) /\
  configfile a
  = or_else (last_value ["-c"; "--configfile"]%string options)
            (configfile a0) /\
  tempdir a = match last_value ["--tempdir"]%string options with
              | Some val => val
              | None => tempdir a0
              end /\
  batchsize a = match last_value ["-b"; "--batchsize"]%string options with
                | Some val => StrValue val
                | None => batchsize a0
                end /\
  verbose a
  = (existsb (fun o => MergeMain.among (fst o) ["-v"; "--verbose"]%string)
             options || verbose a0)%bool /\
  dryrun a
  = (existsb (fun o => MergeMain.among (fst o) ["--dryrun"]%string) options
     || dryrun a0)%bool.
Proof.
  induction options as [|[opt val] rest IH]; intros a0 a.
  - intros [= <-]. repeat split.
  - cbn [options_loop last_value existsb fst].
    unfold MergeMain.among at 1 2 3 4 5 6 7 8. cbn [existsb].
    each_option opt; cbn [orb]; try discriminate;
      intros H; apply IH in H;
      destruct H as (Hw & Ho & Hc & Ht & Hb & Hv & Hd);
      cbn [wiki output configfile tempdir batchsize verbose dryrun] in *;
      rewrite Hw, Ho, Hc, Ht, Hb, Hv, Hd;
      unfold MergeMain.among;
      cbn [existsb fst String.eqb Ascii.eqb Bool.eqb orb andb];
      repeat match goal with
             | H : ?x <> ?y |- context [String.eqb ?x ?y] =>
                 rewrite (proj2 (String.eqb_neq x y) H)
             end;
      cbn [orb];
      repeat split;
      repeat match goal with
             | |- context [last_value ?names rest] =>
                 destruct (last_value names rest)
             | |- context [existsb ?f rest] => destruct (existsb f rest)
             end;
      reflexivity.
Qed.

Lemma dump_options_loop_help options : forall a0,
  (exists a, options_loop options a0 = inr a) <->
  Forall (fun o => MergeMain.among (fst o) ["-h"; "--help"]%string = false)
         options.
Proof.
  induction options as [|[opt val] rest IH]; intros a0.
  - split; [constructor|intros _; now exists a0].
  - rewrite Forall_cons_iff. cbn [options_loop fst].
    unfold MergeMain.among at 1 2 3 4 5 6 7 8 9. cbn [existsb].
    each_option opt; cbn [orb];
      repeat match goal with
             | H : ?x <> ?y |- context [String.eqb ?x ?y] =>
                 rewrite (proj2 (String.eqb_neq x y) H)
             end;
      cbn [orb];
      try (rewrite IH; tauto);
      (split; [intros [a H]; discriminate H|intros [H _]; discriminate H]).
Qed.

(** X23.  [get_args] of the dumper passes over the options [-t] and
    [-d] that [getopt] accepts: its tests for them name [-o] and [-v],
    which earlier tests have taken.  Its loop over the options ends
    unless [-h] or [--help] is one of them, and then the temporary
    directory is the value of the last [--tempdir], [/tmp] when there
    is none, and the run is dry exactly when [--dryrun] is given; the
    size of the partitions is the string of the last [-b] or
    [--batchsize], and the integer 1000 when there is none. *)
Theorem dump_get_args_options (options : list (string * string)) :
  ((exists a, options_loop options defaults = inr a) <->
   Forall (fun o => MergeMain.among (fst o) ["-h"; "--help"]%string = false)
          options) /\
  (forall a, options_loop options defaults = inr a ->
     wiki a = last_value ["-w"; "--wiki"]%string options /\
     output a = last_value ["-o"; "--output"]%string options /\
     configfile a = last_value ["-c"; "--configfile"]%string options /\
     tempdir a = match last_value ["--tempdir"]%string options with
                 | Some val => val
                 | None => "/tmp"%string
                 end /\
     batchsize a = match last_value ["-b"; "--batchsize"]%string options with
                   | Some val => StrValue val
                   | None => IntValue 1000
                   end /\
     verbose a
     = existsb (fun o => MergeMain.among (fst o) ["-v"; "--verbose"]%string)
               options /\
     dryrun a
     = existsb (fun o => MergeMain.among (fst o) ["--dryrun"]%string)
               options) /\
  (forall val rest a0,
     options_loop (("-t"%string, val) :: rest) a0 = options_loop rest a0 /\
     options_loop (("-d"%string, val) :: rest) a0 = options_loop rest a0).
Proof.
  split; [apply dump_options_loop_help|]. split.
  - intros a H. apply dump_options_loop_spec in H.
    destruct H as (Hw & Ho & Hc & Ht & Hb & Hv & Hd).
    rewrite Hw, Ho, Hc, Ht, Hb, Hv, Hd.
    cbn [defaults wiki output configfile tempdir batchsize verbose dryrun].
    rewrite !orb_false_r.
    repeat split;
      repeat match goal with
             | |- context [last_value ?names options] =>
                 destruct (last_value names options)
             end;
      reflexivity.
  - intros val rest a0. split; reflexivity.
Qed.

Lemma dump_validate_args_spec exists_ wiki output configfile batchsize
      tempdir :
  validate_args exists_ wiki output configfile batchsize tempdir = inr tt <->
  exists w o c s,
    wiki = Some w /\ output = Some o /\ configfile = Some c /\
    w <> EmptyString /\ o <> EmptyString /\ c <> EmptyString /\
    batchsize = StrValue s /\ isdigit s = true /\
    exists_ (dirname o) = true /\ exists_ tempdir = true.
Proof.
  unfold validate_args. split.
  - destruct (MergeMain.given_string wiki) eqn:Ew; [|discriminate].
    destruct (MergeMain.given_string output) eqn:Eo; [|discriminate].
    destruct (MergeMain.given_string configfile) eqn:Ec; [|discriminate].
    apply given_string_some in Ew, Eo, Ec.
    destruct Ew as (w & -> & Hw). destruct Eo as (o & -> & Ho).
    destruct Ec as (c & -> & Hc). cbn [negb orb].
    destruct batchsize as [n|s]; [discriminate|].
    destruct (isdigit s) eqn:Ed; [|discriminate]. cbn [negb].
    destruct (exists_ (dirname o)) eqn:E1; [|discriminate]. cbn [negb].
    destruct (exists_ tempdir) eqn:E2; [|discriminate]. intros _.
    exists w, o, c, s. repeat split; assumption.
  - intros (w & o & c & s & -> & -> & -> & Hw & Ho & Hc & -> & Hd & H1 & H2).
    rewrite !(proj2 (given_string_some (Some _)))
      by (eexists; split; [reflexivity|assumption]).
    cbn [negb orb]. now rewrite Hd, H1, H2.
Qed.

Lemma head_reversed_no_slash l :
  Forall (fun ch => ch <> slash) l -> head_reversed l = [].
Proof.
  induction 1 as [|ch l Hch _ IH]; [reflexivity|]. simpl.
  now rewrite (proj2 (Ascii.eqb_neq _ _) Hch).
Qed.

Lemma free_of_chars sep s :
  free_of sep s <-> Forall (fun ch => ch <> sep) (list_ascii_of_string s).
Proof.
  induction s as [|ch s IH]; simpl.
  - split; [constructor|exact (fun _ => I)].
  - rewrite Forall_cons_iff, IH. reflexivity.
Qed.

(** A path without a slash has the empty string for directory. *)
Lemma dirname_no_slash p : free_of slash p -> dirname p = EmptyString.
Proof.
  intros H. unfold dirname. rewrite head_reversed_no_slash; [reflexivity|].
  apply Forall_rev. now apply free_of_chars.
Qed.

(** X24.  [validate_args] of the dumper returns exactly when the wiki,
    the output and the configuration file are given and not empty,
    the size of the partitions is a string that [isdigit] accepts, and
    the directory of the output and the temporary directory exist.
    An output given without a directory has the empty string for
    directory, so where no file goes by the empty name, as
    [os.path.exists] has it, such an output is refused. *)
Theorem dump_validate_args_returns_iff (exists_ : string -> bool)
  (wiki output configfile : option string) (batchsize : value)
  (tempdir : string) :
  (validate_args exists_ wiki output configfile batchsize tempdir = inr tt <->
   exists w o c s,
     wiki = Some w /\ output = Some o /\ configfile = Some c /\
     w <> EmptyString /\ o <> EmptyString /\ c <> EmptyString /\
     batchsize = StrValue s /\ isdigit s = true /\
     exists_ (dirname o) = true /\ exists_ tempdir = true) /\
  (forall o, output = Some o -> free_of slash o ->
     exists_ EmptyString = false ->
     validate_args exists_ wiki output configfile batchsize tempdir
     <> inr tt).
Proof.
  split; [apply dump_validate_args_spec|].
  intros o -> Hfree Hnone H. apply dump_validate_args_spec in H.
  destruct H as (w & o' & c & s & _ & [= <-] & _ & _ & _ & _ & _ & _ & H & _).
  rewrite (dirname_no_slash o Hfree) in H. congruence.
Qed.

(** X25.  Without [-b] or [--batchsize] the dumper never gets past
    its arguments: [get_args] returns for no answer of [getopt]
    without one, since [validate_args] asks [isdigit] of the integer
    1000 the size starts as; with the wiki, the output and the
    configuration file given it ends in [AttributeError]. *)
Theorem dump_get_args_needs_batchsize (exists_ : string -> bool)
  (options : list (string * string)) (remainder : list string) :
  last_value ["-b"; "--batchsize"]%string options = None ->
  (forall a,
     get_args exists_ (MergeMain.Parsed options remainder) <> inr a) /\
  (remainder = [] ->
   Forall (fun o => MergeMain.among (fst o) ["-h"; "--help"]%string = false)
          options ->
   (forall names,
      In names [["-w"; "--wiki"]; ["-o"; "--output"];
                ["-c"; "--configfile"]]%string ->
      exists val, last_value names options = Some val /\
                  val <> EmptyString) ->
   get_args exists_ (MergeMain.Parsed options remainder)
   = inl AttributeError).
Proof.
  intros Hnone. unfold get_args.
  destruct (options_loop options defaults) as [s|a] eqn:Eloop.
  - split; [discriminate|]. intros _ Hhelp _. exfalso.
    apply (proj2 (dump_options_loop_help options defaults)) in Hhelp.
    destruct Hhelp as [a Ha]. rewrite Ha in Eloop. discriminate.
  - destruct (dump_options_loop_spec _ _ _ Eloop)
      as (Hw & Ho & Hc & _ & Hb & _).
    rewrite Hnone in Hb. cbn [defaults batchsize] in Hb.
    assert (forall ex, validate_args ex (wiki a) (output a) (configfile a)
                         (batchsize a) (tempdir a) <> inr tt) as Hnever.
    { intros ex H. apply dump_validate_args_spec in H.
      destruct H as (_ & _ & _ & s & _ & _ & _ & _ & _ & _ & H & _).
      rewrite Hb in H. discriminate. }
    split.
    + intros a'. destruct remainder; [|discriminate].
      destruct (validate_args _ _ _ _ _ _) as [s|[]] eqn:Ev; [discriminate|].
      now apply Hnever in Ev.
    + intros -> _ Hgiven.
      destruct (Hgiven _ (or_introl eq_refl)) as (w & Hlw & Hnw).
      destruct (Hgiven _ (or_intror (or_introl eq_refl))) as (o & Hlo & Hno).
      destruct (Hgiven _ (or_intror (or_intror (or_introl eq_refl))))
        as (cf & Hlc & Hnc).
      rewrite Hlw in Hw. rewrite Hlo in Ho. rewrite Hlc in Hc.
      cbn [defaults wiki output configfile or_else] in Hw, Ho, Hc.
      unfold validate_args. rewrite Hw, Ho, Hc, Hb.
      rewrite !(proj2 (given_string_some (Some _)))
        by (eexists; split; [reflexivity|assumption]).
      reflexivity.
Qed.

End DumpOptions.

(* ================================================================== *)
(** * The files of a run that is not dry *)
(* ================================================================== *)

Section WorkFiles.

Open Scope string_scope.

Lemma append_cancel (x y z : string) : x ++ y = x ++ z -> y = z.
Proof.
  induction x as [|ch x IH]; simpl; [auto|]. intros [= H]. now apply IH.
Qed.

Lemma path_join_head a ch s :
  path_join a (String ch s)
  = if Ascii.eqb ch "/" then String ch s
    else match a with
         | EmptyString => String ch s
         | _ => if String.eqb (substring (String.length a - 1) 1 a) "/"
                then a ++ String ch s else a ++ "/" ++ String ch s
         end.
Proof.
  destruct ch as [[] [] [] [] [] [] [] []]; reflexivity.
Qed.

(** Joined to a directory, names that differ after a common start
    differ, when what follows the start does not open with a slash. *)
Lemma path_join_apart a n ch s ch' s' :
  ch <> "/"%char -> ch' <> "/"%char ->
  path_join a (n ++ String ch s) = path_join a (n ++ String ch' s') ->
  String ch s = String ch' s'.
Proof.
  intros Hch Hch'. destruct n as [|c0 n]; cbn [append]; rewrite !path_join_head.
  - rewrite (proj2 (Ascii.eqb_neq _ _) Hch), (proj2 (Ascii.eqb_neq _ _) Hch').
    destruct a as [|c1 a]; [auto|].
    destruct (String.eqb _ _).
    + apply append_cancel.
    + intros H. apply append_cancel in H. now apply (append_cancel "/").
  - destruct (Ascii.eqb c0 "/").
    + intros [= H]. now apply append_cancel in H.
    + destruct a as [|c1 a].
      * intros [= H]. now apply append_cancel in H.
      * destruct (String.eqb _ _); intros H; apply append_cancel in H;
          [|apply (append_cancel "/") in H]; injection H as H;
          now apply append_cancel in H.
Qed.

Variable self : WatchlistDumper.

Lemma work_files_apart :
  all_merge_into self <> batch_merge_into self /\
  all_merge_into self <> batch_merged self /\
  all_merge_into self <> dumped self /\
  batch_merge_into self <> batch_merged self /\
  batch_merge_into self <> dumped self /\
  batch_merged self <> dumped self.
Proof.
  unfold all_merge_into, batch_merge_into, batch_merged, dumped.
  repeat split; intros H; apply path_join_apart in H;
    discriminate.
Qed.

End WorkFiles.

Section RealRun.

Open Scope Z_scope.

Variable self : WatchlistDumper.

Lemma replay_app t1 t2 fs :
  replay (t1 ++ t2) fs
  = match replay t1 fs with
    | Some fs' => replay t2 fs'
    | None => None
    end.
Proof.
  revert fs. induction t1 as [|e t1 IH]; intros fs; [reflexivity|].
  simpl. destruct (step e fs); [apply IH|reflexivity].
Qed.

Lemma replay_when_print b m fs :
  replay (fst (when b (tell (Print m)))) fs = Some fs.
Proof. now destruct b. Qed.

Lemma replay_do_one_query q outpath verbose fs :
  replay (fst (Dump.do_one_query q outpath verbose false)) fs
  = Some (add outpath fs).
Proof. now destruct verbose. Qed.

Lemma replay_merge merge_into to_merge merged_path verbose fs :
  replay (fst (Dump.merge merge_into to_merge merged_path verbose false)) fs
  = if fs merge_into && fs to_merge then Some (add merged_path fs) else None.
Proof.
  destruct verbose; simpl; destruct (fs merge_into && fs to_merge);
    reflexivity.
Qed.

Ltac path_cases q :=
  unfold add, remove;
  repeat match goal with
         | |- context [String.eqb q ?p] =>
             destruct (String.eqb_spec q p); subst
         end;
  repeat match goal with
         | H : ?x <> ?y |- context [String.eqb ?x ?y] =>
             rewrite (proj2 (String.eqb_neq x y) H)
         | H : ?y <> ?x |- context [String.eqb ?x ?y] =>
             rewrite (proj2 (String.eqb_neq x y) (not_eq_sym H))
         | |- context [String.eqb ?x ?x] => rewrite String.eqb_refl
         end;
  cbn [orb andb negb]; try congruence; try reflexivity.

(** The loop of [dump_merge_batch], the run not dry: with the file to
    merge into in place, no file is missing; a turn leaves that file
    and the partition dumped. *)
Lemma batch_loop_replay count maxid merge_into_path verbose :
  merge_into_path <> batch_merged self -> dumped self <> batch_merged self ->
  forall fuel startrow index fs,
    fs merge_into_path = true ->
    exists fs',
      replay (fst (batch_loop self fuel count maxid merge_into_path
                     (dumped self) verbose false startrow index)) fs
      = Some fs' /\
      fs' merge_into_path = true /\
      match fuel with
      | O => forall q, fs' q = fs q
      | S _ =>
          if (startrow <? maxid) && (index <? count) then
            forall q,
              fs' q = (String.eqb q merge_into_path
                       || negb (String.eqb q (batch_merged self))
                          && (String.eqb q (dumped self) || fs q))%bool
          else forall q, fs' q = fs q
      end.
Proof.
  intros Hinto Hdumped.
  induction fuel as [|fuel IH]; intros startrow index fs Hfs.
  - exists fs. repeat split. exact Hfs.
  - cbn [batch_loop].
    destruct ((startrow <? maxid) && (index <? count)) eqn:Hcond;
      [|exists fs; repeat split; exact Hfs].
    rewrite (then_fst_returned _ _ _ _ tt (do_one_query_returns _ _ _ _)).
    rewrite (then_fst_returned _ _ _ _ tt (merge_returns _ _ _ _ _)).
    rewrite (then_fst_returned _ _ _ _ tt (when_tell_returns _ _)).
    cbn [fst snd negb when tell].
    fold (batch_merged self).
    rewrite replay_app, replay_do_one_query. cbv beta iota.
    rewrite replay_app, replay_merge.
    assert (add (dumped self) fs merge_into_path = true) as ->
        by (unfold add; now rewrite Hfs, orb_true_r).
    assert (add (dumped self) fs (dumped self) = true) as ->
        by (unfold add; now rewrite String.eqb_refl).
    cbn [andb]. cbv beta iota.
    rewrite replay_app. cbn [replay step].
    assert (add (batch_merged self) (add (dumped self) fs) (batch_merged self)
            = true) as -> by (unfold add; now rewrite String.eqb_refl).
    set (fs1 := add merge_into_path
                  (remove (batch_merged self)
                     (add (batch_merged self) (add (dumped self) fs)))).
    assert (fs1 merge_into_path = true) as Hfs1
        by (unfold fs1, add; now rewrite String.eqb_refl).
    assert (forall q,
              fs1 q = (String.eqb q merge_into_path
                       || negb (String.eqb q (batch_merged self))
                          && (String.eqb q (dumped self) || fs q))%bool)
      as Hturn.
    { intros q. unfold fs1. path_cases q. }
    destruct (IH (startrow + batchsize self) (index + 1) fs1 Hfs1)
      as (fs' & Hrun & Hinto' & Hshape).
    exists fs'. split; [exact Hrun|]. split; [exact Hinto'|].
    intros q. destruct fuel as [|fuel'].
    + now rewrite Hshape, Hturn.
    + destruct ((startrow + batchsize self <? maxid) && (index + 1 <? count)).
      * rewrite Hshape, !Hturn. path_cases q.
        all: destruct (fs q); reflexivity.
      * now rewrite Hshape, Hturn.
Qed.

(** A batch with rows to dump and room for a partition: it leaves the
    file merged into, and neither the partition dumped nor the file of
    the merges. *)
Lemma dump_merge_batch_replay count startrow maxid merge_into_path verbose
      fs :
  startrow < maxid -> 1 < count ->
  merge_into_path <> batch_merged self -> merge_into_path <> dumped self ->
  exists fs',
    replay (fst (dump_merge_batch self count startrow maxid merge_into_path
                   verbose false)) fs = Some fs' /\
    forall q,
      fs' q = (String.eqb q merge_into_path
               || negb (String.eqb q (dumped self))
                  && negb (String.eqb q (batch_merged self)) && fs q)%bool.
Proof.
  intros Hrow Hcount Hinto Hinto'.
  destruct (work_files_apart self) as (_ & _ & _ & _ & _ & Hmd).
  assert (dumped self <> batch_merged self) as Hdm by congruence.
  destruct (batch_loop_spec self (Z.to_nat (count - 1)) count maxid
              merge_into_path (dumped self) verbose false startrow 1 eq_refl)
    as (k & _ & Hret & _).
  destruct (batch_loop_replay count maxid merge_into_path verbose Hinto Hdm
              (Z.to_nat (count - 1)) startrow 1 (add merge_into_path fs))
    as (fs1 & Hrun & _ & Hshape).
  { unfold add. now rewrite String.eqb_refl. }
  assert (forall q,
            fs1 q = (String.eqb q merge_into_path
                     || negb (String.eqb q (batch_merged self))
                        && (String.eqb q (dumped self)
                            || add merge_into_path fs q))%bool) as Hturn.
  { revert Hshape. destruct (Z.to_nat (count - 1)) eqn:Efuel; [lia|].
    now rewrite (proj2 (Z.ltb_lt _ _) Hrow),
      (proj2 (Z.ltb_lt 1 count) Hcount). }
  clear Hshape.
  unfold dump_merge_batch, create_empty_file. fold (dumped self).
  rewrite (then_fst_returned _ _ _ _ tt (when_tell_returns _ _)).
  rewrite !Z.geb_leb, (proj2 (Z.leb_gt _ _) Hrow),
    (proj2 (Z.leb_gt _ _) Hcount).
  simpl orb. cbv iota.
  rewrite (then_fst_returned _ _ _ _ _ Hret).
  rewrite (then_fst_returned _ _ _ _ tt (when_tell_returns _ _)).
  cbn [fst snd negb when tell ret]. rewrite app_nil_r.
  rewrite replay_app. cbn [replay step].
  rewrite replay_app, Hrun. cbn [replay step].
  assert (fs1 (dumped self) = true) as ->.
  { rewrite Hturn, String.eqb_refl.
    rewrite (proj2 (String.eqb_neq _ _) Hdm). cbn. apply orb_true_r. }
  eexists. split; [reflexivity|].
  intros q. unfold remove. rewrite Hturn. path_cases q.
Qed.

Lemma replay_after_batch verbose fs :
  fs (all_merge_into self) = true -> fs (batch_merge_into self) = true ->
  replay
    (fst (when true
            (when verbose (tell (Print MergingBatchResults)) ;;;
             Dump.merge (all_merge_into self) (batch_merge_into self)
                        (batch_merged self) verbose false ;;;
             when (negb false)
               (tell (Move (batch_merged self) (all_merge_into self))))))
    fs
  = Some (add (all_merge_into self)
            (remove (batch_merged self) (add (batch_merged self) fs))).
Proof.
  intros Ha Hb.
  assert (add (batch_merged self) fs (batch_merged self) = true) as Hm
      by (unfold add; now rewrite String.eqb_refl).
  destruct verbose; simpl; rewrite Ha, Hb; simpl; now rewrite Hm.
Qed.

(** The loop of [dump_watchlist], the run not dry: with the file of
    all the merges in place no file is missing; a turn leaves that
    file and the file of the batch, and neither the partition dumped
    nor the file of the merges. *)
Lemma watchlist_loop_replay file_batch_count maxid verbose :
  1 <= batchsize self -> 1 < file_batch_count ->
  forall fuel row fs,
    1 <= row -> fs (all_merge_into self) = true ->
    (Z.to_nat (maxid - row) <= fuel)%nat ->
    exists fs',
      replay
        (fst (watchlist_loop self fuel file_batch_count maxid
                (all_merge_into self) (batch_merge_into self)
                (batch_merged self) verbose false (Some row))) fs
      = Some fs' /\
      fs' (all_merge_into self) = true /\
      if row <? maxid then
        forall q,
          fs' q = (String.eqb q (all_merge_into self)
                   || String.eqb q (batch_merge_into self)
                   || negb (String.eqb q (dumped self))
                      && negb (String.eqb q (batch_merged self)) && fs q)%bool
      else forall q, fs' q = fs q.
Proof.
  intros Hspan Hcount.
  destruct (work_files_apart self) as (Hab & Ham & Had & Hbm & Hbd & Hmd).
  assert (forall fuel row, maxid <= row ->
            watchlist_loop self fuel file_batch_count maxid
              (all_merge_into self) (batch_merge_into self)
              (batch_merged self) verbose false (Some row) = ret tt) as Hdone.
  { intros fuel row Hrow. destruct fuel; simpl;
      rewrite (proj2 (Z.ltb_ge _ _) Hrow), andb_false_r; reflexivity. }
  induction fuel as [|fuel IH]; intros row fs Hrow Hfs Hfuel.
  - rewrite Hdone by lia. exists fs. split; [reflexivity|].
    split; [exact Hfs|]. now rewrite (proj2 (Z.ltb_ge row maxid)) by lia.
  - destruct (Z.ltb_spec row maxid) as [Hmore|Hend].
    2: { rewrite Hdone by lia. exists fs. repeat split. exact Hfs. }
    destruct (dump_merge_batch_partitions self file_batch_count row maxid
                (batch_merge_into self) verbose false Hmore Hcount)
      as (k & Hk & Hret & _).
    set (row' := row + Z.of_nat k * batchsize self) in *.
    assert (row < row') as Hnext by (unfold row'; nia).
    destruct (dump_merge_batch_replay file_batch_count row maxid
                (batch_merge_into self) verbose fs Hmore Hcount Hbm Hbd)
      as (fs1 & Hrun1 & Hshape1).
    assert (fs1 (all_merge_into self) = true) as Ha1.
    { rewrite Hshape1, Hfs. path_cases (all_merge_into self). }
    assert (fs1 (batch_merge_into self) = true) as Hb1.
    { rewrite Hshape1, String.eqb_refl. reflexivity. }
    set (fs2 := add (all_merge_into self)
                  (remove (batch_merged self)
                     (add (batch_merged self) fs1))).
    assert (fs2 (all_merge_into self) = true) as Ha2
        by (unfold fs2, add; now rewrite String.eqb_refl).
    assert (forall q,
              fs2 q = (String.eqb q (all_merge_into self)
                       || String.eqb q (batch_merge_into self)
                       || negb (String.eqb q (dumped self))
                          && negb (String.eqb q (batch_merged self))
                          && fs q)%bool) as Hshape2.
    { intros q. unfold fs2, add, remove. rewrite Hshape1. path_cases q. }
    destruct (IH row' fs2 ltac:(lia) Ha2 ltac:(lia))
      as (fs' & Hrun & Ha' & Hshape).
    destruct (after_batch (all_merge_into self) (batch_merge_into self)
                (batch_merged self) verbose false (truthy (Some row')))
      as [Hblock _].
    exists fs'.
    cbn [watchlist_loop].
    assert (truthy (Some row) && (row <? maxid) = true) as ->.
    { simpl. rewrite (proj2 (Z.eqb_neq row 0)) by lia.
      now rewrite (proj2 (Z.ltb_lt _ _)) by lia. }
    rewrite (then_fst_returned _ _ _ _ tt (when_tell_returns _ _)).
    rewrite (then_fst_returned _ _ _ _ _ Hret).
    rewrite (then_fst_returned _ _ _ _ tt Hblock).
    cbn [fst snd].
    rewrite replay_app, replay_when_print.
    rewrite replay_app, Hrun1.
    assert (truthy (Some row') = true) as ->.
    { simpl. now rewrite (proj2 (Z.eqb_neq row' 0)) by lia. }
    rewrite replay_app, (replay_after_batch verbose fs1 Ha1 Hb1).
    fold fs2. split; [exact Hrun|]. split; [exact Ha'|].
    intros q. destruct (row' <? maxid).
    + rewrite Hshape, !Hshape2. path_cases q.
      all: destruct (fs q); reflexivity.
    + now rewrite Hshape, Hshape2.
Qed.

Lemma dump_watchlist_replay (fuel : nat) (results : option (list string))
  (file_batch_count : Z) (out_path : string) (verbose : bool) (maxid : Z)
  (fs : present) :
  1 <= batchsize self -> 1 < file_batch_count ->
  snd (get_max_id results "wl_id" "watchlist") = Returned (Some maxid) ->
  1 < maxid -> (Z.to_nat maxid <= fuel)%nat ->
  exists fs',
    replay (fst (dump_watchlist self fuel results file_batch_count out_path
                   verbose false)) fs = Some fs' /\
    forall q,
      fs' q = (String.eqb q out_path
               || negb (String.eqb q (all_merge_into self))
                  && negb (String.eqb q (dumped self))
                  && negb (String.eqb q (batch_merged self))
                  && (String.eqb q (batch_merge_into self) || fs q))%bool.
Proof.
  intros Hspan Hcount Hmax Hmore Hfuel.
  destruct (work_files_apart self) as (Hab & Ham & Had & Hbm & Hbd & Hmd).
  destruct (watchlist_loop_replay file_batch_count maxid verbose Hspan Hcount
              fuel 1 (add (all_merge_into self) fs))
    as (fs1 & Hrun & Ha & Hshape);
    [lia|unfold add; now rewrite String.eqb_refl|lia|].
  rewrite (proj2 (Z.ltb_lt 1 maxid) Hmore) in Hshape.
  assert (snd (watchlist_loop self fuel file_batch_count maxid
                 (all_merge_into self) (batch_merge_into self)
                 (batch_merged self) verbose false (Some 1)) = Returned tt)
    as Hret by (apply watchlist_loop_returns; [exact Hspan|lia]).
  unfold dump_watchlist, create_empty_file.
  fold (all_merge_into self). fold (batch_merge_into self).
  fold (batch_merged self).
  rewrite (then_fst_returned _ _ _ _ _ Hmax).
  rewrite (proj2 (Z.eqb_neq maxid 0)) by lia.
  rewrite (then_fst_returned _ _ _ _ tt (when_tell_returns _ _)).
  rewrite (then_fst_returned _ _ _ _ tt (when_tell_returns _ _)).
  rewrite (then_fst_returned _ _ _ _ tt Hret).
  cbn [fst snd negb when tell].
  rewrite replay_app, get_max_id_trace. cbn [replay step].
  rewrite replay_app, replay_when_print.
  rewrite replay_app. cbn [replay step].
  rewrite replay_app, Hrun.
  assert (exists fs',
            replay (fst (tell (Move (all_merge_into self) out_path) ;;;
                         when verbose (tell (Print (OutputAvailable out_path)))))
              fs1 = Some fs' /\
            forall q, fs' q = add out_path (remove (all_merge_into self) fs1) q)
    as (fs' & Hlast & Hsame).
  { destruct verbose; eexists; (split; [cbn; rewrite Ha; reflexivity|]);
      reflexivity. }
  exists fs'. split; [exact Hlast|].
  intros q. rewrite Hsame. unfold add, remove. rewrite Hshape.
  path_cases q.
  all: destruct (fs q); reflexivity.
Qed.

(** X26.  The files of a run that is not dry, with partitions of one
    row or more, two files or more to the batch and a greatest id over
    1, every command taken to write its output.  No step of
    [dump_watchlist] needs a file that is not there: what is merged,
    moved or removed has been written before.  At the end the output
    is there; of the four work files the one each batch is merged into
    is left behind and the three others are gone; and any other file
    is there exactly if it was. *)
Theorem real_run_files (fuel : nat) (results : option (list string))
  (file_batch_count : Z) (out_path : string) (verbose : bool) (maxid : Z)
  (fs : present) :
  1 <= batchsize self -> 1 < file_batch_count ->
  snd (get_max_id results "wl_id" "watchlist") = Returned (Some maxid) ->
  1 < maxid -> (Z.to_nat maxid <= fuel)%nat ->
  exists fs',
    replay (fst (dump_watchlist self fuel results file_batch_count out_path
                   verbose false)) fs = Some fs' /\
    forall q,
      fs' q = (String.eqb q out_path
               || negb (String.eqb q (all_merge_into self))
                  && negb (String.eqb q (dumped self))
                  && negb (String.eqb q (batch_merged self))
                  && (String.eqb q (batch_merge_into self) || fs q))%bool.
Proof. apply dump_watchlist_replay. Qed.

End RealRun.

Lemma run_without_output_first_try_witness :
  let c := SortMerge "/tmp/a.gz" "/tmp/b.gz" "/tmp/c.gz" in
  let attempts := fun _ : nat => (0%Z, "warning"%string) in
  let run := Retry.run_without_output c 3 5 true attempts in
  (1 <= 3)%Z /\ fst (attempts 0%nat) = 0%Z /\
  snd run = Retry.Returned true /\
  snd (Dump.run_without_output c true) = Dump.Returned tt /\
  flat_map Retry.plain (fst run) = fst (Dump.run_without_output c true) /\
  Retry.slept (fst run) = 0%nat /\
  Forall (fun e => Retry.plain e = [] ->
                   e = Retry.PrintError c (snd (attempts 0%nat)))
         (fst run).
Proof.
  intros c attempts run. split; [lia|]. split; [reflexivity|].
  apply (run_without_output_first_try c 5 attempts 3 true);
    [lia|reflexivity].
Defined.

Lemma dump_get_args_needs_batchsize_witness :
  let options := [("-w", "wiki"); ("-o", "/out/w.gz"); ("-c", "conf")]%string in
  last_value ["-b"; "--batchsize"]%string options = None /\
  (forall a,
     DumpMain.get_args (fun _ => true) (MergeMain.Parsed options [])
     <> inr a) /\
  DumpMain.get_args (fun _ => true) (MergeMain.Parsed options [])
  = inl DumpMain.AttributeError.
Proof.
  intros options. split; [reflexivity|].
  destruct (dump_get_args_needs_batchsize (fun _ => true) options []
              eq_refl) as [Hnever Herror].
  split; [exact Hnever|].
  apply Herror; [reflexivity|repeat constructor|].
  intros names [<-|[<-|[<-|[]]]]; eexists; (split; [reflexivity|discriminate]).
Defined.

Lemma real_run_files_witness :
  let results := Some ["MAX(wl_id)"; "2500"]%string in
  let fs : present := fun _ => false in
  (1 <= batchsize scenario_dumper)%Z /\ (1 < 100)%Z /\
  snd (get_max_id results "wl_id" "watchlist") = Returned (Some 2500%Z) /\
  (1 < 2500)%Z /\
  exists fs',
    replay (fst (dump_watchlist scenario_dumper (Z.to_nat 2500) results 100
                   "/out" false false)) fs = Some fs' /\
    forall q,
      fs' q = (String.eqb q "/out"
               || negb (String.eqb q (all_merge_into scenario_dumper))
                  && negb (String.eqb q (dumped scenario_dumper))
                  && negb (String.eqb q (batch_merged scenario_dumper))
                  && (String.eqb q (batch_merge_into scenario_dumper)
                      || fs q))%bool.
Proof.
  intros results fs.
  assert (1 <= batchsize scenario_dumper)%Z as H1 by (simpl; lia).
  split; [exact H1|]. split; [lia|]. split; [reflexivity|]. split; [lia|].
  apply (real_run_files scenario_dumper (Z.to_nat 2500) results 100 "/out"
           false 2500 fs H1); [lia|reflexivity|lia|apply Nat.le_refl].
Defined.

(* ================================================================== *)
(** * No record is lost by the merge *)
(* ================================================================== *)

Section MergeKeepsKeys.

Variable self : MergeAdd.
Hypothesis apart : sums_apart self.

Lemma same_view_refl (record : fields) : same_view self record record.
Proof. repeat split. Qed.

Lemma same_view_trans (one two three : fields) :
  same_view self one two -> same_view self two three ->
  same_view self one three.
Proof.
  intros (Hi1 & Hs1 & Hl1) (Hi2 & Hs2 & Hl2). repeat split.
  - intros i Hi. now rewrite Hi1, Hi2.
  - intros i Hi. now rewrite Hs1, Hs2.
  - congruence.
Qed.

Lemma pending_in current handle l :
  current <> [] -> Forall (free_of tab) current ->
  In l (pending current handle) ->
  (at_end current = false /\ split tab l = current) \/ In l handle.
Proof.
  intros Hne Hfree. unfold pending. destruct (at_end current); [intros []|].
  intros [<-|H]; [left|now right]. split; [reflexivity|].
  now apply split_join_tab.
Qed.

(** Every line an input still has to give has, in what the loop
    writes when it returns, a line with its keys and its number of
    fields. *)
Lemma merge_loop_keeps_keys have have_fields to_merge_fields to_merge :
  no_empty_line have -> no_empty_line to_merge ->
  have_fields <> [] -> to_merge_fields <> [] ->
  Forall (free_of tab) have_fields -> Forall (free_of tab) to_merge_fields ->
  snd (merge_loop self have have_fields to_merge_fields to_merge) = Ok tt ->
  forall l,
    In l (pending have_fields have ++ pending to_merge_fields to_merge) ->
    exists l',
      In l' (fst (merge_loop self have have_fields to_merge_fields to_merge))
      /\ same_view self (split tab l) (split tab l').
Proof.
  pattern have, have_fields, to_merge_fields, to_merge.
  apply merge_loop_ind. clear have have_fields to_merge_fields to_merge.
  intros have hf tf tm IHto IHhave Hh Ht Hne1 Hne2 Hfree1 Hfree2.
  rewrite merge_loop_unfold.
  assert (forall current handle current' handle' l,
            current <> [] -> current' <> [] ->
            no_empty_line handle -> no_empty_line handle' ->
            In l (pending current handle ++ pending current' handle') ->
            exists l',
              In l' (fst (drain_both current handle current' handle')) /\
              same_view self (split tab l) (split tab l')) as Hdrain.
  { intros c h c' h' l Hc Hc' Hn Hn' Hl. exists l.
    split; [|apply same_view_refl].
    unfold drain_both, fst. now rewrite !drain_pending. }
  destruct (at_end hf || at_end tf) eqn:Eend.
  { intros _ l Hl. now apply Hdrain. }
  apply orb_false_elim in Eend. destruct Eend as [Eh Et].
  destruct (compare_fields self hf tf) as [r|e] eqn:Ec; [|discriminate].
  assert (pending hf have = join_tab hf :: have) as Hp1
      by (unfold pending; now rewrite Eh).
  assert (pending tf tm = join_tab tf :: tm) as Hp2
      by (unfold pending; now rewrite Et).
  destruct (r =? 0)%Z eqn:E0.
  { apply Z.eqb_eq in E0. subst r.
    destruct (sum_fields self hf tf) as [s|e] eqn:Es; [|discriminate].
    pose proof (sum_fields_not_nil self _ _ _ Hne1 Es) as Hne.
    pose proof (sum_fields_free self _ _ _ Hfree1 Es) as Hfree.
    pose proof (sum_fields_not_at_end self _ _ _ Es Eh) as Hend.
    pose proof (sum_fields_same_view self _ _ _ apart Es) as Hview.
    pose proof (compare_fields_zero_view self _ _ Ec) as Hsame.
    assert (pending s have = join_tab s :: have) as Hps
        by (unfold pending; now rewrite Hend).
    set (out := fst match tm with
                    | [] => drain_both s have [EmptyString] []
                    | line :: to_merge' =>
                        merge_loop self have s (split tab line) to_merge'
                    end).
    intros Hret.
    assert (forall l,
              In l (join_tab s :: have) \/
              In l match tm with [] => [] | line :: rest => line :: rest end ->
              exists l', In l' out /\
                         same_view self (split tab l) (split tab l')) as Hnext.
    { intros l Hl. unfold out. destruct tm as [|next tm'].
      - apply (Hdrain s have [EmptyString] [] l Hne ltac:(discriminate) Hh
                 ltac:(constructor)).
        rewrite Hps. apply in_or_app. destruct Hl as [Hl|[]]. now left.
      - inversion Ht as [|? ? Hnext Ht']; subst.
        apply (IHto next tm' s eq_refl); auto using split_not_nil, split_free.
        rewrite Hps, pending_line by assumption.
        apply in_or_app. exact Hl. }
    assert (exists l', In l' out /\ same_view self s (split tab l'))
      as (ls & Hls & Hvs).
    { destruct (Hnext (join_tab s) (or_introl (or_introl eq_refl)))
        as (l' & Hl' & Hv).
      exists l'. split; [exact Hl'|]. now rewrite split_join_tab in Hv. }
    intros l Hl. rewrite Hp1, Hp2 in Hl. apply in_app_or in Hl.
    destruct Hl as [[<-|Hl]|[<-|Hl]].
    - exists ls. split; [exact Hls|]. rewrite split_join_tab by assumption.
      apply (same_view_trans hf s); [now apply same_view_sym|exact Hvs].
    - apply Hnext. left. now right.
    - exists ls. split; [exact Hls|]. rewrite split_join_tab by assumption.
      apply (same_view_trans tf hf); [now apply same_view_sym|].
      apply (same_view_trans hf s); [now apply same_view_sym|exact Hvs].
    - apply Hnext. right. destruct tm; [destruct Hl|exact Hl]. }
  destruct (r <? 0)%Z eqn:Er.
  { unfold emit. cbn [fst snd]. intros Hret l Hl.
    rewrite Hp1 in Hl. cbn [app] in Hl. destruct Hl as [<-|Hl].
    { exists (join_tab hf). split; [now left|apply same_view_refl]. }
    assert (exists l',
              In l' (fst match have with
                         | [] => drain_both [EmptyString] [] tf tm
                         | line :: have' =>
                             merge_loop self have' (split tab line) tf tm
                         end) /\
              same_view self (split tab l) (split tab l'))
      as (l' & Hl' & Hv).
    { destruct have as [|next have'].
      - apply (Hdrain [EmptyString] [] tf tm l ltac:(discriminate) Hne2
                 ltac:(constructor) Ht).
        exact Hl.
      - inversion Hh as [|? ? Hnext Hh']; subst.
        apply (IHhave next have' eq_refl);
          auto using split_not_nil, split_free.
        now rewrite pending_line by assumption. }
    exists l'. split; [now right|exact Hv]. }
  { unfold emit. cbn [fst snd]. intros Hret l Hl.
    rewrite Hp2 in Hl. apply in_app_or in Hl.
    assert (l = join_tab tf \/
            In l (pending hf have ++ match tm with
                                     | [] => []
                                     | line :: rest => line :: rest
                                     end)) as [->|Hl'].
    { destruct Hl as [Hl|[<-|Hl]]; [right|now left|right];
        apply in_or_app; [now left|right].
      destruct tm; [destruct Hl|exact Hl]. }
    { exists (join_tab tf). split; [now left|apply same_view_refl]. }
    assert (exists l',
              In l' (fst match tm with
                         | [] => drain_both hf have [EmptyString] []
                         | line :: to_merge' =>
                             merge_loop self have hf (split tab line) to_merge'
                         end) /\
              same_view self (split tab l) (split tab l'))
      as (l' & Hl'' & Hv).
    { destruct tm as [|next tm'].
      - apply (Hdrain hf have [EmptyString] [] l Hne1 ltac:(discriminate) Hh
                 ltac:(constructor)).
        exact Hl'.
      - inversion Ht as [|? ? Hnext Ht']; subst.
        apply (IHto next tm' hf eq_refl);
          auto using split_not_nil, split_free.
        now rewrite pending_line by assumption. }
    exists l'. split; [now right|exact Hv]. }
Qed.

(** X27.  [do_merge] loses no record: when no summed field is a key
    field, the two files hold no empty line and [do_merge] returns,
    every line of either file has among the lines written one with its
    keys, as [compare_fields] reads them, and its number of fields. *)
Theorem do_merge_keeps_keys (have to_merge : file) :
  no_empty_line have -> no_empty_line to_merge ->
  snd (do_merge self have to_merge) = Ok tt ->
  forall l, In l (have ++ to_merge) ->
    exists l',
      In l' (fst (do_merge self have to_merge)) /\
      same_view self (split tab l) (split tab l').
Proof.
  intros H1 H2. unfold do_merge.
  destruct (pending_read have H1) as [P1 _].
  destruct (pending_read to_merge H2) as [P2 _].
  destruct (read_fields have) as [hf have'] eqn:E1.
  destruct (read_fields to_merge) as [tf tm'] eqn:E2.
  simpl fst in *. simpl snd in *.
  assert (hf <> [] /\ Forall (free_of tab) hf /\ no_empty_line have')
    as (Hne1 & Hfree1 & Hh).
  { unfold read_fields, readline_rstrip in E1.
    destruct have; injection E1 as <- <-;
      (split; [first [discriminate|apply split_not_nil]|]);
      (split; [first [apply split_free|repeat constructor]|]);
      [constructor|now inversion H1]. }
  assert (tf <> [] /\ Forall (free_of tab) tf /\ no_empty_line tm')
    as (Hne2 & Hfree2 & Ht).
  { unfold read_fields, readline_rstrip in E2.
    destruct to_merge; injection E2 as <- <-;
      (split; [first [discriminate|apply split_not_nil]|]);
      (split; [first [apply split_free|repeat constructor]|]);
      [constructor|now inversion H2]. }
  intros Hret l Hl. rewrite <- P1, <- P2 in Hl.
  now apply merge_loop_keeps_keys.
Qed.

End MergeKeepsKeys.

Lemma do_merge_keeps_keys_witness :
  let have := [row "1" "a" "5"; row "2" "b" "1"] in
  let to_merge := [row "1" "a" "3"; row "3" "c" "4"] in
  sums_apart scenario_roles /\
  no_empty_line have /\ no_empty_line to_merge /\
  snd (do_merge scenario_roles have to_merge) = Ok tt /\
  forall l, In l (have ++ to_merge) ->
    exists l',
      In l' (fst (do_merge scenario_roles have to_merge)) /\
      same_view scenario_roles (split tab l) (split tab l').
Proof.
  assert (sums_apart scenario_roles) as Ha.
  { intros i [<-|[]] [H|[H|[]]]; discriminate H. }
  assert (no_empty_line [row "1" "a" "5"; row "2" "b" "1"]) as H1.
  { repeat constructor; discriminate. }
  assert (no_empty_line [row "1" "a" "3"; row "3" "c" "4"]) as H2.
  { repeat constructor; discriminate. }
  split; [exact Ha|]. split; [exact H1|]. split; [exact H2|].
  split; [reflexivity|].
  exact (do_merge_keeps_keys scenario_roles Ha _ _ H1 H2 eq_refl).
Defined.

(* ================================================================== *)
(** * The files of a whole run of the dumper *)
(* ================================================================== *)

Section WholeRun.

Import DumpRun.

Open Scope string_scope.

Lemma append_assoc (x y z : string) : (x ++ y) ++ z = x ++ (y ++ z).
Proof. induction x as [|ch x IH]; simpl; [reflexivity|now rewrite IH]. Qed.

Lemma substring_start (x y : string) :
  substring 0 (String.length x) (x ++ y) = x.
Proof.
  induction x as [|ch x IH]; simpl.
  - now destruct y.
  - now rewrite IH.
Qed.

Lemma length_append (x y : string) :
  String.length (x ++ y) = (String.length x + String.length y)%nat.
Proof. induction x as [|ch x IH]; simpl; [reflexivity|now rewrite IH]. Qed.

Lemma without_last_three_gz x : without_last_three (x ++ ".gz") = x.
Proof.
  unfold without_last_three. rewrite length_append. simpl String.length.
  replace (String.length x + 3 - 3)%nat with (String.length x) by lia.
  apply substring_start.
Qed.

(** A name that does not open with a slash is joined to a directory by
    putting before it something that depends on the directory alone;
    so is a name that opens with one, by putting nothing. *)
Lemma path_join_shape a n :
  exists before,
    forall ch s, ch <> "/"%char ->
      path_join a (n ++ String ch s) = before ++ (n ++ String ch s).
Proof.
  destruct n as [|c0 n]; cbn [append].
  - destruct a as [|c1 a].
    + exists EmptyString. intros ch s Hch. rewrite path_join_head.
      now rewrite (proj2 (Ascii.eqb_neq _ _) Hch).
    + destruct (String.eqb (substring (String.length (String c1 a) - 1) 1
                              (String c1 a)) "/") eqn:E.
      * exists (String c1 a). intros ch s Hch. rewrite path_join_head.
        now rewrite (proj2 (Ascii.eqb_neq _ _) Hch), E.
      * exists (String c1 a ++ "/"). intros ch s Hch. rewrite path_join_head.
        rewrite (proj2 (Ascii.eqb_neq _ _) Hch), E.
        now rewrite append_assoc.
  - destruct (Ascii.eqb c0 "/") eqn:E0.
    + exists EmptyString. intros ch s _. rewrite path_join_head. now rewrite E0.
    + destruct a as [|c1 a].
      * exists EmptyString. intros ch s _. rewrite path_join_head. now rewrite E0.
      * destruct (String.eqb (substring (String.length (String c1 a) - 1) 1
                                (String c1 a)) "/") eqn:E.
        -- exists (String c1 a). intros ch s _. rewrite path_join_head.
           now rewrite E0, E.
        -- exists (String c1 a ++ "/"). intros ch s _.
           rewrite path_join_head. rewrite E0, E.
           now rewrite append_assoc.
Qed.

Variable self : WatchlistDumper.

(** The watchlist is uncompressed beside its dump. *)
Lemma uncompressed_path :
  without_last_three (dumped_merged self) = uncompressed self.
Proof.
  unfold dumped_merged, uncompressed.
  destruct (path_join_shape (outdir self) (db_name self)) as [before Hshape].
  rewrite !Hshape by discriminate.
  change "-watchlist-dumped-merged.gz"
    with ("-watchlist-dumped-merged" ++ ".gz").
  rewrite <- !append_assoc. apply without_last_three_gz.
Qed.

Lemma main_files_apart :
  Forall (fun p => p <> dumped_merged self /\ p <> uncompressed self /\
                   p <> titles self)
         [all_merge_into self; batch_merge_into self; batch_merged self;
          dumped self] /\
  dumped_merged self <> uncompressed self /\
  dumped_merged self <> titles self /\
  uncompressed self <> titles self.
Proof.
  unfold all_merge_into, batch_merge_into, batch_merged, dumped,
    dumped_merged, uncompressed, titles.
  repeat first [apply conj|apply Forall_cons|apply Forall_nil];
    intros H; apply path_join_apart in H; discriminate.
Qed.

Lemma main_replay_app t1 t2 fs :
  main_replay (t1 ++ t2) fs
  = match main_replay t1 fs with
    | Some fs' => main_replay t2 fs'
    | None => None
    end.
Proof.
  revert fs. induction t1 as [|e t1 IH]; intros fs; [reflexivity|].
  simpl. destruct (main_step e fs); [apply IH|reflexivity].
Qed.

Lemma main_replay_core trace fs :
  main_replay (map Core trace) fs = replay trace fs.
Proof.
  revert fs. induction trace as [|e trace IH]; intros fs; [reflexivity|].
  simpl. destruct (step e fs); [apply IH|reflexivity].
Qed.

Lemma main_replay_note b n fs : main_replay (note_when b n) fs = Some fs.
Proof. now destruct b. Qed.

Lemma main_replay_command c verbose fs :
  main_replay (DumpRun.run_without_output c verbose) fs = main_step (Run c) fs.
Proof.
  unfold DumpRun.run_without_output.
  rewrite main_replay_app, main_replay_note. cbn [main_replay].
  now destruct (main_step (Run c) fs).
Qed.

Ltac main_path_cases q :=
  unfold add, remove;
  repeat match goal with
         | |- context [String.eqb q ?p] =>
             destruct (String.eqb_spec q p); subst
         end;
  repeat match goal with
         | H : ?x <> ?y |- context [String.eqb ?x ?y] =>
             rewrite (proj2 (String.eqb_neq x y) H)
         | H : ?y <> ?x |- context [String.eqb ?x ?y] =>
             rewrite (proj2 (String.eqb_neq x y) (not_eq_sym H))
         | |- context [String.eqb ?x ?x] => rewrite String.eqb_refl
         end;
  cbn [orb andb negb]; try congruence; try reflexivity.

(** X28.  The files of a whole run that is not dry, from the dump to
    the filter, with partitions of one row or more, a greatest id over
    1, every command taken to write its output, and an output that is
    none of the three work files of the end of the script.  [do_main]
    reaches its end and no step needs a file that is not there: the
    watchlist is uncompressed beside its dump, joined with the titles
    into the output, and the three work files are removed.  At the end
    the output is there, and of the seven work files only the one each
    batch is merged into is left; any other file is there exactly if
    it was. *)
Theorem whole_run_files (fuel : nat) (results : option (list string))
  (output : string) (verbose : bool) (maxid : Z) (fs : present) :
  (1 <= batchsize self)%Z ->
  snd (get_max_id results "wl_id" "watchlist") = Returned (Some maxid) ->
  (1 < maxid)%Z -> (Z.to_nat maxid <= fuel)%nat ->
  output <> dumped_merged self -> output <> uncompressed self ->
  output <> titles self ->
  snd (DumpRun.do_main self fuel results output verbose false)
  = Returned tt /\
  exists fs',
    main_replay (fst (DumpRun.do_main self fuel results output verbose false))
                fs = Some fs' /\
    forall q,
      fs' q = (String.eqb q output
               || negb (String.eqb q (titles self))
                  && negb (String.eqb q (uncompressed self))
                  && negb (String.eqb q (dumped_merged self))
                  && negb (String.eqb q (all_merge_into self))
                  && negb (String.eqb q (dumped self))
                  && negb (String.eqb q (batch_merged self))
                  && (String.eqb q (batch_merge_into self) || fs q))%bool.
Proof.
  intros Hspan Hmax Hmore Hfuel Ho1 Ho2 Ho3.
  destruct (work_files_apart self) as (Hab & Ham & Had & Hbm & Hbd & Hmd).
  destruct main_files_apart as (Hwork & Hpu & Hpt & Hut).
  repeat match goal with
         | H : Forall _ (_ :: _) |- _ =>
             apply Forall_cons_iff in H; destruct H as [(? & ? & ?) H]
         end.
  assert (snd (dump_watchlist self fuel results 100 (dumped_merged self)
                 verbose false) = Returned tt) as Hret.
  { apply (dump_watchlist_returns self fuel results 100 (dumped_merged self)
             verbose false maxid); [exact Hspan|exact Hmax|lia|exact Hfuel]. }
  destruct (dump_watchlist_replay self fuel results 100 (dumped_merged self)
              verbose maxid fs Hspan ltac:(lia) Hmax Hmore Hfuel)
    as (fs1 & Hrun1 & Hshape1).
  unfold DumpRun.do_main. fold (dumped_merged self). rewrite Hret.
  split; [reflexivity|]. cbn [fst].
  unfold do_filter, dump_titles. fold (titles self).
  rewrite uncompressed_path.
  rewrite <- !app_assoc.
  rewrite main_replay_app, main_replay_note.
  rewrite main_replay_app, main_replay_core, Hrun1.
  rewrite main_replay_app, main_replay_note.
  rewrite main_replay_app, main_replay_note.
  rewrite main_replay_app, main_replay_command. cbn [main_step].
  rewrite main_replay_app, main_replay_command. cbn [main_step].
  assert (add (titles self) fs1 (dumped_merged self) = true) as ->.
  { unfold add. rewrite Hshape1, String.eqb_refl. apply orb_true_r. }
  rewrite main_replay_app, main_replay_command. cbn [main_step].
  assert (add (uncompressed self) (add (titles self) fs1) (uncompressed self)
          = true) as -> by (unfold add; now rewrite String.eqb_refl).
  assert (add (uncompressed self) (add (titles self) fs1) (titles self)
          = true) as ->.
  { unfold add. rewrite (String.eqb_refl (titles self)). apply orb_true_r. }
  cbn [andb app main_replay main_step step].
  set (fs2 := add output (add (uncompressed self) (add (titles self) fs1))).
  assert (fs2 (titles self) = true) as ->.
  { unfold fs2, add. rewrite (String.eqb_refl (titles self)).
    now rewrite !orb_true_r. }
  assert (remove (titles self) fs2 (uncompressed self) = true) as ->.
  { unfold fs2, add, remove. rewrite (String.eqb_refl (uncompressed self)).
    rewrite (proj2 (String.eqb_neq _ _) Hut). cbn. apply orb_true_r. }
  assert (remove (uncompressed self) (remove (titles self) fs2)
            (dumped_merged self) = true) as ->.
  { unfold fs2, add, remove. rewrite Hshape1.
    rewrite (String.eqb_refl (dumped_merged self)).
    rewrite (proj2 (String.eqb_neq _ _) Hpu), (proj2 (String.eqb_neq _ _) Hpt).
    cbn. now rewrite !orb_true_r. }
  eexists. split; [reflexivity|].
  intros q. unfold fs2, add, remove. rewrite Hshape1.
  main_path_cases q.
Qed.

End WholeRun.

Lemma whole_run_files_witness :
  let results := Some ["MAX(wl_id)"; "2500"]%string in
  let output := "/out/filtered.gz"%string in
  let fs : present := fun _ => false in
  (1 <= batchsize scenario_dumper)%Z /\
  snd (get_max_id results "wl_id" "watchlist") = Returned (Some 2500%Z) /\
  (1 < 2500)%Z /\
  output <> dumped_merged scenario_dumper /\
  output <> uncompressed scenario_dumper /\
  output <> titles scenario_dumper /\
  snd (DumpRun.do_main scenario_dumper (Z.to_nat 2500) results output
         false false) = Returned tt /\
  exists fs',
    main_replay (fst (DumpRun.do_main scenario_dumper (Z.to_nat 2500) results
                        output false false)) fs = Some fs' /\
    forall q,
      fs' q = (String.eqb q output
               || negb (String.eqb q (titles scenario_dumper))
                  && negb (String.eqb q (uncompressed scenario_dumper))
                  && negb (String.eqb q (dumped_merged scenario_dumper))
                  && negb (String.eqb q (all_merge_into scenario_dumper))
                  && negb (String.eqb q (dumped scenario_dumper))
                  && negb (String.eqb q (batch_merged scenario_dumper))
                  && (String.eqb q (batch_merge_into scenario_dumper)
                      || fs q))%bool.
Proof.
  intros results output fs.
  assert (1 <= batchsize scenario_dumper)%Z as H1 by (simpl; lia).
  assert (output <> dumped_merged scenario_dumper) as H2
      by (intros H; vm_compute in H; discriminate H).
  assert (output <> uncompressed scenario_dumper) as H3
      by (intros H; vm_compute in H; discriminate H).
  assert (output <> titles scenario_dumper) as H4
      by (intros H; vm_compute in H; discriminate H).
  split; [exact H1|]. split; [reflexivity|]. split; [lia|].
  split; [exact H2|]. split; [exact H3|]. split; [exact H4|].
  apply (whole_run_files scenario_dumper (Z.to_nat 2500) results output
           false 2500 fs H1); [reflexivity|lia|apply Nat.le_refl| | |];
    assumption.
Defined.

(* ================================================================== *)
(** * The dumper over commands that can fail *)
(* ================================================================== *)

Section TriedRuns.

Open Scope Z_scope.

Variable attempts : nat -> Z * string.
Variable self : WatchlistDumper.

Lemma core_app t1 t2 :
  Tried.core (t1 ++ t2) = (Tried.core t1 ++ Tried.core t2)%list.
Proof. apply flat_map_app. Qed.

Lemma core_steps t : Tried.core (map Tried.Step t) = t.
Proof.
  induction t as [|e t IH]; [reflexivity|].
  simpl. now rewrite IH.
Qed.

(** ** A dry run runs no command *)

Lemma then_lift (A B : Type) (r : Tried.run A) (k : A -> Tried.run B)
      (d : Dump.run A) (kd : A -> Dump.run B) tries :
  r tries = Tried.lift d tries ->
  (forall a, k a tries = Tried.lift (kd a) tries) ->
  Tried.then_ r k tries = Tried.lift (then_ d kd) tries.
Proof.
  intros Hr Hk. unfold Tried.then_, then_, Tried.lift in *. rewrite Hr.
  cbn [fst snd]. destruct (snd d) as [a| | |]; try reflexivity.
  cbn [Tried.of_dump]. rewrite Hk. cbn [fst snd]. now rewrite map_app.
Qed.

Lemma when_lift b e tries :
  Tried.when b (Tried.tell e) tries = Tried.lift (when b (tell e)) tries.
Proof. now destruct b. Qed.

Lemma batch_loop_dry fuel count maxid merge_into_path dumped_path verbose
      tries :
  forall startrow index,
    Tried.batch_loop attempts self fuel count maxid merge_into_path
      dumped_path verbose true startrow index tries
    = Tried.lift (batch_loop self fuel count maxid merge_into_path
                    dumped_path verbose true startrow index) tries.
Proof.
  induction fuel as [|fuel IH]; intros startrow index; [reflexivity|].
  cbn [Tried.batch_loop batch_loop].
  destruct ((startrow <? maxid) && (index <? count)); [|reflexivity].
  apply then_lift; [reflexivity|intros _].
  apply then_lift; [reflexivity|intros _].
  apply then_lift; [reflexivity|intros _].
  apply IH.
Qed.

Lemma dump_merge_batch_dry count startrow maxid merge_into_path verbose
      tries :
  Tried.dump_merge_batch attempts self count startrow maxid merge_into_path
    verbose true tries
  = Tried.lift (dump_merge_batch self count startrow maxid merge_into_path
                  verbose true) tries.
Proof.
  unfold Tried.dump_merge_batch, dump_merge_batch.
  apply then_lift; [reflexivity|intros _].
  destruct ((startrow >=? maxid) || (1 >=? count)); [reflexivity|].
  apply then_lift; [apply batch_loop_dry|intros startrow'].
  apply then_lift; [reflexivity|intros _]. reflexivity.
Qed.

Lemma watchlist_loop_dry fuel file_batch_count maxid all_merge_into_path
      batch_merge_into_path batch_merged_path verbose tries :
  forall startrow,
    Tried.watchlist_loop attempts self fuel file_batch_count maxid
      all_merge_into_path batch_merge_into_path batch_merged_path
      verbose true startrow tries
    = Tried.lift (watchlist_loop self fuel file_batch_count maxid
                    all_merge_into_path batch_merge_into_path
                    batch_merged_path verbose true startrow) tries.
Proof.
  induction fuel as [|fuel IH]; intros [row|];
    cbn [Tried.watchlist_loop watchlist_loop]; try reflexivity;
    destruct (truthy (Some row) && (row <? maxid)); try reflexivity.
  apply then_lift; [apply when_lift|intros _].
  apply then_lift; [apply dump_merge_batch_dry|intros startrow'].
  apply then_lift; [|intros _; apply IH].
  destruct (truthy startrow'); [|reflexivity].
  apply then_lift; [apply when_lift|intros _].
  apply then_lift; [reflexivity|intros _]. reflexivity.
Qed.

Lemma dump_watchlist_dry fuel results file_batch_count out_path verbose
      tries :
  Tried.dump_watchlist attempts self fuel results file_batch_count out_path
    verbose true tries
  = Tried.lift (dump_watchlist self fuel results file_batch_count out_path
                  verbose true) tries.
Proof.
  unfold Tried.dump_watchlist, dump_watchlist.
  apply then_lift; [reflexivity|intros [maxid|]].
  - destruct (maxid =? 0).
    + apply then_lift; [reflexivity|intros _]. reflexivity.
    + apply then_lift; [apply when_lift|intros _].
      apply then_lift; [reflexivity|intros _].
      apply then_lift; [apply watchlist_loop_dry|intros _]. reflexivity.
  - apply then_lift; [reflexivity|intros _]. reflexivity.
Qed.

(** ** A run whose commands succeed *)

Lemma succeed_later from later :
  Tried.succeed attempts from -> (from <= later)%nat ->
  Tried.succeed attempts later.
Proof. intros H Hle i Hi. apply H. lia. Qed.

Lemma agrees_lift (A : Type) (r : Tried.run A) (d : Dump.run A) tries :
  r tries = Tried.lift d tries -> agrees r d tries.
Proof.
  intros H. unfold agrees, Tried.trace, Tried.end_, Tried.tries.
  rewrite H. cbn [Tried.lift fst snd]. rewrite core_steps. auto.
Qed.

Lemma agrees_then (A B : Type) (r : Tried.run A) (k : A -> Tried.run B)
      (d : Dump.run A) (kd : A -> Dump.run B) tries :
  agrees r d tries ->
  (forall a later, (tries <= later)%nat -> agrees (k a) (kd a) later) ->
  agrees (Tried.then_ r k) (then_ d kd) tries.
Proof.
  unfold agrees, Tried.trace, Tried.end_, Tried.tries, Tried.then_, then_.
  intros (Ht & He & Hn) Hk.
  destruct (r tries) as [[t e] later]. cbn [fst snd] in *. subst e.
  destruct (snd d) as [a| | |]; cbn [Tried.of_dump fst snd]; auto.
  destruct (Hk a later Hn) as (Ht' & He' & Hn').
  destruct (k a later) as [[t' e'] last]. cbn [fst snd] in *.
  rewrite core_app, Ht, Ht'. repeat split; [exact He'|lia].
Qed.

Lemma agrees_run_without_output c verbose tries :
  fst (attempts tries) = 0 ->
  agrees (Tried.run_without_output attempts c 3 verbose)
         (run_without_output c verbose) tries.
Proof.
  intros Hcode.
  unfold agrees, Tried.trace, Tried.end_, Tried.tries,
    Tried.run_without_output, Retry.run_without_output.
  change (Z.to_nat 3) with 3%nat. cbn [Retry.tries_loop].
  rewrite Nat.add_0_r. destruct (attempts tries) as [returncode error].
  cbn [fst] in Hcode. subst returncode. cbn [Z.eqb fst snd].
  destruct verbose, error; repeat split; cbn; lia.
Qed.

Lemma agrees_merge merge_into to_merge merged_path verbose dryrun tries :
  dryrun = true \/ Tried.succeed attempts tries ->
  agrees (Tried.merge attempts merge_into to_merge merged_path verbose dryrun)
         (Dump.merge merge_into to_merge merged_path verbose dryrun) tries.
Proof.
  intros [->|H]; [now apply agrees_lift|].
  destruct dryrun; [now apply agrees_lift|].
  apply agrees_run_without_output, H, Nat.le_refl.
Qed.

Lemma agrees_do_one_query q outpath verbose dryrun tries :
  dryrun = true \/ Tried.succeed attempts tries ->
  agrees (Tried.do_one_query attempts q outpath verbose dryrun)
         (Dump.do_one_query q outpath verbose dryrun) tries.
Proof.
  intros [->|H]; [now apply agrees_lift|].
  destruct dryrun; [now apply agrees_lift|].
  unfold Tried.do_one_query, Dump.do_one_query.
  apply agrees_then; [apply agrees_lift, when_lift|intros _ later Hlater].
  apply agrees_run_without_output, H, Hlater.
Qed.

Lemma fair_later dryrun tries later :
  dryrun = true \/ Tried.succeed attempts tries -> (tries <= later)%nat ->
  dryrun = true \/ Tried.succeed attempts later.
Proof. intros [H|H] Hle; [now left|right; eapply succeed_later; eauto]. Qed.

Lemma agrees_batch_loop fuel count maxid merge_into_path dumped_path
      verbose dryrun :
  forall startrow index tries,
    dryrun = true \/ Tried.succeed attempts tries ->
    agrees (Tried.batch_loop attempts self fuel count maxid merge_into_path
              dumped_path verbose dryrun startrow index)
           (batch_loop self fuel count maxid merge_into_path dumped_path
              verbose dryrun startrow index) tries.
Proof.
  induction fuel as [|fuel IH]; intros startrow index tries Hfair;
    [now apply agrees_lift|].
  cbn [Tried.batch_loop batch_loop].
  destruct ((startrow <? maxid) && (index <? count));
    [|now apply agrees_lift].
  apply agrees_then; [now apply agrees_do_one_query|intros _ t1 H1].
  apply agrees_then;
    [apply agrees_merge; eapply fair_later; eauto|intros _ t2 H2].
  apply agrees_then; [apply agrees_lift, when_lift|intros _ t3 H3].
  apply IH. eapply fair_later; [exact Hfair|lia].
Qed.

Lemma agrees_dump_merge_batch count startrow maxid merge_into_path
      verbose dryrun tries :
  dryrun = true \/ Tried.succeed attempts tries ->
  agrees (Tried.dump_merge_batch attempts self count startrow maxid
            merge_into_path verbose dryrun)
         (dump_merge_batch self count startrow maxid merge_into_path
            verbose dryrun) tries.
Proof.
  intros Hfair. unfold Tried.dump_merge_batch, dump_merge_batch.
  apply agrees_then; [apply agrees_lift, when_lift|intros _ t1 H1].
  destruct ((startrow >=? maxid) || (1 >=? count)); [now apply agrees_lift|].
  apply agrees_then;
    [apply agrees_batch_loop; eapply fair_later; eauto|intros startrow' t2 H2].
  apply agrees_then; [apply agrees_lift, when_lift|intros _ t3 H3].
  now apply agrees_lift.
Qed.

Lemma agrees_watchlist_loop fuel file_batch_count maxid all_merge_into_path
      batch_merge_into_path batch_merged_path verbose dryrun :
  forall startrow tries,
    dryrun = true \/ Tried.succeed attempts tries ->
    agrees (Tried.watchlist_loop attempts self fuel file_batch_count maxid
              all_merge_into_path batch_merge_into_path batch_merged_path
              verbose dryrun startrow)
           (watchlist_loop self fuel file_batch_count maxid
              all_merge_into_path batch_merge_into_path batch_merged_path
              verbose dryrun startrow) tries.
Proof.
  induction fuel as [|fuel IH]; intros [row|] tries Hfair;
    cbn [Tried.watchlist_loop watchlist_loop];
    try (now apply agrees_lift);
    destruct (truthy (Some row) && (row <? maxid));
    try (now apply agrees_lift).
  apply agrees_then; [apply agrees_lift, when_lift|intros _ t1 H1].
  apply agrees_then;
    [apply agrees_dump_merge_batch; eapply fair_later; eauto
    |intros startrow' t2 H2].
  assert (dryrun = true \/ Tried.succeed attempts t2) as Hfair2
      by (eapply fair_later; [exact Hfair|lia]).
  apply agrees_then; [|intros _ t3 H3; apply IH; eapply fair_later; eauto].
  destruct (truthy startrow'); [|now apply agrees_lift].
  apply agrees_then; [apply agrees_lift, when_lift|intros _ t3 H3].
  apply agrees_then;
    [apply agrees_merge; eapply fair_later; eauto|intros _ t4 H4].
  apply agrees_lift, when_lift.
Qed.

(** With the commands of the real run succeeding, or in a dry run,
    [dump_watchlist] shows the events and has the ending [Dump]
    gives it. *)
Lemma agrees_dump_watchlist fuel results file_batch_count out_path
      verbose dryrun tries :
  dryrun = true \/ Tried.succeed attempts tries ->
  agrees (Tried.dump_watchlist attempts self fuel results file_batch_count
            out_path verbose dryrun)
         (dump_watchlist self fuel results file_batch_count out_path
            verbose dryrun) tries.
Proof.
  intros Hfair. unfold Tried.dump_watchlist, dump_watchlist.
  apply agrees_then; [now apply agrees_lift|intros [maxid|] t1 H1].
  - destruct (maxid =? 0).
    + apply agrees_then; [now apply agrees_lift|intros _ t2 H2].
      now apply agrees_lift.
    + apply agrees_then; [apply agrees_lift, when_lift|intros _ t2 H2].
      apply agrees_then; [apply agrees_lift, when_lift|intros _ t3 H3].
      apply agrees_then;
        [apply agrees_watchlist_loop; eapply fair_later; [exact Hfair|lia]
        |intros _ t4 H4].
      destruct dryrun; [now apply agrees_lift|].
      apply agrees_then; [now apply agrees_lift|intros _ t5 H5].
      apply agrees_lift, when_lift.
  - apply agrees_then; [now apply agrees_lift|intros _ t2 H2].
    now apply agrees_lift.
Qed.

(** ** A run whose commands may fail *)

Lemma follows_lift (A : Type) (r : Tried.run A) (d : Dump.run A) tries :
  r tries = Tried.lift d tries -> follows r d tries.
Proof. intros H. left. unfold Tried.end_. now rewrite H. Qed.

Lemma follows_then (A B : Type) (r : Tried.run A) (k : A -> Tried.run B)
      (d : Dump.run A) (kd : A -> Dump.run B) tries :
  follows r d tries ->
  (forall a later, follows (k a) (kd a) later) ->
  follows (Tried.then_ r k) (then_ d kd) tries.
Proof.
  unfold follows, Tried.end_, Tried.then_, then_. intros Hr Hk.
  destruct (r tries) as [[t e] later]. cbn [fst snd] in *.
  destruct Hr as [->|(c & returncode & error & ->)];
    [|right; now exists c, returncode, error].
  destruct (snd d) as [a| | |]; cbn [Tried.of_dump fst snd]; auto.
  specialize (Hk a later). destruct (k a later) as [[t' e'] last].
  exact Hk.
Qed.

(** Three tries: [run_without_output] returns, or raises
    [BackupError]. *)
Lemma follows_run_without_output c verbose tries :
  follows (Tried.run_without_output attempts c 3 verbose)
          (run_without_output c verbose) tries.
Proof.
  unfold follows, Tried.end_, Tried.run_without_output,
    Retry.run_without_output.
  change (Z.to_nat 3) with 3%nat. cbn [Retry.tries_loop].
  destruct (attempts (tries + 0)) as [code0 error0].
  destruct (code0 =? 0); [left; now destruct verbose|].
  destruct (attempts (tries + 1)) as [code1 error1].
  destruct (code1 =? 0); [left; now destruct verbose|].
  destruct (attempts (tries + 2)) as [code2 error2].
  destruct (code2 =? 0); [left; now destruct verbose|].
  right. now exists c, code2, error2.
Qed.

Lemma follows_merge merge_into to_merge merged_path verbose dryrun tries :
  follows (Tried.merge attempts merge_into to_merge merged_path verbose dryrun)
          (Dump.merge merge_into to_merge merged_path verbose dryrun) tries.
Proof.
  destruct dryrun; [now apply follows_lift|].
  apply follows_run_without_output.
Qed.

Lemma follows_do_one_query q outpath verbose dryrun tries :
  follows (Tried.do_one_query attempts q outpath verbose dryrun)
          (Dump.do_one_query q outpath verbose dryrun) tries.
Proof.
  destruct dryrun; [now apply follows_lift|].
  unfold Tried.do_one_query, Dump.do_one_query.
  apply follows_then; [apply follows_lift, when_lift|intros _ later].
  apply follows_run_without_output.
Qed.

Lemma follows_batch_loop fuel count maxid merge_into_path dumped_path
      verbose dryrun :
  forall startrow index tries,
    follows (Tried.batch_loop attempts self fuel count maxid merge_into_path
               dumped_path verbose dryrun startrow index)
            (batch_loop self fuel count maxid merge_into_path dumped_path
               verbose dryrun startrow index) tries.
Proof.
  induction fuel as [|fuel IH]; intros startrow index tries;
    [now apply follows_lift|].
  cbn [Tried.batch_loop batch_loop].
  destruct ((startrow <? maxid) && (index <? count));
    [|now apply follows_lift].
  apply follows_then; [apply follows_do_one_query|intros _ t1].
  apply follows_then; [apply follows_merge|intros _ t2].
  apply follows_then; [apply follows_lift, when_lift|intros _ t3].
  apply IH.
Qed.

Lemma follows_dump_merge_batch count startrow maxid merge_into_path
      verbose dryrun tries :
  follows (Tried.dump_merge_batch attempts self count startrow maxid
             merge_into_path verbose dryrun)
          (dump_merge_batch self count startrow maxid merge_into_path
             verbose dryrun) tries.
Proof.
  unfold Tried.dump_merge_batch, dump_merge_batch.
  apply follows_then; [apply follows_lift, when_lift|intros _ t1].
  destruct ((startrow >=? maxid) || (1 >=? count)); [now apply follows_lift|].
  apply follows_then; [apply follows_batch_loop|intros startrow' t2].
  apply follows_then; [apply follows_lift, when_lift|intros _ t3].
  now apply follows_lift.
Qed.

Lemma follows_watchlist_loop fuel file_batch_count maxid all_merge_into_path
      batch_merge_into_path batch_merged_path verbose dryrun :
  forall startrow tries,
    follows (Tried.watchlist_loop attempts self fuel file_batch_count maxid
               all_merge_into_path batch_merge_into_path batch_merged_path
               verbose dryrun startrow)
            (watchlist_loop self fuel file_batch_count maxid
               all_merge_into_path batch_merge_into_path batch_merged_path
               verbose dryrun startrow) tries.
Proof.
  induction fuel as [|fuel IH]; intros [row|] tries;
    cbn [Tried.watchlist_loop watchlist_loop];
    try (now apply follows_lift);
    destruct (truthy (Some row) && (row <? maxid));
    try (now apply follows_lift).
  apply follows_then; [apply follows_lift, when_lift|intros _ t1].
  apply follows_then; [apply follows_dump_merge_batch|intros startrow' t2].
  apply follows_then; [|intros _ t3; apply IH].
  destruct (truthy startrow'); [|now apply follows_lift].
  apply follows_then; [apply follows_lift, when_lift|intros _ t3].
  apply follows_then; [apply follows_merge|intros _ t4].
  apply follows_lift, when_lift.
Qed.

(** Whatever its commands return, [dump_watchlist] ends as [Dump]
    has it end, or in the [BackupError] of a command that failed three
    times. *)
Lemma follows_dump_watchlist fuel results file_batch_count out_path
      verbose dryrun tries :
  follows (Tried.dump_watchlist attempts self fuel results file_batch_count
             out_path verbose dryrun)
          (dump_watchlist self fuel results file_batch_count out_path
             verbose dryrun) tries.
Proof.
  unfold Tried.dump_watchlist, dump_watchlist.
  apply follows_then; [now apply follows_lift|intros [maxid|] t1].
  - destruct (maxid =? 0).
    + apply follows_then; [now apply follows_lift|intros _ t2].
      now apply follows_lift.
    + apply follows_then; [apply follows_lift, when_lift|intros _ t2].
      apply follows_then; [apply follows_lift, when_lift|intros _ t3].
      apply follows_then; [apply follows_watchlist_loop|intros _ t4].
      destruct dryrun; [now apply follows_lift|].
      apply follows_then; [now apply follows_lift|intros _ t5].
      apply follows_lift, when_lift.
  - apply follows_then; [now apply follows_lift|intros _ t2].
    now apply follows_lift.
Qed.

(** ** The commands of a real run beside the plan of its dry run *)

Lemma calls_app t1 t2 :
  Tried.calls (t1 ++ t2) = (Tried.calls t1 ++ Tried.calls t2)%list.
Proof. apply flat_map_app. Qed.

Lemma calls_steps t : Tried.calls (map Tried.Step t) = [].
Proof. induction t as [|e t IH]; [reflexivity|exact IH]. Qed.

Lemma heeds_then (A B : Type) (real : Tried.run A) (k : A -> Tried.run B)
      (dry : Dump.run A) (kd : A -> Dump.run B) tries :
  heeds real dry tries ->
  (forall a later, heeds (k a) (kd a) later) ->
  heeds (Tried.then_ real k) (then_ dry kd) tries.
Proof.
  unfold heeds, Tried.end_, Tried.trace, Tried.then_, then_.
  intros Hr Hk. destruct (real tries) as [[t e] later]. cbn [fst snd] in *.
  destruct Hr as [[-> Hplan]|(c & returncode & error & before & rest
                              & -> & Hcalls & Hplan)].
  - destruct (snd dry) as [a| | |]; cbn [Tried.of_dump fst snd]; auto.
    specialize (Hk a later). destruct (k a later) as [[t' e'] last].
    cbn [fst snd] in *. rewrite plan_app, calls_app, Hplan.
    destruct Hk as [[-> Hplan']|(c & returncode & error & before & rest
                                 & -> & Hcalls & Hplan')].
    + left. now rewrite Hplan'.
    + right. exists c, returncode, error, (Tried.calls t ++ before)%list, rest.
      rewrite Hcalls, Hplan', <- !app_assoc. auto.
  - right. cbn [fst snd].
    destruct (snd dry) as [a| | |]; cbn [fst snd];
      [exists c, returncode, error, before, (rest ++ plan (fst (kd a)))%list
      |exists c, returncode, error, before, rest ..];
      rewrite ?plan_app, Hplan, <- ?app_assoc; auto.
Qed.

(** A piece that runs no command, beside a piece of the dry run that
    plans none and ends the same. *)
Lemma heeds_quiet (A : Type) (real : Tried.run A) (d dry : Dump.run A)
      tries :
  real tries = Tried.lift d tries -> snd d = snd dry -> plan (fst dry) = [] ->
  heeds real dry tries.
Proof.
  intros Hreal Hend Hplan. left.
  unfold Tried.end_, Tried.trace. rewrite Hreal. cbn [Tried.lift fst snd].
  now rewrite calls_steps, Hend, Hplan.
Qed.

(** A command the dry run says it would run: the real run calls
    [run_without_output] with it, which returns or, after three tries,
    raises [BackupError]. *)
Lemma heeds_run_without_output c verbose m tries :
  planned_by (Print m) = [c] ->
  heeds (Tried.run_without_output attempts c 3 verbose) (tell (Print m))
        tries.
Proof.
  intros Hplan.
  assert (plan (fst (tell (Print m))) = [c]) as Hdry
      by (unfold plan, tell; cbn [fst flat_map]; now rewrite Hplan).
  unfold heeds. rewrite Hdry.
  destruct (follows_run_without_output c verbose tries) as [H|H].
  - left. split; [rewrite H; now destruct verbose|].
    unfold Tried.trace, Tried.run_without_output.
    now destruct (Retry.run_without_output _ _ _ _ _).
  - right. destruct H as (c' & returncode & error & H).
    assert (c' = c) as ->.
    { revert H. unfold Tried.end_, Tried.run_without_output,
        Retry.run_without_output.
      destruct (Retry.tries_loop _ _ _ _ _ _) as [t [[|] [[code err]|]]];
        cbn [fst snd]; congruence. }
    exists c, returncode, error, [], []. split; [exact H|].
    split; [|reflexivity].
    unfold Tried.trace, Tried.run_without_output.
    now destruct (Retry.run_without_output _ _ _ _ _).
Qed.

Lemma heeds_merge merge_into to_merge merged_path verbose tries :
  heeds (Tried.merge attempts merge_into to_merge merged_path verbose false)
        (Dump.merge merge_into to_merge merged_path verbose true) tries.
Proof. now apply heeds_run_without_output. Qed.

Lemma heeds_do_one_query q outpath verbose tries :
  heeds (Tried.do_one_query attempts q outpath verbose false)
        (Dump.do_one_query q outpath verbose true) tries.
Proof.
  unfold Tried.do_one_query.
  change (Dump.do_one_query q outpath verbose true)
    with (then_ (ret tt) (fun _ => tell (Print (WouldRun (SqlDump q outpath))))).
  apply heeds_then; [|intros _ later; now apply heeds_run_without_output].
  eapply heeds_quiet; [apply when_lift|now destruct verbose|reflexivity].
Qed.

(** What the dry run leaves out, and what both runs print. *)
Lemma heeds_left_out e tries :
  heeds (Tried.when (negb false) (Tried.tell e)) (when (negb true) (tell e))
        tries.
Proof. eapply heeds_quiet; [apply when_lift|reflexivity|reflexivity]. Qed.

Lemma heeds_print b m tries :
  planned_by (Print m) = [] ->
  heeds (Tried.when b (Tried.tell (Print m))) (when b (tell (Print m))) tries.
Proof.
  intros Hplan. eapply heeds_quiet; [apply when_lift|reflexivity|].
  destruct b; [|reflexivity].
  unfold plan, when, tell. cbn [fst flat_map]. now rewrite Hplan.
Qed.

Lemma heeds_ret (A : Type) (a : A) tries : heeds (Tried.ret a) (ret a) tries.
Proof. now apply heeds_quiet with (d := ret a). Qed.

Lemma heeds_batch_loop fuel count maxid merge_into_path dumped_path verbose :
  forall startrow index tries,
    heeds (Tried.batch_loop attempts self fuel count maxid merge_into_path
             dumped_path verbose false startrow index)
          (batch_loop self fuel count maxid merge_into_path dumped_path
             verbose true startrow index) tries.
Proof.
  induction fuel as [|fuel IH]; intros startrow index tries;
    [apply heeds_ret|].
  cbn [Tried.batch_loop batch_loop].
  destruct ((startrow <? maxid) && (index <? count)); [|apply heeds_ret].
  apply heeds_then; [apply heeds_do_one_query|intros _ t1].
  apply heeds_then; [apply heeds_merge|intros _ t2].
  apply heeds_then; [apply heeds_left_out|intros _ t3].
  apply IH.
Qed.

Lemma heeds_dump_merge_batch count startrow maxid merge_into_path verbose
      tries :
  heeds (Tried.dump_merge_batch attempts self count startrow maxid
           merge_into_path verbose false)
        (dump_merge_batch self count startrow maxid merge_into_path
           verbose true) tries.
Proof.
  unfold Tried.dump_merge_batch, dump_merge_batch.
  apply heeds_then; [apply heeds_left_out|intros _ t1].
  destruct ((startrow >=? maxid) || (1 >=? count)); [apply heeds_ret|].
  apply heeds_then; [apply heeds_batch_loop|intros startrow' t2].
  apply heeds_then; [apply heeds_left_out|intros _ t3].
  apply heeds_ret.
Qed.

Lemma heeds_watchlist_loop fuel file_batch_count maxid all_merge_into_path
      batch_merge_into_path batch_merged_path verbose :
  forall startrow tries,
    heeds (Tried.watchlist_loop attempts self fuel file_batch_count maxid
             all_merge_into_path batch_merge_into_path batch_merged_path
             verbose false startrow)
          (watchlist_loop self fuel file_batch_count maxid
             all_merge_into_path batch_merge_into_path batch_merged_path
             verbose true startrow) tries.
Proof.
  induction fuel as [|fuel IH]; intros [row|] tries;
    cbn [Tried.watchlist_loop watchlist_loop];
    try apply heeds_ret;
    destruct (truthy (Some row) && (row <? maxid));
    try apply heeds_ret.
  - now apply heeds_quiet with (d := ([], OutOfFuel)).
  - apply heeds_then; [now apply heeds_print|intros _ t1].
    apply heeds_then; [apply heeds_dump_merge_batch|intros startrow' t2].
    apply heeds_then; [|intros _ t3; apply IH].
    destruct (truthy startrow'); [|apply heeds_ret].
    apply heeds_then; [now apply heeds_print|intros _ t3].
    apply heeds_then; [apply heeds_merge|intros _ t4].
    apply heeds_left_out.
Qed.

(** Whatever its commands return, the real run of [dump_watchlist]
    calls [run_without_output] with the commands its dry run says it
    would run, in the same order, up to its end. *)
Lemma heeds_dump_watchlist fuel results file_batch_count out_path verbose
      tries :
  heeds (Tried.dump_watchlist attempts self fuel results file_batch_count
           out_path verbose false)
        (dump_watchlist self fuel results file_batch_count out_path
           verbose true) tries.
Proof.
  unfold Tried.dump_watchlist, dump_watchlist.
  apply heeds_then; [|intros [maxid|] t1].
  - apply heeds_quiet with (d := get_max_id results "wl_id" "watchlist");
      [reflexivity|reflexivity|].
    now rewrite get_max_id_trace.
  - destruct (maxid =? 0).
    + apply heeds_then;
      [now apply heeds_quiet with (d := tell (Print FailedToGetMaxId))
      |intros _ t2].
      now apply heeds_quiet with (d := ([], Exited 1)).
    + apply heeds_then; [|intros _ t2].
      { eapply heeds_quiet;
          [apply when_lift|now destruct verbose|now rewrite orb_true_r]. }
      apply heeds_then; [apply heeds_left_out|intros _ t3].
      apply heeds_then; [apply heeds_watchlist_loop|intros _ t4].
      apply heeds_quiet
        with (d := tell (Move (path_join (outdir self)
                                 (db_name self ++ "-mergeinto-all.gz"))
                              out_path) ;;;
                   when verbose (tell (Print (OutputAvailable out_path))));
        [apply then_lift; [reflexivity|intros _; apply when_lift]
        |now destruct verbose|reflexivity].
  - apply heeds_then;
      [now apply heeds_quiet with (d := tell (Print FailedToGetMaxId))
      |intros _ t2].
    now apply heeds_quiet with (d := ([], Exited 1)).
Qed.

(** ** One batch of one partition *)

Lemma then_at (A B : Type) (r : Tried.run A) (k : A -> Tried.run B)
      tries t a later :
  r tries = ((t, Tried.Returned a), later) ->
  Tried.then_ r k tries
  = (((t ++ Tried.trace (k a later))%list, Tried.end_ (k a later)),
     Tried.tries (k a later)).
Proof.
  intros H. unfold Tried.then_, Tried.trace, Tried.end_, Tried.tries.
  rewrite H. cbn [fst snd]. now destruct (k a later) as [[t' e'] last].
Qed.

(** A command that returns code 0 at its first try is started once. *)
Lemma run_without_output_at_once c verbose tries :
  fst (attempts tries) = 0 ->
  exists t,
    Tried.run_without_output attempts c 3 verbose tries
    = ((t, Tried.Returned tt), S tries) /\
    Tried.core t = fst (run_without_output c verbose).
Proof.
  intros Hcode. unfold Tried.run_without_output, Retry.run_without_output.
  change (Z.to_nat 3) with 3%nat. cbn [Retry.tries_loop].
  rewrite Nat.add_0_r. destruct (attempts tries) as [returncode error].
  cbn [fst] in Hcode. subst returncode. cbn [Z.eqb].
  eexists. split.
  - f_equal. destruct verbose, error; cbn; lia.
  - destruct verbose, error; reflexivity.
Qed.

Lemma merge_at_once merge_into to_merge merged_path verbose tries :
  fst (attempts tries) = 0 ->
  exists t,
    Tried.merge attempts merge_into to_merge merged_path verbose false tries
    = ((t, Tried.Returned tt), S tries) /\
    Tried.core t
    = fst (Dump.merge merge_into to_merge merged_path verbose false).
Proof. apply run_without_output_at_once. Qed.

Lemma do_one_query_at_once q outpath verbose tries :
  fst (attempts tries) = 0 ->
  exists t,
    Tried.do_one_query attempts q outpath verbose false tries
    = ((t, Tried.Returned tt), S tries) /\
    Tried.core t = fst (Dump.do_one_query q outpath verbose false).
Proof.
  intros Hcode.
  destruct (run_without_output_at_once (SqlDump q outpath) verbose tries Hcode)
    as (t & Hrun & Hcore).
  unfold Tried.do_one_query, Dump.do_one_query.
  destruct verbose.
  - rewrite (then_at _ _ _ _ tries [Tried.Step (Print (Running (SqlDump q outpath)))]
               tt tries eq_refl).
    rewrite Hrun. eexists. split; [reflexivity|].
    cbn [Tried.trace fst]. rewrite core_app, Hcore. reflexivity.
  - rewrite (then_at _ _ _ _ tries [] tt tries eq_refl).
    rewrite Hrun. eexists. split; [reflexivity|].
    cbn [Tried.trace fst app]. rewrite Hcore. reflexivity.
Qed.

(** C3, as the code has it.  Called with [count = 2] and
    [startrow = 1] when one span from row 1 covers the ids up to
    [maxid], [dump_merge_batch] deals with exactly one partition, the
    rows from 1 to [1 + batchsize], a cursor that is not under [maxid].
    A dry run says it would run the dump of that partition and its
    merge into [merge_into_path], and returns that cursor.  A real run
    calls [run_without_output] with the dump, then with the merge, and
    returns that cursor too, unless one of the two fails three times
    and [BackupError] ends the run there; when the two commands return
    code 0 at their first try, it creates the empty file to merge into,
    runs the dump and the merge, once each, moves the merged file onto
    [merge_into_path], removes the dumped file and returns the cursor.
    It does not return [None]: whatever the call, [None] comes back
    only when nothing was dumped or merged. *)
Theorem one_partition_batch maxid merge_into_path verbose tries :
  1 < maxid -> maxid <= 1 + batchsize self ->
  let dumped_path :=
    path_join (outdir self) (db_name self ++ "-watchlist-dumped.gz") in
  let merged_path :=
    path_join (outdir self) (db_name self ++ "-watchlist-merged.gz") in
  let dump := SqlDump (WatchlistRows 1 (1 + batchsize self)) dumped_path in
  let merge := SortMerge merge_into_path dumped_path merged_path in
  let dry :=
    Tried.dump_merge_batch attempts self 2 1 maxid merge_into_path
      verbose true tries in
  let real :=
    Tried.dump_merge_batch attempts self 2 1 maxid merge_into_path
      verbose false tries in
  (1 + batchsize self <? maxid) = false /\
  dry = (([Tried.Step (Print (WouldRun dump));
           Tried.Step (Print (WouldRunCommand merge))],
          Tried.Returned (Some (1 + batchsize self))), tries) /\
  ((Tried.end_ real = Tried.Returned (Some (1 + batchsize self)) /\
    Tried.calls (Tried.trace real) = [dump; merge]) \/
   (exists c returncode error before rest,
      Tried.end_ real = Tried.BackupError c returncode error /\
      Tried.calls (Tried.trace real) = (before ++ [c])%list /\
      [dump; merge] = (before ++ c :: rest)%list)) /\
  (fst (attempts tries) = 0 -> fst (attempts (S tries)) = 0 ->
   Tried.end_ real = Tried.Returned (Some (1 + batchsize self)) /\
   partitions (Tried.core (Tried.trace real)) = [(1, 1 + batchsize self)] /\
   filter changes_files (Tried.core (Tried.trace real))
   = [CreateEmptyFile merge_into_path; RunCommand dump; RunCommand merge;
      Move merged_path merge_into_path; Unlink dumped_path] /\
   Tried.tries real = S (S tries)) /\
  (forall count startrow maxid' dryrun tries',
     let run :=
       Tried.dump_merge_batch attempts self count startrow maxid'
         merge_into_path verbose dryrun tries' in
     Tried.end_ run = Tried.Returned None ->
     Tried.trace run
     = if dryrun then []
       else [Tried.Step (CreateEmptyFile merge_into_path)]).
Proof.
  intros Hmax Hspan dumped_path merged_path dump merge dry real.
  assert ((1 >=? maxid) || (1 >=? 2) = false) as Htest.
  { rewrite Z.geb_leb, (proj2 (Z.leb_gt _ _) Hmax). reflexivity. }
  assert ((1 <? maxid) && (1 <? 2) = true) as Hturn.
  { now rewrite (proj2 (Z.ltb_lt _ _) Hmax). }
  assert (dump_merge_batch self 2 1 maxid merge_into_path verbose true
          = ([Print (WouldRun dump); Print (WouldRunCommand merge)],
             Returned (Some (1 + batchsize self)))) as Hdry.
  { unfold dump_merge_batch, then_. cbn [when negb ret fst snd app].
    rewrite Htest. change (Z.to_nat (2 - 1)) with 1%nat.
    cbn [batch_loop]. rewrite Hturn. reflexivity. }
  split; [apply Z.ltb_ge; lia|]. split; [|split; [|split]].
  - unfold dry. now rewrite dump_merge_batch_dry, Hdry.
  - pose proof (heeds_dump_merge_batch 2 1 maxid merge_into_path verbose
                  tries) as H.
    unfold heeds in H. rewrite Hdry in H.
    destruct H as [[Hend Hplan]|H]; [left|right; exact H].
    split; [exact Hend|]. symmetry. exact Hplan.
  - intros Hfirst Hsecond.
    destruct (do_one_query_at_once (WatchlistRows 1 (1 + batchsize self))
                dumped_path verbose tries Hfirst) as (t1 & Hdump & Hcore1).
    destruct (merge_at_once merge_into_path dumped_path merged_path verbose
                (S tries) Hsecond) as (t2 & Hmerge & Hcore2).
    assert (real
            = (((Tried.Step (CreateEmptyFile merge_into_path)
                 :: t1 ++ t2
                 ++ [Tried.Step (Move merged_path merge_into_path);
                     Tried.Step (Unlink dumped_path)])%list,
                Tried.Returned (Some (1 + batchsize self))),
               S (S tries))) as ->.
    { unfold real, Tried.dump_merge_batch.
      rewrite (then_at _ _ _ _ tries
                 [Tried.Step (CreateEmptyFile merge_into_path)] tt tries
                 eq_refl).
      rewrite Htest. change (Z.to_nat (2 - 1)) with 1%nat.
      cbn [Tried.batch_loop]. rewrite Hturn.
      fold dumped_path. fold merged_path.
      rewrite (then_at _ _ (Tried.then_ _ _) _ tries
                 (t1 ++ t2 ++ [Tried.Step (Move merged_path merge_into_path)])
                 (1 + batchsize self) (S (S tries))).
      - cbn [Tried.trace Tried.end_ Tried.tries Tried.then_ Tried.when
               Tried.tell Tried.ret negb fst snd app].
        now rewrite <- !app_assoc.
      - rewrite (then_at _ _ _ _ _ _ _ _ Hdump).
        rewrite (then_at _ _ _ _ _ _ _ _ Hmerge). reflexivity. }
    cbn [Tried.end_ Tried.trace Tried.tries fst snd].
    split; [reflexivity|].
    change (Tried.Step (CreateEmptyFile merge_into_path) :: t1 ++ t2 ++ ?l)%list
      with ([Tried.Step (CreateEmptyFile merge_into_path)] ++ t1 ++ t2 ++ l)%list.
    rewrite !core_app, Hcore1, Hcore2.
    destruct verbose; repeat split.
  - intros count startrow maxid' dryrun tries' run.
    unfold run, Tried.dump_merge_batch, Tried.then_, Tried.end_, Tried.trace.
    destruct dryrun; cbn [Tried.when negb Tried.ret Tried.create_empty_file
                           Tried.tell fst snd app];
      (destruct ((startrow >=? maxid') || (1 >=? count)); [reflexivity|]);
      destruct (Tried.batch_loop _ _ _ _ _ _ _ _ _ _ _ _) as [[t e] later];
      destruct e; cbn; discriminate.
Qed.

(** ** A dry run beside the real run *)

(** C4, as the code has it.  In a dry run [dump_watchlist] sends the
    data base one query, the one for the greatest watchlist id, which
    [get_max_id] sends whatever the mode; after it the dry run only
    prints: it creates, moves and removes no file and starts no
    command.  Whatever the commands of the real run return, the
    commands the dry run says it would run are, in order, those the
    real run calls [run_without_output] with: all of them when the real
    run ends as the dry run ends; and when one of them fails three
    times and [BackupError] ends the real run, those up to it, the last
    one called.  When every command the real run starts returns code
    0, each succeeding so at its first try, the real run ends as the
    dry run ends and the commands it starts are, in order, those the
    dry run says it would run. *)
Theorem dry_run_touches_only_max_id fuel results file_batch_count
        out_path verbose tries :
  let dry :=
    Tried.dump_watchlist attempts self fuel results file_batch_count
      out_path verbose true tries in
  let real :=
    Tried.dump_watchlist attempts self fuel results file_batch_count
      out_path verbose false tries in
  Forall (fun e => exists e', e = Tried.Step e' /\ changes_files e' = false)
         (Tried.trace dry) /\
  filter queries_database (Tried.core (Tried.trace dry))
  = [RunSql (MaxOf "wl_id" "watchlist")] /\
  Tried.tries dry = tries /\
  ((Tried.end_ real = Tried.end_ dry /\
    plan (Tried.core (Tried.trace dry)) = Tried.calls (Tried.trace real)) \/
   (exists c returncode error before rest,
      Tried.end_ real = Tried.BackupError c returncode error /\
      Tried.calls (Tried.trace real) = (before ++ [c])%list /\
      plan (Tried.core (Tried.trace dry)) = (before ++ c :: rest)%list)) /\
  (Tried.succeed attempts tries ->
   Tried.end_ real = Tried.end_ dry /\
   commands (Tried.core (Tried.trace real))
   = plan (Tried.core (Tried.trace dry))).
Proof.
  intros dry real.
  destruct (dry_run_beside_real self fuel results file_batch_count out_path
              verbose) as (Hfiles & Hquery & Hplan & Hend).
  assert (dry = Tried.lift (dump_watchlist self fuel results file_batch_count
                              out_path verbose true) tries) as Hdry
      by apply dump_watchlist_dry.
  rewrite Hdry. cbn [Tried.lift Tried.trace Tried.end_ Tried.tries fst snd].
  rewrite core_steps.
  split; [|split; [exact Hquery|split; [reflexivity|split]]].
  - apply Forall_forall. intros e Hin. apply in_map_iff in Hin.
    destruct Hin as (e' & <- & Hin). exists e'. split; [reflexivity|].
    exact (proj1 (Forall_forall _ _) Hfiles e' Hin).
  - exact (heeds_dump_watchlist fuel results file_batch_count out_path
             verbose tries).
  - intros Hsucceed.
    destruct (agrees_dump_watchlist fuel results file_batch_count out_path
                verbose false tries (or_intror Hsucceed))
      as (Htrace & Hreal & _).
    fold real in Htrace, Hreal. rewrite Htrace, Hreal, Hplan, Hend.
    split; reflexivity.
Qed.

(** ** The partitions of a whole run *)

(** X18.  The partitions of a whole run with partitions of one row or
    more and two files or more to the batch, from the greatest id
    [maxid].  Whatever its commands return, [dump_watchlist] returns
    unless one of them fails three times and [BackupError] ends it.  In
    a dry run, and in a real run where every command started returns
    code 0, it returns having fetched (in a dry run: said it would
    fetch) successive partitions from id 1 on, each starting under
    [maxid], the last one ending at [maxid] or after; so every id under
    [maxid] is fetched; but [maxid] itself, the id of a row, is left
    out when the size of the partitions divides [maxid - 1]. *)
Theorem dump_watchlist_partitions (fuel : nat)
  (results : option (list string)) (file_batch_count : Z)
  (out_path : string) (verbose dryrun : bool) (maxid : Z) (tries : nat) :
  1 <= batchsize self -> 1 < file_batch_count ->
  snd (get_max_id results "wl_id" "watchlist") = Returned (Some maxid) ->
  1 <= maxid -> (Z.to_nat maxid <= fuel)%nat ->
  let run :=
    Tried.dump_watchlist attempts self fuel results file_batch_count
      out_path verbose dryrun tries in
  let fetched := partitions (Tried.core (Tried.trace run)) in
  (Tried.end_ run = Tried.Returned tt \/
   exists c returncode error,
     Tried.end_ run = Tried.BackupError c returncode error) /\
  (dryrun = true \/ Tried.succeed attempts tries ->
   exists K : nat,
     Tried.end_ run = Tried.Returned tt /\
     fetched = spans 1 (batchsize self) K /\
     (forall i, (i < K)%nat -> 1 + Z.of_nat i * batchsize self < maxid) /\
     maxid <= 1 + Z.of_nat K * batchsize self /\
     (forall id, 1 <= id < maxid -> covered id fetched) /\
     ((batchsize self | maxid - 1) -> ~ covered maxid fetched)).
Proof.
  intros Hspan Hcount Hmax Hpos Hfuel run fetched.
  destruct (dump_watchlist_spans self fuel results file_batch_count out_path
              verbose dryrun maxid Hspan Hcount Hmax Hpos Hfuel)
    as (K & Hret & Hparts & Hunder & Hstop & Hcovered & Hleft).
  split.
  - destruct (follows_dump_watchlist fuel results file_batch_count out_path
                verbose dryrun tries) as [H|H]; [left|now right].
    fold run in H. now rewrite H, Hret.
  - intros Hfair.
    destruct (agrees_dump_watchlist fuel results file_batch_count out_path
                verbose dryrun tries Hfair) as (Htrace & Hend & _).
    fold run in Htrace, Hend. unfold fetched. rewrite Htrace, Hend, Hret.
    exists K. repeat (split; [assumption || reflexivity|]). assumption.
Qed.

(** X19.  A size of partitions of 0, which [validate_args] lets
    through as a string of digits, keeps [dump_watchlist] from ever
    returning: with a greatest id over 1 and two files or more to the
    batch, whatever the number of turns granted to its loop, the run
    has not ended after them, unless a command failed three times and
    [BackupError] ended it.  In a dry run, and in a real run where
    every command started returns code 0, the loop never ends: the
    cursor stays at 1 and every partition fetched is the empty range
    from 1 to 1. *)
Theorem zero_batchsize_never_ends (results : option (list string))
  (file_batch_count : Z) (out_path : string) (verbose dryrun : bool)
  (maxid : Z) (tries : nat) :
  batchsize self = 0 -> 1 < file_batch_count ->
  snd (get_max_id results "wl_id" "watchlist") = Returned (Some maxid) ->
  1 < maxid ->
  forall fuel,
    let run :=
      Tried.dump_watchlist attempts self fuel results file_batch_count
        out_path verbose dryrun tries in
    (Tried.end_ run = Tried.OutOfFuel \/
     exists c returncode error,
       Tried.end_ run = Tried.BackupError c returncode error) /\
    (dryrun = true \/ Tried.succeed attempts tries ->
     Tried.end_ run = Tried.OutOfFuel /\
     Forall (fun p => p = (1, 1))
            (partitions (Tried.core (Tried.trace run)))).
Proof.
  intros Hzero Hcount Hmax Hmore fuel run.
  destruct (dump_watchlist_stalls self results file_batch_count out_path
              verbose dryrun maxid Hzero Hcount Hmax Hmore fuel)
    as [Hend Hparts].
  split.
  - destruct (follows_dump_watchlist fuel results file_batch_count out_path
                verbose dryrun tries) as [H|H]; [left|now right].
    fold run in H. now rewrite H, Hend.
  - intros Hfair.
    destruct (agrees_dump_watchlist fuel results file_batch_count out_path
                verbose dryrun tries Hfair) as (Htrace & Hend' & _).
    fold run in Htrace, Hend'. rewrite Htrace, Hend', Hend.
    split; [reflexivity|exact Hparts].
Qed.

End TriedRuns.

(** ** At work *)

Lemma one_partition_batch_witness :
  let attempts := fun _ : nat => (0%Z, EmptyString) in
  let dump :=
    SqlDump (WatchlistRows 1 1001) "/tmp/w-watchlist-dumped.gz" in
  let merge :=
    SortMerge "/tmp/w-batch-mergeinto.gz" "/tmp/w-watchlist-dumped.gz"
              "/tmp/w-watchlist-merged.gz" in
  let dry :=
    Tried.dump_merge_batch attempts scenario_dumper 2 1 500
      "/tmp/w-batch-mergeinto.gz" false true 0 in
  let real :=
    Tried.dump_merge_batch attempts scenario_dumper 2 1 500
      "/tmp/w-batch-mergeinto.gz" false false 0 in
  let none :=
    Tried.dump_merge_batch attempts scenario_dumper 1 1 500
      "/tmp/w-batch-mergeinto.gz" false false 0 in
  (1 < 500)%Z /\ (500 <= 1 + batchsize scenario_dumper)%Z /\
  fst (attempts 0%nat) = 0%Z /\ fst (attempts 1%nat) = 0%Z /\
  Tried.end_ none = Tried.Returned None /\
  dry = (([Tried.Step (Print (WouldRun dump));
           Tried.Step (Print (WouldRunCommand merge))],
          Tried.Returned (Some 1001%Z)), 0%nat) /\
  Tried.end_ real = Tried.Returned (Some 1001%Z) /\
  partitions (Tried.core (Tried.trace real)) = [(1, 1001)%Z] /\
  filter changes_files (Tried.core (Tried.trace real))
  = [CreateEmptyFile "/tmp/w-batch-mergeinto.gz"; RunCommand dump;
     RunCommand merge;
     Move "/tmp/w-watchlist-merged.gz" "/tmp/w-batch-mergeinto.gz";
     Unlink "/tmp/w-watchlist-dumped.gz"] /\
  Tried.tries real = 2%nat /\
  Tried.trace none
  = [Tried.Step (CreateEmptyFile "/tmp/w-batch-mergeinto.gz")].
Proof.
  intros attempts dump merge dry real none.
  assert (1 < 500)%Z as Hmax by lia.
  assert (500 <= 1 + batchsize scenario_dumper)%Z as Hspan by (simpl; lia).
  destruct (one_partition_batch attempts scenario_dumper 500
              "/tmp/w-batch-mergeinto.gz" false 0 Hmax Hspan)
    as (_ & Hdry & _ & Hreal & Hnone).
  destruct (Hreal eq_refl eq_refl) as (Hend & Hparts & Hfiles & Htries).
  pose proof (Hnone 1%Z 1%Z 500%Z false 0%nat eq_refl) as Htrace.
  repeat (split; [assumption || reflexivity|]). exact Htrace.
Defined.

(** C3 as it is written does not hold: with one partition of 1000 rows
    over ids under 500, [dump_merge_batch] does not return [None].  A
    dry run returns 1001; so does a real run whose commands succeed,
    having fetched the one partition; and a real run whose commands
    fail ends in [BackupError]. *)
Lemma one_partition_batch_not_none :
  let dry :=
    Tried.dump_merge_batch (fun _ => (1%Z, "failed"%string)) scenario_dumper
      2 1 500 "/tmp/w-batch-mergeinto.gz" false true 0 in
  let real :=
    Tried.dump_merge_batch (fun _ => (0%Z, EmptyString)) scenario_dumper
      2 1 500 "/tmp/w-batch-mergeinto.gz" false false 0 in
  let failed :=
    Tried.dump_merge_batch (fun _ => (1%Z, "failed"%string)) scenario_dumper
      2 1 500 "/tmp/w-batch-mergeinto.gz" false false 0 in
  Tried.end_ dry = Tried.Returned (Some 1001%Z) /\
  Tried.end_ real = Tried.Returned (Some 1001%Z) /\
  partitions (Tried.core (Tried.trace real)) = [(1, 1001)%Z] /\
  Tried.end_ failed
  = Tried.BackupError
      (SqlDump (WatchlistRows 1 1001) "/tmp/w-watchlist-dumped.gz")
      1 "failed" /\
  Tried.end_ dry <> Tried.Returned None /\
  Tried.end_ real <> Tried.Returned None /\
  Tried.end_ failed <> Tried.Returned None.
Proof. repeat split; try reflexivity; discriminate. Qed.

Lemma dry_run_touches_only_max_id_witness :
  let attempts := fun _ : nat => (0%Z, EmptyString) in
  let results := Some ["MAX(wl_id)"; "1500"]%string in
  let dry :=
    Tried.dump_watchlist attempts scenario_dumper 10 results 3 "/out"
      false true 0 in
  let real :=
    Tried.dump_watchlist attempts scenario_dumper 10 results 3 "/out"
      false false 0 in
  Tried.succeed attempts 0 /\
  Tried.end_ real = Tried.end_ dry /\
  commands (Tried.core (Tried.trace real))
  = plan (Tried.core (Tried.trace dry)) /\
  Tried.end_ real = Tried.Returned tt /\
  Tried.tries dry = 0%nat /\ Tried.tries real = 5%nat.
Proof.
  intros attempts results dry real.
  assert (Tried.succeed attempts 0) as Hsucceed by (intros i _; reflexivity).
  destruct (dry_run_touches_only_max_id attempts scenario_dumper 10 results 3
              "/out" false 0) as (_ & _ & Htries & _ & Hreal).
  destruct (Hreal Hsucceed) as [Hend Hplan].
  split; [exact Hsucceed|]. split; [exact Hend|]. split; [exact Hplan|].
  split; [reflexivity|]. split; [exact Htries|reflexivity].
Defined.

(** C4 as it is written does not hold: the dry run below sends a query
    to the data base. *)
Lemma dry_run_queries_database :
  ~ Forall (fun e => queries_database e = false)
      (Tried.core
         (Tried.trace
            (Tried.dump_watchlist (fun _ => (0%Z, EmptyString))
               scenario_dumper 10 (Some ["MAX(wl_id)"; "2500"]%string) 3
               "/out" false true 0))).
Proof.
  intros H. apply Forall_inv in H. discriminate H.
Qed.

(** A real run ended by a command that fails: the first dump is tried
    three times, with five seconds after each try, and [BackupError]
    ends the run, the empty files it created left behind; its dry run
    returns. *)
Lemma failed_command_ends_run :
  let attempts := fun _ : nat => (1%Z, "failed"%string) in
  let results := Some ["MAX(wl_id)"; "1500"]%string in
  let dump :=
    SqlDump (WatchlistRows 1 1001) "/tmp/w-watchlist-dumped.gz" in
  Tried.dump_watchlist attempts scenario_dumper 10 results 3 "/out"
    false false 0
  = (([Tried.Step (RunSql (MaxOf "wl_id" "watchlist"));
       Tried.Step (CreateEmptyFile "/tmp/w-mergeinto-all.gz");
       Tried.Step (CreateEmptyFile "/tmp/w-batch-mergeinto.gz");
       Tried.Call dump
         [Retry.Popen dump; Retry.PrintError dump "failed"; Retry.Sleep 5;
          Retry.Popen dump; Retry.PrintError dump "failed"; Retry.Sleep 5;
          Retry.Popen dump; Retry.PrintError dump "failed"; Retry.Sleep 5]],
      Tried.BackupError dump 1 "failed"), 3%nat) /\
  Tried.end_ (Tried.dump_watchlist attempts scenario_dumper 10 results 3
                "/out" false true 0) = Tried.Returned tt.
Proof. split; reflexivity. Qed.

Lemma dump_watchlist_partitions_witness :
  let attempts := fun _ : nat => (0%Z, EmptyString) in
  let results := Some ["MAX(wl_id)"; "1001"]%string in
  let run :=
    Tried.dump_watchlist attempts scenario_dumper (Z.to_nat 1001) results
      100 "/out" false false 0 in
  let fetched := partitions (Tried.core (Tried.trace run)) in
  (1 <= batchsize scenario_dumper)%Z /\ (1 < 100)%Z /\
  snd (get_max_id results "wl_id" "watchlist") = Returned (Some 1001%Z) /\
  (1 <= 1001)%Z /\ (Z.to_nat 1001 <= Z.to_nat 1001)%nat /\
  (false = true \/ Tried.succeed attempts 0) /\
  exists K : nat,
    Tried.end_ run = Tried.Returned tt /\
    fetched = spans 1 (batchsize scenario_dumper) K /\
    (forall i, (i < K)%nat ->
       (1 + Z.of_nat i * batchsize scenario_dumper < 1001)%Z) /\
    (1001 <= 1 + Z.of_nat K * batchsize scenario_dumper)%Z /\
    (forall id, (1 <= id < 1001)%Z -> covered id fetched) /\
    ((batchsize scenario_dumper | 1001 - 1)%Z -> ~ covered 1001%Z fetched).
Proof.
  intros attempts results run fetched.
  assert (1 <= batchsize scenario_dumper)%Z as H1 by (simpl; lia).
  assert (false = true \/ Tried.succeed attempts 0) as Hfair
      by (right; intros i _; reflexivity).
  split; [exact H1|]. split; [lia|]. split; [reflexivity|].
  split; [lia|]. split; [apply Nat.le_refl|]. split; [exact Hfair|].
  refine (proj2 (dump_watchlist_partitions attempts scenario_dumper
                   (Z.to_nat 1001) results 100 "/out" false false 1001 0
                   H1 _ _ _ _) Hfair);
    [lia|reflexivity|lia|apply Nat.le_refl].
Defined.

Lemma zero_batchsize_never_ends_witness :
  let attempts := fun _ : nat => (0%Z, EmptyString) in
  let self := {| outdir := "/tmp"; db_name := "w"; batchsize := 0 |} in
  let results := Some ["MAX(wl_id)"; "2500"]%string in
  batchsize self = 0%Z /\ (1 < 100)%Z /\
  snd (get_max_id results "wl_id" "watchlist") = Returned (Some 2500%Z) /\
  (1 < 2500)%Z /\ (false = true \/ Tried.succeed attempts 0) /\
  forall fuel,
    Tried.end_ (Tried.dump_watchlist attempts self fuel results 100 "/out"
                  false false 0) = Tried.OutOfFuel /\
    Forall (fun p => p = (1, 1)%Z)
      (partitions
         (Tried.core
            (Tried.trace
               (Tried.dump_watchlist attempts self fuel results 100 "/out"
                  false false 0)))).
Proof.
  intros attempts self results.
  assert (false = true \/ Tried.succeed attempts 0) as Hfair
      by (right; intros i _; reflexivity).
  split; [reflexivity|]. split; [lia|]. split; [reflexivity|].
  split; [lia|]. split; [exact Hfair|]. intros fuel.
  refine (proj2 (zero_batchsize_never_ends attempts self results 100 "/out"
                   false false 2500 0 _ _ _ _ fuel) Hfair);
    [reflexivity|lia|reflexivity|lia].
Defined.
